(** * fileproxy: a caching HTTP file proxy (Go), shallow embedding

    The development follows the two source files of package [fileproxy]:
    the cache ([fileproxy/cache.go]: [CacheEntry], [Cache], [StreamingFile])
    and the proxy (the Go source kept after the change log in
    [CHANGELOG.md]: [parseRange], [serveRangeFromFile], [fetchAndServe],
    [doFetchAndServe], [serveFromStreaming]).

    Conventions.
    - Go [int64] values are [Z]; arithmetic that the source performs on
      [int64] is wrapped with [wrap64].
    - Go strings are [string] (sequences of bytes); file contents and
      bodies are [list byte].
    - Go maps ([pending], [http.Header], the file system name space) are
      [gmap]s; the LRU lists, whose order matters, are lists.
    - Pointers to shared objects ([*StreamingFile], [*fetchLock]) are
      indices into a store kept in the state.
    - Results of the operating system and of the network (how many bytes a
      write accepted, what the upstream answered) are explicit arguments.
    - A function that can panic ([NewCache] on a nil entry of the index)
      returns a [startup]: [Started] with its result, or [Crashed] with
      the disk as the panic leaves it. *)

From Stdlib Require Import ZArith String Ascii Strings.Byte List Bool Lia.
From stdpp Require Import base numbers option list gmap strings fin_maps.
Import ListNotations.

Local Open Scope string_scope.
Local Open Scope list_scope.
Local Open Scope Z_scope.

(* ===================================================================== *)
(** ** Machine integers *)
(* ===================================================================== *)

Module Int64.

Definition min_int : Z := - 2 ^ 63.
Definition max_int : Z := 2 ^ 63 - 1.

(** Two's complement wrap-around of a mathematical integer into [int64]. *)
Definition wrap64 (z : Z) : Z := (z + 2 ^ 63) mod 2 ^ 64 - 2 ^ 63.

Definition in_range (z : Z) : Prop := min_int <= z <= max_int.

Definition add (a b : Z) : Z := wrap64 (a + b).
Definition sub (a b : Z) : Z := wrap64 (a - b).

End Int64.

(* ===================================================================== *)
(** ** The parts of [strings] and [strconv] the proxy uses *)
(* ===================================================================== *)

Module GoStrings.

(** [strip_prefix p s] is the rest of [s] after the leading [p], if any. *)
Fixpoint strip_prefix (p s : string) : option string :=
  match p with
  | EmptyString => Some s
  | String a p' =>
      match s with
      | EmptyString => None
      | String b s' => if Ascii.eqb a b then strip_prefix p' s' else None
      end
  end.

(** [strings.HasPrefix(s, prefix)] *)
Definition HasPrefix (s prefix : string) : bool :=
  match strip_prefix prefix s with Some _ => true | None => false end.

(** [strings.TrimPrefix(s, prefix)]: [s] unchanged when it lacks the prefix. *)
Definition TrimPrefix (s prefix : string) : string :=
  match strip_prefix prefix s with Some r => r | None => s end.

(** [strings.Split(s, sep)] for a separator of one byte, the only use in
    the source ([strings.Split(spec, "-")]).  The result is never empty:
    a string without the separator yields the one-element list. *)
Fixpoint Split (s : string) (sep : ascii) : list string :=
  match s with
  | EmptyString => [EmptyString]
  | String c s' =>
      if Ascii.eqb c sep then EmptyString :: Split s' sep
      else match Split s' sep with
           | [] => [String c EmptyString]
           | h :: t => String c h :: t
           end
  end.

Definition digit_val (c : ascii) : option Z :=
  let n := Z.of_nat (nat_of_ascii c) in
  if (48 <=? n) && (n <=? 57) then Some (n - 48) else None.

Fixpoint parse_digits (s : string) (acc : Z) : option Z :=
  match s with
  | EmptyString => Some acc
  | String c s' =>
      match digit_val c with
      | Some d => parse_digits s' (10 * acc + d)
      | None => None
      end
  end.

(** [strconv.ParseInt(s, 10, 64)]: an optional sign, then one or more
    decimal digits; [None] stands for both [ErrSyntax] and [ErrRange]. *)
Definition ParseInt (s : string) : option Z :=
  match s with
  | EmptyString => None
  | String c s' =>
      let '(neg, digits) :=
        if Ascii.eqb c "+" then (false, s')
        else if Ascii.eqb c "-" then (true, s')
        else (false, s) in
      match digits with
      | EmptyString => None
      | _ =>
          match parse_digits digits 0 with
          | None => None
          | Some un =>
              if neg then (if un <=? 2 ^ 63 then Some (- un) else None)
              else (if un <? 2 ^ 63 then Some un else None)
          end
      end
  end.

Definition digit_char (d : Z) : ascii := ascii_of_nat (Z.to_nat (48 + d)).

Fixpoint fmt_digits (fuel : nat) (n : Z) (acc : string) : string :=
  match fuel with
  | O => acc
  | S f =>
      let acc' := String (digit_char (n mod 10)) acc in
      if n <? 10 then acc' else fmt_digits f (n / 10) acc'
  end.

(** [strconv.FormatInt(i, 10)], also what [%d] prints: at most 19 digits
    for an [int64], so 20 rounds always suffice. *)
Definition FormatInt (i : Z) : string :=
  if i <? 0 then String "-" (fmt_digits 20 (- i) EmptyString)
  else fmt_digits 20 i EmptyString.

End GoStrings.

Import GoStrings.

(* ===================================================================== *)
(** ** [parseRange] (proxy) *)
(* ===================================================================== *)

(** [parseRange(rangeHeader, totalSize) (start, end, ok)]; [None] is
    [ok = false]. *)
Definition parseRange (rangeHeader : string) (totalSize : Z) : option (Z * Z) :=
  if negb (HasPrefix rangeHeader "bytes=") then None
  else
    let spec := TrimPrefix rangeHeader "bytes=" in
    match Split spec "-" with
    | [p0; p1] =>
        let parsed :=
          if String.eqb p0 "" then
            let end_ := Int64.sub totalSize 1 in
            match ParseInt p1 with
            | None => None
            | Some n =>
                let start := Int64.sub totalSize n in
                let start := if start <? 0 then 0 else start in
                Some (start, end_)
            end
          else
            match ParseInt p0 with
            | None => None
            | Some start =>
                if String.eqb p1 "" then Some (start, Int64.sub totalSize 1)
                else match ParseInt p1 with
                     | None => None
                     | Some end_ => Some (start, end_)
                     end
            end in
        match parsed with
        | None => None
        | Some (start, end_) =>
            if (start >? end_) || (start >=? totalSize) then None
            else
              let end_ := if end_ >=? totalSize then Int64.sub totalSize 1 else end_ in
              Some (start, end_)
        end
    | _ => None
    end.

(* ===================================================================== *)
(** ** [http.ResponseWriter] as the handler sees it *)
(* ===================================================================== *)

Module Http.

Definition StatusOK : Z := 200.
Definition StatusPartialContent : Z := 206.
Definition StatusNotFound : Z := 404.
Definition StatusMethodNotAllowed : Z := 405.
Definition StatusRequestedRangeNotSatisfiable : Z := 416.
Definition StatusInternalServerError : Z := 500.
Definition StatusBadGateway : Z := 502.

Definition MethodGet : string := "GET".
Definition MethodHead : string := "HEAD".

(** What a handler has done to its [ResponseWriter]: the header map, the
    status line once written, and the bytes handed to [Write].  [rw_conn]
    is the client connection: [None] accepts everything, [Some m] breaks
    after [m] more bytes (a client that goes away).  The record holds what
    the handler wrote; that net/http drops the body of a HEAD answer is not
    part of it. *)
Record ResponseWriter := mkRW {
  rw_header : gmap string string;
  rw_status : option Z;
  rw_body : list byte;
  rw_conn : option nat
}.

Definition newResponseWriter (conn : option nat) : ResponseWriter :=
  mkRW ∅ None [] conn.

(** [w.Header().Set(k, v)] *)
Definition SetHeader (w : ResponseWriter) (k v : string) : ResponseWriter :=
  mkRW (<[k := v]> (rw_header w)) (rw_status w) (rw_body w) (rw_conn w).

Definition DelHeader (w : ResponseWriter) (k : string) : ResponseWriter :=
  mkRW (delete k (rw_header w)) (rw_status w) (rw_body w) (rw_conn w).

(** [w.WriteHeader(code)]: only the first call counts. *)
Definition WriteHeader (w : ResponseWriter) (code : Z) : ResponseWriter :=
  match rw_status w with
  | Some _ => w
  | None => mkRW (rw_header w) (Some code) (rw_body w) (rw_conn w)
  end.

(** [w.Write(data)] returns the number of bytes written and whether it
    failed; the first write implies [WriteHeader(200)]. *)
Definition Write (w : ResponseWriter) (data : list byte) : ResponseWriter * Z * bool :=
  let w := WriteHeader w StatusOK in
  match rw_conn w with
  | None =>
      (mkRW (rw_header w) (rw_status w) (rw_body w ++ data) None,
       Z.of_nat (length data), false)
  | Some m =>
      if (length data <=? m)%nat then
        (mkRW (rw_header w) (rw_status w) (rw_body w ++ data) (Some (m - length data)%nat),
         Z.of_nat (length data), false)
      else
        (mkRW (rw_header w) (rw_status w) (rw_body w ++ take m data) (Some 0%nat),
         Z.of_nat m, true)
  end.

(** [http.Error(w, msg, code)]; the result of the final write is ignored. *)
Definition Error (w : ResponseWriter) (msg : string) (code : Z) : ResponseWriter :=
  let w := DelHeader w "Content-Length" in
  let w := SetHeader w "Content-Type" "text/plain; charset=utf-8" in
  let w := SetHeader w "X-Content-Type-Options" "nosniff" in
  let w := WriteHeader w code in
  (Write w (list_byte_of_string (msg +:+ String "010"%char EmptyString))).1.1.

(** The pooled buffer of the proxy is 32 KiB. *)
Definition bufSize : nat := Z.to_nat 32768.

(** [io.CopyBuffer(w, src, buf)] over a source whose remaining bytes are
    [src]: chunks of at most [bufSize] bytes until end of file or until a
    write fails; result: the writer and whether the copy failed. *)
Fixpoint CopyBuffer_loop (fuel : nat) (w : ResponseWriter) (src : list byte)
  : ResponseWriter * bool :=
  match fuel with
  | O => (w, false)
  | S f =>
      match src with
      | [] => (w, false)
      | _ =>
          let '(w', _, failed) := Write w (take bufSize src) in
          if failed then (w', true) else CopyBuffer_loop f w' (drop bufSize src)
      end
  end.

Definition CopyBuffer (w : ResponseWriter) (src : list byte) : ResponseWriter * bool :=
  CopyBuffer_loop (S (length src)) w src.

Record Request := mkRequest {
  Method : string;
  Path : string;
  Range : string    (* r.Header.Get("Range"), empty when absent *)
}.

End Http.

Import Http.

(* ===================================================================== *)
(** ** [serveRangeFromFile] (proxy) *)
(* ===================================================================== *)

(** [fmt.Sprintf("bytes */%d", totalSize)] *)
Definition contentRangeUnsatisfied (totalSize : Z) : string :=
  "bytes */" +:+ FormatInt totalSize.

(** [fmt.Sprintf("bytes %d-%d/%d", start, end, totalSize)] *)
Definition contentRange (start end_ totalSize : Z) : string :=
  "bytes " +:+ FormatInt start +:+ "-" +:+ FormatInt end_ +:+ "/" +:+ FormatInt totalSize.

(** [file] is the content of the opened cache file.  [file.Seek(start)]
    followed by reading through [io.LimitReader(file, length)] yields the
    bytes [take length (drop start file)].  The result is the writer and
    whether an error was returned. *)
Definition serveRangeFromFile (w : ResponseWriter) (file : list byte)
    (totalSize : Z) (rangeHeader : string) : ResponseWriter * bool :=
  match parseRange rangeHeader totalSize with
  | None =>
      let w := SetHeader w "Content-Range" (contentRangeUnsatisfied totalSize) in
      (Error w "Range Not Satisfiable" StatusRequestedRangeNotSatisfiable, false)
  | Some (start, end_) =>
      let length := Int64.add (Int64.sub end_ start) 1 in
      let w := SetHeader w "Content-Range" (contentRange start end_ totalSize) in
      let w := SetHeader w "Content-Length" (FormatInt length) in
      let w := WriteHeader w StatusPartialContent in
      CopyBuffer w (take (Z.to_nat length) (drop (Z.to_nat start) file))
  end.

(* ===================================================================== *)
(** ** The expirable LRU of [hashicorp/golang-lru/v2] *)
(* ===================================================================== *)

(** The library is a dependency, not part of the repository; this is its
    documented behaviour for the calls the cache makes.  The eviction list
    is kept most-recently-used first, every entry carries its deadline, and
    an entry whose deadline has passed is invisible to [Get], [Peek] and
    [Keys] until the janitor removes it.  The eviction callback belongs to
    the owner: each operation returns the entries it removed and the owner
    runs its callback on them. *)
Module LRU.

Section WithValue.

Context {V : Type}.

Record entry := mkEntry {
  e_key : string;
  e_value : V;
  e_expires : Z
}.

Record t := mkLRU {
  capacity : nat;        (* 0: unbounded *)
  ttl : Z;
  items : list entry     (* front: most recently used; back: oldest *)
}.

(** Ten years, in nanoseconds: the time to live used when none is given. *)
Definition noEvictionTTL : Z := 3600 * 10 ^ 9 * 24 * 365 * 10.

Definition NewLRU (size : nat) (ttl : Z) : t :=
  mkLRU size (if ttl <=? 0 then noEvictionTTL else ttl) [].

Definition has_key (key : string) (e : entry) : bool := String.eqb (e_key e) key.

Definition lookup (l : t) (key : string) : option entry :=
  List.find (has_key key) (items l).

Definition others (l : t) (key : string) : list entry :=
  List.filter (fun e => negb (has_key key e)) (items l).

(** [time.Now().After(ent.ExpiresAt)] *)
Definition expired (now : Z) (e : entry) : bool := now >? e_expires e.

Definition with_items (l : t) (its : list entry) : t :=
  mkLRU (capacity l) (ttl l) its.

Definition Get (l : t) (key : string) (now : Z) : t * option V :=
  match lookup l key with
  | Some e =>
      if expired now e then (l, None)
      else (with_items l (e :: others l key), Some (e_value e))
  | None => (l, None)
  end.

Definition Peek (l : t) (key : string) (now : Z) : option V :=
  match lookup l key with
  | Some e => if expired now e then None else Some (e_value e)
  | None => None
  end.

(** [Add]: an existing key is moved to the front with the new value and a
    renewed deadline, without any callback; a new key is pushed to the
    front and, for a bounded list that is now too long, the oldest entry
    is removed. *)
Definition Add (l : t) (key : string) (value : V) (now : Z) : t * list entry :=
  let e := mkEntry key value (now + ttl l) in
  match lookup l key with
  | Some _ => (with_items l (e :: others l key), [])
  | None =>
      let its := e :: items l in
      if (0 <? capacity l)%nat && (capacity l <? length its)%nat then
        match last its with
        | Some old => (with_items l (removelast its), [old])
        | None => (with_items l its, [])
        end
      else (with_items l its, [])
  end.

Definition Remove (l : t) (key : string) : t * option entry :=
  match lookup l key with
  | Some e => (with_items l (others l key), Some e)
  | None => (l, None)
  end.

Definition RemoveOldest (l : t) : t * option entry :=
  match last (items l) with
  | Some e => (with_items l (removelast (items l)), Some e)
  | None => (l, None)
  end.

(** [Keys]: oldest first, expired entries left out. *)
Definition Keys (l : t) (now : Z) : list string :=
  map e_key (List.filter (fun e => negb (expired now e)) (rev (items l))).

Definition Len (l : t) : nat := length (items l).

(** One removal by the janitor goroutine: an entry whose deadline has
    passed is taken out.  (The library removes them a bucket at a time.) *)
Definition deleteExpired (l : t) (key : string) (now : Z) : t * option entry :=
  match lookup l key with
  | Some e => if expired now e then (with_items l (others l key), Some e) else (l, None)
  | None => (l, None)
  end.

Definition Contains (l : t) (key : string) : bool :=
  match lookup l key with Some _ => true | None => false end.

End WithValue.

Arguments entry : clear implicits.
Arguments t : clear implicits.

End LRU.

(* ===================================================================== *)
(** ** [StreamingFile] (cache.go) *)
(* ===================================================================== *)

(** The file system is a finite map from paths to file contents
    (directories are implicit).  An open handle is identified with its
    path: a write through a handle whose path has been unlinked reaches no
    named file.  Unlinking ([os.Remove]) always succeeds. *)
Abbreviation Disk := (gmap string (list byte)).

Definition disk_append (d : Disk) (path : string) (data : list byte) : Disk :=
  match d !! path with
  | Some content => <[path := content ++ data]> d
  | None => d
  end.

(** [info.Size()] of [os.Stat(path)], [None] when the file is missing. *)
Definition disk_stat (d : Disk) (path : string) : option Z :=
  match d !! path with
  | Some content => Some (Z.of_nat (length content))
  | None => None
  end.

Record StreamingFile := mkSF {
  sf_filePath : string;
  sf_fileOpen : bool;          (* the write handle [file] is still open *)
  sf_size : Z;
  sf_done : bool;
  sf_err : option string
}.

Module SF.

(** [NewStreamingFile(filePath)] once [os.Create] has succeeded: the file
    exists and is empty. *)
Definition New (d : Disk) (filePath : string) : StreamingFile * Disk :=
  (mkSF filePath true 0 false None, <[filePath := []]> d).

(** [sf.Write(p)].  [accepted] is the number of bytes the operating system
    takes before failing; [file.Write] returns [n = min accepted (len p)]
    and an error exactly when [n < len p].  Result: the file, the disk,
    [n] and the error. *)
Definition Write (sf : StreamingFile) (d : Disk) (p : list byte) (accepted : nat)
  : StreamingFile * Disk * Z * option string :=
  if sf_done sf then (sf, d, 0, Some "streaming file closed")
  else
    let n := Nat.min accepted (length p) in
    let d' := disk_append d (sf_filePath sf) (take n p) in
    let sf' := mkSF (sf_filePath sf) (sf_fileOpen sf)
                    (Int64.add (sf_size sf) (Z.of_nat n)) (sf_done sf) (sf_err sf) in
    (sf', d', Z.of_nat n, if (n <? length p)%nat then Some "short write" else None).

(** [sf.Complete()] *)
Definition Complete (sf : StreamingFile) : StreamingFile :=
  mkSF (sf_filePath sf) false (sf_size sf) true (sf_err sf).

(** [sf.Abort()] *)
Definition Abort (sf : StreamingFile) (d : Disk) : StreamingFile * Disk :=
  (mkSF (sf_filePath sf) false (sf_size sf) true (Some "download aborted"),
   delete (sf_filePath sf) d).

(** [sf.Size()] *)
Definition Size (sf : StreamingFile) : Z := sf_size sf.

(** The operations a writer can apply to one streaming file. *)
Inductive op :=
| OpWrite (p : list byte) (accepted : nat)
| OpComplete
| OpAbort.

Definition step (st : StreamingFile * Disk) (o : op) : StreamingFile * Disk :=
  match o with
  | OpWrite p accepted => (Write st.1 st.2 p accepted).1.1
  | OpComplete => (Complete st.1, st.2)
  | OpAbort => Abort st.1 st.2
  end.

Definition run (st : StreamingFile * Disk) (ops : list op) : StreamingFile * Disk :=
  fold_left step ops st.

(** Bytes the operations ask the file to take, an upper bound on what is
    added to [size]. *)
Definition op_bytes (o : op) : Z :=
  match o with
  | OpWrite p accepted => Z.of_nat (Nat.min accepted (length p))
  | _ => 0
  end.

Definition ops_bytes (ops : list op) : Z :=
  fold_right (fun o acc => op_bytes o + acc) 0 ops.

End SF.

(* ===================================================================== *)
(** ** [Cache] (cache.go) *)
(* ===================================================================== *)

(** The fields of [Config] that the cache and the proxy read; durations
    and instants are in nanoseconds. *)
Record Config := mkConfig {
  UpstreamURL : string;
  CacheDir : string;
  MaxCacheSize : Z;
  DefaultCacheTTL : Z;
  NotFoundCacheTTL : Z
}.

Record CacheEntry := mkCacheEntry {
  Key : string;
  FilePath : string;
  Size : Z;
  ContentType : string;
  CreatedAt : Z
}.

(** [Entries] is a slice of pointers: [None] is a nil pointer, which is
    what [json.Unmarshal] stores for a [null] element. *)
Record cacheIndex := mkCacheIndex {
  Entries : list (option CacheEntry)
}.

(** How a call that can panic ends: it returns, or it dereferences a nil
    pointer and the process dies, leaving the file system as it is at that
    moment. *)
Inductive startup (A : Type) :=
| Started (a : A)
| Crashed (d : Disk).

Arguments Started {A} a.
Arguments Crashed {A} d.

(** The [Cache] object together with the two things it points into: the
    store of [StreamingFile] objects ([pending] holds indices into it, as
    the Go map holds pointers) and the file system. *)
Record Cache := mkCache {
  config : Config;
  fileCache : LRU.t CacheEntry;
  notFoundCache : LRU.t unit;
  totalSize : Z;
  pending : gmap string nat;
  store : list StreamingFile;
  disk : Disk
}.

Definition with_fileCache (c : Cache) (fc : LRU.t CacheEntry) : Cache :=
  mkCache (config c) fc (notFoundCache c) (totalSize c) (pending c) (store c) (disk c).
Definition with_notFoundCache (c : Cache) (nf : LRU.t unit) : Cache :=
  mkCache (config c) (fileCache c) nf (totalSize c) (pending c) (store c) (disk c).
Definition with_totalSize (c : Cache) (n : Z) : Cache :=
  mkCache (config c) (fileCache c) (notFoundCache c) n (pending c) (store c) (disk c).
Definition with_pending (c : Cache) (p : gmap string nat) : Cache :=
  mkCache (config c) (fileCache c) (notFoundCache c) (totalSize c) p (store c) (disk c).
Definition with_store (c : Cache) (s : list StreamingFile) : Cache :=
  mkCache (config c) (fileCache c) (notFoundCache c) (totalSize c) (pending c) s (disk c).
Definition with_disk (c : Cache) (d : Disk) : Cache :=
  mkCache (config c) (fileCache c) (notFoundCache c) (totalSize c) (pending c) (store c) d.

Definition indexFileName : string := "index.json".

(** Capacity of the negative cache. *)
Definition notFoundCapacity : nat := Z.to_nat 10000.

(** [filepath.Join] of two clean components. *)
Definition join (a b : string) : string := a +:+ "/" +:+ b.

Definition indexPath (c : Cache) : string := join (CacheDir (config c)) indexFileName.
Definition tmpIndexPath (c : Cache) : string := indexPath c +:+ ".tmp".

(** What can go wrong in the file system calls of one cache operation. *)
Inductive io_outcome := IoOk | IoFirstFails | IoSecondFails.

Section Program.

(** [hex.EncodeToString(sha256.Sum256(key))], 64 hexadecimal digits. *)
Variable sha256_hex : string -> string.

(** [json.MarshalIndent] and [json.Unmarshal] on the index; module [Json]
    below describes them. *)
Variable marshal : cacheIndex -> list byte.
Variable unmarshal : list byte -> option cacheIndex.

(** [c.filePath(key)] *)
Definition filePath (c : Cache) (key : string) : string :=
  let hashStr := sha256_hex key in
  join (join (CacheDir (config c)) (substring 0 2 hashStr)) hashStr.

(** The eviction callback installed on [fileCache] by [NewCache]. *)
Definition onEvict (c : Cache) (e : LRU.entry CacheEntry) : Cache :=
  let entry := LRU.e_value e in
  let c := if negb (String.eqb (FilePath entry) "")
           then with_disk c (delete (FilePath entry) (disk c)) else c in
  with_totalSize c (Int64.add (totalSize c) (Int64.wrap64 (- Size entry))).

Definition run_evictions (c : Cache) (evicted : list (LRU.entry CacheEntry)) : Cache :=
  fold_left onEvict evicted c.

(** [c.fileCache.Add(key, entry)] with its callback. *)
Definition fileCache_Add (c : Cache) (key : string) (entry : CacheEntry) (now : Z) : Cache :=
  let '(fc, evicted) := LRU.Add (fileCache c) key entry now in
  run_evictions (with_fileCache c fc) evicted.

(** [c.notFoundCache.Add(key, struct{}{})]; that cache has no callback. *)
Definition notFoundCache_Add (c : Cache) (key : string) (now : Z) : Cache :=
  with_notFoundCache c (LRU.Add (notFoundCache c) key tt now).1.

(** [c.Get(key)] *)
Definition Get (c : Cache) (key : string) (now : Z) : Cache * option CacheEntry :=
  match LRU.Get (notFoundCache c) key now with
  | (nf, Some _) =>
      (notFoundCache_Add (with_notFoundCache c nf) key now, None)
  | (nf, None) =>
      let c := with_notFoundCache c nf in
      match LRU.Get (fileCache c) key now with
      | (fc, Some entry) => (fileCache_Add (with_fileCache c fc) key entry now, Some entry)
      | (fc, None) => (with_fileCache c fc, None)
      end
  end.

(** [c.IsNotFound(key)] *)
Definition IsNotFound (c : Cache) (key : string) (now : Z) : Cache * bool :=
  match LRU.Get (notFoundCache c) key now with
  | (nf, Some _) => (notFoundCache_Add (with_notFoundCache c nf) key now, true)
  | (nf, None) => (with_notFoundCache c nf, false)
  end.

(** [c.GetOrCreatePending(key)]: the streaming file, [isNew], or an error
    ([IoFirstFails]: [os.MkdirAll]; [IoSecondFails]: [os.Create]). *)
Definition GetOrCreatePending (c : Cache) (key : string) (io : io_outcome)
  : Cache * option (nat * bool) :=
  match pending c !! key with
  | Some sf => (c, Some (sf, false))
  | None =>
      match io with
      | IoFirstFails => (c, None)
      | IoSecondFails => (c, None)
      | IoOk =>
          let '(sf, d) := SF.New (disk c) (filePath c key) in
          let l := length (store c) in
          let c := with_disk c d in
          let c := with_store c (store c ++ [sf]) in
          (with_pending c (<[key := l]> (pending c)), Some (l, true))
      end
  end.

(** [c.GetPending(key)] *)
Definition GetPending (c : Cache) (key : string) : option nat := pending c !! key.

(** [c.evictIfNeeded(incoming)]: the loop, with the number of rounds
    bounded by the number of entries plus one. *)
Fixpoint evictIfNeeded_loop (fuel : nat) (c : Cache) (incoming : Z) : Cache :=
  match fuel with
  | O => c
  | S f =>
      if Int64.add (totalSize c) incoming >? MaxCacheSize (config c) then
        match LRU.RemoveOldest (fileCache c) with
        | (fc, Some e) => evictIfNeeded_loop f (onEvict (with_fileCache c fc) e) incoming
        | (_, None) => c
        end
      else c
  end.

Definition evictIfNeeded (c : Cache) (incoming : Z) : Cache :=
  evictIfNeeded_loop (S (LRU.Len (fileCache c))) c incoming.

(** [sf.Complete()] and [sf.Abort()] through the pointer [l]. *)
Definition store_Complete (c : Cache) (l : nat) : Cache :=
  with_store c (alter SF.Complete l (store c)).

Definition store_Abort (c : Cache) (l : nat) : Cache :=
  match store c !! l with
  | Some sf =>
      let '(sf', d) := SF.Abort sf (disk c) in
      with_disk (with_store c (<[l := sf']> (store c))) d
  | None => c
  end.

(** [c.CompletePending(key, size, contentType)] *)
Definition CompletePending (c : Cache) (key : string) (size : Z)
    (contentType : string) (now : Z) : Cache :=
  match pending c !! key with
  | None => c
  | Some sf =>
      let c := with_pending c (delete key (pending c)) in
      let c := store_Complete c sf in
      let c := evictIfNeeded c size in
      let entry := mkCacheEntry key (filePath c key) size contentType now in
      let c := fileCache_Add c key entry now in
      with_totalSize c (Int64.add (totalSize c) size)
  end.

(** [c.FailPending(key)] *)
Definition FailPending (c : Cache) (key : string) : Cache :=
  match pending c !! key with
  | None => c
  | Some sf => store_Abort (with_pending c (delete key (pending c))) sf
  end.

(** [c.PutNotFound(key)] *)
Definition PutNotFound (c : Cache) (key : string) (now : Z) : Cache :=
  notFoundCache_Add c key now.

(** [c.Remove(key)] *)
Definition Remove (c : Cache) (key : string) : Cache :=
  let c :=
    match LRU.Remove (fileCache c) key with
    | (fc, Some e) => onEvict (with_fileCache c fc) e
    | (fc, None) => with_fileCache c fc
    end in
  with_notFoundCache c (LRU.Remove (notFoundCache c) key).1.

(** One step of the janitor of [fileCache]. *)
Definition Expire (c : Cache) (key : string) (now : Z) : Cache :=
  match LRU.deleteExpired (fileCache c) key now with
  | (fc, Some e) => onEvict (with_fileCache c fc) e
  | (fc, None) => with_fileCache c fc
  end.

(** [c.saveIndex()]: [IoFirstFails] is a failing [os.WriteFile],
    [IoSecondFails] a failing [os.Rename]. *)
Definition saveIndex (c : Cache) (now : Z) (io : io_outcome) : Cache * bool :=
  let keys := LRU.Keys (fileCache c) now in
  let entries := omap (fun key => LRU.Peek (fileCache c) key now) keys in
  let data := marshal (mkCacheIndex (map Some entries)) in
  match io with
  | IoFirstFails => (c, false)
  | IoSecondFails => (with_disk c (delete (tmpIndexPath c) (disk c)), false)
  | IoOk =>
      let d := <[tmpIndexPath c := data]> (disk c) in
      (with_disk c (<[indexPath c := data]> (delete (tmpIndexPath c) d)), true)
  end.

(** The body of the loop of [loadAndCleanup] over [idx.Entries]. *)
Definition loadEntry (now : Z) (acc : Cache * gset string) (entry : CacheEntry)
  : Cache * gset string :=
  let '(c, validFiles) := acc in
  match disk_stat (disk c) (FilePath entry) with
  | Some sz =>
      if negb (sz =? Size entry) then
        (with_disk c (delete (FilePath entry) (disk c)), validFiles)
      else
        let c := fileCache_Add c (Key entry) entry now in
        let c := with_totalSize c (Int64.add (totalSize c) (Size entry)) in
        (c, {[FilePath entry]} ∪ validFiles)
  | None => (with_disk c (delete (FilePath entry) (disk c)), validFiles)
  end.

(** A file met by [filepath.WalkDir(c.config.CacheDir, ...)] stays when it
    is one of the two index files or a valid cache file. *)
Definition keepFile (c : Cache) (validFiles : gset string) (path : string) : bool :=
  negb (HasPrefix path (CacheDir (config c) +:+ "/"))
  || String.eqb path (indexPath c)
  || String.eqb path (tmpIndexPath c)
  || bool_decide (path ∈ validFiles).

(** [c.cleanupOrphanFiles(validFiles)]; with implicit directories
    [cleanupEmptyDirs] has nothing to do. *)
Definition cleanupOrphanFiles (c : Cache) (validFiles : gset string) : Cache :=
  with_disk c (filter (fun kv => keepFile c validFiles kv.1 = true) (disk c)).

(** The loop of [loadAndCleanup] over [idx.Entries]: [entry.FilePath] on a
    nil entry panics, with the entries before it already dealt with. *)
Fixpoint loadEntries (now : Z) (entries : list (option CacheEntry))
    (acc : Cache * gset string) : startup (Cache * gset string) :=
  match entries with
  | [] => Started acc
  | Some entry :: rest => loadEntries now rest (loadEntry now acc entry)
  | None :: _ => Crashed (disk acc.1)
  end.

(** [c.loadAndCleanup()] *)
Definition loadAndCleanup (c : Cache) (now : Z) : startup Cache :=
  let loaded :=
    match disk c !! indexPath c with
    | Some data =>
        match unmarshal data with
        | Some idx => loadEntries now (Entries idx) (c, ∅)
        | None => Started (c, ∅)
        end
    | None => Started (c, ∅)
    end in
  match loaded with
  | Started (c, validFiles) => Started (cleanupOrphanFiles c validFiles)
  | Crashed d => Crashed d
  end.

(** The cache as [NewCache] allocates it, before the index is loaded. *)
Definition emptyCache (cfg : Config) (d : Disk) : Cache :=
  mkCache cfg (LRU.NewLRU 0 (DefaultCacheTTL cfg))
          (LRU.NewLRU notFoundCapacity (NotFoundCacheTTL cfg)) 0 ∅ [] d.

(** [NewCache(cfg)] on the file system [d] (the cache directory exists or
    is made; the save loop is a timer that calls [saveIndex]). *)
Definition NewCache (cfg : Config) (d : Disk) (now : Z) : startup Cache :=
  loadAndCleanup (emptyCache cfg d) now.

(** The operations of the cache as calls that can follow one another. *)
Inductive cache_op :=
| CGet (key : string) (now : Z)
| CIsNotFound (key : string) (now : Z)
| CGetOrCreatePending (key : string) (io : io_outcome)
| CCompletePending (key : string) (size : Z) (contentType : string) (now : Z)
| CFailPending (key : string)
| CPutNotFound (key : string) (now : Z)
| CRemove (key : string)
| CExpire (key : string) (now : Z).

Definition cache_step (c : Cache) (o : cache_op) : Cache :=
  match o with
  | CGet key now => (Get c key now).1
  | CIsNotFound key now => (IsNotFound c key now).1
  | CGetOrCreatePending key io => (GetOrCreatePending c key io).1
  | CCompletePending key size ct now => CompletePending c key size ct now
  | CFailPending key => FailPending c key
  | CPutNotFound key now => PutNotFound c key now
  | CRemove key => Remove c key
  | CExpire key now => Expire c key now
  end.

Definition cache_run (c : Cache) (ops : list cache_op) : Cache :=
  fold_left cache_step ops c.

(** Presence of a key in the completed store and in the pending map. *)
Definition in_completed (c : Cache) (key : string) : Prop :=
  LRU.Contains (fileCache c) key = true.

Definition in_pending (c : Cache) (key : string) : Prop :=
  is_Some (pending c !! key).


(* ===================================================================== *)
(** ** [Proxy] (proxy) *)
(* ===================================================================== *)

Record fetchLock := mkFetchLock {
  fl_done : bool;
  fl_err : option string
}.

(** The proxy: its cache, the [fetchLocks] map (pointers into [locks]),
    and what the origin server sees of it: [inflight] lists the keys of the
    upstream GET requests that have been sent and whose response body is
    not closed yet, [issued] all upstream GET requests sent so far. *)
Record Proxy := mkProxy {
  cache : Cache;
  fetchLocks : gmap string nat;
  locks : list fetchLock;
  inflight : list string;
  issued : list string
}.

Definition with_cache (p : Proxy) (c : Cache) : Proxy :=
  mkProxy c (fetchLocks p) (locks p) (inflight p) (issued p).

(** One [Read] of a body or of a streaming file reader: the bytes it
    returned and how it ended. *)
Inductive read_end := ReadMore | ReadEOF | ReadFailed.

Record read := mkRead {
  rd_data : list byte;
  rd_end : read_end;
  rd_accepted : nat   (* bytes the cache file takes when this chunk is written to it *)
}.

(** What the origin does with one GET. *)
Inductive upstream :=
| UpBadRequest                      (* [http.NewRequestWithContext] fails *)
| UpTransportError                  (* [httpClient.Do] fails *)
| UpResponse (status : Z) (contentLength : Z) (contentType : string)
             (body : list read).

(** What surrounds one request: the clock, the origin, the file system
    calls, and the reads of a streaming file reader if it becomes one. *)
Record env := mkEnv {
  env_now : Z;
  env_upstream : upstream;
  env_io : io_outcome;
  env_reads : list read
}.

(** [p.validateCacheFile(entry)] *)
Definition validateCacheFile (c : Cache) (entry : CacheEntry) : bool :=
  match disk_stat (disk c) (FilePath entry) with
  | Some sz => sz =? Size entry
  | None => false
  end.

(** [p.serveFromCache(w, r, entry)]; the result is the writer and whether
    an error was returned. *)
Definition serveFromCache (c : Cache) (w : ResponseWriter) (r : Request)
    (entry : CacheEntry) : ResponseWriter * bool :=
  match disk c !! FilePath entry with
  | None => (w, true)
  | Some file =>
      let w := SetHeader w "Content-Type" (ContentType entry) in
      let w := SetHeader w "Accept-Ranges" "bytes" in
      let w := SetHeader w "X-Cache" "HIT" in
      if negb (String.eqb (Range r) "") then
        serveRangeFromFile w file (Size entry) (Range r)
      else
        let w := SetHeader w "Content-Length" (FormatInt (Size entry)) in
        if String.eqb (Method r) MethodHead then (w, false)
        else CopyBuffer w file
  end.

(** The loop of [serveFromStreaming] over the results of [reader.Read]. *)
Fixpoint streamReads (w : ResponseWriter) (reads : list read) : ResponseWriter * bool :=
  match reads with
  | [] => (w, false)
  | rd :: rest =>
      let '(w, failed) :=
        if (0 <? length (rd_data rd))%nat then
          let '(w', _, failed) := Write w (rd_data rd) in (w', failed)
        else (w, false) in
      if failed then (w, true)
      else match rd_end rd with
           | ReadMore => streamReads w rest
           | ReadEOF => (w, false)
           | ReadFailed => (w, true)
           end
  end.

(** [p.serveFromStreaming(w, r, sf)]; what the reader of [sf] returns, call
    after call, is [reads] (it depends on the progress of the writer). *)
Definition serveFromStreaming (w : ResponseWriter) (r : Request) (sf : nat)
    (reads : list read) : ResponseWriter * bool :=
  let w := SetHeader w "X-Cache" "STREAMING" in
  if String.eqb (Method r) MethodHead then (w, false)
  else streamReads w reads.

(** [p.finishLock(lock, err)] *)
Definition finishLock (p : Proxy) (lock : nat) (err : option string) : Proxy :=
  mkProxy (cache p) (fetchLocks p) (<[lock := mkFetchLock true err]> (locks p))
          (inflight p) (issued p).

(** [sf.Write(buf[:n])] through the pointer [sf]. *)
Definition store_Write (c : Cache) (sf : nat) (data : list byte) (accepted : nat)
  : Cache * option string :=
  match store c !! sf with
  | Some o =>
      let '(o', d, _, err) := SF.Write o (disk c) data accepted in
      (with_disk (with_store c (<[sf := o']> (store c))) d, err)
  | None => (c, Some "invalid streaming file")
  end.

(** The copy loop of [doFetchAndServe]; the result carries [isNew],
    [totalWritten] and [downloadErr] as the loop leaves them.  A body
    whose reads are used up has reached its end. *)
Fixpoint streamBody (key : string) (sf : nat) (body : list read) (c : Cache)
    (w : ResponseWriter) (isNew : bool) (totalWritten : Z)
  : Cache * ResponseWriter * bool * Z * option string :=
  match body with
  | [] => (c, w, isNew, totalWritten, None)
  | rd :: rest =>
      let '(c, w, isNew, totalWritten, stop) :=
        if (0 <? length (rd_data rd))%nat then
          let '(c, isNew) :=
            if isNew then
              match store_Write c sf (rd_data rd) (rd_accepted rd) with
              | (c', Some _) => (c', false)
              | (c', None) => (c', true)
              end
            else (c, isNew) in
          let '(w, written, failed) := Write w (rd_data rd) in
          (c, w, isNew, Int64.add totalWritten written, failed)
        else (c, w, isNew, totalWritten, false) in
      if stop then (c, w, isNew, totalWritten, Some "write response")
      else match rd_end rd with
           | ReadMore => streamBody key sf rest c w isNew totalWritten
           | ReadEOF => (c, w, isNew, totalWritten, None)
           | ReadFailed => (c, w, isNew, totalWritten, Some "read upstream")
           end
  end.

(** [httpClient.Do(req)] sends the GET: the origin sees one more request. *)
Definition sendUpstream (p : Proxy) (key : string) : Proxy :=
  mkProxy (cache p) (fetchLocks p) (locks p) (key :: inflight p) (issued p ++ [key]).

(** The deferred calls of [doFetchAndServe]: [resp.Body.Close()] when a
    request was sent, and [p.fetchLocks.Delete(key)]. *)
Fixpoint remove_one (key : string) (l : list string) : list string :=
  match l with
  | [] => []
  | k :: rest => if String.eqb k key then rest else k :: remove_one key rest
  end.

Definition leaveFetch (p : Proxy) (key : string) (sent : bool) : Proxy :=
  mkProxy (cache p) (delete key (fetchLocks p)) (locks p)
          (if sent then remove_one key (inflight p) else inflight p) (issued p).

(** A download under way in [doFetchAndServe]: the local variables that
    live across the copy loop. *)
Record download := mkDownload {
  dl_sf : nat;
  dl_isNew : bool;
  dl_contentType : string;
  dl_expectedSize : Z;
  dl_body : list read
}.

Inductive begun :=
| Finished (err : option string)      (* [doFetchAndServe] has returned *)
| Streaming (d : download).           (* it enters the copy loop *)

(** [doFetchAndServe] from the moment the answer of the origin is known
    up to the copy loop. *)
Definition beginDownload (p : Proxy) (w : ResponseWriter) (r : Request)
    (key : string) (lock : nat) (e : env) : Proxy * ResponseWriter * begun :=
  match env_upstream e with
  | UpBadRequest =>
      (finishLock p lock (Some "create request"),
       Error w "Internal Server Error" StatusInternalServerError,
       Finished (Some "create request"))
  | UpTransportError =>
      (finishLock p lock (Some "upstream request"),
       Error w "Bad Gateway" StatusBadGateway,
       Finished (Some "upstream request"))
  | UpResponse status expectedSize ct body =>
      if status =? StatusNotFound then
        let p := finishLock p lock (Some "not found") in
        let p := with_cache p (PutNotFound (cache p) key (env_now e)) in
        (p, Error w "Not Found" StatusNotFound, Finished None)
      else if negb (status =? StatusOK) then
        (finishLock p lock (Some "upstream status"),
         Error w "Bad Gateway" StatusBadGateway,
         Finished (Some "upstream error"))
      else
        let contentType := if String.eqb ct "" then "application/octet-stream" else ct in
        match GetOrCreatePending (cache p) key (env_io e) with
        | (_, None) =>
            (finishLock p lock (Some "create cache file"),
             Error w "Internal Server Error" StatusInternalServerError,
             Finished (Some "create cache file"))
        | (c, Some (sf, isNew)) =>
            let p := with_cache p c in
            let w := SetHeader w "Content-Type" contentType in
            let w := SetHeader w "Accept-Ranges" "bytes" in
            let w := if expectedSize >=? 0
                     then SetHeader w "Content-Length" (FormatInt expectedSize) else w in
            let w := SetHeader w "X-Cache" "MISS" in
            if String.eqb (Method r) MethodHead then
              let p := if isNew then with_cache p (FailPending (cache p) key) else p in
              (finishLock p lock None, w, Finished None)
            else
              (p, w, Streaming (mkDownload sf isNew contentType expectedSize body))
        end
  end.

(** The copy loop of [doFetchAndServe] and what follows it. *)
Definition finishDownload (p : Proxy) (w : ResponseWriter) (key : string)
    (lock : nat) (e : env) (d : download) : Proxy * ResponseWriter * option string :=
  let '(c, w, isNew, totalWritten, downloadErr) :=
    streamBody key (dl_sf d) (dl_body d) (cache p) w (dl_isNew d) 0 in
  let p := with_cache p c in
  match downloadErr with
  | Some err =>
      let p := if isNew then with_cache p (FailPending (cache p) key) else p in
      (finishLock p lock (Some err), w, Some err)
  | None =>
      if (dl_expectedSize d >=? 0) && negb (totalWritten =? dl_expectedSize d) then
        let p := if isNew then with_cache p (FailPending (cache p) key) else p in
        (finishLock p lock (Some "size mismatch"), w, Some "size mismatch")
      else
        let p := if isNew
                 then with_cache p (CompletePending (cache p) key totalWritten
                                                    (dl_contentType d) (env_now e))
                 else p in
        (finishLock p lock None, w, None)
  end.

(** [doFetchAndServe] from the moment the answer of the origin is known. *)
Definition receiveUpstream (p : Proxy) (w : ResponseWriter) (r : Request)
    (key : string) (lock : nat) (e : env) : Proxy * ResponseWriter * option string :=
  match beginDownload p w r key lock e with
  | (p, w, Finished err) => (p, w, err)
  | (p, w, Streaming d) => finishDownload p w key lock e d
  end.

Definition sends (u : upstream) : bool :=
  match u with UpBadRequest => false | _ => true end.

(** [p.doFetchAndServe(ctx, w, r, key, lock)] *)
Definition doFetchAndServe (p : Proxy) (w : ResponseWriter) (r : Request)
    (key : string) (lock : nat) (e : env) : Proxy * ResponseWriter * option string :=
  let p := if sends (env_upstream e) then sendUpstream p key else p in
  let '(p, w, err) := receiveUpstream p w r key lock e in
  (leaveFetch p key (sends (env_upstream e)), w, err).

(** [p.serveFromCacheOrError(w, r, key)] *)
Definition serveFromCacheOrError (p : Proxy) (w : ResponseWriter) (r : Request)
    (key : string) (e : env) : Proxy * ResponseWriter * option string :=
  match IsNotFound (cache p) key (env_now e) with
  | (c, true) => (with_cache p c, Error w "Not Found" StatusNotFound, None)
  | (c, false) =>
      let '(c, hit) := Get c key (env_now e) in
      let served :=
        match hit with
        | Some entry =>
            if validateCacheFile c entry then Some (serveFromCache c w r entry) else None
        | None => None
        end in
      match served with
      | Some (w, failed) =>
          (with_cache p c, w, if failed then Some "serve from cache" else None)
      | None =>
          (with_cache p (Remove c key),
           Error w "Internal Server Error" StatusInternalServerError,
           Some "cache entry invalid after download")
      end
  end.

(** The first part of [fetchAndServe], up to the release of [lock.mu]:
    which way the request goes. *)
Inductive route :=
| RouteDone (failed : bool)     (* the lock says a download has finished *)
| RouteStreaming (sf : nat)     (* a pending download exists *)
| RouteFetch (lock : nat).      (* fetch from the origin *)

Definition enterFetch (p : Proxy) (key : string) : Proxy * route :=
  let '(p, lock) :=
    match fetchLocks p !! key with
    | Some l => (p, l)
    | None =>
        let l := length (locks p) in
        (mkProxy (cache p) (<[key := l]> (fetchLocks p))
                 (locks p ++ [mkFetchLock false None]) (inflight p) (issued p), l)
    end in
  match locks p !! lock with
  | Some (mkFetchLock true err) =>
      (p, RouteDone (match err with Some _ => true | None => false end))
  | _ =>
      match GetPending (cache p) key with
      | Some sf => (p, RouteStreaming sf)
      | None => (p, RouteFetch lock)
      end
  end.

(** [p.fetchAndServe(ctx, w, r, key)] *)
Definition fetchAndServe (p : Proxy) (w : ResponseWriter) (r : Request)
    (key : string) (e : env) : Proxy * ResponseWriter * option string :=
  match enterFetch p key with
  | (p, RouteDone true) => (p, Error w "Not Found" StatusNotFound, None)
  | (p, RouteDone false) => serveFromCacheOrError p w r key e
  | (p, RouteStreaming sf) =>
      let '(w, failed) := serveFromStreaming w r sf (env_reads e) in
      (p, w, if failed then Some "serve from streaming" else None)
  | (p, RouteFetch lock) => doFetchAndServe p w r key lock e
  end.

(** The two cache checks at the head of [handleRequest]: an answer, or
    [None] when the request goes on to [fetchAndServe]. *)
Definition lookupCaches (p : Proxy) (w : ResponseWriter) (r : Request)
    (key : string) (e : env) : Proxy * option (ResponseWriter * option string) :=
  match IsNotFound (cache p) key (env_now e) with
  | (c, true) => (with_cache p c, Some (Error w "Not Found" StatusNotFound, None))
  | (c, false) =>
      let '(c, hit) := Get c key (env_now e) in
      let p := with_cache p c in
      match hit with
      | Some entry =>
          if validateCacheFile c entry then
            let '(w, failed) := serveFromCache c w r entry in
            (p, Some (w, if failed then Some "serve from cache" else None))
          else (with_cache p (Remove c key), None)
      | None => (p, None)
      end
  end.

(** [p.handleRequest(w, r, key)] *)
Definition handleRequest (p : Proxy) (w : ResponseWriter) (r : Request)
    (key : string) (e : env) : Proxy * ResponseWriter * option string :=
  match lookupCaches p w r key e with
  | (p, Some (w, err)) => (p, w, err)
  | (p, None) => fetchAndServe p w r key e
  end.

(** [p.ServeHTTP(w, r)] *)
Definition ServeHTTP (p : Proxy) (w : ResponseWriter) (r : Request) (e : env)
  : Proxy * ResponseWriter :=
  if negb (String.eqb (Method r) MethodGet) && negb (String.eqb (Method r) MethodHead) then
    (p, Error w "Method not allowed" StatusMethodNotAllowed)
  else
    let '(p, w, _) := handleRequest p w r (Path r) e in (p, w).

(** [NewProxy(cfg)] on a file system. *)
Definition NewProxy (cfg : Config) (d : Disk) (now : Z) : startup Proxy :=
  match NewCache cfg d now with
  | Started c => Started (mkProxy c ∅ [] [] [])
  | Crashed d' => Crashed d'
  end.

(* ===================================================================== *)
(** ** Requests running concurrently *)
(* ===================================================================== *)

(** Every request runs [handleRequest] on its own goroutine.  A request is
    followed through the points where it gives way to the others: after
    the cache checks, after the first part of [fetchAndServe] (where
    [lock.mu] is released), while it waits for the origin, and before it
    copies the body.  Between two
    such points a request runs alone, which is one of the ways the Go
    scheduler can run it.  The body of a download is copied in one go. *)
Inductive pc :=
| PcStart                          (* entering [handleRequest] *)
| PcEnter                          (* entering [fetchAndServe] *)
| PcFetch (lock : nat)             (* in [doFetchAndServe], before [httpClient.Do] *)
| PcAwait (lock : nat)             (* the GET is sent, no answer yet *)
| PcStream (lock : nat) (d : download)   (* headers written, body to copy *)
| PcReturned (err : option string).

Record thread := mkThread {
  th_req : Request;
  th_env : env;
  th_w : ResponseWriter;
  th_pc : pc
}.

Definition returned (t : thread) (w : ResponseWriter) (err : option string) : thread :=
  mkThread (th_req t) (th_env t) w (PcReturned err).

Definition goto (t : thread) (l : pc) : thread :=
  mkThread (th_req t) (th_env t) (th_w t) l.

Definition thread_step (p : Proxy) (t : thread) : Proxy * thread :=
  let key := Path (th_req t) in
  match th_pc t with
  | PcStart =>
      match lookupCaches p (th_w t) (th_req t) key (th_env t) with
      | (p, Some (w, err)) => (p, returned t w err)
      | (p, None) => (p, goto t PcEnter)
      end
  | PcEnter =>
      match enterFetch p key with
      | (p, RouteDone true) => (p, returned t (Error (th_w t) "Not Found" StatusNotFound) None)
      | (p, RouteDone false) =>
          let '(p, w, err) := serveFromCacheOrError p (th_w t) (th_req t) key (th_env t) in
          (p, returned t w err)
      | (p, RouteStreaming sf) =>
          let '(w, failed) := serveFromStreaming (th_w t) (th_req t) sf (env_reads (th_env t)) in
          (p, returned t w (if failed then Some "serve from streaming" else None))
      | (p, RouteFetch lock) => (p, goto t (PcFetch lock))
      end
  | PcFetch lock =>
      if sends (env_upstream (th_env t)) then (sendUpstream p key, goto t (PcAwait lock))
      else
        let '(p, w, err) := receiveUpstream p (th_w t) (th_req t) key lock (th_env t) in
        (leaveFetch p key false, returned t w err)
  | PcAwait lock =>
      match beginDownload p (th_w t) (th_req t) key lock (th_env t) with
      | (p, w, Finished err) => (leaveFetch p key true, returned t w err)
      | (p, w, Streaming d) =>
          (p, mkThread (th_req t) (th_env t) w (PcStream lock d))
      end
  | PcStream lock d =>
      let '(p, w, err) := finishDownload p (th_w t) key lock (th_env t) d in
      (leaveFetch p key true, returned t w err)
  | PcReturned _ => (p, t)
  end.

Record world := mkWorld {
  w_proxy : Proxy;
  w_threads : list thread
}.

(** The scheduler lets request number [i] run to its next point. *)
Definition sched_step (s : world) (i : nat) : world :=
  match w_threads s !! i with
  | Some t =>
      let '(p, t') := thread_step (w_proxy s) t in
      mkWorld p (<[i := t']> (w_threads s))
  | None => s
  end.

Definition sched_run (s : world) (schedule : list nat) : world :=
  fold_left sched_step schedule s.

(** Upstream GET requests for [key] that are in flight. *)
Definition inflight_for (p : Proxy) (key : string) : nat :=
  length (List.filter (String.eqb key) (inflight p)).

Definition newRequest (method key : string) (e : env) : thread :=
  mkThread (mkRequest method key "") e (newResponseWriter None) PcStart.

End Program.

(* ===================================================================== *)
(** ** [encoding/json] and [time] on the index *)
(* ===================================================================== *)

(** The two packages belong to the standard library of Go, not to the
    repository; this is their documented behaviour on the one type the
    cache encodes, [cacheIndex].  The program above takes the two calls as
    parameters; the functions here are what those parameters are when the
    program runs.  The round trip of the index and the closed examples
    use them.

    Where the outcome of decoding depends on parts of the library that are
    not described here, [Unmarshal] says so with [Beyond]: a member name
    with a byte outside ASCII (names are matched by Unicode case folding),
    a member name that occurs twice (the second value is merged into the
    first), and a [created_at] that is not in the strict RFC 3339 form
    (the lenient [time.Parse] decides). *)
Module Json.

Definition code (c : ascii) : Z := Z.of_nat (nat_of_ascii c).
Definition chr (n : Z) : ascii := ascii_of_nat (Z.to_nat n).

Definition in_range (lo hi b : Z) : bool := (lo <=? b) && (b <=? hi).

Fixpoint sdrop (n : nat) (s : string) : string :=
  match n, s with
  | S n', String _ s' => sdrop n' s'
  | _, _ => s
  end.

Fixpoint stake (n : nat) (s : string) : string :=
  match n, s with
  | S n', String c s' => String c (stake n' s')
  | _, _ => EmptyString
  end.

(** The double quote and the backslash. *)
Definition dq : ascii := "034"%char.
Definition bs : ascii := "092"%char.

(** *** UTF-8 *)

(** [utf8.RuneError], U+FFFD. *)
Definition RuneError : Z := 65533.

(** [utf8.DecodeRuneInString(s)]: the rune at the head of [s] and its
    width; [(RuneError, 1)] when the head starts no valid encoding. *)
Definition DecodeRune (s : string) : Z * nat :=
  match s with
  | EmptyString => (RuneError, 0%nat)
  | String c0 s1 =>
      let b0 := code c0 in
      if b0 <? 128 then (b0, 1%nat)
      else if in_range 194 223 b0 then
        match s1 with
        | String c1 _ =>
            let b1 := code c1 in
            if in_range 128 191 b1
            then ((b0 - 192) * 64 + (b1 - 128), 2%nat)
            else (RuneError, 1%nat)
        | _ => (RuneError, 1%nat)
        end
      else if in_range 224 239 b0 then
        match s1 with
        | String c1 (String c2 _) =>
            let b1 := code c1 in
            let b2 := code c2 in
            if in_range (if b0 =? 224 then 160 else 128) (if b0 =? 237 then 159 else 191) b1
               && in_range 128 191 b2
            then (((b0 - 224) * 64 + (b1 - 128)) * 64 + (b2 - 128), 3%nat)
            else (RuneError, 1%nat)
        | _ => (RuneError, 1%nat)
        end
      else if in_range 240 244 b0 then
        match s1 with
        | String c1 (String c2 (String c3 _)) =>
            let b1 := code c1 in
            let b2 := code c2 in
            let b3 := code c3 in
            if in_range (if b0 =? 240 then 144 else 128) (if b0 =? 244 then 143 else 191) b1
               && in_range 128 191 b2 && in_range 128 191 b3
            then ((((b0 - 240) * 64 + (b1 - 128)) * 64 + (b2 - 128)) * 64 + (b3 - 128), 4%nat)
            else (RuneError, 1%nat)
        | _ => (RuneError, 1%nat)
        end
      else (RuneError, 1%nat)
  end.

(** [utf8.AppendRune]: a surrogate or a value beyond U+10FFFF is written
    as U+FFFD. *)
Definition EncodeRune (r : Z) : string :=
  if in_range 0 127 r then String (chr r) EmptyString
  else if in_range 128 2047 r then
    String (chr (192 + r / 64)) (String (chr (128 + r mod 64)) EmptyString)
  else if (r <? 0) || in_range 55296 57343 r || (1114111 <? r) then
    String (chr 239) (String (chr 191) (String (chr 189) EmptyString))
  else if r <? 65536 then
    String (chr (224 + r / 4096))
      (String (chr (128 + (r / 64) mod 64)) (String (chr (128 + r mod 64)) EmptyString))
  else
    String (chr (240 + r / 262144))
      (String (chr (128 + (r / 4096) mod 64))
         (String (chr (128 + (r / 64) mod 64)) (String (chr (128 + r mod 64)) EmptyString))).

(** [utf8.ValidString(s)]: every rune of [s] decodes, none as the error
    rune of width one. *)
Fixpoint valid_loop (fuel : nat) (s : string) : bool :=
  match fuel with
  | O => true
  | S f =>
      match s with
      | EmptyString => true
      | String _ _ =>
          let '(r, size) := DecodeRune s in
          negb ((r =? RuneError) && (size =? 1)%nat) && valid_loop f (sdrop size s)
      end
  end.

Definition ValidString (s : string) : bool := valid_loop (String.length s) s.

(** *** Encoding *)

Definition hex_digit (n : Z) : ascii :=
  if n <? 10 then chr (48 + n) else chr (87 + n).

(** The bytes the encoder copies as they are (with HTML escaping on, as
    [Marshal] has it): printable ASCII but the quote, the backslash and
    [<], [>], [&]. *)
Definition htmlSafe (b : Z) : bool :=
  in_range 32 127 b
  && negb ((b =? 34) || (b =? 38) || (b =? 60) || (b =? 62) || (b =? 92)).

Definition escape (b : Z) : string :=
  if (b =? 92) || (b =? 34) then String bs (String (chr b) EmptyString)
  else if b =? 8 then String bs "b"
  else if b =? 12 then String bs "f"
  else if b =? 10 then String bs "n"
  else if b =? 13 then String bs "r"
  else if b =? 9 then String bs "t"
  else String bs ("u00" +:+ String (hex_digit (b / 16)) (String (hex_digit (b mod 16)) EmptyString)).

(** The loop of the encoder over a Go string: a byte that starts no valid
    UTF-8 encoding is written as [�]. *)
Fixpoint quote_loop (fuel : nat) (s : string) : string :=
  match fuel with
  | O => EmptyString
  | S f =>
      match s with
      | EmptyString => EmptyString
      | String c rest =>
          let b := code c in
          if b <? 128 then
            (if htmlSafe b then String c EmptyString else escape b) +:+ quote_loop f rest
          else
            let '(r, size) := DecodeRune s in
            if (r =? RuneError) && (size =? 1)%nat then
              String bs "ufffd" +:+ quote_loop f rest
            else if (r =? 8232) || (r =? 8233) then
              String bs ("u202" +:+ String (hex_digit (r mod 16)) EmptyString)
              +:+ quote_loop f (sdrop size s)
            else stake size s +:+ quote_loop f (sdrop size s)
      end
  end.

(** A Go string as a JSON string literal. *)
Definition quote (s : string) : string :=
  String dq (quote_loop (String.length s) s +:+ String dq EmptyString).

(** [n] in [width] decimal digits, for [0 <= n < 10 ^ width]. *)
Fixpoint pad (width : nat) (n : Z) : string :=
  match width with
  | O => EmptyString
  | S w => pad w (n / 10) +:+ String (digit_char (n mod 10)) EmptyString
  end.

(** The date of the day [days] after 1970-01-01 in the proleptic
    Gregorian calendar: year, month, day. *)
Definition civil (days : Z) : Z * Z * Z :=
  let z := days + 719468 in
  let era := z / 146097 in
  let doe := z - era * 146097 in
  let yoe := (doe - doe / 1460 + doe / 36524 - doe / 146096) / 365 in
  let doy := doe - (365 * yoe + yoe / 4 - yoe / 100) in
  let mp := (5 * doy + 2) / 153 in
  let d := doy - (153 * mp + 2) / 5 + 1 in
  let m := if mp <? 10 then mp + 3 else mp - 9 in
  (yoe + era * 400 + (if m <=? 2 then 1 else 0), m, d).

(** The first digits of [n] written in [width] digits, up to its last
    digit that is not zero. *)
Fixpoint significant (width : nat) (n : Z) : string :=
  match width with
  | O => EmptyString
  | S w =>
      if n =? 0 then EmptyString
      else String (digit_char (n / 10 ^ Z.of_nat w)) (significant w (n mod 10 ^ Z.of_nat w))
  end.

(** The fraction of a second, as the layout [.999999999] prints it:
    nothing for a whole second, no trailing zeros. *)
Definition fraction (nsec : Z) : string :=
  if nsec =? 0 then EmptyString else String "." (significant 9 nsec).

(** [Time.MarshalJSON] without its quotes, for an instant given in
    nanoseconds since 1970-01-01T00:00:00Z and a process whose local time
    is UTC; [None] is its error, a year outside 0..9999. *)
Definition formatTime (t : Z) : option string :=
  let sec := t / 10 ^ 9 in
  let nsec := t mod 10 ^ 9 in
  let rem := sec mod 86400 in
  let '(y, m, d) := civil (sec / 86400) in
  if in_range 0 9999 y then
    Some (pad 4 y +:+ "-" +:+ pad 2 m +:+ "-" +:+ pad 2 d +:+ "T"
          +:+ pad 2 (rem / 3600) +:+ ":" +:+ pad 2 (rem mod 3600 / 60) +:+ ":"
          +:+ pad 2 (rem mod 60) +:+ fraction nsec +:+ "Z")
  else None.

Definition nl : string := String "010"%char EmptyString.

Definition indent (depth : nat) : string :=
  string_of_list_ascii (repeat " "%char (2 * depth)).

(** One member of an object at nesting level [depth]. *)
Definition member (depth : nat) (name value : string) : string :=
  indent depth +:+ String dq (name +:+ String dq (": " +:+ value)).

Definition marshalEntry (e : CacheEntry) : option string :=
  match formatTime (CreatedAt e) with
  | None => None
  | Some created =>
      Some ("{" +:+ nl
            +:+ member 3 "key" (quote (Key e)) +:+ "," +:+ nl
            +:+ member 3 "file_path" (quote (FilePath e)) +:+ "," +:+ nl
            +:+ member 3 "size" (FormatInt (Size e)) +:+ "," +:+ nl
            +:+ member 3 "content_type" (quote (ContentType e)) +:+ "," +:+ nl
            +:+ member 3 "created_at" (String dq (created +:+ String dq EmptyString)) +:+ nl
            +:+ indent 2 +:+ "}")
  end.

Definition marshalElem (x : option CacheEntry) : option string :=
  match x with
  | None => Some "null"
  | Some e => marshalEntry e
  end.

(** The elements of the array, one per line, separated by commas. *)
Fixpoint marshalElems (xs : list (option CacheEntry)) : option string :=
  match xs with
  | [] => Some EmptyString
  | x :: rest =>
      match marshalElem x, marshalElems rest with
      | Some sx, Some srest =>
          Some (indent 2 +:+ sx
                +:+ (match rest with [] => EmptyString | _ => "," end) +:+ nl +:+ srest)
      | _, _ => None
      end
  end.

(** [json.MarshalIndent(idx, "", "  ")] for an index whose slice is not
    nil, as [saveIndex] builds it. *)
Definition MarshalIndent (idx : cacheIndex) : option string :=
  match Entries idx with
  | [] => Some ("{" +:+ nl +:+ member 1 "entries" "[]" +:+ nl +:+ "}")
  | xs =>
      match marshalElems xs with
      | Some elems =>
          Some ("{" +:+ nl +:+ member 1 "entries" "[" +:+ nl
                +:+ elems +:+ indent 1 +:+ "]" +:+ nl +:+ "}")
      | None => None
      end
  end.

(** *** Decoding: the scanner *)

Inductive token :=
| TLBrace | TRBrace | TLBracket | TRBracket | TColon | TComma
| TString (raw : string)     (* the bytes between the quotes, escapes as written *)
| TNumber (raw : string)
| TTrue | TFalse | TNull.

Definition is_digit (b : Z) : bool := in_range 48 57 b.

Definition is_hex (b : Z) : bool :=
  is_digit b || in_range 97 102 b || in_range 65 70 b.

Fixpoint skip_digits (s : string) : string :=
  match s with
  | String c s' => if is_digit (code c) then skip_digits s' else s
  | EmptyString => s
  end.

(** One or more digits, then the rest. *)
Definition digits1 (s : string) : option string :=
  match s with
  | String c s' => if is_digit (code c) then Some (skip_digits s') else None
  | EmptyString => None
  end.

(** The grammar of a JSON number. *)
Definition valid_number (s : string) : bool :=
  let s := match s with
           | String c s' => if code c =? 45 then s' else s
           | EmptyString => s
           end in
  let after_int :=
    match s with
    | String c s' =>
        if code c =? 48 then Some s'
        else if in_range 49 57 (code c) then Some (skip_digits s')
        else None
    | EmptyString => None
    end in
  let after_frac :=
    match after_int with
    | Some (String c s') => if code c =? 46 then digits1 s' else after_int
    | other => other
    end in
  let after_exp :=
    match after_frac with
    | Some (String c s') =>
        if (code c =? 101) || (code c =? 69) then
          match s' with
          | String c' s'' =>
              if (code c' =? 43) || (code c' =? 45) then digits1 s'' else digits1 s'
          | EmptyString => None
          end
        else after_frac
    | other => other
    end in
  match after_exp with
  | Some EmptyString => true
  | _ => false
  end.

Definition word_token (w : string) : option token :=
  if String.eqb w "true" then Some TTrue
  else if String.eqb w "false" then Some TFalse
  else if String.eqb w "null" then Some TNull
  else None.

(** Where the scanner is: between tokens, or inside a string, a number or
    a literal name, with the bytes read so far (latest first). *)
Inductive scan :=
| SBetween
| SString (acc : list ascii)
| SEscape (acc : list ascii)
| SUnicode (acc : list ascii) (more : nat)
| SNumber (acc : list ascii)
| SWord (acc : list ascii).

Definition text (acc : list ascii) : string := string_of_list_ascii (rev acc).

(** A byte met between tokens. *)
Definition scan_between (c : ascii) (out : list token) : option (scan * list token) :=
  let b := code c in
  if (b =? 32) || (b =? 9) || (b =? 13) || (b =? 10) then Some (SBetween, out)
  else if b =? 123 then Some (SBetween, TLBrace :: out)
  else if b =? 125 then Some (SBetween, TRBrace :: out)
  else if b =? 91 then Some (SBetween, TLBracket :: out)
  else if b =? 93 then Some (SBetween, TRBracket :: out)
  else if b =? 58 then Some (SBetween, TColon :: out)
  else if b =? 44 then Some (SBetween, TComma :: out)
  else if b =? 34 then Some (SString [], out)
  else if (b =? 45) || is_digit b then Some (SNumber [c], out)
  else if in_range 97 122 b then Some (SWord [c], out)
  else None.

Definition scan_step (st : scan) (c : ascii) (out : list token)
  : option (scan * list token) :=
  let b := code c in
  match st with
  | SBetween => scan_between c out
  | SString acc =>
      if b =? 34 then Some (SBetween, TString (text acc) :: out)
      else if b =? 92 then Some (SEscape (c :: acc), out)
      else if b <? 32 then None
      else Some (SString (c :: acc), out)
  | SEscape acc =>
      if b =? 117 then Some (SUnicode (c :: acc) 4, out)
      else if (b =? 34) || (b =? 92) || (b =? 47) || (b =? 98) || (b =? 102)
              || (b =? 110) || (b =? 114) || (b =? 116)
      then Some (SString (c :: acc), out)
      else None
  | SUnicode acc more =>
      if is_hex b then
        match more with
        | S (S n) => Some (SUnicode (c :: acc) (S n), out)
        | _ => Some (SString (c :: acc), out)
        end
      else None
  | SNumber acc =>
      if is_digit b || (b =? 43) || (b =? 45) || (b =? 46) || (b =? 101) || (b =? 69)
      then Some (SNumber (c :: acc), out)
      else if valid_number (text acc) then scan_between c (TNumber (text acc) :: out)
      else None
  | SWord acc =>
      if in_range 97 122 b then Some (SWord (c :: acc), out)
      else match word_token (text acc) with
           | Some t => scan_between c (t :: out)
           | None => None
           end
  end.

Fixpoint scan_all (st : scan) (s : string) (out : list token) : option (list token) :=
  match s with
  | String c s' =>
      match scan_step st c out with
      | Some (st', out') => scan_all st' s' out'
      | None => None
      end
  | EmptyString =>
      match st with
      | SBetween => Some (rev out)
      | SNumber acc =>
          if valid_number (text acc) then Some (rev (TNumber (text acc) :: out)) else None
      | SWord acc =>
          match word_token (text acc) with
          | Some t => Some (rev (t :: out))
          | None => None
          end
      | _ => None
      end
  end.

(** *** Decoding: values *)

#[warnings="-register-all"]
Inductive json :=
| JNull
| JBool (b : bool)
| JNumber (raw : string)
| JString (raw : string)
| JArray (items : list json)
| JObject (members : list (string * json)).

(** Nesting deeper than this is a syntax error. *)
Definition maxNestingDepth : nat := Z.to_nat 10000.

Fixpoint parse_value (fuel depth : nat) (ts : list token) : option (json * list token) :=
  match fuel with
  | O => None
  | S f =>
      match ts with
      | TNull :: r => Some (JNull, r)
      | TTrue :: r => Some (JBool true, r)
      | TFalse :: r => Some (JBool false, r)
      | TNumber raw :: r => Some (JNumber raw, r)
      | TString raw :: r => Some (JString raw, r)
      | TLBracket :: r =>
          match depth with
          | O => None
          | S dp =>
              match r with
              | TRBracket :: r' => Some (JArray [], r')
              | _ => parse_items f dp r []
              end
          end
      | TLBrace :: r =>
          match depth with
          | O => None
          | S dp =>
              match r with
              | TRBrace :: r' => Some (JObject [], r')
              | _ => parse_members f dp r []
              end
          end
      | _ => None
      end
  end
with parse_items (fuel depth : nat) (ts : list token) (acc : list json)
  : option (json * list token) :=
  match fuel with
  | O => None
  | S f =>
      match parse_value f depth ts with
      | Some (v, TComma :: r) => parse_items f depth r (v :: acc)
      | Some (v, TRBracket :: r) => Some (JArray (rev (v :: acc)), r)
      | _ => None
      end
  end
with parse_members (fuel depth : nat) (ts : list token) (acc : list (string * json))
  : option (json * list token) :=
  match fuel with
  | O => None
  | S f =>
      match ts with
      | TString k :: TColon :: r =>
          match parse_value f depth r with
          | Some (v, TComma :: r') => parse_members f depth r' ((k, v) :: acc)
          | Some (v, TRBrace :: r') => Some (JObject (rev ((k, v) :: acc)), r')
          | _ => None
          end
      | _ => None
      end
  end.

(** The text as one JSON value, or [None] for a syntax error. *)
Definition parse (s : string) : option json :=
  match scan_all SBetween s [] with
  | Some ts =>
      match parse_value (S (length ts)) maxNestingDepth ts with
      | Some (v, []) => Some v
      | _ => None
      end
  | None => None
  end.

(** *** Decoding: strings *)

Definition hexval (c : ascii) : option Z :=
  let b := code c in
  if is_digit b then Some (b - 48)
  else if in_range 97 102 b then Some (b - 87)
  else if in_range 65 70 b then Some (b - 55)
  else None.

(** The value of [\uXXXX] at the head of [s]. *)
Definition getu4 (s : string) : option Z :=
  match s with
  | String c0 (String c1 (String h1 (String h2 (String h3 (String h4 _))))) =>
      if (code c0 =? 92) && (code c1 =? 117) then
        match hexval h1, hexval h2, hexval h3, hexval h4 with
        | Some a, Some b, Some c, Some d => Some (((a * 16 + b) * 16 + c) * 16 + d)
        | _, _, _, _ => None
        end
      else None
  | _ => None
  end.

(** The byte a one-letter escape stands for. *)
Definition unescape (c : ascii) : ascii :=
  let b := code c in
  if b =? 98 then chr 8
  else if b =? 102 then chr 12
  else if b =? 110 then chr 10
  else if b =? 114 then chr 13
  else if b =? 116 then chr 9
  else c.

(** The Go string a literal stands for: escapes are resolved, two
    surrogate escapes that pair are one rune, and whatever is not valid
    UTF-8 becomes U+FFFD. *)
Fixpoint unquote_loop (fuel : nat) (s : string) : string :=
  match fuel with
  | O => EmptyString
  | S f =>
      match s with
      | EmptyString => EmptyString
      | String c rest =>
          let b := code c in
          if b =? 92 then
            match rest with
            | String e rest' =>
                if code e =? 117 then
                  match getu4 s with
                  | Some rr =>
                      let after := sdrop 6 s in
                      if in_range 55296 57343 rr then
                        match getu4 after with
                        | Some rr1 =>
                            if in_range 55296 56319 rr && in_range 56320 57343 rr1 then
                              EncodeRune ((rr - 55296) * 1024 + (rr1 - 56320) + 65536)
                              +:+ unquote_loop f (sdrop 6 after)
                            else EncodeRune RuneError +:+ unquote_loop f after
                        | None => EncodeRune RuneError +:+ unquote_loop f after
                        end
                      else EncodeRune rr +:+ unquote_loop f after
                  | None => EmptyString
                  end
                else String (unescape e) (unquote_loop f rest')
            | EmptyString => EmptyString
            end
          else if b <? 128 then String c (unquote_loop f rest)
          else
            let '(r, size) := DecodeRune s in
            EncodeRune r +:+ unquote_loop f (sdrop size s)
      end
  end.

Definition unquote (raw : string) : string := unquote_loop (String.length raw) raw.

(** *** Decoding: [time.Time] *)

(** The decimal number [s] when it consists of digits and lies within
    [lo..hi]. *)
Definition parseUint (s : string) (lo hi : Z) : option Z :=
  match parse_digits s 0 with
  | Some x => if in_range lo hi x then Some x else None
  | None => None
  end.

Definition isLeap (year : Z) : bool :=
  (year mod 4 =? 0) && (negb (year mod 100 =? 0) || (year mod 400 =? 0)).

Definition daysIn (month year : Z) : Z :=
  if month =? 2 then (if isLeap year then 29 else 28)
  else if (month =? 4) || (month =? 6) || (month =? 9) || (month =? 11) then 30
  else 31.

(** Days from 1970-01-01 to the given date. *)
Definition days_from_civil (y m d : Z) : Z :=
  let y := if m <=? 2 then y - 1 else y in
  let era := y / 400 in
  let yoe := y - era * 400 in
  let mp := (m + 9) mod 12 in
  let doy := (153 * mp + 2) / 5 + d - 1 in
  let doe := yoe * 365 + yoe / 4 - yoe / 100 + doy in
  era * 146097 + doe - 719468.

(** A field of [width] digits with a value within [lo..hi], and the rest. *)
Definition field (width : nat) (lo hi : Z) (s : string) : option (Z * string) :=
  match parseUint (stake width s) lo hi with
  | Some x => Some (x, sdrop width s)
  | None => None
  end.

(** The byte [b], and the rest. *)
Definition expect (b : Z) (s : string) : option string :=
  match s with
  | String c s' => if code c =? b then Some s' else None
  | EmptyString => None
  end.

(** The digits at the head of [s], and the rest. *)
Fixpoint span_digits (s : string) : string * string :=
  match s with
  | String c s' =>
      if is_digit (code c) then let '(d, r) := span_digits s' in (String c d, r)
      else (EmptyString, s)
  | EmptyString => (EmptyString, EmptyString)
  end.

(** The digits after the decimal point as nanoseconds; digits after the
    ninth are dropped. *)
Definition parseNanoseconds (digits : string) : Z :=
  let d := stake 9 digits in
  match parse_digits d 0 with
  | Some x => x * 10 ^ (9 - Z.of_nat (String.length d))
  | None => 0
  end.

(** The fraction of a second at the head of [s], when there is one (a
    point and at least one digit), in nanoseconds, and the rest. *)
Definition parseFraction (s : string) : Z * string :=
  match s with
  | String p s' =>
      if code p =? 46 then
        match span_digits s' with
        | (EmptyString, _) => (0, s)
        | (d, rest) => (parseNanoseconds d, rest)
        end
      else (0, s)
  | EmptyString => (0, s)
  end.

(** The zone at the end of a time: [Z], or an offset [+hh:mm] or [-hh:mm],
    in seconds east of UTC. *)
Definition parseZone (s : string) : option Z :=
  if String.eqb s "Z" then Some 0
  else if negb (String.length s =? 6)%nat then None
  else
    match s with
    | String sign s1 =>
        match field 2 0 23 s1 with
        | Some (hr, s2) =>
            match expect 58 s2 with
            | Some s3 =>
                match field 2 0 59 s3 with
                | Some (mm, _) =>
                    if code sign =? 45 then Some (- ((hr * 60 + mm) * 60))
                    else if code sign =? 43 then Some ((hr * 60 + mm) * 60)
                    else None
                | None => None
                end
            | None => None
            end
        | None => None
        end
    | EmptyString => None
    end.

(** The strict RFC 3339 reading of a time ([2006-01-02T15:04:05], an
    optional fraction, then the zone), in nanoseconds since
    1970-01-01T00:00:00Z; [None] when the text has no such reading. *)
Definition parseRFC3339 (s : string) : option Z :=
  if (String.length s <? 19)%nat then None
  else
    match field 4 0 9999 s with
    | Some (year, s) =>
    match expect 45 s with
    | Some s =>
    match field 2 1 12 s with
    | Some (month, s) =>
    match expect 45 s with
    | Some s =>
    match field 2 1 (daysIn month year) s with
    | Some (day, s) =>
    match expect 84 s with
    | Some s =>
    match field 2 0 23 s with
    | Some (hour, s) =>
    match expect 58 s with
    | Some s =>
    match field 2 0 59 s with
    | Some (min, s) =>
    match expect 58 s with
    | Some s =>
    match field 2 0 59 s with
    | Some (sec, s) =>
        let '(nsec, s) := parseFraction s in
        match parseZone s with
        | Some offset =>
            Some ((days_from_civil year month day * 86400
                   + hour * 3600 + min * 60 + sec - offset) * 10 ^ 9 + nsec)
        | None => None
        end
    | None => None end
    | None => None end
    | None => None end
    | None => None end
    | None => None end
    | None => None end
    | None => None end
    | None => None end
    | None => None end
    | None => None end
    | None => None end.

(** The zero [time.Time], 0001-01-01T00:00:00Z. *)
Definition zeroTime : Z := - 62135596800 * 10 ^ 9.

(** *** Decoding: the index *)

(** The result of decoding a member: [None] is an error of
    [json.Unmarshal]; otherwise the value, and whether it is certain. *)
Definition decoding (A : Type) : Type := option (bool * A).

Definition is_ascii (s : string) : bool :=
  forallb (fun c => code c <? 128) (list_ascii_of_string s).

Definition lower (c : ascii) : ascii :=
  if in_range 65 90 (code c) then chr (code c + 32) else c.

Definition lower_string (s : string) : string :=
  string_of_list_ascii (map lower (list_ascii_of_string s)).

(** The field a member name selects among [names]: the name itself, or,
    for an ASCII name, the field it equals up to the case of letters. *)
Definition field_of (names : list string) (key : string) : option string :=
  if existsb (String.eqb key) names then Some key
  else if existsb (String.eqb (lower_string key)) names then Some (lower_string key)
  else None.

Definition decode_string (cur : string) (v : json) : decoding string :=
  match v with
  | JString raw => Some (true, unquote raw)
  | JNull => Some (true, cur)
  | _ => None
  end.

Definition decode_int64 (cur : Z) (v : json) : decoding Z :=
  match v with
  | JNumber raw =>
      match ParseInt raw with
      | Some n => Some (true, n)
      | None => None
      end
  | JNull => Some (true, cur)
  | _ => None
  end.

(** [Time.UnmarshalJSON]: it is handed the literal as written. *)
Definition decode_time (cur : Z) (v : json) : decoding Z :=
  match v with
  | JString raw =>
      match parseRFC3339 raw with
      | Some t => Some (true, t)
      | None => Some (false, cur)
      end
  | JNull => Some (true, cur)
  | _ => None
  end.

Definition entry_fields : list string :=
  ["key"; "file_path"; "size"; "content_type"; "created_at"].

(** One member of the object of an entry, decoded into [e]; [seen] lists
    the fields met before in this object. *)
Definition decode_entry_member (acc : decoding (CacheEntry * list string))
    (m : string * json) : decoding (CacheEntry * list string) :=
  match acc with
  | None => None
  | Some (sure, (e, seen)) =>
      let name := unquote m.1 in
      if negb (is_ascii name) then Some (false, (e, seen))
      else
        match field_of entry_fields name with
        | None => Some (sure, (e, seen))
        | Some f =>
            let sure := sure && negb (existsb (String.eqb f) seen) in
            let put (r : decoding CacheEntry) :=
              match r with
              | Some (s, e') => Some (sure && s, (e', f :: seen))
              | None => None
              end in
            if String.eqb f "key" then
              put (match decode_string (Key e) m.2 with
                   | Some (s, x) =>
                       Some (s, mkCacheEntry x (FilePath e) (Size e) (ContentType e) (CreatedAt e))
                   | None => None
                   end)
            else if String.eqb f "file_path" then
              put (match decode_string (FilePath e) m.2 with
                   | Some (s, x) =>
                       Some (s, mkCacheEntry (Key e) x (Size e) (ContentType e) (CreatedAt e))
                   | None => None
                   end)
            else if String.eqb f "size" then
              put (match decode_int64 (Size e) m.2 with
                   | Some (s, x) =>
                       Some (s, mkCacheEntry (Key e) (FilePath e) x (ContentType e) (CreatedAt e))
                   | None => None
                   end)
            else if String.eqb f "content_type" then
              put (match decode_string (ContentType e) m.2 with
                   | Some (s, x) =>
                       Some (s, mkCacheEntry (Key e) (FilePath e) (Size e) x (CreatedAt e))
                   | None => None
                   end)
            else
              put (match decode_time (CreatedAt e) m.2 with
                   | Some (s, x) =>
                       Some (s, mkCacheEntry (Key e) (FilePath e) (Size e) (ContentType e) x)
                   | None => None
                   end)
        end
  end.

(** An element of the array: [null] is a nil pointer, an object a new
    entry. *)
Definition decode_elem (v : json) : decoding (option CacheEntry) :=
  match v with
  | JNull => Some (true, None)
  | JObject members =>
      match fold_left decode_entry_member members
                      (Some (true, (mkCacheEntry "" "" 0 "" zeroTime, []))) with
      | Some (sure, (e, _)) => Some (sure, Some e)
      | None => None
      end
  | _ => None
  end.

Fixpoint decode_elems (items : list json) : decoding (list (option CacheEntry)) :=
  match items with
  | [] => Some (true, [])
  | v :: rest =>
      match decode_elem v, decode_elems rest with
      | Some (s1, x), Some (s2, xs) => Some (s1 && s2, x :: xs)
      | _, _ => None
      end
  end.

Definition decode_entries (v : json) : decoding (list (option CacheEntry)) :=
  match v with
  | JNull => Some (true, [])
  | JArray items => decode_elems items
  | _ => None
  end.

Definition decode_index_member (acc : decoding (list (option CacheEntry) * bool))
    (m : string * json) : decoding (list (option CacheEntry) * bool) :=
  match acc with
  | None => None
  | Some (sure, (es, seen)) =>
      let name := unquote m.1 in
      if negb (is_ascii name) then Some (false, (es, seen))
      else
        match field_of ["entries"] name with
        | None => Some (sure, (es, seen))
        | Some _ =>
            match decode_entries m.2 with
            | Some (s, es') => Some (sure && s && negb seen, (es', true))
            | None => None
            end
        end
  end.

Inductive outcome :=
| Decoded (idx : cacheIndex)
| Refused          (* [json.Unmarshal] returns an error *)
| Beyond.          (* the library decides, by rules not described here *)

Definition decode_index (v : json) : outcome :=
  match v with
  | JNull => Decoded (mkCacheIndex [])
  | JObject members =>
      match fold_left decode_index_member members (Some (true, ([], false))) with
      | Some (true, (es, _)) => Decoded (mkCacheIndex es)
      | Some (false, _) => Beyond
      | None => Refused
      end
  | _ => Refused
  end.

(** [json.Unmarshal(data, &idx)] into a zero [cacheIndex]. *)
Definition Unmarshal (data : list byte) : outcome :=
  match parse (string_of_list_byte data) with
  | Some v => decode_index v
  | None => Refused
  end.

(** The two calls as [saveIndex] and [loadAndCleanup] see them.  The
    error of [MarshalIndent] does not arise for the instants a running
    proxy stores; it is given the empty text.  A text that is [Beyond]
    is counted as not decoding. *)
Definition marshal (idx : cacheIndex) : list byte :=
  match MarshalIndent idx with
  | Some s => list_byte_of_string s
  | None => []
  end.

Definition unmarshal (data : list byte) : option cacheIndex :=
  match Unmarshal data with
  | Decoded idx => Some idx
  | _ => None
  end.

(** *** The text of an index, piece by piece

    What the properties of the two calls are stated with: the entries the
    encoder writes as they are, and the tokens and the value of the text
    it writes for them. *)

(** [p] is a run of bytes inside a string literal that the scanner reads
    through. *)
Definition lit_ok (p : string) : Prop :=
  forall (acc : list ascii) (rest : string) (out : list token),
  scan_all (SString acc) (p +:+ rest) out
  = scan_all (SString (rev (list_ascii_of_string p) ++ acc)) rest out.

(** [p] is a run of bytes inside a string literal that stands for the
    bytes [orig]. *)
Definition unquotes (p orig : string) : Prop :=
  forall X : string, unquote (p +:+ X) = orig +:+ unquote X.

Definition all_digits (s : string) : Prop :=
  Forall (fun c => is_digit (code c) = true) (list_ascii_of_string s).

(** The scanner, between tokens, reads [p] and finds the tokens [toks]. *)
Definition scans (p : string) (toks : list token) : Prop :=
  forall (rest : string) (out : list token),
  scan_all SBetween (p +:+ rest) out
  = scan_all SBetween rest (rev toks ++ out).

(** The instants [Time.MarshalJSON] accepts: those of the years 0 to
    9999. *)
Definition time_ok (t : Z) : Prop :=
  -62167219200 * 10 ^ 9 <= t < 253402300800 * 10 ^ 9.

(** The entries every field of which the encoder writes as it is: strings
    of valid UTF-8, a size that is an [int64], a creation time in the
    years 0 to 9999. *)
Definition entry_valid (e : CacheEntry) : Prop :=
  ValidString (Key e) = true /\
  ValidString (FilePath e) = true /\
  ValidString (ContentType e) = true /\
  Int64.min_int <= Size e <= Int64.max_int /\
  time_ok (CreatedAt e).

Definition elem_valid (x : option CacheEntry) : Prop :=
  match x with Some e => entry_valid e | None => True end.

(** The literal of a string without its quotes. *)
Definition quoted (s : string) : string := quote_loop (String.length s) s.

Definition timeText (t : Z) : string :=
  match formatTime t with Some s => s | None => EmptyString end.

(** The tokens of the text of an entry, of an element and of an index. *)
Definition entry_tokens (e : CacheEntry) : list token :=
  [TLBrace;
   TString "key"; TColon; TString (quoted (Key e)); TComma;
   TString "file_path"; TColon; TString (quoted (FilePath e)); TComma;
   TString "size"; TColon; TNumber (FormatInt (Size e)); TComma;
   TString "content_type"; TColon; TString (quoted (ContentType e));
   TComma;
   TString "created_at"; TColon; TString (timeText (CreatedAt e));
   TRBrace].

Definition elem_tokens (x : option CacheEntry) : list token :=
  match x with Some e => entry_tokens e | None => [TNull] end.

Fixpoint elems_tokens (xs : list (option CacheEntry)) : list token :=
  match xs with
  | [] => []
  | x :: rest =>
      elem_tokens x ++ (match rest with [] => [] | _ => [TComma] end) ++ elems_tokens rest
  end.

Definition index_tokens (xs : list (option CacheEntry)) : list token :=
  [TLBrace; TString "entries"; TColon; TLBracket]
  ++ elems_tokens xs ++ [TRBracket; TRBrace].

(** The values the texts stand for. *)
Definition entry_json (e : CacheEntry) : json :=
  JObject
    [("key", JString (quoted (Key e)));
     ("file_path", JString (quoted (FilePath e)));
     ("size", JNumber (FormatInt (Size e)));
     ("content_type", JString (quoted (ContentType e)));
     ("created_at", JString (timeText (CreatedAt e)))].

Definition elem_json (x : option CacheEntry) : json :=
  match x with Some e => entry_json e | None => JNull end.

Definition index_json (xs : list (option CacheEntry)) : json :=
  JObject [("entries", JArray (map elem_json xs))].

End Json.

(* ===================================================================== *)
(** ** The three forms of a Range header, as section 4.7 words them *)
(* ===================================================================== *)

(** Whether byte [c] occurs in [s]. *)
Fixpoint has_byte (c : ascii) (s : string) : bool :=
  match s with
  | EmptyString => false
  | String b s' => Ascii.eqb b c || has_byte c s'
  end.

(** A numeral of a Range header: it has no ["-"] and [strconv.ParseInt]
    reads it as [n]. *)
Definition numeral (s : string) (n : Z) : Prop :=
  has_byte "-" s = false /\ ParseInt s = Some n.

(** [range_form size h start end]: the header [h] is one of the accepted
    forms and stands, before any check against the size, for the bytes
    from [start] to [end].
    - [bytes=A-B]: [start = A], [end = B];
    - [bytes=A-]:  [start = A], [end = size - 1];
    - [bytes=-N]:  [start = max 0 (size - N)], [end = size - 1]. *)
Inductive range_form (size : Z) : string -> Z -> Z -> Prop :=
| form_both (A B : string) (a b : Z) :
    numeral A a -> numeral B b ->
    range_form size ("bytes=" +:+ A +:+ "-" +:+ B) a b
| form_from (A : string) (a : Z) :
    numeral A a ->
    range_form size ("bytes=" +:+ A +:+ "-") a (size - 1)
| form_suffix (N : string) (n : Z) :
    numeral N n ->
    range_form size ("bytes=-" +:+ N) (Z.max 0 (size - n)) (size - 1).

(** The 416 answer of [serveRangeFromFile] on a fresh writer with the
    headers [hdr] set before. *)
Definition rangeNotSatisfiable (hdr : gmap string string) (conn : option nat)
    (totalSize : Z) : ResponseWriter :=
  Error (mkRW (<["Content-Range" := contentRangeUnsatisfied totalSize]> hdr) None [] conn)
        "Range Not Satisfiable" StatusRequestedRangeNotSatisfiable.

(* ===================================================================== *)
(** ** Invariants *)
(* ===================================================================== *)

(** A streaming file that records an error is done and its file is gone. *)
Definition SF_aborted_ok (st : StreamingFile * Disk) : Prop :=
  sf_err st.1 <> None -> sf_done st.1 = true /\ st.2 !! sf_filePath st.1 = None.

(** Sum of the sizes of a list of completed entries. *)
Definition sum_sizes (l : list (LRU.entry CacheEntry)) : Z :=
  foldr (fun e acc => Size (LRU.e_value e) + acc) 0 l.

(** The disk after the files of a list of entries have been unlinked. *)
Definition unlink_all (l : list (LRU.entry CacheEntry)) (d : Disk) : Disk :=
  foldr (fun e acc => delete (FilePath (LRU.e_value e)) acc) d l.

(** Completed entries hold byte counts and name their file. *)
Definition entry_ok (e : LRU.entry CacheEntry) : Prop :=
  0 <= Size (LRU.e_value e) /\ FilePath (LRU.e_value e) <> EmptyString.

(** The completed store as [NewCache] makes it and the operations keep
    it: unbounded, with a positive time to live, its entries well formed,
    and [totalSize] at least the sum of their sizes. *)
Definition completed_ok (c : Cache) : Prop :=
  LRU.capacity (fileCache c) = 0%nat /\
  0 < LRU.ttl (fileCache c) /\
  Forall entry_ok (LRU.items (fileCache c)) /\
  sum_sizes (LRU.items (fileCache c)) <= totalSize c.

(** A stand-in for the digest in closed examples; no property below
    depends on which function names the files. *)
Definition hex_name (key : string) : string := "ab" +:+ key.

(** The keys in an LRU, expired or not. *)
Definition keys_of {V : Type} (l : LRU.t V) : list string :=
  map LRU.e_key (LRU.items l).

(** A key is in at most one of the completed store and the pending map. *)
Definition exclusive (c : Cache) : Prop :=
  forall key, ~ (in_completed c key /\ in_pending c key).

(** A sequence of operations in which [GetOrCreatePending] is only called
    for a key that the completed store does not hold at that moment. *)
Definition op_guarded (c : Cache) (o : cache_op) : Prop :=
  match o with
  | CGetOrCreatePending key _ => ~ in_completed c key
  | _ => True
  end.

Fixpoint ops_guarded (sha256_hex : string -> string) (c : Cache) (ops : list cache_op) : Prop :=
  match ops with
  | [] => True
  | o :: rest => op_guarded c o /\ ops_guarded sha256_hex (cache_step sha256_hex c o) rest
  end.

(** [intact d e]: on the disk [d] the file of entry [e] exists and has
    the size the entry records (the test of [loadAndCleanup]). *)
Definition intact (d : Disk) (e : CacheEntry) : bool :=
  match disk_stat d (FilePath e) with
  | Some sz => sz =? Size e
  | None => false
  end.

(** The entries of the completed store that [saveIndex] writes at [now]:
    those whose deadline has not passed, oldest first. *)
Definition live_entries (c : Cache) (now : Z) : list CacheEntry :=
  map LRU.e_value
      (List.filter (fun e => negb (LRU.expired now e)) (rev (LRU.items (fileCache c)))).

(** A well-formed completed store: one entry per key, stored under its own
    key; one file per entry; sizes are byte counts and their sum is an
    [int64]. *)
Definition store_wf (c : Cache) : Prop :=
  NoDup (keys_of (fileCache c)) /\
  NoDup (map (fun e => FilePath (LRU.e_value e)) (LRU.items (fileCache c))) /\
  Forall (fun e => Key (LRU.e_value e) = LRU.e_key e) (LRU.items (fileCache c)) /\
  Forall entry_ok (LRU.items (fileCache c)) /\
  sum_sizes (LRU.items (fileCache c)) <= Int64.max_int.

(** Sum of the sizes of a list of entries. *)
Definition total_of (es : list CacheEntry) : Z :=
  foldr (fun e acc => Size e + acc) 0 es.

(** The disk after the files of a list of index entries are unlinked. *)
Definition unlink_entries (es : list CacheEntry) (d : Disk) : Disk :=
  foldr (fun e acc => delete (FilePath e) acc) d es.

(** The LRU entries that loading [es] at [now] into [l] pushes, last
    loaded first. *)
Definition loaded_items (l : LRU.t CacheEntry) (now : Z) (es : list CacheEntry)
  : list (LRU.entry CacheEntry) :=
  rev (map (fun e => LRU.mkEntry (Key e) e (now + LRU.ttl l)) es).

(* ===================================================================== *)
(** ** States and runs used in the examples *)
(* ===================================================================== *)

Definition example_config : Config := mkConfig "http://origin" "/cache" 100 1000 50.

Definition entry_a : CacheEntry := mkCacheEntry "/a" "/cache/aa/a" 2 "text/plain" 1.
Definition entry_b : CacheEntry := mkCacheEntry "/b" "/cache/bb/b" 3 "image/png" 2.

(** A cache holding two completed entries, [/a] older than [/b]. *)
Definition example_store : Cache :=
  mkCache example_config
    (LRU.mkLRU 0 1000 [LRU.mkEntry "/b" entry_b 1002; LRU.mkEntry "/a" entry_a 1001])
    (LRU.NewLRU notFoundCapacity 50) 5 ∅ []
    (<["/cache/aa/a" := [x01; x02]%byte]> (<["/cache/bb/b" := [x01; x02; x03]%byte]> ∅)).

(** The disk found at the next start: the index as saved, the file of
    [/a] intact, the file of [/b] cut short, and a stray file. *)
Definition example_restart_disk (index : list byte) : Disk :=
  <["/cache/index.json" := index]>
    (<["/cache/aa/a" := [x01; x02]%byte]>
       (<["/cache/bb/b" := [x01]%byte]>
          (<["/cache/zz/stray" := [x00]%byte]> ∅))).

(** A completed entry whose key is not valid UTF-8, as a request for
    [/%ff] makes it, in a cache of its own. *)
Definition key_ff : string := String "/" (String "255"%char EmptyString).

Definition entry_ff : CacheEntry := mkCacheEntry key_ff "/cache/5d/ff" 2 "text/plain" 1.

Definition example_store_ff : Cache :=
  mkCache example_config
    (LRU.mkLRU 0 1000 [LRU.mkEntry key_ff entry_ff 1001])
    (LRU.NewLRU notFoundCapacity 50) 2 ∅ []
    (<["/cache/5d/ff" := [x01; x02]%byte]> ∅).

(** A cache whose entry [/a] is past its deadline from instant 6 on while
    the janitor has not removed it yet; [/b] is not. *)
Definition example_store_expired : Cache :=
  mkCache example_config
    (LRU.mkLRU 0 1000 [LRU.mkEntry "/b" entry_b 1002; LRU.mkEntry "/a" entry_a 5])
    (LRU.NewLRU notFoundCapacity 50) 5 ∅ []
    (<["/cache/aa/a" := [x01; x02]%byte]> (<["/cache/bb/b" := [x01; x02; x03]%byte]> ∅)).

(** A fresh proxy on an empty disk, as [NewProxy] returns it there. *)
Definition example_proxy : Proxy :=
  mkProxy (emptyCache example_config ∅) ∅ [] [] [].

(** An origin that answers 200 with a body of four bytes in two reads. *)
Definition example_origin (accepted1 accepted2 : nat) : upstream :=
  UpResponse 200 4 "text/plain"
    [mkRead [x01; x02]%byte ReadMore accepted1; mkRead [x03; x04]%byte ReadEOF accepted2].

(** Two GET requests for the same key on the fresh proxy. *)
Definition example_miss_storm : world :=
  let e := mkEnv 1 (example_origin 2 2) IoOk [] in
  mkWorld example_proxy [newRequest "GET" "/b.bin" e; newRequest "GET" "/b.bin" e].

(** The proxy when the first of them has created the pending download
    and is about to copy the body. *)
Definition example_pending_proxy : Proxy :=
  w_proxy (sched_run hex_name example_miss_storm [0; 0; 0; 0]%nat).

(** The bytes of a body that reach the copy loop: reads are followed up
    to the first one that ends the body. *)
Fixpoint body_bytes (body : list read) : list byte :=
  match body with
  | [] => []
  | rd :: rest =>
      match rd_end rd with
      | ReadMore => rd_data rd ++ body_bytes rest
      | _ => rd_data rd
      end
  end.

(** A request is the originator of a download while it copies the body
    with [isNew] set: it is the one that writes the streaming file. *)
Definition originator (t : thread) : bool :=
  match th_pc t with
  | PcStream _ d => dl_isNew d
  | _ => false
  end.

Definition writer_sf (t : thread) : option nat :=
  match th_pc t with
  | PcStream _ d => Some (dl_sf d)
  | _ => None
  end.

(** At any moment a key has at most one originator, and the streaming
    file it writes is the one the pending map holds for the key. *)
Definition one_originator (s : world) : Prop :=
  (forall i j ti tj,
      w_threads s !! i = Some ti -> w_threads s !! j = Some tj ->
      originator ti = true -> originator tj = true ->
      Path (th_req ti) = Path (th_req tj) -> i = j) /\
  (forall i ti,
      w_threads s !! i = Some ti -> originator ti = true ->
      pending (cache (w_proxy s)) !! Path (th_req ti) = writer_sf ti).

(* ===================================================================== *)
(** ** [StreamingFileReader] (cache.go) *)
(* ===================================================================== *)

Record StreamingFileReader := mkReader {
  r_offset : Z;
  r_file : bool          (* [file != nil]: the read handle is open *)
}.

Module Reader.

(** [io.EOF] *)
Definition io_EOF : string := "EOF".

(** [sf.NewReader()] *)
Definition New : StreamingFileReader := mkReader 0 false.

(** How one call of [Read] goes: it returns [n] bytes and an error, or it
    sits in [sf.cond.Wait()] because nothing is available and the writer
    has not finished. *)
Inductive outcome :=
| Returned (data : list byte) (err : option string)
| Blocked.

(** [file.ReadAt(p[:n], off)] on the file named [path]: the bytes present
    from [off] on, at most [n], with [io.EOF] when there are fewer. *)
Definition ReadAt (d : Disk) (path : string) (n : nat) (off : Z)
  : list byte * option string :=
  match d !! path with
  | Some content =>
      let data := take n (drop (Z.to_nat off) content) in
      (data, if (length data <? n)%nat then Some io_EOF else None)
  | None => ([], Some "file not found")
  end.

(** [r.Read(p)] with [len(p) = len_p], taken in one step: the state of the
    streaming file is the one the call sees under [sf.mu]. *)
Definition Read (sf : StreamingFile) (d : Disk) (r : StreamingFileReader) (len_p : nat)
  : StreamingFileReader * outcome :=
  let opened := r_file r || bool_decide (is_Some (d !! sf_filePath sf)) in
  if negb opened then (r, Returned [] (Some "open"))
  else
    let r := mkReader (r_offset r) true in
    match sf_err sf with
    | Some e => (r, Returned [] (Some e))
    | None =>
        let available := Int64.sub (sf_size sf) (r_offset r) in
        if available >? 0 then
          let toRead := Z.of_nat len_p in
          let toRead := if toRead >? available then available else toRead in
          let '(data, err) := ReadAt d (sf_filePath sf) (Z.to_nat toRead) (r_offset r) in
          (mkReader (Int64.add (r_offset r) (Z.of_nat (length data))) true,
           Returned data err)
        else if sf_done sf then (r, Returned [] (Some io_EOF))
        else (r, Blocked)
    end.

End Reader.

(** A writer and a reader of one streaming file, running side by side:
    what the writer does and the calls of [Read], in the order in which
    they take [sf.mu].  A call that waits goes on at a later [EvRead]. *)
Inductive event :=
| EvWriter (o : SF.op)
| EvRead (len_p : nat).

Record session := mkSession {
  ss_sf : StreamingFile;
  ss_disk : Disk;
  ss_reader : StreamingFileReader;
  ss_out : list byte;                     (* the bytes [Read] has returned *)
  ss_last : option Reader.outcome         (* how its latest call went *)
}.

Definition session_step (s : session) (ev : event) : session :=
  match ev with
  | EvWriter o =>
      let '(sf, d) := SF.step (ss_sf s, ss_disk s) o in
      mkSession sf d (ss_reader s) (ss_out s) (ss_last s)
  | EvRead len_p =>
      let '(r, res) := Reader.Read (ss_sf s) (ss_disk s) (ss_reader s) len_p in
      mkSession (ss_sf s) (ss_disk s) r
        (match res with Reader.Returned data _ => ss_out s ++ data | Reader.Blocked => ss_out s end)
        (Some res)
  end.

Definition session_run (s : session) (evs : list event) : session :=
  fold_left session_step evs s.

(** [NewStreamingFile(path)] followed by [sf.NewReader()]. *)
Definition open_session (d : Disk) (path : string) : session :=
  let '(sf, d') := SF.New d path in mkSession sf d' Reader.New [] None.

Definition writer_ops (evs : list event) : list SF.op :=
  omap (fun ev => match ev with EvWriter o => Some o | EvRead _ => None end) evs.

(** The bytes a sequence of writer operations puts into the file: what each
    [Write] got accepted, up to the first [Complete] or [Abort]. *)
Fixpoint written (ops : list SF.op) : list byte :=
  match ops with
  | SF.OpWrite p accepted :: rest => take (Nat.min accepted (length p)) p ++ written rest
  | _ => []
  end.

(** The results of [reader.Read] as the loop of [serveFromStreaming] sees
    them, for a reader that is called until it reports an error or the end. *)
Definition read_of (data : list byte) (err : option string) : read :=
  mkRead data
    (match err with
     | None => ReadMore
     | Some e => if String.eqb e Reader.io_EOF then ReadEOF else ReadFailed
     end) 0.

Fixpoint drain (fuel : nat) (sf : StreamingFile) (d : Disk) (r : StreamingFileReader)
    (len_p : nat) : list read :=
  match fuel with
  | O => []
  | S f =>
      match Reader.Read sf d r len_p with
      | (r', Reader.Returned data err) =>
          read_of data err ::
          (match err with None => drain f sf d r' len_p | Some _ => [] end)
      | (_, Reader.Blocked) => []
      end
  end.

Definition closes (o : SF.op) : bool :=
  match o with SF.OpWrite _ _ => false | _ => true end.

Definition op_data (o : SF.op) : list byte :=
  match o with
  | SF.OpWrite p accepted => take (Nat.min accepted (length p)) p
  | _ => []
  end.

(** The state of a streaming file after [ops], in terms of what was
    written. *)
Definition sf_tracks (path : string) (ops : list SF.op) (st : StreamingFile * Disk) : Prop :=
  sf_filePath st.1 = path /\
  sf_size st.1 = Z.of_nat (length (written ops)) /\
  sf_done st.1 = existsb closes ops /\
  (sf_err st.1 = None -> st.2 !! path = Some (written ops)) /\
  (sf_err st.1 <> None -> sf_done st.1 = true) /\
  (forall e, sf_err st.1 = Some e -> e = "download aborted").

(** What holds of a session after the events [evs]. *)
Definition session_ok (path : string) (evs : list event) (s : session) : Prop :=
  sf_tracks path (writer_ops evs) (ss_sf s, ss_disk s) /\
  r_offset (ss_reader s) = Z.of_nat (length (ss_out s)) /\
  ss_out s `prefix_of` written (writer_ops evs) /\
  (forall data, ss_last s = Some (Reader.Returned data (Some Reader.io_EOF)) ->
     data = [] /\ ss_out s = written (writer_ops evs) /\ sf_done (ss_sf s) = true).

(** The completed store as [NewCache] builds it and the library keeps it
    (unbounded, one entry per key), with [totalSize] the [int64] sum of the
    sizes of its entries. *)
Definition size_accounted (c : Cache) : Prop :=
  LRU.capacity (fileCache c) = 0%nat /\
  NoDup (keys_of (fileCache c)) /\
  totalSize c = Int64.wrap64 (sum_sizes (LRU.items (fileCache c))).

(** Whether the copy loop of [doFetchAndServe] meets a failing read of the
    upstream body before the body ends. *)
Fixpoint body_fails (body : list read) : bool :=
  match body with
  | [] => false
  | rd :: rest =>
      match rd_end rd with
      | ReadMore => body_fails rest
      | ReadEOF => false
      | ReadFailed => true
      end
  end.

(** The cache file takes every chunk of the body in full. *)
Definition writes_accepted (body : list read) : Prop :=
  Forall (fun rd => (length (rd_data rd) <= rd_accepted rd)%nat) body.

(** Two cache states that differ at most in the streaming files and the
    disk. *)
Definition same_frame (c' c : Cache) : Prop :=
  config c' = config c /\ fileCache c' = fileCache c /\
  notFoundCache c' = notFoundCache c /\ totalSize c' = totalSize c /\
  pending c' = pending c.

(** The headers [doFetchAndServe] sets on a 200 answer of the origin. *)
Definition missHeaders (w : ResponseWriter) (contentType : string) (expectedSize : Z)
  : ResponseWriter :=
  let w := SetHeader w "Content-Type" contentType in
  let w := SetHeader w "Accept-Ranges" "bytes" in
  let w := if expectedSize >=? 0
           then SetHeader w "Content-Length" (FormatInt expectedSize) else w in
  SetHeader w "X-Cache" "MISS".

(** The cache once [GetOrCreatePending] has created the download of [key]
    with the file [path]. *)
Definition pendingCreated (c : Cache) (key path : string) : Cache :=
  mkCache (config c) (fileCache c) (notFoundCache c) (totalSize c)
          (<[key := length (store c)]> (pending c))
          (store c ++ [mkSF path true 0 false None])
          (<[path := []]> (disk c)).

(** [strings.HasSuffix(s, suffix)] *)
Definition HasSuffix (s suffix : string) : bool :=
  (String.length suffix <=? String.length s)%nat
  && String.eqb (substring (String.length s - String.length suffix)
                           (String.length suffix) s) suffix.

(** [strings.TrimSuffix(s, suffix)] *)
Definition TrimSuffix (s suffix : string) : string :=
  if HasSuffix s suffix
  then substring 0 (String.length s - String.length suffix) s
  else s.

(** The URL that [doFetchAndServe] requests from the origin. *)
Definition upstreamURL (cfg : Config) (key : string) : string :=
  TrimSuffix (UpstreamURL cfg) "/" +:+ key.

(** The status line is not 206. *)
Definition not_partial (w : ResponseWriter) : Prop :=
  rw_status w <> Some StatusPartialContent.

(** Two cache states with the same negative cache, pending map, streaming
    files and configuration: what the completed store and its eviction
    callback never touch. *)
Definition same_rest (c' c : Cache) : Prop :=
  notFoundCache c' = notFoundCache c /\ pending c' = pending c /\
  store c' = store c /\ config c' = config c.

(** Every key of the pending map points to a streaming file of its own,
    which exists and is still open for writing. *)
Definition pending_live (c : Cache) : Prop :=
  (forall key l, pending c !! key = Some l ->
     exists o, store c !! l = Some o /\ sf_done o = false /\ sf_err o = None) /\
  (forall k1 k2 l, pending c !! k1 = Some l -> pending c !! k2 = Some l -> k1 = k2).

(** What happens to a cache between two requests' eyes: an operation of
    the cache, or a write of the downloading request to a streaming file. *)
Inductive cache_event :=
| CacheOp (o : cache_op)
| FileWrite (sf : nat) (data : list byte) (accepted : nat).

Definition event_step (sha256_hex : string -> string) (c : Cache) (ev : cache_event) : Cache :=
  match ev with
  | CacheOp o => cache_step sha256_hex c o
  | FileWrite sf data accepted => (store_Write c sf data accepted).1
  end.

(** A list of keys without [key]. *)
Definition without (key : string) (keys : list string) : list string :=
  List.filter (fun k => negb (String.eqb k key)) keys.

(** The negative cache is bounded and within its bound. *)
Definition negative_bounded (n : nat) (c : Cache) : Prop :=
  LRU.capacity (notFoundCache c) = n /\ (0 < n)%nat /\
  (LRU.Len (notFoundCache c) <= n)%nat.

(* ===================================================================== *)
(** * Properties *)
(* ===================================================================== *)

(** ** Arithmetic on [int64] *)

Lemma wrap64_small (z : Z) : Int64.in_range z -> Int64.wrap64 z = z.
Proof.
  unfold Int64.in_range, Int64.min_int, Int64.max_int, Int64.wrap64.
  intros H. rewrite Z.mod_small by lia. lia.
Qed.

Lemma Int64_add_small (a b : Z) : Int64.in_range (a + b) -> Int64.add a b = a + b.
Proof. apply wrap64_small. Qed.

Lemma Int64_sub_small (a b : Z) : Int64.in_range (a - b) -> Int64.sub a b = a - b.
Proof. apply wrap64_small. Qed.

(** ** Strings *)

Lemma append_nil_l (s : string) : EmptyString +:+ s = s.
Proof. reflexivity. Qed.

Lemma append_cons_l (c : ascii) (a s : string) : String c a +:+ s = String c (a +:+ s).
Proof. reflexivity. Qed.

Lemma strip_prefix_app (p s : string) : strip_prefix p (p +:+ s) = Some s.
Proof.
  induction p as [|a p IH]; [reflexivity|].
  rewrite append_cons_l. simpl. rewrite Ascii.eqb_refl. exact IH.
Qed.

Lemma strip_prefix_inv (p s r : string) : strip_prefix p s = Some r -> s = p +:+ r.
Proof.
  revert s. induction p as [|a p IH]; intros s H; simpl in H.
  - injection H as ->. reflexivity.
  - destruct s as [|b s]; [discriminate|].
    destruct (Ascii.eqb a b) eqn:E; [|discriminate].
    apply Ascii.eqb_eq in E. subst b. rewrite append_cons_l. f_equal. auto.
Qed.

Lemma Split_no_sep (s : string) (sep : ascii) :
  has_byte sep s = false -> Split s sep = [s].
Proof.
  induction s as [|c s IH]; simpl; intros H; [reflexivity|].
  apply orb_false_iff in H as [Hc Hs]. rewrite Hc, (IH Hs). reflexivity.
Qed.

Lemma Split_two (A B : string) (sep : ascii) :
  has_byte sep A = false -> has_byte sep B = false ->
  Split (A +:+ String sep B) sep = [A; B].
Proof.
  intros HA HB. induction A as [|c A IH].
  - rewrite append_nil_l. simpl. rewrite Ascii.eqb_refl, (Split_no_sep _ _ HB). reflexivity.
  - rewrite append_cons_l. simpl in *.
    apply orb_false_iff in HA as [Hc HA]. rewrite Hc, (IH HA). reflexivity.
Qed.

Lemma Split_nonempty (s : string) (sep : ascii) : Split s sep <> [].
Proof.
  destruct s as [|c s]; simpl; [discriminate|].
  destruct (Ascii.eqb c sep); [discriminate|].
  destruct (Split s sep); discriminate.
Qed.

Lemma Split_one_inv (s p : string) (sep : ascii) :
  Split s sep = [p] -> s = p /\ has_byte sep p = false.
Proof.
  revert p. induction s as [|d s IHs]; intros p H; simpl in H.
  - injection H as <-. split; reflexivity.
  - destruct (Ascii.eqb d sep) eqn:Ed.
    { injection H as _ H. exfalso. exact (Split_nonempty _ _ H). }
    destruct (Split s sep) as [|h [|h' t]] eqn:E'; try discriminate;
      [exfalso; exact (Split_nonempty _ _ E')|].
    injection H as <-. destruct (IHs h eq_refl) as [-> Hh].
    split; [reflexivity|]. simpl. rewrite Ed, Hh. reflexivity.
Qed.

Lemma Split_two_inv (s p0 p1 : string) (sep : ascii) :
  Split s sep = [p0; p1] ->
  s = p0 +:+ String sep p1 /\ has_byte sep p0 = false /\ has_byte sep p1 = false.
Proof.
  revert p0. induction s as [|c s IH]; intros p0 H; simpl in H; [discriminate|].
  destruct (Ascii.eqb c sep) eqn:E.
  - apply Ascii.eqb_eq in E. subst c.
    injection H as <- H. apply Split_one_inv in H as [-> Hp1].
    rewrite append_nil_l. auto.
  - destruct (Split s sep) as [|h [|h' [|h'' t]]] eqn:E'; try discriminate.
    injection H as <- <-. destruct (IH h eq_refl) as (Hs & Hh & Hp1). subst s.
    rewrite append_cons_l. split; [reflexivity|]. split; [|exact Hp1].
    simpl. rewrite E, Hh. reflexivity.
Qed.

Lemma parse_digits_lower (s : string) (acc n : Z) :
  0 <= acc -> parse_digits s acc = Some n -> 0 <= n.
Proof.
  revert acc. induction s as [|c s IH]; intros acc Hacc H; simpl in H.
  - injection H as <-. exact Hacc.
  - unfold digit_val in H.
    destruct ((48 <=? Z.of_nat (nat_of_ascii c)) && (Z.of_nat (nat_of_ascii c) <=? 57)) eqn:E;
      [|discriminate].
    apply andb_true_iff in E as [E1 E2].
    apply (IH (10 * acc + (Z.of_nat (nat_of_ascii c) - 48))); [lia|exact H].
Qed.

Lemma numeral_range (s : string) (n : Z) :
  numeral s n -> 0 <= n <= Int64.max_int /\ s <> EmptyString.
Proof.
  intros [Hd Hp]. destruct s as [|c s]; [discriminate|].
  split; [|discriminate].
  simpl in Hd. apply orb_false_iff in Hd as [Hc _].
  unfold ParseInt in Hp. rewrite Hc in Hp.
  destruct (Ascii.eqb c "+").
  - destruct s as [|d s]; [discriminate|].
    destruct (parse_digits (String d s) 0) as [un|] eqn:E; [|discriminate].
    destruct (un <? 2 ^ 63) eqn:Eu; [|discriminate]. injection Hp as <-.
    apply parse_digits_lower in E; [|lia]. unfold Int64.max_int. lia.
  - destruct (parse_digits (String c s) 0) as [un|] eqn:E; [|discriminate].
    destruct (un <? 2 ^ 63) eqn:Eu; [|discriminate]. injection Hp as <-.
    apply parse_digits_lower in E; [|lia]. unfold Int64.max_int. lia.
Qed.

Lemma eqb_empty_false (s : string) : s <> EmptyString -> String.eqb s "" = false.
Proof. destruct s; [congruence|reflexivity]. Qed.

(** ** [parseRange] *)

Lemma HasPrefix_bytes (rest : string) : HasPrefix ("bytes=" +:+ rest) "bytes=" = true.
Proof. unfold HasPrefix. rewrite strip_prefix_app. reflexivity. Qed.

Lemma TrimPrefix_bytes (rest : string) : TrimPrefix ("bytes=" +:+ rest) "bytes=" = rest.
Proof. unfold TrimPrefix. rewrite strip_prefix_app. reflexivity. Qed.

Lemma parseRange_form (size : Z) (h : string) (s e : Z) :
  0 <= size <= Int64.max_int ->
  range_form size h s e ->
  parseRange h size =
    if (s >? e) || (s >=? size) then None else Some (s, Z.min e (size - 1)).
Proof.
  intros Hsize Hform. unfold Int64.max_int in Hsize.
  assert (Hsub1 : Int64.sub size 1 = size - 1).
  { apply Int64_sub_small. unfold Int64.in_range, Int64.min_int, Int64.max_int. lia. }
  destruct Hform as [A B a b HA HB | A a HA | N n HN].
  - destruct (numeral_range _ _ HA) as [Ha HAne].
    destruct (numeral_range _ _ HB) as [Hb HBne].
    destruct HA as [HAd HAp], HB as [HBd HBp]. unfold Int64.max_int in *.
    unfold parseRange. rewrite HasPrefix_bytes, TrimPrefix_bytes. simpl negb. cbv iota.
    change ("-" +:+ B) with (String "-" B). rewrite (Split_two A B "-" HAd HBd).
    rewrite (eqb_empty_false _ HAne), (eqb_empty_false _ HBne), HAp, HBp.
    destruct ((a >? b) || (a >=? size)) eqn:E; [reflexivity|].
    apply orb_false_iff in E as [E1 E2]. rewrite Hsub1.
    destruct (b >=? size) eqn:E3; f_equal; f_equal; lia.
  - destruct (numeral_range _ _ HA) as [Ha HAne].
    destruct HA as [HAd HAp]. unfold Int64.max_int in *.
    unfold parseRange. rewrite HasPrefix_bytes, TrimPrefix_bytes. simpl negb. cbv iota.
    change (A +:+ "-") with (A +:+ String "-" EmptyString).
    rewrite (Split_two A "" "-" HAd eq_refl).
    rewrite (eqb_empty_false _ HAne), HAp. simpl (String.eqb "" ""). cbv iota.
    rewrite Hsub1.
    destruct ((a >? size - 1) || (a >=? size)) eqn:E; [reflexivity|].
    apply orb_false_iff in E as [E1 E2].
    destruct (size - 1 >=? size) eqn:E3; f_equal; f_equal; lia.
  - destruct (numeral_range _ _ HN) as [Hn HNne].
    destruct HN as [HNd HNp]. unfold Int64.max_int in *.
    unfold parseRange.
    change ("bytes=-" +:+ N) with ("bytes=" +:+ (EmptyString +:+ String "-" N)).
    rewrite HasPrefix_bytes, TrimPrefix_bytes. simpl negb. cbv iota.
    rewrite (Split_two "" N "-" eq_refl HNd).
    simpl (String.eqb "" ""). cbv iota. rewrite HNp, Hsub1.
    assert (Hsubn : Int64.sub size n = size - n).
    { apply Int64_sub_small. unfold Int64.in_range, Int64.min_int, Int64.max_int. lia. }
    rewrite Hsubn.
    replace (if size - n <? 0 then 0 else size - n) with (Z.max 0 (size - n))
      by (destruct (size - n <? 0) eqn:E; lia).
    destruct ((Z.max 0 (size - n) >? size - 1) || (Z.max 0 (size - n) >=? size)) eqn:E;
      [reflexivity|].
    destruct (size - 1 >=? size) eqn:E3; f_equal; f_equal; lia.
Qed.

Lemma parseRange_accepts_forms_only (size : Z) (h : string) (r : Z * Z) :
  parseRange h size = Some r -> exists s e, range_form size h s e.
Proof.
  unfold parseRange, HasPrefix, TrimPrefix.
  destruct (strip_prefix "bytes=" h) as [rest|] eqn:Hp; [|discriminate].
  apply strip_prefix_inv in Hp. subst h. simpl negb. cbv iota.
  destruct (Split rest "-") as [|p0 [|p1 [|p2 t]]] eqn:Hs; try discriminate.
  apply Split_two_inv in Hs as (-> & H0 & H1).
  destruct (String.eqb p0 "") eqn:E0.
  - apply String.eqb_eq in E0. subst p0.
    destruct (ParseInt p1) as [n|] eqn:En; [|discriminate]. intros _.
    exists (Z.max 0 (size - n)), (size - 1).
    apply (form_suffix size p1 n). split; assumption.
  - destruct (ParseInt p0) as [a|] eqn:Ea; [|discriminate].
    destruct (String.eqb p1 "") eqn:E1.
    + apply String.eqb_eq in E1. subst p1. intros _.
      exists a, (size - 1). apply (form_from size p0 a). split; assumption.
    + destruct (ParseInt p1) as [b|] eqn:Eb; [|discriminate]. intros _.
      exists a, b. apply (form_both size p0 p1 a b); split; assumption.
Qed.

Lemma digit_cases (d : Z) : 0 <= d <= 9 ->
  d = 0 \/ d = 1 \/ d = 2 \/ d = 3 \/ d = 4 \/ d = 5 \/ d = 6 \/ d = 7 \/ d = 8 \/ d = 9.
Proof. lia. Qed.

Lemma digit_val_char (d : Z) : 0 <= d <= 9 ->
  digit_val (digit_char d) = Some d /\ Ascii.eqb (digit_char d) "-" = false
  /\ Ascii.eqb (digit_char d) "+" = false.
Proof.
  intros H. destruct (digit_cases d H) as [->|[->|[->|[->|[->|[->|[->|[->|[->| ->]]]]]]]]];
    repeat split; reflexivity.
Qed.

Lemma append_assoc_str (a b c : string) : (a +:+ b) +:+ c = a +:+ (b +:+ c).
Proof.
  induction a as [|x a IH]; [reflexivity|].
  rewrite !append_cons_l. f_equal. exact IH.
Qed.

Lemma fmt_digits_acc (fuel : nat) : forall (n : Z) (acc : string),
  fmt_digits fuel n acc = fmt_digits fuel n EmptyString +:+ acc.
Proof.
  induction fuel as [|f IH]; intros n acc; [reflexivity|].
  cbn [fmt_digits]. destruct (n <? 10); [reflexivity|].
  rewrite (IH _ (String _ acc)), (IH _ (String _ EmptyString)).
  rewrite append_assoc_str. reflexivity.
Qed.

Lemma parse_digits_app (s1 s2 : string) : forall acc,
  parse_digits (s1 +:+ s2) acc =
    match parse_digits s1 acc with Some v => parse_digits s2 v | None => None end.
Proof.
  induction s1 as [|c s1 IH]; intros acc; [reflexivity|].
  rewrite append_cons_l. cbn [parse_digits]. destruct (digit_val c); [apply IH|reflexivity].
Qed.

Lemma has_byte_app (c : ascii) (s1 s2 : string) :
  has_byte c (s1 +:+ s2) = has_byte c s1 || has_byte c s2.
Proof.
  induction s1 as [|b s1 IH]; [reflexivity|].
  rewrite append_cons_l. cbn [has_byte]. rewrite IH. apply orb_assoc.
Qed.

Lemma fmt_digits_spec (fuel : nat) : forall n : Z,
  0 <= n < 10 ^ Z.of_nat fuel -> fuel <> O ->
  parse_digits (fmt_digits fuel n EmptyString) 0 = Some n /\
  has_byte "-" (fmt_digits fuel n EmptyString) = false /\
  exists c s, fmt_digits fuel n EmptyString = String c s /\
              Ascii.eqb c "-" = false /\ Ascii.eqb c "+" = false.
Proof.
  induction fuel as [|f IH]; intros n Hn Hfuel; [congruence|].
  cbn [fmt_digits].
  - 
    assert (Hmod : 0 <= n mod 10 <= 9) by (pose proof (Z.mod_pos_bound n 10); lia).
    destruct (digit_val_char _ Hmod) as (Hv & Hd & Hp).
    destruct (n <? 10) eqn:E.
    + apply Z.ltb_lt in E. rewrite Z.mod_small in * by lia.
      split; [|split].
      * cbn [parse_digits]. rewrite Hv. reflexivity.
      * cbn [has_byte]. rewrite Hd. reflexivity.
      * eauto.
    + apply Z.ltb_ge in E. rewrite fmt_digits_acc.
      assert (Hdiv : 0 <= n / 10 < 10 ^ Z.of_nat f).
      { split; [apply Z.div_pos; lia|]. apply Z.div_lt_upper_bound; [lia|].
        rewrite Nat2Z.inj_succ, Z.pow_succ_r in Hn by lia. lia. }
      assert (Hf : f <> O).
      { intros ->. simpl in Hn. lia. }
      destruct (IH _ Hdiv Hf) as (H1 & H2 & c & s & H3 & H4 & H5).
      split; [|split].
      * rewrite parse_digits_app, H1. cbn [parse_digits]. rewrite Hv. f_equal.
        pose proof (Z.div_mod n 10). lia.
      * rewrite has_byte_app, H2. cbn [has_byte]. rewrite Hd. reflexivity.
      * rewrite H3. rewrite append_cons_l. eauto.
Qed.

Lemma numeral_FormatInt (n : Z) : 0 <= n <= Int64.max_int -> numeral (FormatInt n) n.
Proof.
  intros Hn. unfold Int64.max_int in Hn. unfold FormatInt.
  destruct (n <? 0) eqn:E; [lia|].
  destruct (fmt_digits_spec 20 n) as (H1 & H2 & c & s & H3 & H4 & H5).
  { change (10 ^ Z.of_nat 20) with 100000000000000000000. lia. }
  { discriminate. }
  split; [exact H2|].
  unfold ParseInt. rewrite H3 in *. rewrite H4, H5, H1.
  destruct (n <? 2 ^ 63) eqn:E2; [reflexivity|lia].
Qed.

(** The decimal rendering of a byte position is a numeral, so the three
    forms cover every header written with decimal positions. *)
Lemma parseRange_decimal (size a b n : Z) :
  0 <= size <= Int64.max_int ->
  0 <= a <= Int64.max_int -> 0 <= b <= Int64.max_int -> 0 <= n <= Int64.max_int ->
  parseRange ("bytes=" +:+ FormatInt a +:+ "-" +:+ FormatInt b) size
    = (if (a >? b) || (a >=? size) then None else Some (a, Z.min b (size - 1))) /\
  parseRange ("bytes=" +:+ FormatInt a +:+ "-") size
    = (if a >=? size then None else Some (a, size - 1)) /\
  parseRange ("bytes=-" +:+ FormatInt n) size
    = (if (n =? 0) || (size =? 0) then None else Some (Z.max 0 (size - n), size - 1)).
Proof.
  intros Hsize Ha Hb Hn.
  pose proof (numeral_FormatInt a Ha) as HA.
  pose proof (numeral_FormatInt b Hb) as HB.
  pose proof (numeral_FormatInt n Hn) as HN.
  split; [|split].
  - apply (parseRange_form size _ a b Hsize). constructor; assumption.
  - rewrite (parseRange_form size _ a (size - 1) Hsize) by (constructor; assumption).
    destruct (a >=? size) eqn:E.
    + rewrite orb_true_r. reflexivity.
    + rewrite orb_false_r. destruct (a >? size - 1) eqn:E'; [lia|].
      f_equal. f_equal. lia.
  - rewrite (parseRange_form size _ (Z.max 0 (size - n)) (size - 1) Hsize)
      by (constructor; assumption).
    destruct (n =? 0) eqn:E0; destruct (size =? 0) eqn:Es; cbn [orb];
      destruct (Z.max 0 (size - n) >? size - 1) eqn:E1;
      destruct (Z.max 0 (size - n) >=? size) eqn:E2; cbn [orb];
      try reflexivity; try lia.
    f_equal. f_equal. lia.
Qed.

Lemma range_form_start (size : Z) (h : string) (s e : Z) :
  range_form size h s e -> 0 <= s.
Proof.
  intros [A B a b HA HB | A a HA | N n HN]; try lia;
    apply numeral_range in HA; lia.
Qed.

(** ** Copying a file to the client *)

Lemma bufSize_pos : (0 < bufSize)%nat.
Proof. unfold bufSize. lia. Qed.

Lemma Write_connected (hdr : gmap string string) (st : Z) (body data : list byte) :
  Write (mkRW hdr (Some st) body None) data =
    (mkRW hdr (Some st) (body ++ data) None, Z.of_nat (length data), false).
Proof. reflexivity. Qed.

Lemma CopyBuffer_loop_connected (fuel : nat) (hdr : gmap string string) (st : Z)
    (body src : list byte) :
  (length src < fuel)%nat ->
  CopyBuffer_loop fuel (mkRW hdr (Some st) body None) src =
    (mkRW hdr (Some st) (body ++ src) None, false).
Proof.
  revert body src. induction fuel as [|f IH]; intros body src Hlen; [lia|].
  destruct src as [|x xs].
  - cbn [CopyBuffer_loop]. rewrite app_nil_r. reflexivity.
  - cbn [CopyBuffer_loop]. rewrite Write_connected. cbv beta iota zeta.
    rewrite IH.
    + rewrite <- app_assoc, take_drop. reflexivity.
    + rewrite length_drop. pose proof bufSize_pos. simpl length in *. lia.
Qed.

Lemma CopyBuffer_connected (hdr : gmap string string) (st : Z) (body src : list byte) :
  CopyBuffer (mkRW hdr (Some st) body None) src =
    (mkRW hdr (Some st) (body ++ src) None, false).
Proof. unfold CopyBuffer. apply CopyBuffer_loop_connected. lia. Qed.

(** C5. For a completed entry of size [size] whose file has that size, and
    any Range header [h]: [parseRange] accepts [h] exactly when [h] is one
    of the forms [bytes=A-B], [bytes=A-], [bytes=-N] (with the start and
    end the spec gives for each, [max 0 (size - N)] and [size - 1] for the
    suffix form) and [start <= end] and [start < size]; the headers written
    with decimal positions [a], [b], [n] are of these forms.  When it rejects,
    the answer is 416 with [Content-Range: bytes */size].  When it
    accepts, [end] is clamped to [min end (size - 1)] and the answer is
    206 with [Content-Range: bytes start-end/size], [Content-Length:
    end - start + 1] and, as body, exactly the bytes [start..end] of the
    file. *)
Theorem parseRange_serveRange_spec (h : string) (size : Z) (file : list byte)
    (hdr : gmap string string) (a b n : Z)
    (Hsize : 0 <= size <= Int64.max_int)
    (Hfile : Z.of_nat (length file) = size)
    (Ha : 0 <= a <= Int64.max_int) (Hb : 0 <= b <= Int64.max_int)
    (Hn : 0 <= n <= Int64.max_int) :
  range_form size ("bytes=" +:+ FormatInt a +:+ "-" +:+ FormatInt b) a b /\
  range_form size ("bytes=" +:+ FormatInt a +:+ "-") a (size - 1) /\
  range_form size ("bytes=-" +:+ FormatInt n) (Z.max 0 (size - n)) (size - 1) /\
  match parseRange h size with
  | None =>
      (forall s e, range_form size h s e -> s > e \/ s >= size) /\
      serveRangeFromFile (mkRW hdr None [] None) file size h
        = (rangeNotSatisfiable hdr None size, false) /\
      rw_status (rangeNotSatisfiable hdr None size) = Some 416 /\
      rw_header (rangeNotSatisfiable hdr None size) !! "Content-Range"
        = Some ("bytes */" +:+ FormatInt size)
  | Some (start, end_) =>
      (exists s e, range_form size h s e /\ s <= e /\ s < size /\
                   start = s /\ end_ = Z.min e (size - 1)) /\
      0 <= start <= end_ /\ end_ < size /\
      let body := take (Z.to_nat (end_ - start + 1)) (drop (Z.to_nat start) file) in
      serveRangeFromFile (mkRW hdr None [] None) file size h
        = (mkRW (<["Content-Length" := FormatInt (end_ - start + 1)]>
                   (<["Content-Range" :=
                        "bytes " +:+ FormatInt start +:+ "-" +:+ FormatInt end_
                        +:+ "/" +:+ FormatInt size]> hdr))
                (Some 206) body None, false) /\
      Z.of_nat (length body) = end_ - start + 1 /\
      (forall i : nat, (i < length body)%nat ->
                       body !! i = file !! (Z.to_nat start + i)%nat)
  end.
Proof.
  split; [constructor; apply numeral_FormatInt; assumption|].
  split; [constructor; apply numeral_FormatInt; assumption|].
  split; [constructor; apply numeral_FormatInt; assumption|].
  destruct (parseRange h size) as [[start end_]|] eqn:E.
  - destruct (parseRange_accepts_forms_only _ _ _ E) as (s & e & Hform).
    pose proof (parseRange_form size h s e Hsize Hform) as Hp.
    pose proof (range_form_start _ _ _ _ Hform) as Hs0.
    rewrite E in Hp.
    destruct ((s >? e) || (s >=? size)) eqn:Ec; [discriminate|].
    apply orb_false_iff in Ec as [E1 E2]. injection Hp as -> ->.
    assert (Hrange : 0 <= s <= Z.min e (size - 1) /\ Z.min e (size - 1) < size) by lia.
    split; [exists s, e; repeat split; try lia; exact Hform|].
    split; [lia|]. split; [lia|].
    assert (Hlen : Int64.add (Int64.sub (Z.min e (size - 1)) s) 1
                   = Z.min e (size - 1) - s + 1).
    { unfold Int64.max_int in Hsize.
      rewrite Int64_sub_small, Int64_add_small; [reflexivity| |];
        unfold Int64.in_range, Int64.min_int, Int64.max_int; lia. }
    cbv zeta. split; [|split].
    + unfold serveRangeFromFile. rewrite E, Hlen.
      unfold SetHeader, WriteHeader. cbn [rw_header rw_status rw_body rw_conn].
      rewrite CopyBuffer_connected. reflexivity.
    + rewrite length_take, length_drop. lia.
    + intros i Hi. rewrite length_take in Hi.
      rewrite lookup_take_lt by lia. apply lookup_drop.
  - split; [|split; [|split]].
    + intros s e Hform.
      pose proof (parseRange_form size h s e Hsize Hform) as Hp. rewrite E in Hp.
      destruct ((s >? e) || (s >=? size)) eqn:Ec; [|discriminate].
      apply orb_true_iff in Ec as [Ec|Ec]; lia.
    + unfold serveRangeFromFile. rewrite E. reflexivity.
    + reflexivity.
    + unfold rangeNotSatisfiable, Error, Write, WriteHeader, SetHeader, DelHeader.
      cbn [rw_header rw_status rw_body rw_conn fst].
      rewrite !lookup_insert_ne by discriminate.
      rewrite lookup_delete_ne by discriminate.
      apply lookup_insert_eq.
Qed.

Lemma parseRange_serveRange_spec_witness :
  0 <= 5 <= Int64.max_int /\
  Z.of_nat (length [x01; x02; x03; x04; x05]%byte) = 5 /\
  parseRange "bytes=1-3" 5 = Some (1, 3) /\
  rw_body (serveRangeFromFile (mkRW ∅ None [] None)
             [x01; x02; x03; x04; x05]%byte 5 "bytes=1-3").1 = [x02; x03; x04]%byte /\
  rw_status (serveRangeFromFile (mkRW ∅ None [] None)
               [x01; x02; x03; x04; x05]%byte 5 "bytes=1-3").1 = Some 206.
Proof.
  assert (H1 : 0 <= 5 <= Int64.max_int) by (unfold Int64.max_int; lia).
  assert (H2 : Z.of_nat (length [x01; x02; x03; x04; x05]%byte) = 5) by reflexivity.
  assert (H3 : 0 <= 1 <= Int64.max_int) by (unfold Int64.max_int; lia).
  assert (H4 : 0 <= 3 <= Int64.max_int) by (unfold Int64.max_int; lia).
  pose proof (parseRange_serveRange_spec "bytes=1-3" 5
                [x01; x02; x03; x04; x05]%byte ∅ 1 3 3 H1 H2 H3 H4 H4) as H.
  destruct H as (_ & _ & _ & H).
  change (parseRange "bytes=1-3" 5) with (Some (1, 3)) in H.
  destruct H as (_ & _ & _ & H & _).
  split; [exact H1|]. split; [exact H2|]. split; [reflexivity|].
  split; rewrite H; reflexivity.
Defined.

(** ** [StreamingFile] *)

Lemma SF_step_size (st : StreamingFile * Disk) (o : SF.op) :
  0 <= sf_size st.1 ->
  sf_size st.1 + SF.op_bytes o <= Int64.max_int ->
  sf_size st.1 <= sf_size (SF.step st o).1 <= sf_size st.1 + SF.op_bytes o.
Proof.
  intros H0 Hmax. destruct st as [sf d]. destruct o as [p accepted| |]; simpl in *.
  - unfold SF.Write. destruct (sf_done sf); simpl; [lia|].
    rewrite Int64_add_small; [lia|].
    unfold Int64.in_range, Int64.min_int, Int64.max_int in *. lia.
  - lia.
  - lia.
Qed.

Lemma SF_ops_bytes_nonneg (ops : list SF.op) : 0 <= SF.ops_bytes ops.
Proof.
  induction ops as [|o ops IH]; simpl; [lia|].
  destruct o; simpl; lia.
Qed.

Lemma SF_run_size (ops : list SF.op) (st : StreamingFile * Disk) :
  0 <= sf_size st.1 ->
  sf_size st.1 + SF.ops_bytes ops <= Int64.max_int ->
  sf_size st.1 <= sf_size (SF.run st ops).1 <= sf_size st.1 + SF.ops_bytes ops.
Proof.
  revert st. induction ops as [|o ops IH]; intros st H0 Hmax; simpl in *; [lia|].
  pose proof (SF_ops_bytes_nonneg ops) as Hn.
  assert (Ho : 0 <= SF.op_bytes o) by (destruct o; simpl; lia).
  pose proof (SF_step_size st o H0 ltac:(lia)) as Hs.
  specialize (IH (SF.step st o) ltac:(lia) ltac:(lia)).
  unfold SF.run in *. lia.
Qed.

Lemma SF_step_done (st : StreamingFile * Disk) (o : SF.op) :
  sf_done st.1 = true ->
  sf_done (SF.step st o).1 = true /\ sf_size (SF.step st o).1 = sf_size st.1.
Proof.
  intros Hd. destruct st as [sf d]. destruct o as [p accepted| |]; simpl in *.
  - unfold SF.Write. rewrite Hd. simpl. auto.
  - auto.
  - auto.
Qed.

Lemma SF_run_done (ops : list SF.op) (st : StreamingFile * Disk) :
  sf_done st.1 = true ->
  sf_done (SF.run st ops).1 = true /\ sf_size (SF.run st ops).1 = sf_size st.1.
Proof.
  revert st. induction ops as [|o ops IH]; intros st Hd; simpl; [auto|].
  destruct (SF_step_done st o Hd) as [Hd' Hs'].
  destruct (IH _ Hd') as [Hd'' Hs'']. unfold SF.run in *. split; congruence.
Qed.

Lemma SF_step_aborted_ok (st : StreamingFile * Disk) (o : SF.op) :
  SF_aborted_ok st -> SF_aborted_ok (SF.step st o).
Proof.
  unfold SF_aborted_ok. destruct st as [sf d].
  destruct o as [p accepted| |]; simpl.
  - unfold SF.Write. destruct (sf_done sf) eqn:Hd; simpl.
    + intros H He. destruct (H He) as [_ Hf]. split; [exact Hd|exact Hf].
    + intros H He. destruct (H He) as [Hd' _]. discriminate.
  - intros H He. destruct (H He) as [_ Hf]. auto.
  - intros _ _. split; [reflexivity|]. apply lookup_delete_eq.
Qed.

Lemma SF_run_aborted_ok (ops : list SF.op) (st : StreamingFile * Disk) :
  SF_aborted_ok st -> SF_aborted_ok (SF.run st ops).
Proof.
  revert st. induction ops as [|o ops IH]; intros st H; simpl; [exact H|].
  apply IH, SF_step_aborted_ok, H.
Qed.

Lemma SF_New_aborted_ok (d : Disk) (path : string) : SF_aborted_ok (SF.New d path).
Proof. unfold SF_aborted_ok, SF.New. simpl. congruence. Qed.

Lemma SF_ops_bytes_app (ops1 ops2 : list SF.op) :
  SF.ops_bytes (ops1 ++ ops2) = SF.ops_bytes ops1 + SF.ops_bytes ops2.
Proof.
  induction ops1 as [|o ops1 IH]; simpl; [reflexivity|].
  unfold SF.ops_bytes in *. simpl. rewrite IH. lia.
Qed.

(** C6. A streaming file is created and any sequence of writes, completes
    and aborts is applied to it ([ops1], then [ops2]), the bytes taken
    staying within an [int64].  Then [size] never decreases; once [done]
    is set, [done] stays set, [size] stays what it was and a [Write]
    fails with nothing changed; and whenever [err] is set, [done] is set
    and the backing file is no longer on the disk. *)
Theorem StreamingFile_invariants (d : Disk) (path : string)
    (ops1 ops2 : list SF.op) (p : list byte) (accepted : nat)
    (Hfit : SF.ops_bytes (ops1 ++ ops2) <= Int64.max_int) :
  let st := SF.run (SF.New d path) ops1 in
  let st' := SF.run st ops2 in
  sf_size st.1 <= sf_size st'.1 /\
  (sf_done st.1 = true ->
     sf_done st'.1 = true /\ sf_size st'.1 = sf_size st.1 /\
     SF.Write st.1 st.2 p accepted = (st.1, st.2, 0, Some "streaming file closed")) /\
  (sf_err st'.1 <> None ->
     sf_done st'.1 = true /\ st'.2 !! sf_filePath st'.1 = None).
Proof.
  intros st st'. rewrite SF_ops_bytes_app in Hfit.
  pose proof (SF_ops_bytes_nonneg ops1) as Hn1.
  pose proof (SF_ops_bytes_nonneg ops2) as Hn2.
  assert (H1 : 0 <= sf_size st.1 <= SF.ops_bytes ops1).
  { pose proof (SF_run_size ops1 (SF.New d path)) as H. simpl in H.
    specialize (H ltac:(lia) ltac:(lia)). subst st. lia. }
  split; [|split].
  - pose proof (SF_run_size ops2 st ltac:(lia) ltac:(lia)). subst st'. lia.
  - intros Hd. destruct (SF_run_done ops2 st Hd) as [Hd' Hs'].
    split; [exact Hd'|]. split; [exact Hs'|].
    unfold SF.Write. rewrite Hd. reflexivity.
  - apply (SF_run_aborted_ok ops2 st), SF_run_aborted_ok, SF_New_aborted_ok.
Qed.

Lemma StreamingFile_invariants_witness :
  SF.ops_bytes ([SF.OpWrite [x01; x02]%byte 2; SF.OpAbort]
                ++ [SF.OpWrite [x03]%byte 1; SF.OpComplete]) <= Int64.max_int /\
  let st := SF.run (SF.New ∅ "/cache/ab/abcd")
                   [SF.OpWrite [x01; x02]%byte 2; SF.OpAbort] in
  let st' := SF.run st [SF.OpWrite [x03]%byte 1; SF.OpComplete] in
  sf_size st.1 <= sf_size st'.1 /\
  (sf_done st.1 = true ->
     sf_done st'.1 = true /\ sf_size st'.1 = sf_size st.1 /\
     SF.Write st.1 st.2 [x04]%byte 1 = (st.1, st.2, 0, Some "streaming file closed")) /\
  (sf_err st'.1 <> None ->
     sf_done st'.1 = true /\ st'.2 !! sf_filePath st'.1 = None).
Proof.
  assert (H : SF.ops_bytes ([SF.OpWrite [x01; x02]%byte 2; SF.OpAbort]
                ++ [SF.OpWrite [x03]%byte 1; SF.OpComplete]) <= Int64.max_int)
    by (vm_compute; discriminate).
  split; [exact H|].
  exact (StreamingFile_invariants ∅ "/cache/ab/abcd"
           [SF.OpWrite [x01; x02]%byte 2; SF.OpAbort]
           [SF.OpWrite [x03]%byte 1; SF.OpComplete] [x04]%byte 1 H).
Defined.

(** ** The LRU *)

Lemma LRU_lookup_has_key {V : Type} (l : LRU.t V) (key : string) (e : LRU.entry V) :
  LRU.lookup l key = Some e -> LRU.has_key key e = true /\ In e (LRU.items l).
Proof.
  unfold LRU.lookup. intros H. apply List.find_some in H. tauto.
Qed.

Lemma LRU_lookup_front {V : Type} (l : LRU.t V) (key : string) (e : LRU.entry V)
    (rest : list (LRU.entry V)) :
  LRU.has_key key e = true ->
  LRU.lookup (LRU.with_items l (e :: rest)) key = Some e.
Proof. intros H. unfold LRU.lookup. simpl. rewrite H. reflexivity. Qed.

(** ** [Get] and the negative cache *)

(** C9. When [key] is in the negative cache and its deadline has not
    passed, [Get] answers a miss whatever the completed store holds for
    [key]; the completed store (entries, order and deadlines), the total
    size and the disk are left as they were, and the deadline of the
    negative entry is renewed to [now] plus the negative time to live. *)
Theorem Get_negative_hit (c : Cache) (key : string) (now : Z)
    (Hneg : LRU.Peek (notFoundCache c) key now = Some tt) :
  (Get c key now).2 = None /\
  fileCache (Get c key now).1 = fileCache c /\
  totalSize (Get c key now).1 = totalSize c /\
  disk (Get c key now).1 = disk c /\
  LRU.lookup (notFoundCache (Get c key now).1) key
    = Some (LRU.mkEntry key tt (now + LRU.ttl (notFoundCache c))).
Proof.
  unfold LRU.Peek in Hneg. unfold Get, LRU.Get.
  destruct (LRU.lookup (notFoundCache c) key) as [e|] eqn:El; [|discriminate].
  destruct (LRU.expired now e) eqn:Ex; [discriminate|].
  destruct (LRU_lookup_has_key _ _ _ El) as [Hk _].
  cbn [fst snd]. repeat (split; [reflexivity|]).
  unfold notFoundCache_Add, with_notFoundCache, LRU.Add. cbn [notFoundCache].
  rewrite (LRU_lookup_front (notFoundCache c) key e _ Hk). cbn [fst notFoundCache LRU.ttl LRU.with_items].
  apply LRU_lookup_front. unfold LRU.has_key. simpl. apply String.eqb_refl.
Qed.

Lemma Get_negative_hit_witness :
  let c := mkCache (mkConfig "http://origin" "/cache" 100 1000 50)
             (LRU.mkLRU 0 1000
                [LRU.mkEntry "/k" (mkCacheEntry "/k" "/cache/ab/abcd" 7 "text/plain" 1) 1001])
             (LRU.mkLRU notFoundCapacity 50 [LRU.mkEntry "/k" tt 30])
             7 ∅ [] (<["/cache/ab/abcd" := [x00; x00; x00; x00; x00; x00; x00]%byte]> ∅) in
  LRU.Peek (notFoundCache c) "/k" 20 = Some tt /\
  LRU.Contains (fileCache c) "/k" = true /\
  (Get c "/k" 20).2 = None /\
  fileCache (Get c "/k" 20).1 = fileCache c /\
  LRU.lookup (notFoundCache (Get c "/k" 20).1) "/k" = Some (LRU.mkEntry "/k" tt 70).
Proof.
  intros c.
  assert (H : LRU.Peek (notFoundCache c) "/k" 20 = Some tt) by reflexivity.
  destruct (Get_negative_hit c "/k" 20 H) as (H1 & H2 & _ & _ & H5).
  split; [exact H|]. split; [reflexivity|]. split; [exact H1|]. split; [exact H2|].
  exact H5.
Defined.

(** ** Eviction by size *)

Lemma sum_sizes_app (l1 l2 : list (LRU.entry CacheEntry)) :
  sum_sizes (l1 ++ l2) = sum_sizes l1 + sum_sizes l2.
Proof.
  induction l1 as [|e l1 IH]; simpl; [reflexivity|].
  unfold sum_sizes in *. simpl. rewrite IH. lia.
Qed.

Lemma sum_sizes_nonneg (l : list (LRU.entry CacheEntry)) :
  Forall entry_ok l -> 0 <= sum_sizes l.
Proof.
  induction 1 as [|e l [He _] _ IH]; unfold sum_sizes in *; simpl; lia.
Qed.

Lemma unlink_all_app (l1 l2 : list (LRU.entry CacheEntry)) (d : Disk) :
  unlink_all (l1 ++ l2) d = unlink_all l1 (unlink_all l2 d).
Proof. unfold unlink_all. apply foldr_app. Qed.

Lemma unlink_all_lookup (l : list (LRU.entry CacheEntry)) (d : Disk) (e : LRU.entry CacheEntry) :
  In e l -> unlink_all l d !! FilePath (LRU.e_value e) = None.
Proof.
  induction l as [|x l IH]; simpl; [tauto|].
  intros [->|Hin].
  - apply lookup_delete_eq.
  - destruct (decide (FilePath (LRU.e_value x) = FilePath (LRU.e_value e))) as [Heq|Hne].
    + rewrite Heq. apply lookup_delete_eq.
    + rewrite lookup_delete_ne by exact Hne. apply IH, Hin.
Qed.

Lemma last_snoc_list {A : Type} (l : list A) (x : A) : last (l ++ [x]) = Some x.
Proof. apply last_snoc. Qed.

Lemma LRU_RemoveOldest_snoc {V : Type} (l : LRU.t V) (its : list (LRU.entry V))
    (e : LRU.entry V) :
  LRU.items l = its ++ [e] ->
  LRU.RemoveOldest l = (LRU.with_items l its, Some e).
Proof.
  intros H. unfold LRU.RemoveOldest. rewrite H, last_snoc, removelast_last. reflexivity.
Qed.

Lemma LRU_RemoveOldest_nil {V : Type} (l : LRU.t V) :
  LRU.items l = [] -> LRU.RemoveOldest l = (l, None).
Proof. intros H. unfold LRU.RemoveOldest. rewrite H. reflexivity. Qed.

Lemma LRU_with_items_id {V : Type} (l : LRU.t V) : LRU.with_items l (LRU.items l) = l.
Proof. destruct l. reflexivity. Qed.

Lemma onEvict_ok (c : Cache) (e : LRU.entry CacheEntry) :
  entry_ok e ->
  0 <= totalSize c - Size (LRU.e_value e) -> totalSize c <= Int64.max_int ->
  onEvict c e =
    mkCache (config c) (fileCache c) (notFoundCache c)
            (totalSize c - Size (LRU.e_value e)) (pending c) (store c)
            (delete (FilePath (LRU.e_value e)) (disk c)).
Proof.
  intros [Hsz Hpath] H0 Hmax. unfold onEvict.
  rewrite (eqb_empty_false _ Hpath). simpl negb. cbv iota.
  unfold with_totalSize, with_disk. cbn [config fileCache notFoundCache totalSize pending store disk].
  f_equal. unfold Int64.max_int in Hmax.
  rewrite (wrap64_small (- Size (LRU.e_value e)))
    by (unfold Int64.in_range, Int64.min_int, Int64.max_int; lia).
  rewrite Int64_add_small by (unfold Int64.in_range, Int64.min_int, Int64.max_int; lia).
  lia.
Qed.

(** What the loop of [evictIfNeeded] does: it removes a suffix [victims] of
    the eviction list, oldest first, each removal made only while the
    total plus the incoming size is above the bound, and stops as soon as
    the bound is met or the list is empty. *)
Lemma evictIfNeeded_loop_spec (fuel : nat) (c : Cache) (incoming : Z) :
  (length (LRU.items (fileCache c)) < fuel)%nat ->
  Forall entry_ok (LRU.items (fileCache c)) ->
  sum_sizes (LRU.items (fileCache c)) <= totalSize c ->
  0 <= incoming -> totalSize c + incoming <= Int64.max_int ->
  exists keep victims,
    LRU.items (fileCache c) = keep ++ victims /\
    (forall i : nat, (i < length victims)%nat ->
        totalSize c - sum_sizes (drop (S i) victims) + incoming > MaxCacheSize (config c)) /\
    (totalSize c - sum_sizes victims + incoming <= MaxCacheSize (config c) \/ keep = []) /\
    evictIfNeeded_loop fuel c incoming =
      mkCache (config c) (LRU.with_items (fileCache c) keep) (notFoundCache c)
              (totalSize c - sum_sizes victims) (pending c) (store c)
              (unlink_all victims (disk c)).
Proof.
  revert c. induction fuel as [|f IH]; intros c Hlen Hok Hsum Hinc Hmax; [lia|].
  pose proof (sum_sizes_nonneg _ Hok) as Hnn.
  cbn [evictIfNeeded_loop].
  rewrite Int64_add_small
    by (unfold Int64.in_range, Int64.min_int, Int64.max_int in *; lia).
  destruct (totalSize c + incoming >? MaxCacheSize (config c)) eqn:Econd.
  - destruct (LRU.items (fileCache c)) as [|x xs] eqn:Eits.
    + rewrite (LRU_RemoveOldest_nil _ Eits).
      exists [], []. split; [reflexivity|]. split; [simpl; intros; lia|].
      split; [right; reflexivity|].
      assert (Hid : LRU.with_items (fileCache c) [] = fileCache c)
        by (rewrite <- Eits; apply LRU_with_items_id).
      rewrite Hid. unfold sum_sizes, unlink_all.
      cbn [foldr]. rewrite Z.sub_0_r. destruct c; reflexivity.
    + destruct (exists_last (l := x :: xs) ltac:(discriminate)) as (its & e & Hsplit).
      rewrite <- Eits in *. rewrite Hsplit in Hok, Hsum, Hlen, Hnn.
      rewrite (LRU_RemoveOldest_snoc _ its e Hsplit).
      apply Forall_app in Hok as [Hok_its Hok_e]. apply Forall_inv in Hok_e.
      rewrite sum_sizes_app in Hsum, Hnn.
      assert (Hse : sum_sizes [e] = Size (LRU.e_value e)) by (unfold sum_sizes; simpl; lia).
      rewrite Hse in Hsum, Hnn. pose proof (sum_sizes_nonneg _ Hok_its) as Hnn_its.
      destruct Hok_e as [He0 Hepath].
      rewrite onEvict_ok; [|split; assumption|cbn; lia|cbn; lia].
      cbn [config fileCache notFoundCache totalSize pending store disk with_fileCache].
      rewrite length_app in Hlen. simpl in Hlen.
      destruct (IH (mkCache (config c) (LRU.with_items (fileCache c) its) (notFoundCache c)
                       (totalSize c - Size (LRU.e_value e)) (pending c) (store c)
                       (delete (FilePath (LRU.e_value e)) (disk c))))
        as (keep & victims & Hk & Hwhile & Hstop & Hres).
      all: cbn [config fileCache notFoundCache totalSize pending store disk
                LRU.items LRU.with_items]; try assumption; try lia.
      cbn [config fileCache notFoundCache totalSize pending store disk
           LRU.items LRU.with_items] in Hk, Hwhile, Hstop, Hres.
      exists keep, (victims ++ [e]).
      split; [rewrite Hsplit, Hk, app_assoc; reflexivity|].
      split; [|split].
      * intros i Hi. rewrite length_app in Hi. simpl in Hi.
        destruct (decide (i < length victims)%nat) as [Hlt|Hge].
        -- rewrite drop_app_le by lia. rewrite sum_sizes_app, Hse.
           specialize (Hwhile i Hlt). lia.
        -- rewrite drop_ge by (rewrite length_app; simpl; lia).
           unfold sum_sizes. simpl. lia.
      * rewrite sum_sizes_app, Hse. destruct Hstop as [Hstop|Hstop]; [left; lia|right; exact Hstop].
      * rewrite Hres. rewrite sum_sizes_app, Hse, unlink_all_app.
        unfold LRU.with_items. cbn [LRU.capacity LRU.ttl].
        f_equal. lia.
  - exists (LRU.items (fileCache c)), []. split; [rewrite app_nil_r; reflexivity|].
    split; [simpl; intros; lia|]. split; [left; unfold sum_sizes; simpl; lia|].
    rewrite LRU_with_items_id. unfold sum_sizes, unlink_all.
    cbn [foldr]. rewrite Z.sub_0_r. destruct c; reflexivity.
Qed.

Lemma LRU_others_none {V : Type} (l : LRU.t V) (key : string) :
  LRU.lookup l key = None -> LRU.others l key = LRU.items l.
Proof.
  unfold LRU.lookup, LRU.others. induction (LRU.items l) as [|e its IH]; simpl; [reflexivity|].
  destruct (LRU.has_key key e); [discriminate|]. intros H. simpl. f_equal. apply IH, H.
Qed.

Lemma LRU_Add_unbounded {V : Type} (l : LRU.t V) (key : string) (v : V) (now : Z) :
  LRU.capacity l = 0%nat ->
  LRU.Add l key v now =
    (LRU.with_items l (LRU.mkEntry key v (now + LRU.ttl l) :: LRU.others l key), []).
Proof.
  intros Hcap. unfold LRU.Add.
  destruct (LRU.lookup l key) eqn:E; [reflexivity|].
  rewrite Hcap. simpl. rewrite (LRU_others_none _ _ E). reflexivity.
Qed.

Lemma LRU_Peek_front {V : Type} (l : LRU.t V) (key : string) (v : V) (deadline now : Z)
    (rest : list (LRU.entry V)) :
  now <= deadline ->
  LRU.Peek (LRU.with_items l (LRU.mkEntry key v deadline :: rest)) key now = Some v.
Proof.
  intros H. unfold LRU.Peek, LRU.lookup, LRU.has_key, LRU.expired. simpl.
  rewrite String.eqb_refl. simpl.
  destruct (now >? deadline) eqn:E; [lia|reflexivity].
Qed.

Section CacheProperties.

Variable sha256_hex : string -> string.

(** C8. [CompletePending] on a pending key evicts from the back of the
    eviction list, that is the least recently used entries first: the list
    splits into [keep ++ victims]; every victim was removed while the total
    (less the victims removed before it) plus the new size was above
    [MaxCacheSize]; each removal unlinks the file of the victim and takes
    its size off [totalSize]; the loop stops when the bound is met or when
    nothing is left ([keep = []]).  In both cases the new entry is then
    added at the front and its size added to [totalSize], whether or not
    the bound is met. *)
Theorem CompletePending_evicts (c : Cache) (key : string) (size : Z)
    (contentType : string) (now : Z) (sf : nat)
    (Hpending : pending c !! key = Some sf)
    (Hok : completed_ok c)
    (Hsize : 0 <= size)
    (Hfit : totalSize c + size <= Int64.max_int) :
  let c' := CompletePending sha256_hex c key size contentType now in
  let entry := mkCacheEntry key (filePath sha256_hex c key) size contentType now in
  exists keep victims,
    LRU.items (fileCache c) = keep ++ victims /\
    (forall i : nat, (i < length victims)%nat ->
        totalSize c - sum_sizes (drop (S i) victims) + size > MaxCacheSize (config c)) /\
    (totalSize c - sum_sizes victims + size <= MaxCacheSize (config c) \/ keep = []) /\
    LRU.items (fileCache c') =
      LRU.mkEntry key entry (now + LRU.ttl (fileCache c))
      :: List.filter (fun e => negb (LRU.has_key key e)) keep /\
    totalSize c' = totalSize c - sum_sizes victims + size /\
    disk c' = unlink_all victims (disk c) /\
    (forall v, In v victims -> disk c' !! FilePath (LRU.e_value v) = None) /\
    pending c' !! key = None /\
    LRU.Peek (fileCache c') key now = Some entry.
Proof.
  destruct Hok as (Hcap & Httl & Hentries & Hsum).
  intros c' entry. subst c'. unfold CompletePending. rewrite Hpending.
  set (c1 := store_Complete (with_pending c (delete key (pending c))) sf).
  unfold evictIfNeeded.
  destruct (evictIfNeeded_loop_spec (S (LRU.Len (fileCache c1))) c1 size)
    as (keep & victims & Hk & Hwhile & Hstop & Hres);
    try (subst c1; cbn; unfold LRU.Len; first [lia | assumption]).
  rewrite Hres. clear Hres. exists keep, victims.
  subst c1. cbn [store_Complete with_pending with_store config fileCache notFoundCache
                 totalSize pending store disk] in *.
  assert (Hv : Forall entry_ok victims).
  { rewrite Hk in Hentries. apply Forall_app in Hentries. tauto. }
  assert (Hkp : Forall entry_ok keep).
  { rewrite Hk in Hentries. apply Forall_app in Hentries. tauto. }
  pose proof (sum_sizes_nonneg _ Hv) as Hv0.
  pose proof (sum_sizes_nonneg _ Hkp) as Hk0.
  rewrite Hk, sum_sizes_app in Hsum.
  split; [exact Hk|]. split; [exact Hwhile|]. split; [exact Hstop|].
  unfold fileCache_Add. cbn [fileCache].
  rewrite LRU_Add_unbounded by exact Hcap.
  unfold run_evictions, with_fileCache, with_totalSize, filePath.
  cbn [fold_left config fileCache notFoundCache totalSize pending store disk
       LRU.items LRU.with_items LRU.ttl LRU.capacity].
  split; [reflexivity|].
  split; [apply Int64_add_small;
          unfold Int64.in_range, Int64.min_int, Int64.max_int in *; lia|].
  split; [reflexivity|].
  split; [intros v Hin; apply unlink_all_lookup, Hin|].
  split; [apply lookup_delete_eq|].
  apply (LRU_Peek_front (LRU.mkLRU (LRU.capacity (fileCache c)) (LRU.ttl (fileCache c)) keep)).
  lia.
Qed.

End CacheProperties.

Lemma CompletePending_evicts_witness :
  let c := mkCache (mkConfig "http://origin" "/cache" 100 1000 50)
             (LRU.mkLRU 0 1000
                [LRU.mkEntry "/new" (mkCacheEntry "/new" "/cache/ab/ab/new" 50 "text/plain" 2) 1002;
                 LRU.mkEntry "/old" (mkCacheEntry "/old" "/cache/ab/ab/old" 60 "text/plain" 1) 1001])
             (LRU.mkLRU notFoundCapacity 50 [])
             110 (<["/big" := 0%nat]> ∅)
             [mkSF "/cache/ab/ab/big" true 200 false None] ∅ in
  pending c !! "/big" = Some 0%nat /\
  completed_ok c /\
  0 <= 200 /\
  totalSize c + 200 <= Int64.max_int /\
  let c' := CompletePending hex_name c "/big" 200 "text/plain" 3 in
  let entry := mkCacheEntry "/big" (filePath hex_name c "/big") 200 "text/plain" 3 in
  exists keep victims,
    LRU.items (fileCache c) = keep ++ victims /\
    (forall i : nat, (i < length victims)%nat ->
        totalSize c - sum_sizes (drop (S i) victims) + 200 > MaxCacheSize (config c)) /\
    (totalSize c - sum_sizes victims + 200 <= MaxCacheSize (config c) \/ keep = []) /\
    LRU.items (fileCache c') =
      LRU.mkEntry "/big" entry (3 + LRU.ttl (fileCache c))
      :: List.filter (fun e => negb (LRU.has_key "/big" e)) keep /\
    totalSize c' = totalSize c - sum_sizes victims + 200 /\
    disk c' = unlink_all victims (disk c) /\
    (forall v, In v victims -> disk c' !! FilePath (LRU.e_value v) = None) /\
    pending c' !! "/big" = None /\
    LRU.Peek (fileCache c') "/big" 3 = Some entry.
Proof.
  intros c.
  assert (H1 : pending c !! "/big" = Some 0%nat) by reflexivity.
  assert (H2 : completed_ok c).
  { split; [reflexivity|]. split; [reflexivity|]. split.
    - repeat constructor; simpl; discriminate.
    - vm_compute. discriminate. }
  assert (H3 : 0 <= 200) by lia.
  assert (H4 : totalSize c + 200 <= Int64.max_int) by (vm_compute; discriminate).
  split; [exact H1|]. split; [exact H2|]. split; [exact H3|]. split; [exact H4|].
  exact (CompletePending_evicts hex_name c "/big" 200 "text/plain" 3 0%nat H1 H2 H3 H4).
Defined.

(** The bound is a target, not a cap: with a bound of 100 and two entries
    of 60 and 50 bytes, completing a download of 200 bytes evicts both and
    admits the new entry, leaving a total of 200. *)
Example CompletePending_overshoot :
  let c := mkCache (mkConfig "http://origin" "/cache" 100 1000 50)
             (LRU.mkLRU 0 1000
                [LRU.mkEntry "/new" (mkCacheEntry "/new" "/cache/ab/ab/new" 50 "text/plain" 2) 1002;
                 LRU.mkEntry "/old" (mkCacheEntry "/old" "/cache/ab/ab/old" 60 "text/plain" 1) 1001])
             (LRU.mkLRU notFoundCapacity 50 [])
             110 (<["/big" := 0%nat]> ∅)
             [mkSF "/cache/ab/ab/big" true 200 false None] ∅ in
  let c' := CompletePending hex_name c "/big" 200 "text/plain" 3 in
  keys_of (fileCache c') = ["/big"] /\ totalSize c' = 200 /\ MaxCacheSize (config c') = 100.
Proof. vm_compute. repeat split; reflexivity. Qed.

(** ** Keys of the completed store and of the pending map *)

Lemma In_removelast {A : Type} (l : list A) (x : A) : In x (removelast l) -> In x l.
Proof.
  induction l as [|a l IH]; simpl; [tauto|].
  destruct l as [|b l]; [simpl; tauto|].
  intros [H|H]; [tauto|]. right. apply IH, H.
Qed.

Lemma Contains_keys {V : Type} (l : LRU.t V) (key : string) :
  LRU.Contains l key = true <-> In key (keys_of l).
Proof.
  unfold LRU.Contains, LRU.lookup, keys_of.
  induction (LRU.items l) as [|e its IH]; simpl.
  - split; [discriminate|tauto].
  - unfold LRU.has_key at 1. destruct (String.eqb (LRU.e_key e) key) eqn:E.
    + apply String.eqb_eq in E. tauto.
    + apply String.eqb_neq in E. rewrite IH. tauto.
Qed.

Lemma keys_others {V : Type} (l : LRU.t V) (key k : string) :
  In k (map LRU.e_key (LRU.others l key)) <-> In k (keys_of l) /\ k <> key.
Proof.
  unfold LRU.others, keys_of. induction (LRU.items l) as [|e its IH]; simpl; [tauto|].
  unfold LRU.has_key at 1. destruct (String.eqb (LRU.e_key e) key) eqn:E; simpl.
  - apply String.eqb_eq in E. rewrite IH. split; [tauto|].
    intros [[H|H] Hne]; [congruence|tauto].
  - apply String.eqb_neq in E. rewrite IH. split; [|tauto].
    intros [H|H]; [|tauto]. split; [tauto|congruence].
Qed.

Lemma lookup_key {V : Type} (l : LRU.t V) (key : string) (e : LRU.entry V) :
  LRU.lookup l key = Some e -> LRU.e_key e = key /\ In key (keys_of l).
Proof.
  intros H. destruct (LRU_lookup_has_key _ _ _ H) as [Hk Hin].
  apply String.eqb_eq in Hk. split; [exact Hk|].
  unfold keys_of. rewrite <- Hk. apply in_map, Hin.
Qed.

Lemma keys_Get {V : Type} (l : LRU.t V) (key : string) (now : Z) (k : string) :
  In k (keys_of (LRU.Get l key now).1) <-> In k (keys_of l).
Proof.
  unfold LRU.Get. destruct (LRU.lookup l key) as [e|] eqn:E; [|tauto].
  destruct (LRU.expired now e); [tauto|].
  destruct (lookup_key _ _ _ E) as [Hk Hin]. unfold keys_of at 1. simpl.
  rewrite keys_others, Hk.
  destruct (String.eqb_spec k key) as [->|Hne]; intuition congruence.
Qed.

Lemma keys_Add {V : Type} (l : LRU.t V) (key : string) (v : V) (now : Z) (k : string) :
  In k (keys_of (LRU.Add l key v now).1) -> k = key \/ In k (keys_of l).
Proof.
  unfold LRU.Add. destruct (LRU.lookup l key) as [e|] eqn:E.
  - unfold keys_of at 1. simpl. rewrite keys_others. intuition congruence.
  - set (its := LRU.mkEntry key v (now + LRU.ttl l) :: LRU.items l).
    assert (Hits : In k (map LRU.e_key its) -> k = key \/ In k (keys_of l)).
    { unfold its, keys_of. simpl. intuition congruence. }
    destruct ((0 <? LRU.capacity l)%nat && (LRU.capacity l <? length its)%nat).
    + destruct (last its) eqn:El; [|exact Hits].
      unfold keys_of. simpl. intros H. apply Hits.
      apply in_map_iff in H as (x & Hx & Hin). apply in_map_iff. exists x.
      split; [exact Hx|]. apply In_removelast, Hin.
    + exact Hits.
Qed.

Lemma keys_Remove {V : Type} (l : LRU.t V) (key k : string) :
  In k (keys_of (LRU.Remove l key).1) -> In k (keys_of l) /\ k <> key.
Proof.
  unfold LRU.Remove. destruct (LRU.lookup l key) as [e|] eqn:E.
  - unfold keys_of at 1. simpl. apply keys_others.
  - simpl. intros H. split; [exact H|]. intros ->.
    apply Contains_keys in H. unfold LRU.Contains in H. rewrite E in H. discriminate.
Qed.

Lemma keys_deleteExpired {V : Type} (l : LRU.t V) (key : string) (now : Z) (k : string) :
  In k (keys_of (LRU.deleteExpired l key now).1) -> In k (keys_of l).
Proof.
  unfold LRU.deleteExpired. destruct (LRU.lookup l key) as [e|]; [|tauto].
  destruct (LRU.expired now e); [|tauto].
  unfold keys_of at 1. simpl. rewrite keys_others. tauto.
Qed.

Lemma keys_RemoveOldest {V : Type} (l : LRU.t V) (k : string) :
  In k (keys_of (LRU.RemoveOldest l).1) -> In k (keys_of l).
Proof.
  unfold LRU.RemoveOldest. destruct (last (LRU.items l)) eqn:El; [|tauto].
  unfold keys_of. simpl. intros H.
  apply in_map_iff in H as (x & Hx & Hin). apply in_map_iff. exists x.
  split; [exact Hx|]. apply In_removelast, Hin.
Qed.

Lemma onEvict_same (c : Cache) (e : LRU.entry CacheEntry) :
  fileCache (onEvict c e) = fileCache c /\ pending (onEvict c e) = pending c.
Proof.
  unfold onEvict. destruct (negb (String.eqb (FilePath (LRU.e_value e)) "")); split; reflexivity.
Qed.

Lemma run_evictions_same (evicted : list (LRU.entry CacheEntry)) (c : Cache) :
  fileCache (run_evictions c evicted) = fileCache c /\
  pending (run_evictions c evicted) = pending c.
Proof.
  revert c. induction evicted as [|e ev IH]; intros c; simpl; [tauto|].
  destruct (IH (onEvict c e)) as [H1 H2]. destruct (onEvict_same c e) as [H3 H4].
  unfold run_evictions in *. split; congruence.
Qed.

Lemma fileCache_Add_keys (c : Cache) (key : string) (entry : CacheEntry) (now : Z) (k : string) :
  (In k (keys_of (fileCache (fileCache_Add c key entry now))) ->
     k = key \/ In k (keys_of (fileCache c))) /\
  pending (fileCache_Add c key entry now) = pending c.
Proof.
  unfold fileCache_Add.
  pose proof (keys_Add (fileCache c) key entry now k) as HA.
  destruct (LRU.Add (fileCache c) key entry now) as [fc ev].
  destruct (run_evictions_same ev (with_fileCache c fc)) as [H1 H2].
  rewrite H1, H2. split; [exact HA|reflexivity].
Qed.

Lemma Get_Some_key {V : Type} (l : LRU.t V) (key : string) (now : Z) (v : V) :
  (LRU.Get l key now).2 = Some v -> In key (keys_of l).
Proof.
  unfold LRU.Get. destruct (LRU.lookup l key) as [e|] eqn:E; [|discriminate].
  intros _. apply (lookup_key _ _ _ E).
Qed.

Lemma evictIfNeeded_loop_keys (fuel : nat) (c : Cache) (incoming : Z) (k : string) :
  (In k (keys_of (fileCache (evictIfNeeded_loop fuel c incoming))) ->
     In k (keys_of (fileCache c))) /\
  pending (evictIfNeeded_loop fuel c incoming) = pending c.
Proof.
  revert c. induction fuel as [|f IH]; intros c; simpl; [tauto|].
  destruct (Int64.add (totalSize c) incoming >? MaxCacheSize (config c)); [|tauto].
  pose proof (keys_RemoveOldest (fileCache c) k) as HR.
  destruct (LRU.RemoveOldest (fileCache c)) as [fc [e|]]; [|tauto].
  destruct (IH (onEvict (with_fileCache c fc) e)) as [H1 H2].
  destruct (onEvict_same (with_fileCache c fc) e) as [H3 H4].
  rewrite H2, H4. rewrite H3 in H1. split; [|reflexivity].
  intros H. apply HR, H1, H.
Qed.

Lemma Get_keys (c : Cache) (key : string) (now : Z) (k : string) :
  (In k (keys_of (fileCache (Get c key now).1)) -> In k (keys_of (fileCache c))) /\
  pending (Get c key now).1 = pending c.
Proof.
  unfold Get. destruct (LRU.Get (notFoundCache c) key now) as [nf [u|]]; [tauto|].
  cbn [with_notFoundCache fileCache].
  pose proof (keys_Get (fileCache c) key now k) as HG.
  pose proof (Get_Some_key (fileCache c) key now) as HS.
  destruct (LRU.Get (fileCache c) key now) as [fc [entry|]]; cbn [fst snd] in *.
  - destruct (fileCache_Add_keys
                (with_fileCache (with_notFoundCache c nf) fc) key entry now k) as [H1 H2].
    rewrite H2. split; [|reflexivity]. intros H. destruct (H1 H) as [->|H'].
    + apply (HS entry eq_refl).
    + apply HG, H'.
  - split; [apply HG|reflexivity].
Qed.

Section Exclusion.

Variable sha256_hex : string -> string.

Lemma CompletePending_keys (c : Cache) (key : string) (size : Z) (ct : string)
    (now : Z) (k : string) :
  (In k (keys_of (fileCache (CompletePending sha256_hex c key size ct now))) ->
     k = key \/ In k (keys_of (fileCache c))) /\
  (is_Some (pending (CompletePending sha256_hex c key size ct now) !! k) ->
     is_Some (pending c !! k)) /\
  pending (CompletePending sha256_hex c key size ct now) !! key = None.
Proof.
  unfold CompletePending. destruct (pending c !! key) as [sf|] eqn:Ep.
  - set (c1 := store_Complete (with_pending c (delete key (pending c))) sf).
    destruct (evictIfNeeded_loop_keys (S (LRU.Len (fileCache c1))) c1 size k) as [H1 H2].
    fold (evictIfNeeded c1 size) in H1, H2.
    destruct (fileCache_Add_keys (evictIfNeeded c1 size) key
                (mkCacheEntry key (filePath sha256_hex (evictIfNeeded c1 size) key) size ct now)
                now k) as [H3 H4].
    cbn [with_totalSize fileCache pending]. rewrite H4, H2.
    subst c1. cbn [store_Complete with_store with_pending pending fileCache] in *.
    split; [|split].
    + intros H. destruct (H3 H) as [->|H']; [tauto|]. right. apply H1, H'.
    + intros [x Hx]. destruct (decide (key = k)) as [->|Hne].
      * rewrite lookup_delete_eq in Hx. discriminate.
      * rewrite lookup_delete_ne in Hx by exact Hne. eauto.
    + apply lookup_delete_eq.
  - split; [tauto|]. split; [tauto|exact Ep].
Qed.

Lemma store_Abort_same (c : Cache) (l : nat) :
  fileCache (store_Abort c l) = fileCache c /\ pending (store_Abort c l) = pending c.
Proof. unfold store_Abort. destruct (store c !! l); split; reflexivity. Qed.

Lemma cache_step_keys (c : Cache) (o : cache_op) (k : string) :
  (In k (keys_of (fileCache (cache_step sha256_hex c o))) ->
     In k (keys_of (fileCache c)) \/
     exists size ct now, o = CCompletePending k size ct now) /\
  (is_Some (pending (cache_step sha256_hex c o) !! k) ->
     is_Some (pending c !! k) \/ exists io, o = CGetOrCreatePending k io) /\
  (forall size ct now, o = CCompletePending k size ct now ->
     pending (cache_step sha256_hex c o) !! k = None).
Proof.
  destruct o as [key now|key now|key io|key size ct now|key|key now|key|key now];
    cbn [cache_step].
  - destruct (Get_keys c key now k) as [H1 H2]. rewrite H2.
    split; [tauto|]. split; [tauto|discriminate].
  - unfold IsNotFound. destruct (LRU.Get (notFoundCache c) key now) as [nf [u|]];
      (split; [tauto|]; split; [tauto|discriminate]).
  - unfold GetOrCreatePending. destruct (pending c !! key) as [sf|] eqn:Ep.
    + split; [tauto|]. split; [tauto|discriminate].
    + destruct io; cbn [fst]; try (split; [tauto|]; split; [tauto|discriminate]).
      unfold SF.New. cbn [fst with_pending with_store with_disk fileCache pending].
      split; [tauto|]. split; [|discriminate].
      intros [x Hx]. destruct (decide (key = k)) as [->|Hne]; [right; eauto|].
      rewrite lookup_insert_ne in Hx by exact Hne. eauto.
  - destruct (CompletePending_keys c key size ct now k) as (H1 & H2 & H3).
    split; [|split].
    + intros H. destruct (H1 H) as [->|H']; [right; eauto|tauto].
    + tauto.
    + intros size' ct' now' Heq. injection Heq as -> _ _ _. exact H3.
  - unfold FailPending. destruct (pending c !! key) as [sf|] eqn:Ep.
    + destruct (store_Abort_same (with_pending c (delete key (pending c))) sf) as [H1 H2].
      rewrite H1, H2. cbn [with_pending fileCache pending].
      split; [tauto|]. split; [|discriminate].
      intros [x Hx]. destruct (decide (key = k)) as [->|Hne].
      * rewrite lookup_delete_eq in Hx. discriminate.
      * rewrite lookup_delete_ne in Hx by exact Hne. eauto.
    + split; [tauto|]. split; [tauto|discriminate].
  - unfold PutNotFound, notFoundCache_Add. cbn [with_notFoundCache fileCache pending].
    split; [tauto|]. split; [tauto|discriminate].
  - unfold Remove. pose proof (keys_Remove (fileCache c) key k) as HR.
    destruct (LRU.Remove (fileCache c) key) as [fc [e|]];
      cbn [with_notFoundCache with_fileCache fileCache pending fst] in *.
    + destruct (onEvict_same (with_fileCache c fc) e) as [H1 H2]. rewrite H1, H2.
      cbn [with_fileCache fileCache pending].
      split; [tauto|]. split; [tauto|discriminate].
    + split; [tauto|]. split; [tauto|discriminate].
  - unfold Expire. pose proof (keys_deleteExpired (fileCache c) key now k) as HR.
    destruct (LRU.deleteExpired (fileCache c) key now) as [fc [e|]];
      cbn [with_fileCache fileCache pending fst] in *.
    + destruct (onEvict_same (with_fileCache c fc) e) as [H1 H2]. rewrite H1, H2.
      cbn [with_fileCache fileCache pending].
      split; [tauto|]. split; [tauto|discriminate].
    + split; [tauto|]. split; [tauto|discriminate].
Qed.

Lemma cache_step_exclusive (c : Cache) (o : cache_op) :
  exclusive c -> op_guarded c o -> exclusive (cache_step sha256_hex c o).
Proof.
  intros Hex Hg k [Hc Hp]. unfold in_completed, in_pending in *.
  apply Contains_keys in Hc.
  destruct (cache_step_keys c o k) as (H1 & H2 & H3).
  destruct (H1 Hc) as [Hc'|(size & ct & now & ->)].
  - destruct (H2 Hp) as [Hp'|(io & ->)].
    + apply (Hex k). split; [apply Contains_keys, Hc'|exact Hp'].
    + apply Hg. apply Contains_keys, Hc'.
  - rewrite (H3 size ct now eq_refl) in Hp. destruct Hp as [x Hx]. discriminate.
Qed.

(** C4, as the code has it.  From a state in which every key is in at most
    one of the completed store and the pending map (the state [NewCache]
    returns is one), any sequence of [Get], [IsNotFound],
    [GetOrCreatePending], [CompletePending], [FailPending], [PutNotFound],
    [Remove] and removals of expired entries keeps every key in at most one
    of the two, provided [GetOrCreatePending] is only called for a key
    that the completed store does not hold at that moment. *)
Theorem exclusive_when_guarded (c : Cache) (ops : list cache_op)
    (Hinit : exclusive c)
    (Hguard : ops_guarded sha256_hex c ops) :
  exclusive (cache_run sha256_hex c ops).
Proof.
  revert c Hinit Hguard. induction ops as [|o ops IH]; intros c Hinit Hguard.
  - exact Hinit.
  - destruct Hguard as [Ho Hrest]. simpl. apply IH; [|exact Hrest].
    apply cache_step_exclusive; assumption.
Qed.

End Exclusion.

(** The overlap behind C4: a key whose download has completed is looked
    for only in the pending map by [GetOrCreatePending]; a second download
    of the key puts it in both. *)
Lemma completed_and_pending_overlap :
  exists c0,
  NewCache (fun _ => None) (mkConfig "http://origin" "/cache" 100 1000 50) ∅ 0 = Started c0 /\
  let c := cache_run hex_name c0
             [CGetOrCreatePending "/k" IoOk;
              CCompletePending "/k" 0 "text/plain" 1;
              CGetOrCreatePending "/k" IoOk] in
  exclusive c0 /\ in_completed c "/k" /\ in_pending c "/k" /\ ~ exclusive c.
Proof.
  exists (emptyCache (mkConfig "http://origin" "/cache" 100 1000 50) ∅). split; [vm_compute; reflexivity|].
  set (c0 := emptyCache _ _). intros c.
  assert (H0 : exclusive c0).
  { intros k [_ [x Hx]]. assert (Hp : pending c0 = ∅) by reflexivity.
    rewrite Hp, lookup_empty in Hx. discriminate. }
  assert (H1 : in_completed c "/k") by (vm_compute; reflexivity).
  assert (H2 : in_pending c "/k") by (vm_compute; eexists; reflexivity).
  split; [exact H0|]. split; [exact H1|]. split; [exact H2|].
  intros Hex. exact (Hex "/k" (conj H1 H2)).
Qed.

Lemma exclusive_when_guarded_witness :
  exists c0,
  NewCache (fun _ => None) (mkConfig "http://origin" "/cache" 100 1000 50) ∅ 0 = Started c0 /\
  let ops := [CGetOrCreatePending "/k" IoOk;
              CCompletePending "/k" 0 "text/plain" 1;
              CGet "/k" 2;
              CRemove "/k";
              CGetOrCreatePending "/k" IoOk;
              CFailPending "/k"] in
  exclusive c0 /\ ops_guarded hex_name c0 ops /\ exclusive (cache_run hex_name c0 ops).
Proof.
  exists (emptyCache (mkConfig "http://origin" "/cache" 100 1000 50) ∅). split; [vm_compute; reflexivity|].
  set (c0 := emptyCache _ _). intros ops.
  assert (H0 : exclusive c0).
  { intros k [_ [x Hx]]. assert (Hp : pending c0 = ∅) by reflexivity.
    rewrite Hp, lookup_empty in Hx. discriminate. }
  assert (H1 : ops_guarded hex_name c0 ops).
  { subst ops. cbn [ops_guarded op_guarded].
    repeat split; intros H; vm_compute in H; discriminate H. }
  split; [exact H0|]. split; [exact H1|].
  exact (exclusive_when_guarded hex_name c0 ops H0 H1).
Defined.

(** ** Saving and loading the index *)

Lemma lookup_not_in {V : Type} (l : LRU.t V) (key : string) :
  ~ In key (keys_of l) -> LRU.lookup l key = None.
Proof.
  intros H. destruct (LRU.lookup l key) as [e|] eqn:E; [|reflexivity].
  exfalso. apply H. apply (lookup_key _ _ _ E).
Qed.

Lemma find_NoDup {V : Type} (its : list (LRU.entry V)) (e : LRU.entry V) :
  NoDup (map LRU.e_key its) -> In e its ->
  List.find (LRU.has_key (LRU.e_key e)) its = Some e.
Proof.
  induction its as [|x its IH]; simpl; [tauto|].
  intros Hnd Hin. apply NoDup_cons in Hnd as [Hx Hnd].
  unfold LRU.has_key at 1. destruct (String.eqb (LRU.e_key x) (LRU.e_key e)) eqn:E.
  - destruct Hin as [->|Hin]; [reflexivity|].
    exfalso. apply Hx. apply String.eqb_eq in E. rewrite E.
    apply list_elem_of_In, in_map, Hin.
  - destruct Hin as [->|Hin]; [rewrite String.eqb_refl in E; discriminate|].
    apply IH; assumption.
Qed.

Lemma lookup_NoDup {V : Type} (l : LRU.t V) (e : LRU.entry V) :
  NoDup (keys_of l) -> In e (LRU.items l) -> LRU.lookup l (LRU.e_key e) = Some e.
Proof. apply find_NoDup. Qed.

Lemma saved_entries {V : Type} (l : LRU.t V) (now : Z) (sub : list (LRU.entry V)) :
  NoDup (keys_of l) ->
  (forall e, In e sub -> In e (LRU.items l) /\ LRU.expired now e = false) ->
  omap (fun key => LRU.Peek l key now) (map LRU.e_key sub) = map LRU.e_value sub.
Proof.
  intros Hnd. induction sub as [|e sub IH]; intros Hsub; [reflexivity|].
  destruct (Hsub e (or_introl eq_refl)) as [Hin Hlive].
  simpl. unfold LRU.Peek at 1. rewrite (lookup_NoDup l e Hnd Hin), Hlive.
  f_equal. apply IH. intros x Hx. apply Hsub. right. exact Hx.
Qed.

Lemma saveIndex_entries (marshal : cacheIndex -> list byte) (c : Cache) (now : Z) :
  NoDup (keys_of (fileCache c)) ->
  disk (saveIndex marshal c now IoOk).1 !! indexPath c
    = Some (marshal (mkCacheIndex (map Some (live_entries c now)))).
Proof.
  intros Hnd. unfold saveIndex. cbn [fst with_disk disk].
  rewrite lookup_insert_eq. unfold LRU.Keys, live_entries.
  rewrite (saved_entries (fileCache c) now _ Hnd); [reflexivity|].
  intros e He. apply filter_In in He as [Hin Hlive].
  apply in_rev in Hin. split; [exact Hin|]. apply negb_true_iff, Hlive.
Qed.

Lemma intact_delete (d : Disk) (p : string) (e : CacheEntry) :
  FilePath e <> p -> intact (delete p d) e = intact d e.
Proof.
  intros Hne. unfold intact, disk_stat. rewrite lookup_delete_ne by congruence. reflexivity.
Qed.

Lemma intact_size (d : Disk) (e : CacheEntry) : intact d e = true -> 0 <= Size e.
Proof.
  unfold intact, disk_stat. destruct (d !! FilePath e); [|discriminate].
  intros H. apply Z.eqb_eq in H. lia.
Qed.

Lemma total_of_intact_nonneg (d : Disk) (es : list CacheEntry) :
  0 <= total_of (List.filter (intact d) es).
Proof.
  induction es as [|e es IH]; simpl; [unfold total_of; simpl; lia|].
  destruct (intact d e) eqn:E; [|exact IH].
  unfold total_of in *. simpl. pose proof (intact_size d e E). lia.
Qed.

Lemma unlink_entries_delete (p : string) (d : Disk) (es : list CacheEntry) :
  unlink_entries es (delete p d) = delete p (unlink_entries es d).
Proof.
  induction es as [|e es IH]; simpl; [reflexivity|].
  rewrite IH. apply delete_delete.
Qed.

Lemma unlink_entries_gone (d : Disk) (es : list CacheEntry) (p : string) :
  In p (map FilePath es) -> unlink_entries es d !! p = None.
Proof.
  induction es as [|e es IH]; simpl; [tauto|].
  intros [<-|Hin]; [apply lookup_delete_eq|].
  destruct (decide (FilePath e = p)) as [<-|Hne]; [apply lookup_delete_eq|].
  rewrite lookup_delete_ne by exact Hne. apply IH, Hin.
Qed.

Lemma unlink_entries_kept (d : Disk) (es : list CacheEntry) (p : string) :
  ~ In p (map FilePath es) -> unlink_entries es d !! p = d !! p.
Proof.
  induction es as [|e es IH]; simpl; [reflexivity|].
  intros Hnin. rewrite lookup_delete_ne by tauto. apply IH. tauto.
Qed.

Lemma loadEntry_cache (now : Z) (c : Cache) (vf : gset string) (e : CacheEntry) :
  (loadEntry now (c, vf) e).1 =
    if intact (disk c) e then
      with_totalSize (fileCache_Add c (Key e) e now)
        (Int64.add (totalSize (fileCache_Add c (Key e) e now)) (Size e))
    else with_disk c (delete (FilePath e) (disk c)).
Proof.
  unfold loadEntry, intact. destruct (disk_stat (disk c) (FilePath e)) as [sz|]; [|reflexivity].
  destruct (sz =? Size e); reflexivity.
Qed.

Lemma fileCache_Add_fresh (c : Cache) (key : string) (entry : CacheEntry) (now : Z) :
  LRU.capacity (fileCache c) = 0%nat ->
  ~ In key (keys_of (fileCache c)) ->
  fileCache_Add c key entry now =
    with_fileCache c
      (LRU.with_items (fileCache c)
         (LRU.mkEntry key entry (now + LRU.ttl (fileCache c)) :: LRU.items (fileCache c))).
Proof.
  intros Hcap Hfresh. unfold fileCache_Add.
  rewrite LRU_Add_unbounded by exact Hcap.
  rewrite (LRU_others_none _ _ (lookup_not_in _ _ Hfresh)). reflexivity.
Qed.

Lemma loaded_items_cons (l : LRU.t CacheEntry) (now : Z) (e : CacheEntry) (es : list CacheEntry) :
  loaded_items l now (e :: es)
  = loaded_items l now es ++ [LRU.mkEntry (Key e) e (now + LRU.ttl l)].
Proof. reflexivity. Qed.

Lemma load_fold (now : Z) (es : list CacheEntry) :
  forall (c : Cache) (vf : gset string),
  LRU.capacity (fileCache c) = 0%nat ->
  NoDup (map FilePath es) -> NoDup (map Key es) ->
  (forall e, In e es -> ~ In (Key e) (keys_of (fileCache c))) ->
  0 <= totalSize c ->
  totalSize c + total_of (List.filter (intact (disk c)) es) <= Int64.max_int ->
  (fold_left (loadEntry now) es (c, vf)).1 =
    mkCache (config c)
      (LRU.with_items (fileCache c)
         (loaded_items (fileCache c) now (List.filter (intact (disk c)) es)
          ++ LRU.items (fileCache c)))
      (notFoundCache c)
      (totalSize c + total_of (List.filter (intact (disk c)) es))
      (pending c) (store c)
      (unlink_entries (List.filter (fun e => negb (intact (disk c) e)) es) (disk c)).
Proof.
  induction es as [|e es IH]; intros c vf Hcap Hpaths Hkeys Hfresh H0 Hfit.
  - simpl. rewrite LRU_with_items_id. unfold total_of. simpl. rewrite Z.add_0_r.
    destruct c; reflexivity.
  - apply NoDup_cons in Hpaths as [Hp Hpaths]. apply NoDup_cons in Hkeys as [Hk Hkeys].
    cbn [fold_left].
    pose proof (loadEntry_cache now c vf e) as Hstep.
    destruct (loadEntry now (c, vf) e) as [c1 vf1]. cbn [fst] in Hstep.
    cbn [List.filter] in *.
    destruct (intact (disk c) e) eqn:Eint; cbn [negb] in *.
    + rewrite fileCache_Add_fresh in Hstep
        by (try exact Hcap; apply Hfresh; left; reflexivity).
      pose proof (intact_size _ _ Eint) as Hsz.
      pose proof (total_of_intact_nonneg (disk c) es) as Hnn.
      assert (Htot : total_of (e :: List.filter (intact (disk c)) es)
                     = Size e + total_of (List.filter (intact (disk c)) es)) by reflexivity.
      rewrite Htot in Hfit |- *. unfold Int64.max_int in Hfit.
      cbn [with_fileCache with_totalSize config fileCache notFoundCache totalSize
           pending store disk] in Hstep.
      assert (Hr : Int64.in_range (totalSize c + Size e)).
      { unfold Int64.in_range, Int64.min_int, Int64.max_int. lia. }
      rewrite Int64_add_small in Hstep by exact Hr.
      subst c1. rewrite IH; cbn [config fileCache notFoundCache totalSize pending store disk
                                 with_totalSize with_fileCache
                                 LRU.with_items LRU.items LRU.capacity LRU.ttl];
        try assumption; try (unfold Int64.max_int; lia).
      * rewrite loaded_items_cons. unfold loaded_items, LRU.with_items.
        cbn [LRU.capacity LRU.ttl]. rewrite <- app_assoc.
        f_equal. lia.
      * intros e' He' [Heq|Hin].
        -- simpl in Heq. apply Hk. rewrite Heq. apply list_elem_of_In, in_map, He'.
        -- apply (Hfresh e'); [right; exact He'|exact Hin].
    + subst c1.
      assert (Hint : forall e', In e' es ->
                intact (delete (FilePath e) (disk c)) e' = intact (disk c) e').
      { intros e' He'. apply intact_delete. intros Heq. apply Hp. rewrite <- Heq.
        apply list_elem_of_In, in_map, He'. }
      assert (Hf1 : List.filter (intact (delete (FilePath e) (disk c))) es
                    = List.filter (intact (disk c)) es).
      { apply List.filter_ext_in. exact Hint. }
      assert (Hf2 : List.filter (fun e' => negb (intact (delete (FilePath e) (disk c)) e')) es
                    = List.filter (fun e' => negb (intact (disk c) e')) es).
      { apply List.filter_ext_in. intros e' He'. rewrite (Hint e' He'). reflexivity. }
      rewrite IH; cbn [with_disk config fileCache notFoundCache totalSize pending store disk];
        try assumption.
      * rewrite Hf1, Hf2, unlink_entries_delete. reflexivity.
      * intros e' He'. apply Hfresh. right. exact He'.
      * rewrite Hf1. exact Hfit.
Qed.

Lemma loadEntry_valid (now : Z) (c : Cache) (vf : gset string) (e : CacheEntry) :
  (loadEntry now (c, vf) e).2 = if intact (disk c) e then {[FilePath e]} ∪ vf else vf.
Proof.
  unfold loadEntry, intact. destruct (disk_stat (disk c) (FilePath e)) as [sz|]; [|reflexivity].
  destruct (sz =? Size e); reflexivity.
Qed.

Lemma loadEntry_disk (now : Z) (c : Cache) (vf : gset string) (e : CacheEntry) :
  LRU.capacity (fileCache c) = 0%nat ->
  disk (loadEntry now (c, vf) e).1
    = (if intact (disk c) e then disk c else delete (FilePath e) (disk c)) /\
  LRU.capacity (fileCache (loadEntry now (c, vf) e).1) = 0%nat.
Proof.
  intros Hcap. rewrite loadEntry_cache. destruct (intact (disk c) e).
  - unfold fileCache_Add. rewrite LRU_Add_unbounded by exact Hcap.
    split; [reflexivity|exact Hcap].
  - split; [reflexivity|exact Hcap].
Qed.

Lemma load_fold_valid (now : Z) (es : list CacheEntry) :
  forall (c : Cache) (vf : gset string) (p : string),
  LRU.capacity (fileCache c) = 0%nat ->
  NoDup (map FilePath es) ->
  p ∈ vf \/ (exists e, In e es /\ intact (disk c) e = true /\ FilePath e = p) ->
  p ∈ (fold_left (loadEntry now) es (c, vf)).2.
Proof.
  induction es as [|e es IH]; intros c vf p Hcap Hnd Hp.
  - simpl. destruct Hp as [Hp|(e & [] & _)]. exact Hp.
  - apply NoDup_cons in Hnd as [Hpe Hnd]. cbn [fold_left].
    pose proof (loadEntry_valid now c vf e) as Hv.
    destruct (loadEntry_disk now c vf e Hcap) as [Hd Hcap'].
    destruct (loadEntry now (c, vf) e) as [c1 vf1]. cbn [fst snd] in *.
    apply IH; [exact Hcap'|exact Hnd|].
    destruct Hp as [Hp|(e' & [<-|Hin] & Hint & Hpath)].
    + left. rewrite Hv. destruct (intact (disk c) e); set_solver.
    + left. rewrite Hv, Hint, <- Hpath. set_solver.
    + right. exists e'. split; [exact Hin|]. split; [|exact Hpath].
      rewrite Hd. destruct (intact (disk c) e); [exact Hint|].
      rewrite intact_delete; [exact Hint|].
      intros Heq. apply Hpe. rewrite <- Heq. apply list_elem_of_In, in_map, Hin.
Qed.

Lemma NoDup_map_filter {A B : Type} (f : A -> B) (p : A -> bool) (l : list A) :
  NoDup (map f l) -> NoDup (map f (List.filter p l)).
Proof.
  induction l as [|a l IH]; simpl; [tauto|].
  intros H. apply NoDup_cons in H as [Ha H].
  destruct (p a); simpl; [|auto].
  apply NoDup_cons. split; [|auto].
  intros Hin. apply Ha. apply list_elem_of_In in Hin. apply list_elem_of_In.
  apply in_map_iff in Hin as (x & Hx & Hin). apply in_map_iff. exists x.
  split; [exact Hx|]. apply filter_In in Hin. tauto.
Qed.

Lemma NoDup_map_inj_in {A B : Type} (f : A -> B) (l : list A) (a b : A) :
  NoDup (map f l) -> In a l -> In b l -> f a = f b -> a = b.
Proof.
  induction l as [|x l IH]; simpl; [tauto|].
  intros H. apply NoDup_cons in H as [Hx H].
  intros [->|Ha] [->|Hb] Heq; try reflexivity.
  - exfalso. apply Hx. rewrite Heq. apply list_elem_of_In, in_map, Hb.
  - exfalso. apply Hx. rewrite <- Heq. apply list_elem_of_In, in_map, Ha.
  - auto.
Qed.

Lemma total_of_filter_le (p : CacheEntry -> bool) (es : list CacheEntry) :
  Forall (fun e => 0 <= Size e) es -> 0 <= total_of (List.filter p es) <= total_of es.
Proof.
  induction 1 as [|e es He _ IH]; unfold total_of in *; simpl; [lia|].
  destruct (p e); simpl; lia.
Qed.

Lemma total_of_values (l : list (LRU.entry CacheEntry)) :
  total_of (map LRU.e_value l) = sum_sizes l.
Proof. induction l as [|e l IH]; [reflexivity|]. unfold total_of, sum_sizes in *. simpl. lia. Qed.

Lemma sum_sizes_filter_le (q : LRU.entry CacheEntry -> bool) (l : list (LRU.entry CacheEntry)) :
  Forall entry_ok l -> 0 <= sum_sizes (List.filter q l) <= sum_sizes l.
Proof.
  induction 1 as [|e l [He _] _ IH]; unfold sum_sizes in *; simpl; [lia|].
  destruct (q e); simpl; lia.
Qed.

Lemma sum_sizes_rev (l : list (LRU.entry CacheEntry)) : sum_sizes (rev l) = sum_sizes l.
Proof.
  induction l as [|e l IH]; [reflexivity|].
  simpl. rewrite sum_sizes_app, IH. unfold sum_sizes. simpl. lia.
Qed.

Lemma sum_sizes_loaded (l : LRU.t CacheEntry) (now : Z) (es : list CacheEntry) :
  sum_sizes (loaded_items l now es) = total_of es.
Proof.
  unfold loaded_items. rewrite sum_sizes_rev.
  induction es as [|e es IH]; [reflexivity|]. unfold sum_sizes, total_of in *. simpl. lia.
Qed.

Lemma NoDup_rev_list {A : Type} (l : list A) : NoDup l -> NoDup (rev l).
Proof.
  induction l as [|a l IH]; simpl; [tauto|].
  intros H. apply NoDup_cons in H as [Ha H].
  apply NoDup_app. split; [auto|]. split; [|apply NoDup_singleton].
  intros x Hx Hx'. apply list_elem_of_singleton in Hx'. subst x.
  apply Ha. apply list_elem_of_In. apply list_elem_of_In in Hx. apply in_rev, Hx.
Qed.

Lemma live_entries_facts (c : Cache) (now : Z) :
  store_wf c ->
  NoDup (map Key (live_entries c now)) /\
  NoDup (map FilePath (live_entries c now)) /\
  Forall (fun e => 0 <= Size e) (live_entries c now) /\
  total_of (live_entries c now) <= Int64.max_int.
Proof.
  intros (Hkeys & Hpaths & Hown & Hok & Hsum). unfold live_entries, keys_of in *.
  set (its := LRU.items (fileCache c)) in *.
  set (live := fun e : LRU.entry CacheEntry => negb (LRU.expired now e)).
  split; [|split; [|split]].
  - rewrite map_map.
    rewrite (map_ext_in _ LRU.e_key).
    + apply NoDup_map_filter. rewrite map_rev. apply NoDup_rev_list, Hkeys.
    + intros e He. apply filter_In in He as [He _]. apply in_rev in He.
      rewrite List.Forall_forall in Hown. apply Hown, He.
  - rewrite map_map. apply (NoDup_map_filter (fun e => FilePath (LRU.e_value e))).
    rewrite map_rev. apply NoDup_rev_list, Hpaths.
  - apply List.Forall_forall. intros e He.
    apply in_map_iff in He as (x & <- & Hx). apply filter_In in Hx as [Hx _].
    apply in_rev in Hx. rewrite List.Forall_forall in Hok. apply (Hok x Hx).
  - rewrite total_of_values.
    pose proof (sum_sizes_filter_le live (rev its) (Forall_rev Hok)) as H.
    rewrite sum_sizes_rev in H. lia.
Qed.

Lemma Peek_live (c : Cache) (key : string) (now : Z) (entry : CacheEntry) :
  store_wf c ->
  LRU.Peek (fileCache c) key now = Some entry ->
  In entry (live_entries c now) /\ Key entry = key.
Proof.
  intros (_ & _ & Hown & _) H. unfold LRU.Peek in H.
  destruct (LRU.lookup (fileCache c) key) as [e|] eqn:El; [|discriminate].
  destruct (LRU.expired now e) eqn:Ex; [discriminate|]. injection H as <-.
  destruct (LRU_lookup_has_key _ _ _ El) as [Hk Hin].
  apply String.eqb_eq in Hk. rewrite List.Forall_forall in Hown.
  split; [|rewrite (Hown e Hin); exact Hk].
  unfold live_entries. apply in_map. apply filter_In. split; [apply in_rev in Hin; exact Hin|].
  rewrite Ex. reflexivity.
Qed.

Lemma NewLRU_ttl_pos {V : Type} (size : nat) (ttl : Z) :
  0 < LRU.ttl (LRU.NewLRU (V := V) size ttl).
Proof.
  unfold LRU.NewLRU. simpl. destruct (ttl <=? 0) eqn:E; [|lia].
  unfold LRU.noEvictionTTL. lia.
Qed.

Lemma keys_loaded (l : LRU.t CacheEntry) (now : Z) (es : list CacheEntry) :
  map LRU.e_key (loaded_items l now es) = rev (map Key es).
Proof. unfold loaded_items. rewrite map_rev, map_map. reflexivity. Qed.

Lemma loadEntry_shrinks (now : Z) (c : Cache) (vf : gset string) (e : CacheEntry) :
  LRU.capacity (fileCache c) = 0%nat ->
  let c' := (loadEntry now (c, vf) e).1 in
  let vf' := (loadEntry now (c, vf) e).2 in
  LRU.capacity (fileCache c') = 0%nat /\
  config c' = config c /\
  (forall p v, disk c' !! p = Some v -> disk c !! p = Some v) /\
  (forall p, p ∈ vf' ->
     p ∈ vf \/ (FilePath e = p /\
               forall v, disk c' !! p = Some v -> Size e = Z.of_nat (length v))).
Proof.
  intros Hcap. cbv zeta.
  destruct (loadEntry_disk now c vf e Hcap) as [Hd Hcap'].
  rewrite loadEntry_valid. split; [exact Hcap'|].
  split.
  { rewrite loadEntry_cache. destruct (intact (disk c) e); [|reflexivity].
    unfold fileCache_Add. rewrite LRU_Add_unbounded by exact Hcap. reflexivity. }
  rewrite Hd. destruct (intact (disk c) e) eqn:Ei.
  - split; [auto|]. intros p Hp. apply elem_of_union in Hp as [Hp|Hp]; [|auto].
    apply elem_of_singleton in Hp. subst p. right. split; [reflexivity|].
    intros v Hv. unfold intact, disk_stat in Ei. rewrite Hv in Ei.
    apply Z.eqb_eq in Ei. lia.
  - split; [|auto]. intros p v Hv.
    destruct (decide (FilePath e = p)) as [Heq|Hne].
    + subst p. rewrite lookup_delete_eq in Hv. discriminate.
    + rewrite lookup_delete_ne in Hv by exact Hne. exact Hv.
Qed.

Lemma load_fold_shrinks (now : Z) (es : list CacheEntry) :
  forall (c : Cache) (vf : gset string),
  LRU.capacity (fileCache c) = 0%nat ->
  let c' := (fold_left (loadEntry now) es (c, vf)).1 in
  let vf' := (fold_left (loadEntry now) es (c, vf)).2 in
  config c' = config c /\
  (forall p v, disk c' !! p = Some v -> disk c !! p = Some v) /\
  (forall p, p ∈ vf' ->
     p ∈ vf \/ exists e, In e es /\ FilePath e = p /\
                         forall v, disk c' !! p = Some v -> Size e = Z.of_nat (length v)).
Proof.
  induction es as [|e es IH]; intros c vf Hcap; cbv zeta.
  - cbn. auto.
  - cbn [fold_left].
    destruct (loadEntry_shrinks now c vf e Hcap) as (Hcap1 & Hcf1 & Hd1 & Hv1).
    destruct (loadEntry now (c, vf) e) as [c1 vf1]. cbn [fst snd] in *.
    destruct (IH c1 vf1 Hcap1) as (Hcf & Hd & Hv).
    split; [congruence|]. split; [auto|].
    intros p Hp. destruct (Hv p Hp) as [Hp1|(e' & Hin & Hpath & Hsz)].
    + destruct (Hv1 p Hp1) as [Hp0|[Hpath Hsz]]; [auto|].
      right. exists e. split; [left; reflexivity|]. split; [exact Hpath|].
      intros v Hv'. apply Hsz. apply Hd, Hv'.
    + right. exists e'. split; [right; exact Hin|]. auto.
Qed.

Lemma loadEntries_Some (now : Z) (es : list CacheEntry) :
  forall acc : Cache * gset string,
  loadEntries now (map Some es) acc = Started (fold_left (loadEntry now) es acc).
Proof. induction es as [|e es IH]; intros acc; [reflexivity|]. cbn. apply IH. Qed.

Lemma In_map_Some {A : Type} (x : A) (l : list A) : In (Some x) (map Some l) -> In x l.
Proof. intros H. apply in_map_iff in H as (y & [= ->] & Hy). exact Hy. Qed.

(** ** The model of [encoding/json]: decoding undoes encoding *)

Module JsonFacts.

Import Json.

Lemma code_range (c : ascii) : 0 <= code c < 256.
Proof. unfold code. pose proof (nat_ascii_bounded c). lia. Qed.

Lemma chr_code (c : ascii) : chr (code c) = c.
Proof. unfold chr, code. rewrite Nat2Z.id. apply ascii_nat_embedding. Qed.

Lemma code_chr (n : Z) : 0 <= n < 256 -> code (chr n) = n.
Proof. intros H. unfold chr, code. rewrite nat_ascii_embedding by lia. lia. Qed.

Lemma code_inj (a b : ascii) : code a = code b -> a = b.
Proof. intros H. rewrite <- (chr_code a), <- (chr_code b), H. reflexivity. Qed.

Lemma in_range_iff (lo hi b : Z) : in_range lo hi b = true <-> lo <= b <= hi.
Proof. unfold in_range. rewrite andb_true_iff, !Z.leb_le. tauto. Qed.

Lemma in_range_false (lo hi b : Z) : in_range lo hi b = false <-> ~ (lo <= b <= hi).
Proof. rewrite <- in_range_iff. destruct (in_range lo hi b); intuition congruence. Qed.

Lemma string_length_app (a b : string) :
  String.length (a +:+ b) = (String.length a + String.length b)%nat.
Proof.
  induction a as [|x a IH]; [reflexivity|].
  rewrite append_cons_l. cbn [String.length]. rewrite IH. reflexivity.
Qed.

Lemma sdrop_app (a b : string) : sdrop (String.length a) (a +:+ b) = b.
Proof. induction a as [|c a IH]; [destruct b; reflexivity|]. rewrite append_cons_l. exact IH. Qed.

Lemma stake_app (a b : string) : stake (String.length a) (a +:+ b) = a.
Proof.
  induction a as [|c a IH]; [destruct b; reflexivity|].
  rewrite append_cons_l. cbn [String.length stake]. rewrite IH. reflexivity.
Qed.

Lemma stake_sdrop (n : nat) (s : string) : stake n s +:+ sdrop n s = s.
Proof.
  revert s. induction n as [|n IH]; intros s; [destruct s; reflexivity|].
  destruct s as [|c s]; [reflexivity|]. cbn [stake sdrop]. rewrite append_cons_l, IH. reflexivity.
Qed.

Lemma stake_length (n : nat) (s : string) :
  (n <= String.length s)%nat -> String.length (stake n s) = n.
Proof.
  revert s. induction n as [|n IH]; intros s H; [destruct s; reflexivity|].
  destruct s as [|c s]; [simpl in H; lia|]. cbn [stake String.length] in *.
  rewrite IH by lia. reflexivity.
Qed.

Lemma sdrop_length (n : nat) (s : string) :
  (n <= String.length s)%nat -> String.length (sdrop n s) = (String.length s - n)%nat.
Proof.
  revert s. induction n as [|n IH]; intros s H; [destruct s; simpl; lia|].
  destruct s as [|c s]; [simpl in H; lia|]. cbn [sdrop String.length] in *.
  rewrite IH by lia. reflexivity.
Qed.

(** Decoding a rune and encoding it again gives the bytes it was read
    from. *)
Lemma DecodeRune_spec (s : string) (r : Z) (size : nat) :
  s <> EmptyString ->
  DecodeRune s = (r, size) ->
  ((r =? RuneError) && (size =? 1)%nat) = false ->
  (1 <= size <= String.length s)%nat /\
  EncodeRune r = stake size s /\
  (size = 1%nat <-> r < 128) /\
  0 <= r /\
  (r < 128 -> exists c rest, s = String c rest /\ code c = r).
Proof.
  destruct s as [|c0 s1]; [congruence|]. intros _. unfold DecodeRune.
  pose proof (code_range c0) as H0.
  destruct (code c0 <? 128) eqn:E0.
  { intros [= <- <-] _. apply Z.ltb_lt in E0. split; [simpl; lia|].
    split.
    - unfold EncodeRune. rewrite (proj2 (in_range_iff 0 127 (code c0))) by lia.
      rewrite chr_code. reflexivity.
    - split; [tauto|]. split; [lia|]. intros _. eauto. }
  apply Z.ltb_ge in E0.
  assert (Herr : forall r size, (RuneError, 1%nat) = (r, size) ->
            ((r =? RuneError) && (size =? 1)%nat) = false -> False).
  { intros r' size' [= <- <-]. discriminate. }
  destruct (in_range 194 223 (code c0)) eqn:E2.
  { apply in_range_iff in E2.
    destruct s1 as [|c1 s2]; [intros H1 H2; destruct (Herr _ _ H1 H2)|].
    pose proof (code_range c1) as H1.
    destruct (in_range 128 191 (code c1)) eqn:E21; [|intros Ha Hb; destruct (Herr _ _ Ha Hb)].
    apply in_range_iff in E21. intros [= <- <-] _.
    split; [simpl; lia|]. split.
    - unfold EncodeRune.
      rewrite (proj2 (in_range_false 0 127 _)) by lia.
      rewrite (proj2 (in_range_iff 128 2047 _)) by lia.
      cbn [stake]. f_equal; [|f_equal].
      + transitivity (chr (code c0)); [f_equal; Z.to_euclidean_division_equations; lia|apply chr_code].
      + transitivity (chr (code c1)); [f_equal; Z.to_euclidean_division_equations; lia|apply chr_code].
    - split; [split; [discriminate|lia]|]. split; lia. }
  destruct (in_range 224 239 (code c0)) eqn:E3.
  { apply in_range_iff in E3.
    destruct s1 as [|c1 [|c2 s3]]; try (intros Ha Hb; destruct (Herr _ _ Ha Hb)).
    pose proof (code_range c1) as H1. pose proof (code_range c2) as H2.
    destruct (in_range (if code c0 =? 224 then 160 else 128)
                       (if code c0 =? 237 then 159 else 191) (code c1)
              && in_range 128 191 (code c2)) eqn:E31;
      [|intros Ha Hb; destruct (Herr _ _ Ha Hb)].
    apply andb_true_iff in E31 as [E31 E32].
    apply in_range_iff in E31, E32. intros [= <- <-] _.
    assert (Hb1 : 128 <= code c1 <= 191)
      by (destruct (code c0 =? 224), (code c0 =? 237); lia).
    assert (Hr : 2048 <= ((code c0 - 224) * 64 + (code c1 - 128)) * 64 + (code c2 - 128) < 65536
                 /\ ~ (55296 <= ((code c0 - 224) * 64 + (code c1 - 128)) * 64 + (code c2 - 128)
                       <= 57343)).
    { destruct (Z.eqb_spec (code c0) 224), (Z.eqb_spec (code c0) 237); lia. }
    split; [simpl; lia|]. split.
    - unfold EncodeRune.
      rewrite (proj2 (in_range_false 0 127 _)) by lia.
      rewrite (proj2 (in_range_false 128 2047 _)) by lia.
      rewrite (proj2 (in_range_false 55296 57343 _)) by tauto.
      destruct (Z.ltb_spec (((code c0 - 224) * 64 + (code c1 - 128)) * 64 + (code c2 - 128)) 0);
        [lia|].
      destruct (Z.ltb_spec 1114111
                  (((code c0 - 224) * 64 + (code c1 - 128)) * 64 + (code c2 - 128))); [lia|].
      cbn [orb].
      destruct (Z.ltb_spec (((code c0 - 224) * 64 + (code c1 - 128)) * 64 + (code c2 - 128))
                  65536); [|lia].
      cbn [stake]. f_equal; [|f_equal; [|f_equal]].
      + transitivity (chr (code c0)); [f_equal; Z.to_euclidean_division_equations; lia|apply chr_code].
      + transitivity (chr (code c1)); [f_equal; Z.to_euclidean_division_equations; lia|apply chr_code].
      + transitivity (chr (code c2)); [f_equal; Z.to_euclidean_division_equations; lia|apply chr_code].
    - split; [split; [discriminate|lia]|]. split; lia. }
  destruct (in_range 240 244 (code c0)) eqn:E4; [|intros Ha Hb; destruct (Herr _ _ Ha Hb)].
  apply in_range_iff in E4.
  destruct s1 as [|c1 [|c2 [|c3 s4]]]; try (intros Ha Hb; destruct (Herr _ _ Ha Hb)).
  pose proof (code_range c1) as H1. pose proof (code_range c2) as H2.
  pose proof (code_range c3) as H3.
  destruct (in_range (if code c0 =? 240 then 144 else 128)
                     (if code c0 =? 244 then 143 else 191) (code c1)
            && in_range 128 191 (code c2) && in_range 128 191 (code c3)) eqn:E41;
    [|intros Ha Hb; destruct (Herr _ _ Ha Hb)].
  apply andb_true_iff in E41 as [E41 E43]. apply andb_true_iff in E41 as [E41 E42].
  apply in_range_iff in E41, E42, E43. intros [= <- <-] _.
  assert (Hb1 : 128 <= code c1 <= 191)
    by (destruct (code c0 =? 240), (code c0 =? 244); lia).
  set (r := (((code c0 - 240) * 64 + (code c1 - 128)) * 64 + (code c2 - 128)) * 64
            + (code c3 - 128)).
  assert (Hr : 65536 <= r <= 1114111).
  { subst r. destruct (Z.eqb_spec (code c0) 240), (Z.eqb_spec (code c0) 244); lia. }
  split; [simpl; lia|]. split.
  - unfold EncodeRune.
    rewrite (proj2 (in_range_false 0 127 _)) by lia.
    rewrite (proj2 (in_range_false 128 2047 _)) by lia.
    rewrite (proj2 (in_range_false 55296 57343 _)) by lia.
    destruct (Z.ltb_spec r 0); [lia|]. destruct (Z.ltb_spec 1114111 r); [lia|].
    cbn [orb]. destruct (Z.ltb_spec r 65536); [lia|].
    cbn [stake]. f_equal; [|f_equal; [|f_equal; [|f_equal]]].
    + transitivity (chr (code c0)); [f_equal; subst r; Z.to_euclidean_division_equations; lia|apply chr_code].
    + transitivity (chr (code c1)); [f_equal; subst r; Z.to_euclidean_division_equations; lia|apply chr_code].
    + transitivity (chr (code c2)); [f_equal; subst r; Z.to_euclidean_division_equations; lia|apply chr_code].
    + transitivity (chr (code c3)); [f_equal; subst r; Z.to_euclidean_division_equations; lia|apply chr_code].
  - split; [split; [discriminate|lia]|]. split; lia.
Qed.

(** What [DecodeRune] reads depends on the bytes of the rune only, and
    the bytes of a rune of more than one byte are all outside ASCII. *)
Lemma DecodeRune_stable (s : string) (r : Z) (size : nat) :
  s <> EmptyString ->
  DecodeRune s = (r, size) ->
  ((r =? RuneError) && (size =? 1)%nat) = false ->
  (forall X, DecodeRune (stake size s +:+ X) = (r, size)) /\
  (128 <= r -> Forall (fun c => 128 <= code c) (list_ascii_of_string (stake size s))).
Proof.
  destruct s as [|c0 s1]; [congruence|]. intros _.
  unfold DecodeRune at 1.
  pose proof (code_range c0) as H0.
  destruct (code c0 <? 128) eqn:E0.
  { intros [= <- <-] _. split.
    - intros X. cbn [stake]. rewrite append_cons_l. unfold DecodeRune. rewrite E0. reflexivity.
    - apply Z.ltb_lt in E0. lia. }
  assert (Herr : forall r size, (RuneError, 1%nat) = (r, size) ->
            ((r =? RuneError) && (size =? 1)%nat) = false -> False).
  { intros r' size' [= <- <-]. discriminate. }
  apply Z.ltb_ge in E0.
  destruct (in_range 194 223 (code c0)) eqn:E2.
  { destruct s1 as [|c1 s2]; [intros H1 H2; destruct (Herr _ _ H1 H2)|].
    destruct (in_range 128 191 (code c1)) eqn:E21; [|intros Ha Hb; destruct (Herr _ _ Ha Hb)].
    intros [= <- <-] _. split.
    - intros X. cbn [stake]. rewrite !append_cons_l. unfold DecodeRune.
      destruct (Z.ltb_spec (code c0) 128); [lia|]. rewrite E2, E21. reflexivity.
    - intros _. apply in_range_iff in E21. cbn. repeat constructor; lia. }
  destruct (in_range 224 239 (code c0)) eqn:E3.
  { destruct s1 as [|c1 [|c2 s3]]; try (intros Ha Hb; destruct (Herr _ _ Ha Hb)).
    destruct (in_range (if code c0 =? 224 then 160 else 128)
                       (if code c0 =? 237 then 159 else 191) (code c1)
              && in_range 128 191 (code c2)) eqn:E31;
      [|intros Ha Hb; destruct (Herr _ _ Ha Hb)].
    intros [= <- <-] _. split.
    - intros X. cbn [stake]. rewrite !append_cons_l. unfold DecodeRune.
      destruct (Z.ltb_spec (code c0) 128); [lia|]. rewrite E2, E3, E31. reflexivity.
    - intros _. apply andb_true_iff in E31 as [E31 E32]. apply in_range_iff in E31, E32.
      cbn. repeat constructor; try lia.
      destruct (code c0 =? 224), (code c0 =? 237); lia. }
  destruct (in_range 240 244 (code c0)) eqn:E4; [|intros Ha Hb; destruct (Herr _ _ Ha Hb)].
  destruct s1 as [|c1 [|c2 [|c3 s4]]]; try (intros Ha Hb; destruct (Herr _ _ Ha Hb)).
  destruct (in_range (if code c0 =? 240 then 144 else 128)
                     (if code c0 =? 244 then 143 else 191) (code c1)
            && in_range 128 191 (code c2) && in_range 128 191 (code c3)) eqn:E41;
    [|intros Ha Hb; destruct (Herr _ _ Ha Hb)].
  intros [= <- <-] _. split.
  - intros X. cbn [stake]. rewrite !append_cons_l. unfold DecodeRune.
    destruct (Z.ltb_spec (code c0) 128); [lia|]. rewrite E2, E3, E4, E41. reflexivity.
  - intros _. apply andb_true_iff in E41 as [E41 E43]. apply andb_true_iff in E41 as [E41 E42].
    apply in_range_iff in E41, E42, E43.
    cbn. repeat constructor; try lia.
    destruct (code c0 =? 240), (code c0 =? 244); lia.
Qed.

Lemma DecodeRune_size (s : string) (r : Z) (size : nat) :
  s <> EmptyString -> DecodeRune s = (r, size) -> (1 <= size <= String.length s)%nat.
Proof.
  destruct s as [|c0 s1]; [congruence|]. intros _ Ed. unfold DecodeRune in Ed.
  repeat match type of Ed with
         | (if ?b then _ else _) = _ => destruct b
         | match ?x with _ => _ end = _ => destruct x
         end; injection Ed as <- <-; simpl; lia.
Qed.

(** *** Reading back a string literal *)

Lemma getu4_length (s : string) (rr : Z) : getu4 s = Some rr -> (6 <= String.length s)%nat.
Proof.
  unfold getu4. destruct s as [|a0 [|a1 [|h1 [|h2 [|h3 [|h4 r]]]]]]; try discriminate.
  intros _. simpl. lia.
Qed.

Lemma unquote_loop_fuel (m1 : nat) : forall (m2 : nat) (s : string),
  (String.length s <= m1)%nat -> (String.length s <= m2)%nat ->
  unquote_loop m1 s = unquote_loop m2 s.
Proof.
  induction m1 as [|m1 IH]; intros m2 s H1 H2.
  { destruct s; [|simpl in H1; lia]. destruct m2; reflexivity. }
  destruct m2 as [|m2]; [destruct s; [reflexivity|simpl in H2; lia]|].
  destruct s as [|c rest]; [reflexivity|].
  cbn [String.length] in H1, H2. cbn [unquote_loop].
  destruct (code c =? 92).
  - destruct rest as [|e rest2]; [reflexivity|]. cbn [String.length] in H1, H2.
    destruct (code e =? 117).
    + destruct (getu4 (String c (String e rest2))) as [rr|] eqn:Eg; [|reflexivity].
      pose proof (getu4_length _ _ Eg) as Hlen6.
      pose proof (sdrop_length 6 (String c (String e rest2)) Hlen6) as Hd.
      cbn [String.length] in Hd, Hlen6.
      set (after := sdrop 6 (String c (String e rest2))) in *.
      destruct (in_range 55296 57343 rr).
      * destruct (getu4 after) as [rr1|] eqn:Eg1.
        -- pose proof (getu4_length _ _ Eg1) as Hlen6b.
           pose proof (sdrop_length 6 after Hlen6b) as Hdb.
           destruct (in_range 55296 56319 rr && in_range 56320 57343 rr1);
             f_equal; apply IH; lia.
        -- f_equal. apply IH; lia.
      * f_equal. apply IH; lia.
    + f_equal. apply IH; lia.
  - destruct (code c <? 128).
    + f_equal. apply IH; lia.
    + destruct (DecodeRune (String c rest)) as [r size] eqn:Ed. f_equal.
      assert (Hs : (1 <= size <= String.length (String c rest))%nat)
        by (apply (DecodeRune_size _ r); [discriminate|exact Ed]).
      pose proof (sdrop_length size (String c rest) (proj2 Hs)) as Hd.
      cbn [String.length] in Hd, Hs. apply IH; lia.
Qed.

Lemma unquote_fuel (m : nat) (s : string) :
  (String.length s <= m)%nat -> unquote_loop m s = unquote s.
Proof. intros H. apply unquote_loop_fuel; [exact H|reflexivity]. Qed.

Lemma hex_cases (d : Z) : 0 <= d <= 15 ->
  d = 0 \/ d = 1 \/ d = 2 \/ d = 3 \/ d = 4 \/ d = 5 \/ d = 6 \/ d = 7 \/ d = 8
  \/ d = 9 \/ d = 10 \/ d = 11 \/ d = 12 \/ d = 13 \/ d = 14 \/ d = 15.
Proof. lia. Qed.

Lemma hexval_hex_digit (d : Z) : 0 <= d <= 15 ->
  hexval (hex_digit d) = Some d /\ is_hex (code (hex_digit d)) = true.
Proof.
  intros H. pose proof (hex_cases d H) as Hc.
  repeat (destruct Hc as [->|Hc]; [split; reflexivity|]). subst d. split; reflexivity.
Qed.

Lemma list_ascii_app (a b : string) :
  list_ascii_of_string (a +:+ b) = list_ascii_of_string a ++ list_ascii_of_string b.
Proof.
  induction a as [|c a IH]; [reflexivity|]. rewrite append_cons_l. cbn. rewrite IH. reflexivity.
Qed.

Lemma lit_ok_nil : lit_ok EmptyString.
Proof. intros acc rest out. reflexivity. Qed.

Lemma lit_ok_app (a b : string) : lit_ok a -> lit_ok b -> lit_ok (a +:+ b).
Proof.
  intros Ha Hb acc rest out. rewrite append_assoc_str, Ha, Hb, list_ascii_app, rev_app_distr.
  rewrite <- app_assoc. reflexivity.
Qed.

Lemma scan_all_cons (st : scan) (c : ascii) (s : string) (out : list token) :
  scan_all st (String c s) out =
    match scan_step st c out with
    | Some (st', out') => scan_all st' s out'
    | None => None
    end.
Proof. reflexivity. Qed.

Lemma scan_all_step (st st' : scan) (c : ascii) (s : string) (out out' : list token) :
  scan_step st c out = Some (st', out') ->
  scan_all st (String c s) out = scan_all st' s out'.
Proof. intros H. cbn [scan_all]. rewrite H. reflexivity. Qed.

(** A byte that is neither a control byte, nor the quote, nor the
    backslash. *)
Lemma lit_ok_plain (c : ascii) :
  32 <= code c -> code c <> 34 -> code c <> 92 -> lit_ok (String c EmptyString).
Proof.
  intros H1 H2 H3 acc rest out. rewrite append_cons_l, append_nil_l.
  apply scan_all_step. unfold scan_step. cbv zeta.
  destruct (Z.eqb_spec (code c) 34); [lia|].
  destruct (Z.eqb_spec (code c) 92); [lia|]. destruct (Z.ltb_spec (code c) 32); [lia|].
  reflexivity.
Qed.

Lemma lit_ok_plain_all (s : string) :
  Forall (fun c => 32 <= code c /\ code c <> 34 /\ code c <> 92) (list_ascii_of_string s) ->
  lit_ok s.
Proof.
  induction s as [|c s IH]; intros H; [apply lit_ok_nil|].
  cbn in H. apply List.Forall_cons_iff in H as [(H1 & H2 & H3) H].
  change (String c s) with (String c EmptyString +:+ s).
  apply lit_ok_app; [apply lit_ok_plain; assumption|apply IH, H].
Qed.

Lemma scan_step_escape (acc : list ascii) (e : ascii) (out : list token) :
  code e = 34 \/ code e = 92 \/ code e = 98 \/ code e = 102 \/ code e = 110 \/ code e = 114
  \/ code e = 116 ->
  scan_step (SEscape acc) e out = Some (SString (e :: acc), out).
Proof.
  intros He. unfold scan_step. cbv zeta.
  destruct (Z.eqb_spec (code e) 117); [lia|].
  destruct (Z.eqb_spec (code e) 34); [reflexivity|].
  destruct (Z.eqb_spec (code e) 92); [reflexivity|].
  destruct (Z.eqb_spec (code e) 47); [reflexivity|].
  destruct (Z.eqb_spec (code e) 98); [reflexivity|].
  destruct (Z.eqb_spec (code e) 102); [reflexivity|].
  destruct (Z.eqb_spec (code e) 110); [reflexivity|].
  destruct (Z.eqb_spec (code e) 114); [reflexivity|].
  destruct (Z.eqb_spec (code e) 116); [reflexivity|]. lia.
Qed.

Lemma scan_step_unicode (acc : list ascii) (more : nat) (h : ascii) (out : list token) :
  is_hex (code h) = true ->
  scan_step (SUnicode acc more) h out
  = Some (match more with S (S n) => SUnicode (h :: acc) (S n) | _ => SString (h :: acc) end,
          out).
Proof.
  intros H. unfold scan_step. cbv zeta. rewrite H. destruct more as [|[|n]]; reflexivity.
Qed.

(** A backslash followed by one of the letters of the short escapes. *)
Lemma lit_ok_escape (e : ascii) :
  code e = 34 \/ code e = 92 \/ code e = 98 \/ code e = 102 \/ code e = 110 \/ code e = 114
  \/ code e = 116 ->
  lit_ok (String bs (String e EmptyString)).
Proof.
  intros He acc rest out. rewrite !append_cons_l, append_nil_l.
  rewrite (scan_all_step (SString acc) (SEscape (bs :: acc)) bs _ out out eq_refl).
  rewrite (scan_all_step _ _ _ _ _ _ (scan_step_escape _ e out He)). reflexivity.
Qed.

(** [\uXXXX] with four hexadecimal digits. *)
Lemma lit_ok_unicode (h1 h2 h3 h4 : ascii) :
  is_hex (code h1) = true -> is_hex (code h2) = true ->
  is_hex (code h3) = true -> is_hex (code h4) = true ->
  lit_ok (String bs (String "u" (String h1 (String h2 (String h3 (String h4 EmptyString)))))).
Proof.
  intros H1 H2 H3 H4 acc rest out. rewrite !append_cons_l, append_nil_l.
  rewrite (scan_all_step (SString acc) (SEscape (bs :: acc)) bs _ out out eq_refl).
  rewrite (scan_all_step (SEscape (bs :: acc)) (SUnicode ("u"%char :: bs :: acc) 4) "u" _
             out out eq_refl).
  rewrite (scan_all_step _ _ _ _ _ _ (scan_step_unicode _ _ h1 out H1)).
  rewrite (scan_all_step _ _ _ _ _ _ (scan_step_unicode _ _ h2 out H2)).
  rewrite (scan_all_step _ _ _ _ _ _ (scan_step_unicode _ _ h3 out H3)).
  rewrite (scan_all_step _ _ _ _ _ _ (scan_step_unicode _ _ h4 out H4)).
  reflexivity.
Qed.

Lemma unquote_unfold (c : ascii) (rest : string) :
  unquote (String c rest) = unquote_loop (S (String.length rest)) (String c rest).
Proof. reflexivity. Qed.

Lemma unquotes_plain (c : ascii) :
  code c < 128 -> code c <> 92 -> unquotes (String c EmptyString) (String c EmptyString).
Proof.
  intros H1 H2 X. rewrite !append_cons_l, !append_nil_l, unquote_unfold. cbn [unquote_loop].
  destruct (Z.eqb_spec (code c) 92); [lia|]. destruct (Z.ltb_spec (code c) 128); [|lia].
  reflexivity.
Qed.

Lemma unquotes_escape (e c : ascii) :
  code e <> 117 -> unescape e = c ->
  unquotes (String bs (String e EmptyString)) (String c EmptyString).
Proof.
  intros H1 H2 X. rewrite !append_cons_l, !append_nil_l, unquote_unfold. cbn [unquote_loop].
  change (code bs =? 92) with true. cbv iota.
  destruct (Z.eqb_spec (code e) 117); [lia|]. rewrite H2. f_equal.
  apply unquote_fuel. simpl. lia.
Qed.

Lemma unquotes_unicode (h1 h2 h3 h4 : ascii) (a b c d : Z) (orig : string) :
  hexval h1 = Some a -> hexval h2 = Some b -> hexval h3 = Some c -> hexval h4 = Some d ->
  in_range 55296 57343 (((a * 16 + b) * 16 + c) * 16 + d) = false ->
  EncodeRune (((a * 16 + b) * 16 + c) * 16 + d) = orig ->
  unquotes (String bs (String "u" (String h1 (String h2 (String h3 (String h4 EmptyString))))))
           orig.
Proof.
  intros H1 H2 H3 H4 Hs He X. rewrite !append_cons_l, !append_nil_l, unquote_unfold.
  cbn [unquote_loop]. change (code bs =? 92) with true. cbv iota.
  change (code "u" =? 117) with true. cbv iota.
  unfold getu4. change (code bs =? 92) with true. change (code "u" =? 117) with true.
  cbn [andb]. rewrite H1, H2, H3, H4, Hs, He. f_equal.
  cbn [sdrop]. apply unquote_fuel. simpl. lia.
Qed.

Lemma unquotes_app (p1 p2 o1 o2 : string) :
  unquotes p1 o1 -> unquotes p2 o2 -> unquotes (p1 +:+ p2) (o1 +:+ o2).
Proof. intros H1 H2 X. rewrite !append_assoc_str, H1, H2. reflexivity. Qed.

Lemma unquotes_nil : unquotes EmptyString EmptyString.
Proof. intros X. reflexivity. Qed.

(** One round of the encoder on a string that is valid UTF-8. *)
Lemma quote_step (f : nat) (c : ascii) (rest : string) :
  let s := String c rest in
  valid_loop (S f) s = true ->
  exists (piece : string) (size : nat),
    quote_loop (S f) s = piece +:+ quote_loop f (sdrop size s) /\
    (1 <= size <= String.length s)%nat /\
    valid_loop f (sdrop size s) = true /\
    lit_ok piece /\ unquotes piece (stake size s).
Proof.
  intros s Hv. subst s. cbn [valid_loop quote_loop] in *.
  pose proof (code_range c) as Hc.
  destruct (DecodeRune (String c rest)) as [r size] eqn:Ed.
  apply andb_true_iff in Hv as [Herr Hv]. apply negb_true_iff in Herr.
  destruct (DecodeRune_spec (String c rest) r size ltac:(intros [=]) Ed Herr) as (Hsz & Henc & Hone & Hr0 & Hasc).
  destruct (DecodeRune_stable (String c rest) r size ltac:(intros [=]) Ed Herr) as (Hst & Hhigh).
  destruct (Z.ltb_spec (code c) 128) as [Hlt|Hge].
  - assert (Hsize : size = 1%nat).
    { unfold DecodeRune in Ed. destruct (Z.ltb_spec (code c) 128); [|lia].
      injection Ed as _ <-. reflexivity. }
    subst size. cbn [sdrop stake] in *.
    destruct (htmlSafe (code c)) eqn:Esafe.
    + exists (String c EmptyString), 1%nat. cbn [sdrop stake].
      unfold htmlSafe in Esafe. apply andb_true_iff in Esafe as [E1 E2].
      apply in_range_iff in E1. apply negb_true_iff in E2.
      repeat (apply orb_false_iff in E2 as [E2 ?]).
      repeat match goal with H : (_ =? _) = false |- _ => apply Z.eqb_neq in H end.
      split; [reflexivity|]. split; [exact Hsz|]. split; [exact Hv|].
      split; [apply lit_ok_plain; lia|apply unquotes_plain; lia].
    + exists (escape (code c)), 1%nat. cbn [sdrop stake].
      split; [reflexivity|]. split; [exact Hsz|]. split; [exact Hv|].
      unfold escape.
      destruct ((code c =? 92) || (code c =? 34)) eqn:E1.
      { rewrite chr_code. apply orb_true_iff in E1. rewrite !Z.eqb_eq in E1. split.
        - apply lit_ok_escape. lia.
        - apply unquotes_escape; [lia|]. unfold unescape.
          repeat match goal with |- context [code c =? ?k] =>
                   destruct (Z.eqb_spec (code c) k); [lia|] end.
          reflexivity. }
      assert (Hsh : forall (k : Z) (e : ascii),
                code c = k -> code e <> 117 -> unescape e = chr k ->
                (code e = 98 \/ code e = 102 \/ code e = 110 \/ code e = 114 \/ code e = 116) ->
                lit_ok (String bs (String e EmptyString)) /\
                unquotes (String bs (String e EmptyString)) (String c EmptyString)).
      { intros k e Hk He Hu Hl. split; [apply lit_ok_escape; tauto|].
        apply unquotes_escape; [exact He|]. rewrite Hu, <- Hk. apply chr_code. }
      destruct (Z.eqb_spec (code c) 8) as [E8|_];
        [apply (Hsh 8 "b"%char E8); [discriminate|reflexivity|auto]|].
      destruct (Z.eqb_spec (code c) 12) as [E12|_];
        [apply (Hsh 12 "f"%char E12); [discriminate|reflexivity|auto]|].
      destruct (Z.eqb_spec (code c) 10) as [E10|_];
        [apply (Hsh 10 "n"%char E10); [discriminate|reflexivity|tauto]|].
      destruct (Z.eqb_spec (code c) 13) as [E13|_];
        [apply (Hsh 13 "r"%char E13); [discriminate|reflexivity|tauto]|].
      destruct (Z.eqb_spec (code c) 9) as [E9|_];
        [apply (Hsh 9 "t"%char E9); [discriminate|reflexivity|tauto]|].
      assert (Hd1 : 0 <= code c / 16 <= 15) by (Z.to_euclidean_division_equations; lia).
      assert (Hd2 : 0 <= code c mod 16 <= 15) by (Z.to_euclidean_division_equations; lia).
      destruct (hexval_hex_digit _ Hd1) as [Hv1 Hx1].
      destruct (hexval_hex_digit _ Hd2) as [Hv2 Hx2].
      change (String bs ("u00" +:+ String (hex_digit (code c / 16))
                                    (String (hex_digit (code c mod 16)) EmptyString)))
        with (String bs (String "u" (String "0" (String "0"
                (String (hex_digit (code c / 16))
                   (String (hex_digit (code c mod 16)) EmptyString)))))).
      split.
      * apply lit_ok_unicode; try reflexivity; assumption.
      * apply (unquotes_unicode _ _ _ _ 0 0 (code c / 16) (code c mod 16));
          try reflexivity; try assumption.
        -- apply in_range_false. Z.to_euclidean_division_equations. lia.
        -- replace (((0 * 16 + 0) * 16 + code c / 16) * 16 + code c mod 16) with (code c)
             by (Z.to_euclidean_division_equations; lia).
           unfold EncodeRune. rewrite (proj2 (in_range_iff 0 127 (code c))) by lia.
           rewrite chr_code. reflexivity.
  - assert (Hr : 128 <= r).
    { destruct (Z.ltb_spec r 128) as [Hlow|?]; [|lia].
      destruct (Hasc Hlow) as (c' & rest' & [= <- <-] & Hcode). lia. }
    rewrite Herr.
    destruct ((r =? 8232) || (r =? 8233)) eqn:Els.
    + exists (String bs ("u202" +:+ String (hex_digit (r mod 16)) EmptyString)), size.
      split; [reflexivity|]. split; [exact Hsz|]. split; [exact Hv|].
      apply orb_true_iff in Els. rewrite !Z.eqb_eq in Els.
      assert (Hd : 0 <= r mod 16 <= 15) by (Z.to_euclidean_division_equations; lia).
      destruct (hexval_hex_digit _ Hd) as [Hv1 Hx1].
      change (String bs ("u202" +:+ String (hex_digit (r mod 16)) EmptyString))
        with (String bs (String "u" (String "2" (String "0" (String "2"
                (String (hex_digit (r mod 16)) EmptyString)))))).
      split.
      * apply lit_ok_unicode; try reflexivity; assumption.
      * apply (unquotes_unicode _ _ _ _ 2 0 2 (r mod 16)); try reflexivity; try assumption.
        -- apply in_range_false. Z.to_euclidean_division_equations. lia.
        -- replace (((2 * 16 + 0) * 16 + 2) * 16 + r mod 16) with r
             by (Z.to_euclidean_division_equations; lia).
           exact Henc.
    + exists (stake size (String c rest)), size.
      split; [reflexivity|]. split; [exact Hsz|]. split; [exact Hv|].
      split.
      * apply lit_ok_plain_all. eapply List.Forall_impl; [|apply (Hhigh Hr)].
        cbv beta. intros a Ha. lia.
      * intros X. destruct size as [|size]; [lia|].
        cbn [stake]. rewrite append_cons_l, unquote_unfold. cbn [unquote_loop].
        destruct (Z.eqb_spec (code c) 92); [lia|]. destruct (Z.ltb_spec (code c) 128); [lia|].
        pose proof (Hst X) as HX. cbn [stake] in HX. rewrite append_cons_l in HX.
        assert (Hl : String.length (String c (stake size rest)) = S size).
        { change (String c (stake size rest)) with (stake (S size) (String c rest)).
          apply stake_length. lia. }
        assert (Hd : sdrop (S size) (String c (stake size rest +:+ X)) = X).
        { change (String c (stake size rest +:+ X)) with (String c (stake size rest) +:+ X).
          rewrite <- Hl at 1. apply sdrop_app. }
        rewrite HX, Henc, Hd. cbn [stake].
        apply (f_equal (fun t => String c (stake size rest) +:+ t)).
        apply unquote_fuel. rewrite string_length_app. lia.
Qed.

(** The literal the encoder writes for a valid string is read through by
    the scanner and stands for that string. *)
Lemma quote_loop_ok (n : nat) : forall s : string,
  (String.length s <= n)%nat -> valid_loop n s = true ->
  lit_ok (quote_loop n s) /\ unquotes (quote_loop n s) s.
Proof.
  induction n as [|n IH]; intros s Hlen Hv.
  { destruct s; [|simpl in Hlen; lia]. split; [apply lit_ok_nil|apply unquotes_nil]. }
  destruct s as [|c rest]; [split; [apply lit_ok_nil|apply unquotes_nil]|].
  destruct (quote_step n c rest Hv) as (piece & size & Hq & Hsz & Hv' & Hl & Hu).
  rewrite Hq.
  pose proof (sdrop_length size (String c rest) (proj2 Hsz)) as Hd.
  destruct (IH (sdrop size (String c rest))) as [IHl IHu]; [lia|exact Hv'|].
  split; [apply lit_ok_app; assumption|].
  rewrite <- (stake_sdrop size (String c rest)) at 2. apply unquotes_app; assumption.
Qed.

(** *** Times *)

Lemma digit_char_spec (d : Z) : 0 <= d <= 9 ->
  digit_val (digit_char d) = Some d /\ code (digit_char d) = 48 + d.
Proof.
  intros H. destruct (digit_cases d H) as [->|[->|[->|[->|[->|[->|[->|[->|[->| ->]]]]]]]]];
    split; reflexivity.
Qed.

Lemma pad_spec (w : nat) : forall n acc : Z,
  0 <= n < 10 ^ Z.of_nat w ->
  String.length (pad w n) = w /\
  parse_digits (pad w n) acc = Some (acc * 10 ^ Z.of_nat w + n).
Proof.
  induction w as [|w IH]; intros n acc Hn.
  { simpl in *. split; [reflexivity|]. f_equal. lia. }
  rewrite Nat2Z.inj_succ, Z.pow_succ_r in * by lia.
  assert (Hq : 0 <= n / 10 < 10 ^ Z.of_nat w) by (Z.to_euclidean_division_equations; lia).
  assert (Hd : 0 <= n mod 10 <= 9) by (Z.to_euclidean_division_equations; lia).
  destruct (IH (n / 10) acc Hq) as [Hl Hp].
  destruct (digit_char_spec _ Hd) as [Hv _].
  cbn [pad]. split.
  - rewrite string_length_app, Hl. simpl. lia.
  - rewrite parse_digits_app, Hp. cbn [parse_digits]. rewrite Hv. f_equal.
    Z.to_euclidean_division_equations; lia.
Qed.

Lemma field_pad (w : nat) (lo hi n : Z) (rest : string) :
  0 <= n < 10 ^ Z.of_nat w -> lo <= n <= hi ->
  field w lo hi (pad w n +:+ rest) = Some (n, rest).
Proof.
  intros Hn Hr. destruct (pad_spec w n 0 Hn) as [Hl Hp]. unfold field, parseUint.
  pose proof (stake_app (pad w n) rest) as H1. pose proof (sdrop_app (pad w n) rest) as H2.
  rewrite Hl in H1, H2. rewrite H1, H2, Hp.
  replace (0 * 10 ^ Z.of_nat w + n) with n by lia.
  rewrite (proj2 (in_range_iff lo hi n) Hr). reflexivity.
Qed.

Lemma stake_all (n : nat) : forall s : string, (String.length s <= n)%nat -> stake n s = s.
Proof.
  induction n as [|n IH]; intros [|c s] H; try reflexivity; simpl in H; [lia|].
  cbn [stake]. rewrite IH by lia. reflexivity.
Qed.

Lemma significant_spec (w : nat) : forall n acc : Z,
  0 <= n < 10 ^ Z.of_nat w ->
  let s := significant w n in
  (String.length s <= w)%nat /\
  Forall (fun c => is_digit (code c) = true) (list_ascii_of_string s) /\
  (n <> 0 -> s <> EmptyString) /\
  exists q, n = q * 10 ^ (Z.of_nat w - Z.of_nat (String.length s)) /\
            parse_digits s acc = Some (acc * 10 ^ Z.of_nat (String.length s) + q).
Proof.
  induction w as [|w IH]; intros n acc Hn s; subst s.
  { simpl in *. repeat split; [lia|constructor|lia|]. exists 0. split; [lia|f_equal; lia]. }
  cbn [significant]. destruct (Z.eqb_spec n 0) as [->|Hne].
  { repeat split; [simpl; lia|constructor|congruence|]. exists 0. simpl String.length.
    split; [lia|]. cbn [parse_digits]. f_equal. lia. }
  rewrite Nat2Z.inj_succ, Z.pow_succ_r in Hn by lia.
  assert (Hpos : 0 < 10 ^ Z.of_nat w) by (apply Z.pow_pos_nonneg; lia).
  set (p := 10 ^ Z.of_nat w) in *.
  assert (Hd : 0 <= n / p <= 9).
  { split; [apply Z.div_pos; lia|]. assert (n / p < 10); [|lia].
    apply Z.div_lt_upper_bound; lia. }
  assert (Hr : 0 <= n mod p < p) by (apply Z.mod_pos_bound; lia).
  destruct (IH (n mod p) (10 * acc + n / p) Hr) as (Hl & Hall & _ & q & Hq & Hp).
  destruct (digit_char_spec _ Hd) as [Hv Hc].
  set (s' := significant w (n mod p)) in *.
  split; [simpl; lia|]. split.
  { cbn. constructor; [|exact Hall]. rewrite Hc. unfold is_digit. apply in_range_iff. lia. }
  split; [discriminate|].
  exists (n / p * 10 ^ Z.of_nat (String.length s') + q). split.
  - cbn [String.length].
    replace (Z.of_nat (S w) - Z.of_nat (S (String.length s')))
      with (Z.of_nat w - Z.of_nat (String.length s')) by lia.
    assert (Hpe : p = 10 ^ Z.of_nat (String.length s')
                      * 10 ^ (Z.of_nat w - Z.of_nat (String.length s'))).
    { subst p. rewrite <- Z.pow_add_r by lia. f_equal. lia. }
    transitivity (n / p * p + n mod p); [pose proof (Z.div_mod n p); lia|].
    rewrite Hq. rewrite Hpe at 2. ring.
  - cbn [parse_digits]. rewrite Hv, Hp. f_equal. cbn [String.length].
    rewrite Nat2Z.inj_succ, Z.pow_succ_r by lia. lia.
Qed.

Lemma span_digits_app (s rest : string) :
  Forall (fun c => is_digit (code c) = true) (list_ascii_of_string s) ->
  match rest with String c _ => is_digit (code c) = false | EmptyString => True end ->
  span_digits (s +:+ rest) = (s, rest).
Proof.
  intros Hs Hrest. induction s as [|c s IH].
  - rewrite append_nil_l. destruct rest as [|c r]; [reflexivity|]. cbn [span_digits].
    rewrite Hrest. reflexivity.
  - cbn in Hs. apply List.Forall_cons_iff in Hs as [Hc Hs]. rewrite append_cons_l.
    cbn [span_digits]. rewrite Hc, (IH Hs). reflexivity.
Qed.

Lemma parseFraction_fraction (nsec : Z) :
  0 <= nsec < 10 ^ 9 -> parseFraction (fraction nsec +:+ "Z") = (nsec, "Z").
Proof.
  intros Hn. unfold fraction. destruct (Z.eqb_spec nsec 0) as [->|Hne]; [reflexivity|].
  destruct (significant_spec 9 nsec 0 Hn) as (Hl & Hall & Hnz & q & Hq & Hp).
  rewrite append_cons_l. unfold parseFraction. change (code "." =? 46) with true. cbv iota.
  rewrite span_digits_app; [|exact Hall|reflexivity].
  destruct (significant 9 nsec) as [|c s] eqn:Es; [exfalso; apply (Hnz Hne); reflexivity|].
  rewrite <- Es in *. clear Es. f_equal. unfold parseNanoseconds.
  rewrite stake_all by exact Hl. rewrite Hp. change (Z.of_nat 9) with 9 in Hq. lia.
Qed.

(** The year the day [doe] of a 400-year era falls in. *)
Lemma yoe_bounds (doe : Z) :
  0 <= doe < 146097 ->
  let yoe := (doe - doe / 1460 + doe / 36524 - doe / 146096) / 365 in
  0 <= yoe < 400 /\
  365 * yoe + yoe / 4 - yoe / 100 <= doe /\
  doe < 365 * (yoe + 1) + (yoe + 1) / 4 - (yoe + 1) / 100 + (yoe + 1) / 400.
Proof. intros H yoe. subst yoe. Z.to_euclidean_division_equations; lia. Qed.

Lemma month_cases (mp : Z) : 0 <= mp <= 11 ->
  mp = 0 \/ mp = 1 \/ mp = 2 \/ mp = 3 \/ mp = 4 \/ mp = 5 \/ mp = 6 \/ mp = 7 \/ mp = 8
  \/ mp = 9 \/ mp = 10 \/ mp = 11.
Proof. lia. Qed.

(** The date [civil] gives is a date of the calendar, and the day count of
    that date is the day it came from. *)
Lemma civil_spec (days y m d : Z) :
  civil days = (y, m, d) ->
  1 <= m <= 12 /\ 1 <= d <= daysIn m y /\ days_from_civil y m d = days.
Proof.
  unfold civil. cbv zeta.
  set (z := days + 719468). set (era := z / 146097). set (doe := z - era * 146097).
  assert (Hdoe : 0 <= doe < 146097) by (subst doe era; Z.to_euclidean_division_equations; lia).
  pose proof (yoe_bounds doe Hdoe) as Hy. cbv zeta in Hy.
  set (yoe := (doe - doe / 1460 + doe / 36524 - doe / 146096) / 365) in *.
  destruct Hy as (Hy1 & Hy2 & Hy3).
  set (doy := doe - (365 * yoe + yoe / 4 - yoe / 100)).
  assert (Hdoy : 0 <= doy <= 365) by (subst doy; Z.to_euclidean_division_equations; lia).
  set (mp := (5 * doy + 2) / 153).
  assert (Hmp : 0 <= mp <= 11) by (subst mp; Z.to_euclidean_division_equations; lia).
  intros [= <- <- <-].
  assert (Hleap : doy = 365 ->
            isLeap (yoe + era * 400 + 1) = true).
  { intros H365. unfold isLeap. apply andb_true_iff. split.
    - apply Z.eqb_eq. subst doy. Z.to_euclidean_division_equations; lia.
    - apply orb_true_iff.
      destruct (Z.eqb_spec ((yoe + era * 400 + 1) mod 100) 0) as [E|E]; [right|left; reflexivity].
      apply Z.eqb_eq. subst doy. Z.to_euclidean_division_equations; lia. }
  assert (Hmpdef : mp = (5 * doy + 2) / 153) by reflexivity.
  assert (Hdoydef : doy = doe - (365 * yoe + yoe / 4 - yoe / 100)) by reflexivity.
  assert (Hdoedef : doe = days + 719468 - era * 146097) by reflexivity.
  clearbody mp doy yoe doe era. clear z Hy3 Hy2.
  set (m := if mp <? 10 then mp + 3 else mp - 9).
  assert (Hm : m = if mp <? 10 then mp + 3 else mp - 9) by reflexivity.
  clearbody m. destruct (Z.ltb_spec mp 10) as [Hlt|Hge10].
  - destruct (Z.leb_spec m 2) as [?|_]; [lia|].
    split; [lia|]. split.
    + unfold daysIn.
      destruct (month_cases mp Hmp) as [->|[->|[->|[->|[->|[->|[->|[->|[->|[->|[->| ->]]]]]]]]]]];
        repeat match goal with |- context [m =? ?b] => destruct (Z.eqb_spec m b) end;
        cbn [orb]; Z.to_euclidean_division_equations; lia.
    + unfold days_from_civil. cbv zeta. destruct (Z.leb_spec m 2) as [?|_]; [lia|].
      Z.to_euclidean_division_equations; lia.
  - destruct (Z.leb_spec m 2) as [_|?]; [|lia].
    split; [lia|]. split.
    + unfold daysIn.
      assert (Hmp' : mp = 10 \/ mp = 11) by lia.
      destruct Hmp' as [->| ->];
        repeat match goal with |- context [m =? ?b] => destruct (Z.eqb_spec m b) end;
        cbn [orb]; try (Z.to_euclidean_division_equations; lia).
      destruct (isLeap (yoe + era * 400 + 1)) eqn:El.
      * Z.to_euclidean_division_equations; lia.
      * assert (doy <> 365) by (intros E; specialize (Hleap E); congruence).
        Z.to_euclidean_division_equations; lia.
    + unfold days_from_civil. cbv zeta. destruct (Z.leb_spec m 2) as [_|?]; [|lia].
      Z.to_euclidean_division_equations; lia.
Qed.

Lemma expect_cons (c : ascii) (b : Z) (s : string) :
  code c = b -> expect b (String c s) = Some s.
Proof. intros H. unfold expect. rewrite H, Z.eqb_refl. reflexivity. Qed.

(** What [Time.MarshalJSON] writes, [Time.UnmarshalJSON] reads as the same
    instant. *)
Lemma parseRFC3339_formatTime (t : Z) (s : string) :
  formatTime t = Some s -> parseRFC3339 s = Some t.
Proof.
  unfold formatTime. cbv zeta.
  destruct (civil (t / 10 ^ 9 / 86400)) as [[y m] d] eqn:Ec.
  destruct (in_range 0 9999 y) eqn:Ey; [|discriminate].
  apply in_range_iff in Ey. intros Hs. apply (inj Some) in Hs. subst s.
  destruct (civil_spec _ _ _ _ Ec) as (Hm & Hd & Hdays).
  set (sec := t / 10 ^ 9) in *. set (nsec := t mod 10 ^ 9).
  set (rem := sec mod 86400).
  assert (Hns : 0 <= nsec < 10 ^ 9) by (subst nsec; apply Z.mod_pos_bound; lia).
  assert (Hrem : 0 <= rem < 86400) by (subst rem; apply Z.mod_pos_bound; lia).
  assert (Hd31 : daysIn m y <= 31).
  { unfold daysIn. destruct (m =? 2); [destruct (isLeap y); lia|].
    destruct (_ || _); lia. }
  unfold parseRFC3339.
  match goal with |- context [(String.length ?x <? 19)%nat] =>
    assert (Hlen : (String.length x <? 19)%nat = false) end.
  { apply Nat.ltb_ge. rewrite !string_length_app.
    rewrite (proj1 (pad_spec 4 y 0 ltac:(simpl; lia))).
    rewrite (proj1 (pad_spec 2 m 0 ltac:(simpl; lia))).
    rewrite (proj1 (pad_spec 2 d 0 ltac:(simpl; lia))).
    rewrite (proj1 (pad_spec 2 (rem / 3600) 0
                      ltac:(simpl; Z.to_euclidean_division_equations; lia))).
    rewrite (proj1 (pad_spec 2 (rem mod 3600 / 60) 0
                      ltac:(simpl; Z.to_euclidean_division_equations; lia))).
    rewrite (proj1 (pad_spec 2 (rem mod 60) 0
                      ltac:(simpl; Z.to_euclidean_division_equations; lia))).
    simpl. lia. }
  rewrite Hlen.
  rewrite field_pad by (simpl; lia).
  rewrite append_cons_l, append_nil_l, (expect_cons "-" 45) by reflexivity.
  rewrite field_pad by (simpl; lia).
  rewrite append_cons_l, append_nil_l, (expect_cons "-" 45) by reflexivity.
  rewrite field_pad by (simpl; lia).
  rewrite append_cons_l, append_nil_l, (expect_cons "T" 84) by reflexivity.
  rewrite field_pad by (simpl; Z.to_euclidean_division_equations; lia).
  rewrite append_cons_l, append_nil_l, (expect_cons ":" 58) by reflexivity.
  rewrite field_pad by (simpl; Z.to_euclidean_division_equations; lia).
  rewrite append_cons_l, append_nil_l, (expect_cons ":" 58) by reflexivity.
  rewrite field_pad by (simpl; Z.to_euclidean_division_equations; lia).
  rewrite parseFraction_fraction by exact Hns.
  change (parseZone "Z") with (Some 0). cbv iota. f_equal.
  rewrite Hdays. subst rem nsec sec. Z.to_euclidean_division_equations; lia.
Qed.

(** *** Numbers *)

Lemma all_digits_app (a b : string) : all_digits a -> all_digits b -> all_digits (a +:+ b).
Proof.
  unfold all_digits. rewrite list_ascii_app. intros Ha Hb. apply List.Forall_app. split; assumption.
Qed.

Lemma fmt_digits_shape (fuel : nat) : forall n : Z,
  0 <= n < 10 ^ Z.of_nat fuel -> fuel <> O ->
  exists c s, fmt_digits fuel n EmptyString = String c s /\ all_digits s /\
              ((n = 0 /\ code c = 48 /\ s = EmptyString) \/ (0 < n /\ 49 <= code c <= 57)).
Proof.
  induction fuel as [|f IH]; intros n Hn Hfuel; [congruence|].
  cbn [fmt_digits].
  assert (Hmod : 0 <= n mod 10 <= 9) by (Z.to_euclidean_division_equations; lia).
  destruct (digit_char_spec _ Hmod) as [_ Hc].
  destruct (Z.ltb_spec n 10) as [Hlt|Hge].
  - exists (digit_char (n mod 10)), EmptyString. split; [reflexivity|]. split; [constructor|].
    rewrite Hc. rewrite Z.mod_small by lia.
    destruct (Z.eq_dec n 0); [left; repeat split; try reflexivity; lia|right; lia].
  - rewrite fmt_digits_acc.
    rewrite Nat2Z.inj_succ, Z.pow_succ_r in Hn by lia.
    assert (Hdiv : 0 <= n / 10 < 10 ^ Z.of_nat f) by (Z.to_euclidean_division_equations; lia).
    assert (Hf : f <> O) by (intros ->; simpl in Hn; lia).
    destruct (IH _ Hdiv Hf) as (c & s & Hs & Hall & Hcase).
    exists c, (s +:+ String (digit_char (n mod 10)) EmptyString).
    rewrite Hs, append_cons_l. split; [reflexivity|]. split.
    + apply all_digits_app; [exact Hall|]. constructor; [|constructor].
      rewrite Hc. apply in_range_iff. lia.
    + right. destruct Hcase as [(H0 & _)|[_ H1]]; [|split; [lia|exact H1]].
      exfalso. Z.to_euclidean_division_equations; lia.
Qed.

Lemma skip_digits_all (s : string) : all_digits s -> skip_digits s = EmptyString.
Proof.
  induction s as [|c s IH]; intros H; [reflexivity|].
  apply List.Forall_cons_iff in H as [Hc H]. cbn [skip_digits]. rewrite Hc. apply IH, H.
Qed.

Lemma valid_number_unsigned (c : ascii) (s : string) :
  all_digits s ->
  (code c = 48 /\ s = EmptyString) \/ 49 <= code c <= 57 ->
  valid_number (String c s) = true /\ valid_number (String "-" (String c s)) = true.
Proof.
  intros Hall Hc.
  assert (H : match (if code c =? 48 then Some s
                     else if in_range 49 57 (code c) then Some (skip_digits s) else None) with
              | Some EmptyString => True | _ => False end).
  { destruct Hc as [[E ->]|Hr].
    - rewrite E. exact I.
    - destruct (Z.eqb_spec (code c) 48); [lia|].
      rewrite (proj2 (in_range_iff 49 57 (code c)) Hr), (skip_digits_all _ Hall). exact I. }
  assert (Hneg : (code c =? 45) = false) by (apply Z.eqb_neq; lia).
  split; unfold valid_number.
  - rewrite Hneg. 
    destruct (if code c =? 48 then Some s
              else if in_range 49 57 (code c) then Some (skip_digits s) else None)
      as [[|? ?]|]; try contradiction. reflexivity.
  - change (code "-" =? 45) with true. cbv iota.
    destruct (if code c =? 48 then Some s
              else if in_range 49 57 (code c) then Some (skip_digits s) else None)
      as [[|? ?]|]; try contradiction. reflexivity.
Qed.

(** What [FormatInt] writes for an [int64]: an optional sign and digits,
    a number of the JSON grammar, which [ParseInt] reads back. *)
Lemma FormatInt_spec (n : Z) :
  Int64.min_int <= n <= Int64.max_int ->
  ParseInt (FormatInt n) = Some n /\
  valid_number (FormatInt n) = true /\
  exists c s, FormatInt n = String c s /\ all_digits s /\
              ((code c =? 45) || is_digit (code c) = true).
Proof.
  unfold Int64.min_int, Int64.max_int. intros Hn. unfold FormatInt.
  destruct (Z.ltb_spec n 0) as [Hneg|Hpos].
  - assert (Hr : 0 <= - n < 10 ^ Z.of_nat 20).
    { change (10 ^ Z.of_nat 20) with 100000000000000000000. lia. }
    destruct (fmt_digits_spec 20 (- n) Hr ltac:(discriminate)) as (H1 & _ & _).
    destruct (fmt_digits_shape 20 (- n) Hr ltac:(discriminate)) as (c & s & Hs & Hall & Hcase).
    rewrite Hs in *. split; [|split].
    + unfold ParseInt. change (Ascii.eqb "-" "+") with false.
      change (Ascii.eqb "-" "-") with true. cbv iota. rewrite H1.
      destruct (Z.leb_spec (- n) (2 ^ 63)); [f_equal; lia|lia].
    + apply valid_number_unsigned; [exact Hall|]. destruct Hcase as [(? & ? & ?)|[_ ?]]; auto.
    + exists "-"%char, (String c s). split; [reflexivity|]. split; [|reflexivity].
      constructor; [|exact Hall]. apply in_range_iff.
      destruct Hcase as [(? & ? & ?)|[_ ?]]; lia.
  - assert (Hr : 0 <= n < 10 ^ Z.of_nat 20).
    { change (10 ^ Z.of_nat 20) with 100000000000000000000. lia. }
    destruct (fmt_digits_spec 20 n Hr ltac:(discriminate)) as (H1 & _ & c' & s' & Hs' & Hm & Hp).
    destruct (fmt_digits_shape 20 n Hr ltac:(discriminate)) as (c & s & Hs & Hall & Hcase).
    rewrite Hs in *. injection Hs' as <- <-. split; [|split].
    + unfold ParseInt. rewrite Hm, Hp, H1.
      destruct (Z.ltb_spec n (2 ^ 63)); [reflexivity|lia].
    + apply valid_number_unsigned; [exact Hall|]. destruct Hcase as [(? & ? & ?)|[_ ?]]; auto.
    + exists c, s. split; [reflexivity|]. split; [exact Hall|].
      apply orb_true_iff. right. apply in_range_iff.
      destruct Hcase as [(? & ? & ?)|[_ ?]]; lia.
Qed.

(** *** The scanner on the text of an index *)

Lemma scans_nil : scans EmptyString [].
Proof. intros rest out. reflexivity. Qed.

Lemma scans_app (a b : string) (ta tb : list token) :
  scans a ta -> scans b tb -> scans (a +:+ b) (ta ++ tb).
Proof.
  intros Ha Hb rest out. rewrite append_assoc_str, Ha, Hb, rev_app_distr, <- app_assoc.
  reflexivity.
Qed.

Lemma scans_spaces (k : nat) : scans (string_of_list_ascii (repeat " "%char k)) [].
Proof.
  induction k as [|k IH]; [apply scans_nil|]. intros rest out. cbn [repeat string_of_list_ascii].
  rewrite append_cons_l. rewrite (scan_all_step SBetween SBetween " " _ out out eq_refl).
  apply IH.
Qed.

Lemma scans_indent (depth : nat) : scans (indent depth) [].
Proof. apply scans_spaces. Qed.

Lemma scans_nl : scans nl [].
Proof. intros rest out. reflexivity. Qed.

Lemma text_rev (s : string) : text (rev (list_ascii_of_string s) ++ []) = s.
Proof.
  unfold text. rewrite app_nil_r, rev_involutive. apply string_of_list_ascii_of_string.
Qed.

(** A string literal. *)
Lemma scans_literal (body : string) :
  lit_ok body -> scans (String dq (body +:+ String dq EmptyString)) [TString body].
Proof.
  intros Hl rest out. rewrite append_cons_l, append_assoc_str.
  rewrite (scan_all_step SBetween (SString []) dq _ out out eq_refl).
  rewrite Hl. rewrite append_cons_l, append_nil_l.
  rewrite (scan_all_step (SString (rev (list_ascii_of_string body) ++ [])) SBetween dq _ out
             (TString (text (rev (list_ascii_of_string body) ++ [])) :: out) eq_refl).
  rewrite text_rev. reflexivity.
Qed.

Lemma scan_number_run (s : string) : forall (acc : list ascii) (rest : string) (out : list token),
  all_digits s ->
  scan_all (SNumber acc) (s +:+ rest) out
  = scan_all (SNumber (rev (list_ascii_of_string s) ++ acc)) rest out.
Proof.
  induction s as [|c s IH]; intros acc rest out Hall; [reflexivity|].
  apply List.Forall_cons_iff in Hall as [Hc Hall]. rewrite append_cons_l.
  rewrite (scan_all_step (SNumber acc) (SNumber (c :: acc)) c _ out out).
  - rewrite (IH _ _ _ Hall). cbn [list_ascii_of_string rev]. rewrite <- app_assoc. reflexivity.
  - unfold scan_step. cbv zeta. rewrite Hc. reflexivity.
Qed.

(** A number and the comma after it. *)
Lemma scans_number (n : Z) :
  Int64.min_int <= n <= Int64.max_int ->
  scans (FormatInt n +:+ ",") [TNumber (FormatInt n); TComma].
Proof.
  intros Hn rest out. destruct (FormatInt_spec n Hn) as (_ & Hv & c & s & Hs & Hall & Hc).
  rewrite Hs in *. rewrite append_assoc_str, append_cons_l.
  assert (H1 : scan_step SBetween c out = Some (SNumber [c], out)).
  { pose proof (code_range c). unfold scan_step, scan_between. cbv zeta.
    apply orb_true_iff in Hc. unfold is_digit in *. rewrite in_range_iff, Z.eqb_eq in Hc.
    repeat match goal with |- context [code c =? ?k] =>
             destruct (Z.eqb_spec (code c) k) as [?|?]; [try lia|] end;
      cbn [orb]; try reflexivity.
    all: try (destruct (in_range 48 57 (code c)) eqn:E; [reflexivity|];
              apply in_range_false in E; lia). }
  rewrite (scan_all_step _ _ _ _ _ _ H1). rewrite scan_number_run by exact Hall.
  rewrite append_cons_l, append_nil_l.
  assert (Ht : text (rev (list_ascii_of_string s) ++ [c]) = String c s).
  { unfold text. rewrite rev_app_distr, rev_involutive. cbn [rev app string_of_list_ascii].
    rewrite string_of_list_ascii_of_string. reflexivity. }
  assert (H2 : scan_step (SNumber (rev (list_ascii_of_string s) ++ [c])) "," out
               = Some (SBetween, TComma :: TNumber (String c s) :: out)).
  { unfold scan_step. cbv zeta. change (code ",") with 44. cbn [is_digit in_range Z.leb Z.eqb
      Z.compare Pos.compare Pos.compare_cont andb orb Pos.eqb]. rewrite Ht, Hv. reflexivity. }
  rewrite (scan_all_step _ _ _ _ _ _ H2). reflexivity.
Qed.

Lemma scans_null_comma : scans "null," [TNull; TComma].
Proof. intros rest out. reflexivity. Qed.

Lemma scans_null_nl : scans (String "n" (String "u" (String "l" (String "l" nl)))) [TNull].
Proof. intros rest out. reflexivity. Qed.

Lemma scans_byte (c : ascii) (t : token) :
  scan_between c [] = Some (SBetween, [t]) -> scans (String c EmptyString) [t].
Proof.
  intros H rest out. rewrite append_cons_l, append_nil_l. apply scan_all_step.
  unfold scan_step. unfold scan_between in *.
  repeat match goal with |- context [if ?b then _ else _] => destruct b; try discriminate end;
    try (injection H as <-; reflexivity).
Qed.

Lemma formatTime_total (t : Z) : time_ok t -> exists s, formatTime t = Some s.
Proof.
  unfold time_ok, formatTime. cbv zeta. intros Ht.
  destruct (civil (t / 10 ^ 9 / 86400)) as [[y m] d] eqn:Ec.
  assert (Hy : 0 <= y <= 9999).
  { revert Ec. unfold civil. cbv zeta.
    set (days := t / 10 ^ 9 / 86400).
    assert (Hdays : -719528 <= days <= 2932896)
      by (subst days; Z.to_euclidean_division_equations; lia).
    clearbody days.
    set (z := days + 719468). set (era := z / 146097). set (doe := z - era * 146097).
    assert (Hdoe : 0 <= doe < 146097)
      by (subst doe era; Z.to_euclidean_division_equations; lia).
    pose proof (yoe_bounds doe Hdoe) as Hyoe. cbv zeta in Hyoe.
    set (yoe := (doe - doe / 1460 + doe / 36524 - doe / 146096) / 365) in *.
    set (doy := doe - (365 * yoe + yoe / 4 - yoe / 100)).
    set (mp := (5 * doy + 2) / 153).
    intros [= <- _ _].
    assert (Hera : -1 <= era <= 24) by (subst era z; Z.to_euclidean_division_equations; lia).
    assert (Hdoe' : doe = days + 719468 - era * 146097) by reflexivity.
    assert (Hdoy : doy = doe - (365 * yoe + yoe / 4 - yoe / 100)) by reflexivity.
    assert (Hmp : mp = (5 * doy + 2) / 153) by reflexivity.
    clearbody mp doy yoe doe era. clear z.
    destruct (Z.ltb_spec mp 10); destruct (Z.leb_spec (mp + 3) 2);
      destruct (Z.leb_spec (mp - 9) 2); Z.to_euclidean_division_equations; lia. }
  rewrite (proj2 (in_range_iff 0 9999 y) Hy). eauto.
Qed.

Lemma lit_ok_closed (s : string) :
  forallb (fun c => (32 <=? code c) && negb (code c =? 34) && negb (code c =? 92))
          (list_ascii_of_string s) = true ->
  lit_ok s.
Proof.
  intros H. apply lit_ok_plain_all. rewrite forallb_forall in H. apply List.Forall_forall.
  intros c Hc. specialize (H c Hc). apply andb_true_iff in H as [H H3].
  apply andb_true_iff in H as [H1 H2]. apply negb_true_iff in H2, H3. lia.
Qed.

Lemma lit_ok_digits (s : string) : all_digits s -> lit_ok s.
Proof.
  intros H. apply lit_ok_plain_all. eapply List.Forall_impl; [|exact H]. cbv beta.
  intros c Hc. unfold is_digit in Hc. apply in_range_iff in Hc. lia.
Qed.

Lemma pad_digits (w : nat) : forall n : Z, all_digits (pad w n).
Proof.
  induction w as [|w IH]; intros n; [constructor|]. cbn [pad].
  apply all_digits_app; [apply IH|]. constructor; [|constructor].
  assert (Hd : 0 <= n mod 10 <= 9) by (Z.to_euclidean_division_equations; lia).
  rewrite (proj2 (digit_char_spec _ Hd)). apply in_range_iff. lia.
Qed.

Lemma formatTime_lit_ok (t : Z) (s : string) : formatTime t = Some s -> lit_ok s.
Proof.
  unfold formatTime. cbv zeta.
  destruct (civil (t / 10 ^ 9 / 86400)) as [[y m] d].
  destruct (in_range 0 9999 y); [|discriminate]. intros H. apply (inj Some) in H. subst s.
  assert (Hns : 0 <= t mod 10 ^ 9 < 10 ^ 9) by (apply Z.mod_pos_bound; lia).
  repeat (apply lit_ok_app; [first [apply lit_ok_digits, pad_digits
                                   |apply lit_ok_closed; reflexivity]|]).
  apply lit_ok_app; [|apply lit_ok_closed; reflexivity].
  unfold fraction. destruct (t mod 10 ^ 9 =? 0); [apply lit_ok_nil|].
  change (String "." (significant 9 (t mod 10 ^ 9)))
    with ("." +:+ significant 9 (t mod 10 ^ 9)).
  apply lit_ok_app; [apply lit_ok_closed; reflexivity|].
  apply lit_ok_digits. exact (proj1 (proj2 (significant_spec 9 _ 0 Hns))).
Qed.

Lemma append_nil_r (s : string) : s +:+ EmptyString = s.
Proof. induction s as [|c s IH]; [reflexivity|]. rewrite append_cons_l, IH. reflexivity. Qed.

Lemma quoted_ok (s : string) :
  ValidString s = true -> lit_ok (quoted s) /\ unquote (quoted s) = s.
Proof.
  intros Hv. destruct (quote_loop_ok (String.length s) s (le_n _) Hv) as [Hl Hu].
  split; [exact Hl|]. specialize (Hu EmptyString). unfold quoted.
  rewrite append_nil_r in Hu. rewrite Hu. change (unquote EmptyString) with EmptyString.
  apply append_nil_r.
Qed.

Lemma member_split (depth : nat) (name value : string) :
  member depth name value
  = indent depth +:+ String dq (name +:+ String dq EmptyString) +:+ ":" +:+ " " +:+ value.
Proof.
  unfold member. f_equal. rewrite !append_cons_l. f_equal. rewrite append_assoc_str.
  reflexivity.
Qed.

(** A member whose value is a string literal. *)
Lemma scans_member_string (depth : nat) (name body : string) :
  lit_ok name -> lit_ok body ->
  scans (member depth name (String dq (body +:+ String dq EmptyString)))
        [TString name; TColon; TString body].
Proof.
  intros Hn Hb. rewrite member_split.
  apply (scans_app _ _ [] [TString name; TColon; TString body]); [apply scans_indent|].
  apply (scans_app _ _ [TString name] [TColon; TString body]); [apply scans_literal, Hn|].
  apply (scans_app _ _ [TColon] [TString body]); [apply scans_byte; reflexivity|].
  apply (scans_app _ _ [] [TString body]); [apply (scans_spaces 1)|].
  apply scans_literal, Hb.
Qed.

(** A member whose value is a number, and the comma after it. *)
Lemma scans_member_number (depth : nat) (name : string) (n : Z) :
  lit_ok name -> Int64.min_int <= n <= Int64.max_int ->
  scans (member depth name (FormatInt n) +:+ ",")
        [TString name; TColon; TNumber (FormatInt n); TComma].
Proof.
  intros Hn Hr. rewrite member_split, !append_assoc_str.
  apply (scans_app _ _ [] [TString name; TColon; TNumber (FormatInt n); TComma]);
    [apply scans_indent|].
  apply (scans_app _ _ [TString name] [TColon; TNumber (FormatInt n); TComma]);
    [apply scans_literal, Hn|].
  apply (scans_app _ _ [TColon] [TNumber (FormatInt n); TComma]);
    [apply scans_byte; reflexivity|].
  apply (scans_app _ _ [] [TNumber (FormatInt n); TComma]); [apply (scans_spaces 1)|].
  apply scans_number, Hr.
Qed.

Lemma scans_comma_nl : scans ("," +:+ nl) [TComma].
Proof. intros rest out. reflexivity. Qed.

(** The text of an entry. *)
Lemma scans_entry (e : CacheEntry) (s : string) :
  entry_valid e -> marshalEntry e = Some s -> scans s (entry_tokens e).
Proof.
  intros (Hk & Hf & Hc & Hz & Ht). unfold marshalEntry, entry_tokens, timeText.
  destruct (formatTime (CreatedAt e)) as [created|] eqn:Et; [|discriminate].
  intros H. apply (inj Some) in H. subst s.
  pose proof (formatTime_lit_ok _ _ Et) as Hcreated.
  destruct (quoted_ok _ Hk) as [Hk' _]. destruct (quoted_ok _ Hf) as [Hf' _].
  destruct (quoted_ok _ Hc) as [Hc' _].
  rewrite <- (append_assoc_str (member 3 "size" (FormatInt (Size e))) "," _).
  rewrite <- !(append_assoc_str "," nl _).
  apply (scans_app _ _ [TLBrace]); [apply scans_byte; reflexivity|].
  apply (scans_app _ _ []); [apply scans_nl|].
  apply (scans_app _ _ [_; _; _]);
    [apply scans_member_string; [apply lit_ok_closed; reflexivity|exact Hk']|].
  apply (scans_app _ _ [TComma]); [apply scans_comma_nl|].
  apply (scans_app _ _ [_; _; _]);
    [apply scans_member_string; [apply lit_ok_closed; reflexivity|exact Hf']|].
  apply (scans_app _ _ [TComma]); [apply scans_comma_nl|].
  apply (scans_app _ _ [_; _; _; _]);
    [apply scans_member_number; [apply lit_ok_closed; reflexivity|exact Hz]|].
  apply (scans_app _ _ []); [apply scans_nl|].
  apply (scans_app _ _ [_; _; _]);
    [apply scans_member_string; [apply lit_ok_closed; reflexivity|exact Hc']|].
  apply (scans_app _ _ [TComma]); [apply scans_comma_nl|].
  apply (scans_app _ _ [_; _; _]);
    [apply scans_member_string; [apply lit_ok_closed; reflexivity|exact Hcreated]|].
  apply (scans_app _ _ [] [TRBrace]); [apply scans_nl|].
  apply (scans_app _ _ [] [TRBrace]); [apply scans_indent|].
  apply scans_byte; reflexivity.
Qed.

(** The text of the elements of the array. *)
Lemma scans_elems (xs : list (option CacheEntry)) : forall s : string,
  Forall elem_valid xs -> marshalElems xs = Some s -> scans s (elems_tokens xs).
Proof.
  induction xs as [|x rest IH]; intros s Hall Hs.
  { apply (inj Some) in Hs. subst s. apply scans_nil. }
  apply List.Forall_cons_iff in Hall as [Hx Hall]. cbn [marshalElems] in Hs.
  destruct (marshalElem x) as [sx|] eqn:Ex; [|discriminate].
  destruct (marshalElems rest) as [srest|] eqn:Er; [|discriminate].
  apply (inj Some) in Hs. subst s. specialize (IH srest Hall eq_refl).
  cbn [elems_tokens].
  apply (scans_app _ _ []); [apply scans_indent|].
  destruct x as [e|]; cbn [marshalElem elem_tokens] in *.
  - apply (scans_app _ _ (entry_tokens e)); [apply scans_entry; assumption|].
    destruct rest as [|y rest].
    + apply (scans_app _ _ []); [apply scans_nil|].
      apply (scans_app _ _ []); [apply scans_nl|]. exact IH.
    + apply (scans_app _ _ [TComma]); [apply scans_byte; reflexivity|].
      apply (scans_app _ _ []); [apply scans_nl|]. exact IH.
  - apply (inj Some) in Ex. subst sx. destruct rest as [|y rest].
    + rewrite append_nil_l.
      change ("null" +:+ nl +:+ srest)
        with (String "n" (String "u" (String "l" (String "l" nl))) +:+ srest).
      apply (scans_app _ _ [TNull]); [apply scans_null_nl|]. exact IH.
    + change ("null" +:+ "," +:+ nl +:+ srest) with ("null," +:+ nl +:+ srest).
      apply (scans_app _ _ [TNull; TComma]); [apply scans_null_comma|].
      apply (scans_app _ _ []); [apply scans_nl|]. exact IH.
Qed.

(** The text of an index, from its first byte to its last. *)
Lemma scan_index (xs : list (option CacheEntry)) (s : string) :
  xs <> [] -> Forall elem_valid xs -> MarshalIndent (mkCacheIndex xs) = Some s ->
  scan_all SBetween s [] = Some (index_tokens xs).
Proof.
  intros Hne Hall. unfold MarshalIndent. cbn [Entries].
  destruct xs as [|x rest]; [congruence|].
  destruct (marshalElems (x :: rest)) as [elems|] eqn:Ee; [|discriminate].
  intros H. apply (inj Some) in H. subst s.
  assert (Hs : scans ("{" +:+ nl +:+ member 1 "entries" "[" +:+ nl
                      +:+ elems +:+ indent 1 +:+ "]" +:+ nl +:+ "}")
                     (index_tokens (x :: rest))).
  { unfold index_tokens.
    apply (scans_app _ _ [TLBrace]); [apply scans_byte; reflexivity|].
    apply (scans_app _ _ []); [apply scans_nl|].
    apply (scans_app _ _ [TString "entries"; TColon; TLBracket]).
    { rewrite member_split.
      apply (scans_app _ _ []); [apply scans_indent|].
      apply (scans_app _ _ [TString "entries"]);
        [apply scans_literal, lit_ok_closed; reflexivity|].
      apply (scans_app _ _ [TColon]); [apply scans_byte; reflexivity|].
      apply (scans_app _ _ [] [TLBracket]); [apply (scans_spaces 1)|].
      apply scans_byte; reflexivity. }
    apply (scans_app _ _ []); [apply scans_nl|].
    apply (scans_app _ _ (elems_tokens (x :: rest))); [apply scans_elems; assumption|].
    apply (scans_app _ _ []); [apply scans_indent|].
    apply (scans_app _ _ [TRBracket] [TRBrace]); [apply scans_byte; reflexivity|].
    apply (scans_app _ _ [] [TRBrace]); [apply scans_nl|].
    apply scans_byte; reflexivity. }
  specialize (Hs EmptyString []). rewrite append_nil_r in Hs. rewrite Hs.
  cbn [scan_all]. rewrite app_nil_r, rev_involutive. reflexivity.
Qed.

(** *** The parser on the tokens of an index *)

Lemma parse_elem (x : option CacheEntry) (fuel dp : nat) (rest : list token) :
  (length (elem_tokens x) <= fuel)%nat ->
  parse_value fuel (S dp) (elem_tokens x ++ rest) = Some (elem_json x, rest).
Proof.
  destruct x as [e|]; cbn [elem_tokens]; intros Hf.
  - do 7 (destruct fuel as [|fuel]; [simpl in Hf; lia|]). reflexivity.
  - destruct fuel as [|fuel]; [simpl in Hf; lia|]. reflexivity.
Qed.

Lemma parse_items_unfold (f depth : nat) (ts : list token) (acc : list json) :
  parse_items (S f) depth ts acc =
    match parse_value f depth ts with
    | Some (v, TComma :: r) => parse_items f depth r (v :: acc)
    | Some (v, TRBracket :: r) => Some (JArray (rev (v :: acc)), r)
    | _ => None
    end.
Proof. reflexivity. Qed.

Lemma parse_elems (xs : list (option CacheEntry)) :
  forall (fuel dp : nat) (acc : list json) (rest : list token),
  xs <> [] -> (length (elems_tokens xs) < fuel)%nat ->
  parse_items fuel (S dp) (elems_tokens xs ++ TRBracket :: rest) acc
  = Some (JArray (rev acc ++ map elem_json xs), rest).
Proof.
  induction xs as [|x xs IH]; intros fuel dp acc rest Hne Hf; [congruence|].
  destruct fuel as [|f]; [lia|]. cbn [elems_tokens] in *. rewrite !length_app in Hf.
  rewrite parse_items_unfold, <- !app_assoc, parse_elem by lia.
  destruct xs as [|y xs].
  - cbn [app elems_tokens map rev]. reflexivity.
  - cbn [app]. rewrite IH; [|discriminate|simpl in *; lia].
    cbn [rev map]. rewrite <- app_assoc. reflexivity.
Qed.

Lemma elems_tokens_head (xs : list (option CacheEntry)) :
  xs <> [] -> exists t ts, elems_tokens xs = t :: ts /\ t <> TRBracket.
Proof.
  destruct xs as [|[e|] xs]; [congruence| |]; intros _; cbn [elems_tokens elem_tokens].
  - eexists _, _. split; [reflexivity|discriminate].
  - eexists _, _. split; [reflexivity|discriminate].
Qed.

Lemma parse_index (xs : list (option CacheEntry)) (fuel dp : nat) :
  xs <> [] -> (length (index_tokens xs) <= fuel)%nat ->
  parse_value fuel (S (S (S dp))) (index_tokens xs) = Some (index_json xs, []).
Proof.
  intros Hne Hf. unfold index_tokens in *. rewrite length_app in Hf. cbn [length] in Hf.
  rewrite length_app in Hf. cbn [length] in Hf.
  do 3 (destruct fuel as [|fuel]; [lia|]).
  pose proof (parse_elems xs fuel dp [] [TRBrace] Hne ltac:(lia)) as Hp.
  destruct (elems_tokens_head xs Hne) as (t & ts & Ht & Hnot).
  change (elems_tokens xs ++ [TRBracket; TRBrace])
    with (elems_tokens xs ++ TRBracket :: [TRBrace]).
  rewrite Ht in *. cbn [app] in *. cbn [parse_value parse_members].
  destruct t; try congruence; rewrite Hp; reflexivity.
Qed.

Lemma maxNestingDepth_deep : exists dp, maxNestingDepth = S (S (S dp)).
Proof. exists (Z.to_nat 9997). reflexivity. Qed.

(** The text of an index is the value of that index. *)
Lemma parse_MarshalIndent (xs : list (option CacheEntry)) (s : string) :
  xs <> [] -> Forall elem_valid xs -> MarshalIndent (mkCacheIndex xs) = Some s ->
  parse s = Some (index_json xs).
Proof.
  intros Hne Hall Hs. unfold parse. rewrite (scan_index xs s Hne Hall Hs).
  destruct maxNestingDepth_deep as [dp ->].
  rewrite parse_index by (assumption || lia). reflexivity.
Qed.

(** *** Decoding the value of an index *)

Lemma decode_entry_object (rk rf rn rc rt k f c : string) (n t : Z) :
  unquote rk = k -> unquote rf = f -> ParseInt rn = Some n -> unquote rc = c ->
  parseRFC3339 rt = Some t ->
  decode_elem (JObject [("key", JString rk); ("file_path", JString rf); ("size", JNumber rn);
                        ("content_type", JString rc); ("created_at", JString rt)])
  = Some (true, Some (mkCacheEntry k f n c t)).
Proof.
  intros Hk Hf Hn Hc Ht. unfold decode_elem. cbn [fold_left]. unfold decode_entry_member.
  cbn [fst snd].
  change (unquote "key") with "key". change (unquote "file_path") with "file_path".
  change (unquote "size") with "size". change (unquote "content_type") with "content_type".
  change (unquote "created_at") with "created_at".
  cbn -[unquote ParseInt parseRFC3339 zeroTime].
  rewrite Hn. cbn -[unquote ParseInt parseRFC3339 zeroTime].
  rewrite Ht. cbn -[unquote ParseInt parseRFC3339 zeroTime].
  rewrite Hk, Hf, Hc. reflexivity.
Qed.

Lemma decode_entry_json (e : CacheEntry) :
  entry_valid e -> decode_elem (entry_json e) = Some (true, Some e).
Proof.
  intros (Hk & Hf & Hc & Hz & Ht). destruct e as [k f n c t]. cbn [Key FilePath Size ContentType
    CreatedAt] in *. unfold entry_json. cbn [Key FilePath Size ContentType CreatedAt].
  destruct (formatTime_total t Ht) as [s Hs].
  apply decode_entry_object.
  - apply quoted_ok, Hk.
  - apply quoted_ok, Hf.
  - apply FormatInt_spec, Hz.
  - apply quoted_ok, Hc.
  - unfold timeText. rewrite Hs. apply parseRFC3339_formatTime, Hs.
Qed.

Lemma decode_elems_json (xs : list (option CacheEntry)) :
  Forall elem_valid xs -> decode_elems (map elem_json xs) = Some (true, xs).
Proof.
  induction 1 as [|x xs Hx _ IH]; [reflexivity|]. cbn [map decode_elems]. rewrite IH.
  destruct x as [e|].
  - cbn [elem_json]. rewrite (decode_entry_json e Hx). reflexivity.
  - reflexivity.
Qed.

Lemma decode_index_json (xs : list (option CacheEntry)) :
  Forall elem_valid xs -> decode_index (index_json xs) = Decoded (mkCacheIndex xs).
Proof.
  intros Hall. unfold decode_index, index_json. cbn [fold_left]. unfold decode_index_member.
  cbn [fst snd]. change (unquote "entries") with "entries".
  cbn -[decode_elems]. rewrite (decode_elems_json xs Hall). reflexivity.
Qed.

(** What [saveIndex] writes, [loadAndCleanup] reads as the same index:
    for entries of valid UTF-8 strings, [int64] sizes and creation times
    in the years 0 to 9999, [json.Unmarshal] undoes [json.MarshalIndent]. *)
Lemma unmarshal_marshal (idx : cacheIndex) :
  Forall elem_valid (Entries idx) -> unmarshal (marshal idx) = Some idx.
Proof.
  destruct idx as [xs]. cbn [Entries]. intros Hall.
  destruct xs as [|x xs]; [reflexivity|].
  assert (Hm : exists s, MarshalIndent (mkCacheIndex (x :: xs)) = Some s).
  { unfold MarshalIndent. cbn [Entries].
    assert (He : forall ys, Forall elem_valid ys -> exists s, marshalElems ys = Some s).
    { induction 1 as [|y ys Hy _ [s Hs]]; [eexists; reflexivity|].
      cbn [marshalElems]. rewrite Hs.
      destruct y as [e|]; cbn [marshalElem]; [|eexists; reflexivity].
      unfold marshalEntry. destruct Hy as (_ & _ & _ & _ & Ht).
      destruct (formatTime_total _ Ht) as [st ->]. eexists; reflexivity. }
    destruct (He _ Hall) as [s ->]. eexists; reflexivity. }
  destruct Hm as [s Hs]. unfold unmarshal, marshal, Unmarshal. rewrite Hs.
  rewrite string_of_list_byte_of_string.
  rewrite (parse_MarshalIndent (x :: xs) s ltac:(discriminate) Hall Hs).
  rewrite (decode_index_json _ Hall). reflexivity.
Qed.

End JsonFacts.

Section IndexRoundTrip.

Variable marshal : cacheIndex -> list byte.
Variable unmarshal : list byte -> option cacheIndex.

(** The restart, for any codec that reads back the entries [saveIndex]
    wrote. *)
Lemma index_round_trip_for (c : Cache) (now now' : Z) (d' : Disk)
    (Hwf : store_wf c)
    (Hcodec : unmarshal (marshal (mkCacheIndex (map Some (live_entries c now))))
              = Some (mkCacheIndex (map Some (live_entries c now))))
    (Hindex : d' !! indexPath c = disk (saveIndex marshal c now IoOk).1 !! indexPath c) :
  exists c',
  NewCache unmarshal (config c) d' now' = Started c' /\
  (forall key entry,
      LRU.Peek (fileCache c) key now = Some entry ->
      intact d' entry = true ->
      exists entry',
        LRU.Peek (fileCache c') key now' = Some entry' /\
        Size entry' = Size entry /\ ContentType entry' = ContentType entry /\
        disk c' !! FilePath entry = d' !! FilePath entry) /\
  (forall key entry,
      LRU.Peek (fileCache c) key now = Some entry ->
      intact d' entry = false ->
      LRU.Contains (fileCache c') key = false /\
      disk c' !! FilePath entry = None) /\
  (forall e,
      In e (LRU.items (fileCache c)) ->
      LRU.expired now e = true ->
      LRU.Contains (fileCache c') (LRU.e_key e) = false /\
      (HasPrefix (FilePath (LRU.e_value e)) (CacheDir (config c) +:+ "/") = true ->
       FilePath (LRU.e_value e) <> indexPath c ->
       FilePath (LRU.e_value e) <> tmpIndexPath c ->
       disk c' !! FilePath (LRU.e_value e) = None)) /\
  totalSize c' = sum_sizes (LRU.items (fileCache c')).
Proof.
  destruct (live_entries_facts c now Hwf) as (Hkeys & Hpaths & Hsizes & Hfit).
  set (saved := live_entries c now) in *.
  assert (Hdisk : d' !! indexPath c = Some (marshal (mkCacheIndex (map Some saved)))).
  { rewrite Hindex. apply saveIndex_entries. apply Hwf. }
  set (c0 := emptyCache (config c) d').
  set (F := List.filter (intact d') saved).
  pose proof (load_fold now' saved c0 ∅ eq_refl Hpaths Hkeys) as Hfold.
  pose proof (total_of_filter_le (intact d') saved Hsizes) as HF.
  unfold c0, emptyCache in Hfold.
  cbn [config fileCache notFoundCache totalSize pending store disk keys_of
       LRU.NewLRU LRU.items map] in Hfold.
  specialize (Hfold ltac:(intros e _ []) ltac:(lia) ltac:(lia)).
  fold F in Hfold. fold (emptyCache (config c) d') in Hfold. fold c0 in Hfold.
  pose proof (load_fold_valid now' saved c0 ∅) as Hvalid.
  specialize (fun p => Hvalid p eq_refl Hpaths).
  destruct (load_fold_shrinks now' saved c0 ∅ eq_refl) as (_ & _ & Hshrink).
  destruct (fold_left (loadEntry now') saved (c0, ∅)) as [c1 vf] eqn:Efold.
  cbn [fst snd] in Hfold, Hvalid, Hshrink.
  exists (cleanupOrphanFiles c1 vf).
  set (c' := cleanupOrphanFiles c1 vf).
  assert (Hc' : NewCache unmarshal (config c) d' now' = Started c').
  { unfold NewCache, loadAndCleanup. fold c0.
    change (disk c0 !! indexPath c0) with (d' !! indexPath c).
    rewrite Hdisk, Hcodec. cbn [Entries]. rewrite loadEntries_Some, Efold. reflexivity. }
  split; [exact Hc'|].
  set (ttl0 := if DefaultCacheTTL (config c) <=? 0 then LRU.noEvictionTTL
               else DefaultCacheTTL (config c)) in *.
  assert (Httl : 0 < ttl0) by apply (NewLRU_ttl_pos (V := CacheEntry) 0).
  set (l0 := LRU.mkLRU 0 ttl0 ([] : list (LRU.entry CacheEntry))) in *.
  assert (Hitems : LRU.items (fileCache c') = loaded_items l0 now' F).
  { subst c'. rewrite Hfold. cbn. apply app_nil_r. }
  assert (Hdisk' : disk c' = filter (fun kv => keepFile c1 vf kv.1 = true)
                     (unlink_entries (List.filter (fun e => negb (intact d' e)) saved) d')).
  { subst c'. unfold cleanupOrphanFiles. cbn [with_disk disk]. rewrite Hfold. reflexivity. }
  assert (HndF : NoDup (keys_of (fileCache c'))).
  { unfold keys_of. rewrite Hitems, keys_loaded.
    apply NoDup_rev_list, NoDup_map_filter, Hkeys. }
  assert (Htotal : totalSize c' = total_of F).
  { subst c'. unfold cleanupOrphanFiles. cbn [with_disk totalSize]. rewrite Hfold.
    cbn [totalSize]. lia. }
  clearbody c'.
  split; [|split; [|split]].
  - intros key entry Hpeek Hint.
    destruct (Peek_live c key now entry Hwf Hpeek) as [Hin Hkey].
    assert (HinF : In entry F) by (apply filter_In; split; assumption).
    exists entry. split; [|split; [reflexivity|split; [reflexivity|]]].
    + pose (x := LRU.mkEntry (Key entry) entry (now' + ttl0)).
      assert (Hx : In x (LRU.items (fileCache c'))).
      { rewrite Hitems. unfold loaded_items. apply in_rev. rewrite rev_involutive.
        apply (in_map (fun e => LRU.mkEntry (Key e) e (now' + LRU.ttl l0))), HinF. }
      pose proof (lookup_NoDup (fileCache c') x HndF Hx) as Hl.
      simpl in Hl. rewrite Hkey in Hl. unfold LRU.Peek. rewrite Hl.
      unfold LRU.expired. simpl. destruct (now' >? now' + ttl0) eqn:E; [lia|reflexivity].
    + rewrite Hdisk'. unfold intact, disk_stat in Hint.
      destruct (d' !! FilePath entry) as [content|] eqn:Ed; [|discriminate].
      apply map_lookup_filter_Some_2.
      * rewrite unlink_entries_kept; [exact Ed|].
        intros Hbad. apply in_map_iff in Hbad as (e2 & Hp2 & Hin2).
        apply filter_In in Hin2 as [Hin2 Hbad2].
        assert (e2 = entry) by (apply (NoDup_map_inj_in FilePath saved); assumption).
        subst e2. unfold intact, disk_stat in Hbad2. rewrite Ed, Hint in Hbad2. discriminate.
      * cbn [fst]. unfold keepFile. rewrite (bool_decide_eq_true_2 (FilePath entry ∈ vf)).
        -- apply orb_true_r.
        -- apply Hvalid. right. exists entry. split; [exact Hin|]. split; [|reflexivity].
           unfold intact, disk_stat. cbn [c0 emptyCache disk]. rewrite Ed. exact Hint.
  - intros key entry Hpeek Hint.
    destruct (Peek_live c key now entry Hwf Hpeek) as [Hin Hkey].
    split.
    + destruct (LRU.Contains (fileCache c') key) eqn:Ec; [|reflexivity].
      exfalso. apply Contains_keys in Ec. unfold keys_of in Ec.
      rewrite Hitems, keys_loaded in Ec. apply in_rev in Ec.
      apply in_map_iff in Ec as (e2 & Hk2 & Hin2). apply filter_In in Hin2 as [Hin2 Hok2].
      assert (e2 = entry).
      { apply (NoDup_map_inj_in Key saved); try assumption. congruence. }
      subst e2. congruence.
    + rewrite Hdisk'. apply map_lookup_filter_None_2. left.
      apply unlink_entries_gone. apply in_map. apply filter_In.
      split; [exact Hin|]. rewrite Hint. reflexivity.
  - intros e Hine Hexp.
    destruct Hwf as (Hnd & Hndp & Hown & _).
    assert (Hsaved : forall x, In x saved ->
              exists e2, In e2 (LRU.items (fileCache c)) /\ LRU.expired now e2 = false /\
                         LRU.e_value e2 = x).
    { intros x Hx. unfold saved, live_entries in Hx.
      apply in_map_iff in Hx as (e2 & He2 & Hin2). apply filter_In in Hin2 as [Hin2 Hl2].
      exists e2. split; [apply in_rev, Hin2|]. split; [apply negb_true_iff, Hl2|exact He2]. }
    split.
    + destruct (LRU.Contains (fileCache c') (LRU.e_key e)) eqn:Ec; [|reflexivity].
      exfalso. apply Contains_keys in Ec. unfold keys_of in Ec.
      rewrite Hitems, keys_loaded in Ec. apply in_rev in Ec.
      apply in_map_iff in Ec as (x & Hk & Hinx). apply filter_In in Hinx as [Hinx _].
      destruct (Hsaved x Hinx) as (e2 & Hin2 & Hlive2 & <-).
      rewrite List.Forall_forall in Hown. rewrite (Hown e2 Hin2) in Hk.
      assert (e2 = e) by (apply (NoDup_map_inj_in LRU.e_key (LRU.items (fileCache c)));
                          assumption).
      subst e2. congruence.
    + intros Hpre Hni Hnt. rewrite Hdisk'. apply map_lookup_filter_None_2.
      destruct (unlink_entries (List.filter (fun e0 => negb (intact d' e0)) saved) d'
                  !! FilePath (LRU.e_value e)) as [v|] eqn:Ev; [right|left; reflexivity].
      intros v' [= <-]. cbn [fst]. unfold keepFile.
      assert (Hcf : config c1 = config c) by (rewrite Hfold; reflexivity).
      unfold tmpIndexPath, indexPath in *. rewrite Hcf, Hpre.
      intros Hk. cbn [negb orb] in Hk.
      apply orb_true_iff in Hk as [Hk|Hk];
        [apply orb_true_iff in Hk as [Hk|Hk]; apply String.eqb_eq in Hk; congruence|].
      apply bool_decide_eq_true in Hk.
      destruct (Hshrink _ Hk) as [Hk0|(x & Hinx & Hpx & _)]; [set_solver|].
      destruct (Hsaved x Hinx) as (e2 & Hin2 & Hlive2 & <-).
      assert (e2 = e).
      { apply (NoDup_map_inj_in (fun e0 => FilePath (LRU.e_value e0))
                 (LRU.items (fileCache c))); assumption. }
      subst e2. congruence.
  - rewrite Hitems, sum_sizes_loaded. exact Htotal.
Qed.

End IndexRoundTrip.

(** C7, as the code has it, with [json.MarshalIndent] and
    [json.Unmarshal] as the codec.  The index is saved at [now] from a
    well-formed completed store: [saveIndex] writes the entries that are
    visible at that moment, those whose deadline has not passed.  Each of
    them has a key, a file path and a content type of valid UTF-8 (and,
    as every [CacheEntry] of the program, a size that is an [int64] and a
    creation time in the years 0 to 9999), so that the encoder writes
    them as they are.  The process is started again at [now'] on a disk
    [d'] that holds the index file as saved.  Then [NewCache] returns, and
    - every entry that was visible and whose file is intact on [d'] (it
      exists, with the size of the entry) is visible again under its key
      with the same size and content type, and its file is untouched by
      the start-up clean-up;
    - every entry that was visible and whose file is missing or has
      another size is absent and its file is unlinked;
    - every entry that was in the store with its deadline passed is absent,
      and its file, under the cache directory, is deleted with the
      orphans even when it is intact;
    - [totalSize] is the sum of the sizes of the entries loaded. *)
Theorem index_round_trip (c : Cache) (now now' : Z) (d' : Disk)
    (Hwf : store_wf c)
    (Hvalid : Forall Json.entry_valid (live_entries c now))
    (Hindex : d' !! indexPath c = disk (saveIndex Json.marshal c now IoOk).1 !! indexPath c) :
  exists c',
  NewCache Json.unmarshal (config c) d' now' = Started c' /\
  (forall key entry,
      LRU.Peek (fileCache c) key now = Some entry ->
      intact d' entry = true ->
      exists entry',
        LRU.Peek (fileCache c') key now' = Some entry' /\
        Size entry' = Size entry /\ ContentType entry' = ContentType entry /\
        disk c' !! FilePath entry = d' !! FilePath entry) /\
  (forall key entry,
      LRU.Peek (fileCache c) key now = Some entry ->
      intact d' entry = false ->
      LRU.Contains (fileCache c') key = false /\
      disk c' !! FilePath entry = None) /\
  (forall e,
      In e (LRU.items (fileCache c)) ->
      LRU.expired now e = true ->
      LRU.Contains (fileCache c') (LRU.e_key e) = false /\
      (HasPrefix (FilePath (LRU.e_value e)) (CacheDir (config c) +:+ "/") = true ->
       FilePath (LRU.e_value e) <> indexPath c ->
       FilePath (LRU.e_value e) <> tmpIndexPath c ->
       disk c' !! FilePath (LRU.e_value e) = None)) /\
  totalSize c' = sum_sizes (LRU.items (fileCache c')).
Proof.
  apply (index_round_trip_for Json.marshal Json.unmarshal c now now' d' Hwf); [|exact Hindex].
  apply JsonFacts.unmarshal_marshal. cbn [Entries].
  apply List.Forall_forall. intros x Hx. apply in_map_iff in Hx as (e & <- & He).
  rewrite List.Forall_forall in Hvalid. exact (Hvalid e He).
Qed.

Lemma index_round_trip_witness :
  let c := example_store in
  let d' := example_restart_disk (Json.marshal (mkCacheIndex [Some entry_a; Some entry_b])) in
  store_wf c /\
  Forall Json.entry_valid (live_entries c 10) /\
  d' !! indexPath c = disk (saveIndex Json.marshal c 10 IoOk).1 !! indexPath c /\
  exists c',
  NewCache Json.unmarshal (config c) d' 20 = Started c' /\
  (forall key entry,
      LRU.Peek (fileCache c) key 10 = Some entry ->
      intact d' entry = true ->
      exists entry',
        LRU.Peek (fileCache c') key 20 = Some entry' /\
        Size entry' = Size entry /\ ContentType entry' = ContentType entry /\
        disk c' !! FilePath entry = d' !! FilePath entry) /\
  (forall key entry,
      LRU.Peek (fileCache c) key 10 = Some entry ->
      intact d' entry = false ->
      LRU.Contains (fileCache c') key = false /\
      disk c' !! FilePath entry = None) /\
  (forall e,
      In e (LRU.items (fileCache c)) ->
      LRU.expired 10 e = true ->
      LRU.Contains (fileCache c') (LRU.e_key e) = false /\
      (HasPrefix (FilePath (LRU.e_value e)) (CacheDir (config c) +:+ "/") = true ->
       FilePath (LRU.e_value e) <> indexPath c ->
       FilePath (LRU.e_value e) <> tmpIndexPath c ->
       disk c' !! FilePath (LRU.e_value e) = None)) /\
  totalSize c' = sum_sizes (LRU.items (fileCache c')).
Proof.
  intros c d'.
  assert (H1 : store_wf c).
  { split; [|split; [|split; [|split]]].
    - repeat (apply NoDup_cons_2; [rewrite list_elem_of_In; simpl; intuition discriminate|]).
      apply NoDup_nil_2.
    - repeat (apply NoDup_cons_2; [rewrite list_elem_of_In; simpl; intuition discriminate|]).
      apply NoDup_nil_2.
    - repeat constructor.
    - repeat constructor; simpl; discriminate.
    - vm_compute. discriminate. }
  assert (H2 : Forall Json.entry_valid (live_entries c 10)).
  { repeat constructor; vm_compute; congruence. }
  assert (H3 : d' !! indexPath c = disk (saveIndex Json.marshal c 10 IoOk).1 !! indexPath c)
    by (vm_compute; reflexivity).
  split; [exact H1|]. split; [exact H2|]. split; [exact H3|].
  exact (index_round_trip c 10 20 d' H1 H2 H3).
Defined.

(** On an empty disk [NewProxy] returns the fresh proxy of the examples. *)
Example NewProxy_example :
  NewProxy Json.unmarshal example_config ∅ 0 = Started example_proxy.
Proof. vm_compute. reflexivity. Qed.

(** The restart of the example: [/a] is loaded, [/b] and the stray file
    are gone, the total is the size of [/a]. *)
Example restart_example :
  exists c',
  NewCache Json.unmarshal example_config
    (example_restart_disk (Json.marshal (mkCacheIndex [Some entry_a; Some entry_b]))) 20
    = Started c' /\
  keys_of (fileCache c') = ["/a"] /\ totalSize c' = 2 /\
  disk c' !! "/cache/aa/a" = Some [x01; x02]%byte /\
  disk c' !! "/cache/index.json"
    = Some (Json.marshal (mkCacheIndex [Some entry_a; Some entry_b])) /\
  disk c' !! "/cache/bb/b" = None /\
  disk c' !! "/cache/zz/stray" = None.
Proof. eexists. split; [vm_compute; reflexivity|]. vm_compute. repeat split; reflexivity. Qed.

(** The text of the index of the example, as [json.MarshalIndent] writes
    it. *)
Example index_text_example :
  Json.MarshalIndent (mkCacheIndex [Some entry_a])
  = Some ("{" +:+ Json.nl
          +:+ "  " +:+ Json.quote "entries" +:+ ": [" +:+ Json.nl
          +:+ "    {" +:+ Json.nl
          +:+ "      " +:+ Json.quote "key" +:+ ": " +:+ Json.quote "/a" +:+ "," +:+ Json.nl
          +:+ "      " +:+ Json.quote "file_path" +:+ ": " +:+ Json.quote "/cache/aa/a"
          +:+ "," +:+ Json.nl
          +:+ "      " +:+ Json.quote "size" +:+ ": 2," +:+ Json.nl
          +:+ "      " +:+ Json.quote "content_type" +:+ ": " +:+ Json.quote "text/plain"
          +:+ "," +:+ Json.nl
          +:+ "      " +:+ Json.quote "created_at" +:+ ": "
          +:+ Json.quote "1970-01-01T00:00:00.000000001Z" +:+ Json.nl
          +:+ "    }" +:+ Json.nl
          +:+ "  ]" +:+ Json.nl
          +:+ "}").
Proof. vm_compute. reflexivity. Qed.

(** The claim C7 as the specification words it fails in two ways.

    A key that is not valid UTF-8.  The entry of [/%ff] is in the
    completed store, visible, its file intact.  [json.MarshalIndent]
    writes the offending byte as [\ufffd]; after the restart the entry is
    under the key that [json.Unmarshal] reads back, and the key of the
    request finds nothing.

    An entry past its deadline.  [/a] is in the completed store (the
    janitor has not removed it) and its file is intact, but [Keys] and
    [Peek] skip it, so [saveIndex] does not write it; after the restart it
    is absent and the clean-up has deleted its file as an orphan. *)
Lemma index_round_trip_loses_entries :
  (let c := example_store_ff in
   let d' := disk (saveIndex Json.marshal c 10 IoOk).1 in
   store_wf c /\
   LRU.Peek (fileCache c) key_ff 10 = Some entry_ff /\
   intact d' entry_ff = true /\
   exists c',
     NewCache Json.unmarshal (config c) d' 20 = Started c' /\
     LRU.Contains (fileCache c') key_ff = false /\
     (Get c' key_ff 20).2 = None /\
     keys_of (fileCache c') = [String "/" (Json.EncodeRune Json.RuneError)]) /\
  (let c := example_store_expired in
   let d' := disk (saveIndex Json.marshal c 10 IoOk).1 in
   store_wf c /\
   LRU.Contains (fileCache c) "/a" = true /\
   intact d' entry_a = true /\
   d' !! indexPath c = Some (Json.marshal (mkCacheIndex [Some entry_b])) /\
   exists c',
     NewCache Json.unmarshal (config c) d' 20 = Started c' /\
     LRU.Contains (fileCache c') "/a" = false /\
     disk c' !! "/cache/aa/a" = None /\
     keys_of (fileCache c') = ["/b"]).
Proof.
  split.
  - intros c d'. split.
    { split; [|split; [|split; [|split]]].
      - repeat (apply NoDup_cons_2; [rewrite list_elem_of_In; simpl; intuition discriminate|]).
        apply NoDup_nil_2.
      - repeat (apply NoDup_cons_2; [rewrite list_elem_of_In; simpl; intuition discriminate|]).
        apply NoDup_nil_2.
      - repeat constructor.
      - repeat constructor; simpl; discriminate.
      - vm_compute. discriminate. }
    split; [vm_compute; reflexivity|]. split; [vm_compute; reflexivity|].
    eexists. split; [vm_compute; reflexivity|].
    vm_compute. repeat split; reflexivity.
  - intros c d'. split.
    { split; [|split; [|split; [|split]]].
      - repeat (apply NoDup_cons_2; [rewrite list_elem_of_In; simpl; intuition discriminate|]).
        apply NoDup_nil_2.
      - repeat (apply NoDup_cons_2; [rewrite list_elem_of_In; simpl; intuition discriminate|]).
        apply NoDup_nil_2.
      - repeat constructor.
      - repeat constructor; simpl; discriminate.
      - vm_compute. discriminate. }
    split; [vm_compute; reflexivity|]. split; [vm_compute; reflexivity|].
    split; [vm_compute; reflexivity|].
    eexists. split; [vm_compute; reflexivity|].
    vm_compute. repeat split; reflexivity.
Qed.


(** ** Serving from a pending download *)

Lemma Write_header (w : ResponseWriter) (data : list byte) :
  rw_header (Write w data).1.1 = rw_header w.
Proof.
  unfold Write, WriteHeader. destruct (rw_status w); destruct (rw_conn w) as [m|]; simpl;
    try destruct (length data <=? m)%nat; reflexivity.
Qed.

Lemma streamReads_header (reads : list read) (w : ResponseWriter) :
  rw_header (streamReads w reads).1 = rw_header w.
Proof.
  revert w. induction reads as [|rd rest IH]; intros w; [reflexivity|].
  cbn [streamReads]. destruct (0 <? length (rd_data rd))%nat.
  - pose proof (Write_header w (rd_data rd)) as Hw.
    destruct (Write w (rd_data rd)) as [[w' n] failed]. cbn [fst] in Hw.
    destruct failed; [exact Hw|].
    destruct (rd_end rd); [rewrite IH| |]; exact Hw.
  - destruct (rd_end rd); [apply IH| |]; reflexivity.
Qed.

Lemma serveFromStreaming_header (w : ResponseWriter) (r : Request) (sf : nat)
    (reads : list read) :
  rw_header (serveFromStreaming w r sf reads).1 = <["X-Cache" := "STREAMING"]> (rw_header w).
Proof.
  unfold serveFromStreaming. destruct (String.eqb (Method r) MethodHead); [reflexivity|].
  apply streamReads_header.
Qed.

Section ProxyProperties.

Variable sha256_hex : string -> string.

(** C10. A GET or HEAD request that neither cache answers and that finds a
    pending download for its path is served by [serveFromStreaming]; the
    header map of its answer then holds [X-Cache: STREAMING] and nothing
    else: no [Content-Type], no [Accept-Ranges], no [Content-Length]. *)
Theorem streaming_sets_only_X_Cache (p p1 p2 : Proxy) (r : Request) (e : env)
    (conn : option nat) (sf : nat)
    (Hmethod : Method r = MethodGet \/ Method r = MethodHead)
    (Hmiss : lookupCaches p (newResponseWriter conn) r (Path r) e = (p1, None))
    (Hpending : enterFetch p1 (Path r) = (p2, RouteStreaming sf)) :
  (ServeHTTP sha256_hex p (newResponseWriter conn) r e).1 = p2 /\
  (ServeHTTP sha256_hex p (newResponseWriter conn) r e).2
    = (serveFromStreaming (newResponseWriter conn) r sf (env_reads e)).1 /\
  rw_header (ServeHTTP sha256_hex p (newResponseWriter conn) r e).2
    = {["X-Cache" := "STREAMING"]} /\
  rw_header (ServeHTTP sha256_hex p (newResponseWriter conn) r e).2 !! "Content-Type" = None /\
  rw_header (ServeHTTP sha256_hex p (newResponseWriter conn) r e).2 !! "Accept-Ranges" = None /\
  rw_header (ServeHTTP sha256_hex p (newResponseWriter conn) r e).2 !! "Content-Length" = None.
Proof.
  assert (Hserve : ServeHTTP sha256_hex p (newResponseWriter conn) r e
                   = (p2, (serveFromStreaming (newResponseWriter conn) r sf (env_reads e)).1)).
  { unfold ServeHTTP.
    assert (Hm : negb (String.eqb (Method r) MethodGet)
                 && negb (String.eqb (Method r) MethodHead) = false).
    { destruct Hmethod as [->| ->]; reflexivity. }
    rewrite Hm. unfold handleRequest, fetchAndServe. rewrite Hmiss, Hpending.
    destruct (serveFromStreaming (newResponseWriter conn) r sf (env_reads e)); reflexivity. }
  rewrite Hserve. cbn [fst snd].
  assert (Hh : rw_header (serveFromStreaming (newResponseWriter conn) r sf (env_reads e)).1
               = {["X-Cache" := "STREAMING"]}).
  { rewrite serveFromStreaming_header. reflexivity. }
  rewrite Hh. repeat split; reflexivity.
Qed.

End ProxyProperties.

Lemma streaming_sets_only_X_Cache_witness :
  let r := mkRequest "GET" "/b.bin" "bytes=0-1" in
  let e := mkEnv 2 (example_origin 2 2) IoOk
             [mkRead [x01; x02]%byte ReadMore 0; mkRead [x03; x04]%byte ReadEOF 0] in
  let p := example_pending_proxy in
  (Method r = MethodGet \/ Method r = MethodHead) /\
  lookupCaches p (newResponseWriter None) r (Path r) e = (p, None) /\
  enterFetch p (Path r) = (p, RouteStreaming 0) /\
  rw_header (ServeHTTP hex_name p (newResponseWriter None) r e).2
    = {["X-Cache" := "STREAMING"]} /\
  rw_body (ServeHTTP hex_name p (newResponseWriter None) r e).2
    = [x01; x02; x03; x04]%byte.
Proof.
  intros r e p.
  assert (H1 : Method r = MethodGet \/ Method r = MethodHead) by (left; reflexivity).
  assert (H2 : lookupCaches p (newResponseWriter None) r (Path r) e = (p, None))
    by (vm_compute; reflexivity).
  assert (H3 : enterFetch p (Path r) = (p, RouteStreaming 0)) by (vm_compute; reflexivity).
  destruct (streaming_sets_only_X_Cache hex_name p p p r e None 0%nat H1 H2 H3)
    as (_ & Hw & Hh & _).
  split; [exact H1|]. split; [exact H2|]. split; [exact H3|]. split; [exact Hh|].
  rewrite Hw. reflexivity.
Defined.

(** ** The fetcher that finds a download already pending *)

Lemma Write_open (w : ResponseWriter) (data : list byte) :
  rw_conn w = None ->
  (Write w data).2 = false /\
  rw_body (Write w data).1.1 = rw_body w ++ data /\
  rw_conn (Write w data).1.1 = None.
Proof.
  intros H. unfold Write, WriteHeader. destruct (rw_status w); simpl; rewrite H; auto.
Qed.

Lemma streamBody_not_new (key : string) (sf : nat) (body : list read) :
  forall (c : Cache) (w : ResponseWriter) (tw : Z),
  let res := streamBody key sf body c w false tw in
  res.1.1.1.1 = c /\
  res.1.1.2 = false /\
  rw_header res.1.1.1.2 = rw_header w /\
  (rw_conn w = None -> rw_body res.1.1.1.2 = rw_body w ++ body_bytes body).
Proof.
  induction body as [|rd rest IH]; intros c w tw.
  - simpl. rewrite app_nil_r. auto.
  - cbn [streamBody body_bytes]. destruct (0 <? length (rd_data rd))%nat eqn:Elen.
    + pose proof (Write_header w (rd_data rd)) as Hh.
      pose proof (Write_open w (rd_data rd)) as Ho.
      destruct (Write w (rd_data rd)) as [[w' n] failed]. cbn [fst snd] in Hh, Ho.
      destruct failed.
      * cbn. split; [reflexivity|]. split; [reflexivity|]. split; [exact Hh|].
        intros Hc. destruct (Ho Hc) as [Hf _]. discriminate.
      * destruct (rd_end rd).
        -- destruct (IH c w' (Int64.add tw n)) as (H1 & H2 & H3 & H4).
           split; [exact H1|]. split; [exact H2|]. split; [congruence|].
           intros Hc. destruct (Ho Hc) as (_ & Hb & Hc').
           rewrite (H4 Hc'), Hb, app_assoc. reflexivity.
        -- cbn. split; [reflexivity|]. split; [reflexivity|]. split; [exact Hh|].
           intros Hc. apply (Ho Hc).
        -- cbn. split; [reflexivity|]. split; [reflexivity|]. split; [exact Hh|].
           intros Hc. apply (Ho Hc).
    + assert (Hnil : rd_data rd = []).
      { destruct (rd_data rd); [reflexivity|discriminate]. }
      rewrite Hnil. destruct (rd_end rd).
      * apply IH.
      * cbn. rewrite app_nil_r. auto.
      * cbn. rewrite app_nil_r. auto.
Qed.

Section NotNew.

Variable sha256_hex : string -> string.

(** C2, as the code has it.  On a 200 answer, when [GetOrCreatePending]
    finds a download of the key already pending ([isNew = false]),
    [doFetchAndServe] leaves the cache as it was (the pending map, the
    streaming file, the completed store) and answers its client from its
    own upstream response: [X-Cache: MISS], the content type of the
    upstream answer, [Accept-Ranges: bytes], [Content-Length] set to the
    length the upstream announced when it announced one (and left as it
    was otherwise) and, for a request other than HEAD on a client that
    stays connected, the upstream body. *)
Theorem not_new_passes_upstream_through (p : Proxy) (w : ResponseWriter)
    (r : Request) (key : string) (lock : nat) (e : env)
    (expectedSize : Z) (ct : string) (body : list read) (sf : nat)
    (Hup : env_upstream e = UpResponse 200 expectedSize ct body)
    (Hpending : pending (cache p) !! key = Some sf) :
  GetOrCreatePending sha256_hex (cache p) key (env_io e) = (cache p, Some (sf, false)) /\
  cache (doFetchAndServe sha256_hex p w r key lock e).1.1 = cache p /\
  rw_header (doFetchAndServe sha256_hex p w r key lock e).1.2 !! "X-Cache" = Some "MISS" /\
  rw_header (doFetchAndServe sha256_hex p w r key lock e).1.2 !! "Content-Type"
    = Some (if String.eqb ct "" then "application/octet-stream" else ct) /\
  rw_header (doFetchAndServe sha256_hex p w r key lock e).1.2 !! "Accept-Ranges"
    = Some "bytes" /\
  rw_header (doFetchAndServe sha256_hex p w r key lock e).1.2 !! "Content-Length"
    = (if expectedSize >=? 0 then Some (FormatInt expectedSize)
       else rw_header w !! "Content-Length") /\
  (String.eqb (Method r) MethodHead = false -> rw_conn w = None ->
   rw_body (doFetchAndServe sha256_hex p w r key lock e).1.2 = rw_body w ++ body_bytes body).
Proof.
  assert (Hget : GetOrCreatePending sha256_hex (cache p) key (env_io e)
                 = (cache p, Some (sf, false))).
  { unfold GetOrCreatePending. rewrite Hpending. reflexivity. }
  split; [exact Hget|].
  unfold doFetchAndServe, receiveUpstream, beginDownload. rewrite Hup.
  cbn [sends sendUpstream cache]. change (200 =? StatusNotFound) with false.
  change (negb (200 =? StatusOK)) with false. cbv iota.
  rewrite Hget.
  set (ctype := if String.eqb ct "" then "application/octet-stream" else ct).
  set (w1 := SetHeader (SetHeader w "Content-Type" ctype) "Accept-Ranges" "bytes").
  set (w2 := if expectedSize >=? 0
             then SetHeader w1 "Content-Length" (FormatInt expectedSize) else w1).
  set (w3 := SetHeader w2 "X-Cache" "MISS").
  assert (Hx : rw_header w3 !! "X-Cache" = Some "MISS") by apply lookup_insert_eq.
  assert (Hct : rw_header w3 !! "Content-Type" = Some ctype).
  { subst w3 w2 w1. unfold SetHeader. destruct (expectedSize >=? 0);
      cbn [rw_header]; rewrite !lookup_insert_ne by discriminate; apply lookup_insert_eq. }
  assert (Har : rw_header w3 !! "Accept-Ranges" = Some "bytes").
  { subst w3 w2 w1. unfold SetHeader. destruct (expectedSize >=? 0);
      cbn [rw_header]; rewrite !lookup_insert_ne by discriminate; apply lookup_insert_eq. }
  assert (Hcl : rw_header w3 !! "Content-Length"
                = if expectedSize >=? 0 then Some (FormatInt expectedSize)
                  else rw_header w !! "Content-Length").
  { subst w3 w2 w1. unfold SetHeader. destruct (expectedSize >=? 0); cbn [rw_header].
    - rewrite lookup_insert_ne by discriminate. apply lookup_insert_eq.
    - rewrite !lookup_insert_ne by discriminate. reflexivity. }
  assert (Hbody3 : rw_body w3 = rw_body w /\ rw_conn w3 = rw_conn w).
  { subst w3 w2 w1. unfold SetHeader. destruct (expectedSize >=? 0); split; reflexivity. }
  destruct (String.eqb (Method r) MethodHead) eqn:Ehead.
  - cbn [fst snd cache finishLock leaveFetch with_cache].
    repeat split; try assumption. intros Hd. discriminate.
  - unfold finishDownload. cbn [dl_sf dl_body dl_isNew dl_expectedSize dl_contentType].
    set (p0 := with_cache _ (cache p)).
    destruct (streamBody_not_new key sf body (cache p0) w3 0) as (H1 & H2 & H3 & H4).
    destruct (streamBody key sf body (cache p0) w3 false 0) as [[[[c' w'] isNew'] tw'] err'].
    cbn [fst snd] in H1, H2, H3, H4. subst c' isNew'.
    assert (Hres : forall q werr, cache (leaveFetch (finishLock (with_cache p0 (cache p0)) lock werr)
                                            key q) = cache p).
    { intros q werr. reflexivity. }
    destruct err' as [err|];
      [|destruct ((expectedSize >=? 0) && negb (tw' =? expectedSize))];
      cbn [fst snd]; rewrite ?Hres; rewrite H3;
      (split; [reflexivity|]); (split; [exact Hx|]); (split; [exact Hct|]);
      (split; [exact Har|]); (split; [exact Hcl|]);
      intros _ Hc; destruct Hbody3 as [Hb Hcn];
      rewrite H4 by congruence; rewrite Hb; reflexivity.
Qed.

End NotNew.

(** The fetcher of C2 on the example: the first request has created the
    pending download; the second, whose upstream answer arrives now, gets
    [isNew = false] and still answers with [X-Cache: MISS], a content type
    and the body of its own upstream response. *)
Lemma not_new_is_not_streaming :
  let p := example_pending_proxy in
  let r := mkRequest "GET" "/b.bin" "" in
  let e := mkEnv 2 (UpResponse 200 2 "text/plain" [mkRead [x0a; x0b]%byte ReadEOF 2]) IoOk
             [mkRead [x01; x02]%byte ReadMore 0; mkRead [x03; x04]%byte ReadEOF 0] in
  let w' := (doFetchAndServe hex_name p (newResponseWriter None) r "/b.bin" 0 e).1.2 in
  (GetOrCreatePending hex_name (cache p) "/b.bin" IoOk).2 = Some (0%nat, false) /\
  rw_header w' !! "X-Cache" = Some "MISS" /\
  rw_header w' !! "X-Cache" <> Some "STREAMING" /\
  rw_header w' !! "Content-Type" = Some "text/plain" /\
  rw_body w' = [x0a; x0b]%byte /\
  rw_body (serveFromStreaming (newResponseWriter None) r 0 (env_reads e)).1
    = [x01; x02; x03; x04]%byte /\
  w' <> (serveFromStreaming (newResponseWriter None) r 0 (env_reads e)).1.
Proof.
  intros p r e w'.
  assert (Hb : rw_body w' = [x0a; x0b]%byte) by (vm_compute; reflexivity).
  assert (Hs : rw_body (serveFromStreaming (newResponseWriter None) r 0 (env_reads e)).1
               = [x01; x02; x03; x04]%byte) by (vm_compute; reflexivity).
  split; [vm_compute; reflexivity|]. split; [vm_compute; reflexivity|].
  split; [vm_compute; discriminate|]. split; [vm_compute; reflexivity|].
  split; [exact Hb|]. split; [exact Hs|].
  intros Heq. rewrite Heq, Hs in Hb. discriminate Hb.
Qed.

Lemma not_new_passes_upstream_through_witness :
  let p := example_pending_proxy in
  let r := mkRequest "GET" "/b.bin" "" in
  let body := [mkRead [x0a; x0b]%byte ReadEOF 2] in
  let e := mkEnv 2 (UpResponse 200 2 "text/plain" body) IoOk [] in
  let w := newResponseWriter None in
  env_upstream e = UpResponse 200 2 "text/plain" body /\
  pending (cache p) !! "/b.bin" = Some 0%nat /\
  cache (doFetchAndServe hex_name p w r "/b.bin" 0 e).1.1 = cache p /\
  rw_header (doFetchAndServe hex_name p w r "/b.bin" 0 e).1.2 !! "X-Cache" = Some "MISS" /\
  rw_header (doFetchAndServe hex_name p w r "/b.bin" 0 e).1.2 !! "Content-Length" = Some "2" /\
  rw_body (doFetchAndServe hex_name p w r "/b.bin" 0 e).1.2 = [x0a; x0b]%byte.
Proof.
  intros p r body e w.
  assert (H1 : env_upstream e = UpResponse 200 2 "text/plain" body) by reflexivity.
  assert (H2 : pending (cache p) !! "/b.bin" = Some 0%nat) by (vm_compute; reflexivity).
  destruct (not_new_passes_upstream_through hex_name p w r "/b.bin" 0%nat e 2
              "text/plain" body 0%nat H1 H2) as (_ & Hc & Hx & _ & _ & Hcl & Hb).
  split; [exact H1|]. split; [exact H2|]. split; [exact Hc|]. split; [exact Hx|].
  split; [exact Hcl|]. exact (Hb eq_refl eq_refl).
Defined.

(** ** A failing write to the cache file *)

(** C3, on the code.  A GET for [/k] on the fresh proxy; the origin
    answers 200 with four bytes in two reads; the write of the first
    chunk to the cache file fails.  The client is served the four bytes.
    But [FailPending] is not called: [/k] stays in the pending map, its
    streaming file is neither done nor failed, nothing is completed, and
    the next request for [/k] is sent to read from that file. *)
Theorem cache_write_failure_leaves_pending :
  let r := mkRequest "GET" "/k" "" in
  let e := mkEnv 1 (example_origin 0 2) IoOk [] in
  let res := handleRequest hex_name example_proxy (newResponseWriter None) r "/k" e in
  let p' := res.1.1 in
  rw_status res.1.2 = Some 200 /\
  rw_body res.1.2 = [x01; x02; x03; x04]%byte /\
  res.2 = None /\
  pending (cache p') !! "/k" = Some 0%nat /\
  store (cache p') !! 0%nat = Some (mkSF (filePath hex_name (cache p') "/k") true 0 false None) /\
  pending (FailPending (cache p') "/k") !! "/k" = None /\
  LRU.Contains (fileCache (cache p')) "/k" = false /\
  (enterFetch p' "/k").2 = RouteStreaming 0.
Proof. vm_compute. repeat split; reflexivity. Qed.

(** The same request when the writes succeed: the download is completed
    and the key leaves the pending map. *)
Example cache_write_success_completes :
  let r := mkRequest "GET" "/k" "" in
  let e := mkEnv 1 (example_origin 2 2) IoOk [] in
  let p' := (handleRequest hex_name example_proxy (newResponseWriter None) r "/k" e).1.1 in
  pending (cache p') !! "/k" = None /\
  LRU.Contains (fileCache (cache p')) "/k" = true /\
  disk (cache p') !! filePath hex_name (cache p') "/k" = Some [x01; x02; x03; x04]%byte.
Proof. vm_compute. repeat split; reflexivity. Qed.

(** ** Concurrent misses *)

(** A request that runs with no other request in between does what
    [handleRequest] does: the points at which requests give way to each
    other cut the sequential code, they do not change it. *)
Lemma sched_step_single (H : string -> string) (p : Proxy) (t : thread) :
  sched_step H (mkWorld p [t]) 0 =
    mkWorld (thread_step H p t).1 [(thread_step H p t).2].
Proof. unfold sched_step. cbn. destruct (thread_step H p t). reflexivity. Qed.

Lemma sched_run_returned (H : string -> string) (p : Proxy) (t : thread)
    (w : ResponseWriter) (err : option string) (n : nat) :
  sched_run H (mkWorld p [returned t w err]) (repeat 0%nat n) = mkWorld p [returned t w err].
Proof.
  induction n as [|n IH]; [reflexivity|].
  cbn [repeat]. unfold sched_run in *. cbn [fold_left]. rewrite sched_step_single.
  cbn. exact IH.
Qed.

Lemma lone_request (H : string -> string) (p : Proxy) (r : Request) (e : env)
    (w : ResponseWriter) :
  let res := handleRequest H p w r (Path r) e in
  sched_run H (mkWorld p [mkThread r e w PcStart]) (repeat 0%nat 5)
    = mkWorld res.1.1 [mkThread r e res.1.2 (PcReturned res.2)].
Proof.
  intros res. subst res. unfold handleRequest.
  set (t := mkThread r e w PcStart).
  change (repeat 0%nat 5) with (0%nat :: repeat 0%nat 4).
  unfold sched_run. cbn [fold_left]. fold (sched_run H). rewrite sched_step_single.
  unfold thread_step at 1 2. cbn [th_pc th_w th_req th_env t].
  destruct (lookupCaches p w r (Path r) e) as [p1 [[w1 err1]|]] eqn:E1; cbn [fst snd].
  { apply (sched_run_returned H p1 t w1 err1 4). }
  change (repeat 0%nat 4) with (0%nat :: repeat 0%nat 3).
  unfold sched_run. cbn [fold_left]. fold (sched_run H). rewrite sched_step_single.
  unfold thread_step at 1 2. cbn [th_pc th_w th_req th_env t goto]. unfold fetchAndServe.
  destruct (enterFetch p1 (Path r)) as [p2 [[]|sf|lock]] eqn:E2; cbn [fst snd].
  { apply (sched_run_returned H p2 t _ None 3). }
  { destruct (serveFromCacheOrError p2 w r (Path r) e) as [[p3 w3] err3]. cbn [fst snd].
    apply (sched_run_returned H p3 t w3 err3 3). }
  { destruct (serveFromStreaming w r sf (env_reads e)) as [w3 f3]. cbn [fst snd].
    apply (sched_run_returned H p2 t w3 _ 3). }
  change (repeat 0%nat 3) with (0%nat :: repeat 0%nat 2).
  unfold sched_run. cbn [fold_left]. fold (sched_run H). rewrite sched_step_single.
  unfold thread_step at 1 2. cbn [th_pc th_w th_req th_env t goto]. unfold doFetchAndServe.
  destruct (sends (env_upstream e)) eqn:E3; cbn [fst snd].
  2:{ destruct (receiveUpstream H p2 w r (Path r) lock e) as [[p3 w3] err3]. cbn [fst snd].
      apply (sched_run_returned H _ t w3 err3 2). }
  change (repeat 0%nat 2) with (0%nat :: repeat 0%nat 1).
  unfold sched_run. cbn [fold_left]. fold (sched_run H). rewrite sched_step_single.
  unfold thread_step at 1 2. cbn [th_pc th_w th_req th_env t goto]. unfold receiveUpstream.
  destruct (beginDownload H (sendUpstream p2 (Path r)) w r (Path r) lock e)
    as [[p3 w3] [err3|d]] eqn:E4; cbn [fst snd].
  { apply (sched_run_returned H _ t w3 err3 1). }
  change (repeat 0%nat 1) with [0%nat].
  unfold sched_run. cbn [fold_left]. rewrite sched_step_single.
  unfold thread_step at 1 2. cbn [th_pc th_w th_req th_env t goto].
  destruct (finishDownload H p3 w3 (Path r) lock e d) as [[p4 w4] err4]. reflexivity.
Qed.

(** Against C1.  Two GET requests for [/b.bin] reach the fresh proxy; the
    second arrives while the first waits for the answer of the origin.
    Both pass the check for a pending download, both send a GET to the
    origin: two upstream requests for the key are in flight at once.  Run
    to the end, both answer with [X-Cache: MISS] from their own upstream
    body and none reads the streaming file of the other. *)
Lemma two_upstream_gets_in_flight :
  let s := sched_run hex_name example_miss_storm [0; 0; 0; 1; 1; 1]%nat in
  let s' := sched_run hex_name s [0; 1; 0; 1]%nat in
  map th_pc (w_threads s) = [PcAwait 0; PcAwait 0] /\
  inflight_for (w_proxy s) "/b.bin" = 2%nat /\
  issued (w_proxy s) = ["/b.bin"; "/b.bin"] /\
  map th_pc (w_threads s') = [PcReturned None; PcReturned None] /\
  issued (w_proxy s') = ["/b.bin"; "/b.bin"] /\
  map (fun t => rw_header (th_w t) !! "X-Cache") (w_threads s') = [Some "MISS"; Some "MISS"].
Proof. vm_compute. repeat split; reflexivity. Qed.

(** The coalescing the code does achieve: a request that arrives once the
    pending download exists is served from it. *)
Example late_request_streams :
  let s := sched_run hex_name example_miss_storm [0; 0; 0; 0; 1; 1]%nat in
  issued (w_proxy s) = ["/b.bin"] /\
  map (fun t => rw_header (th_w t) !! "X-Cache") (w_threads s)
    = [Some "MISS"; Some "STREAMING"].
Proof. vm_compute. repeat split; reflexivity. Qed.

(** ** What a step of a request does to the pending map *)

Lemma streamBody_pending (key : string) (sf : nat) (body : list read) :
  forall (c : Cache) (w : ResponseWriter) (isNew : bool) (tw : Z),
  pending (streamBody key sf body c w isNew tw).1.1.1.1 = pending c.
Proof.
  induction body as [|rd rest IH]; intros c w isNew tw; [reflexivity|].
  cbn [streamBody]. destruct (0 <? length (rd_data rd))%nat.
  - assert (Hw : pending (store_Write c sf (rd_data rd) (rd_accepted rd)).1 = pending c).
    { unfold store_Write. destruct (store c !! sf) as [o|]; [|reflexivity].
      destruct (SF.Write o (disk c) (rd_data rd) (rd_accepted rd)) as [[[o' d] n] err].
      reflexivity. }
    destruct isNew.
    + destruct (store_Write c sf (rd_data rd) (rd_accepted rd)) as [c' [err|]];
        cbn [fst] in Hw;
        destruct (Write w (rd_data rd)) as [[w' n] failed]; destruct failed;
        try exact Hw; destruct (rd_end rd); try exact Hw; rewrite IH; exact Hw.
    + destruct (Write w (rd_data rd)) as [[w' n] failed]; destruct failed;
        [reflexivity|]. destruct (rd_end rd); try reflexivity. apply IH.
  - destruct (rd_end rd); try reflexivity. apply IH.
Qed.

Lemma pending_IsNotFound (c : Cache) (key : string) (now : Z) :
  pending (IsNotFound c key now).1 = pending c.
Proof.
  unfold IsNotFound. destruct (LRU.Get (notFoundCache c) key now) as [nf [u|]]; reflexivity.
Qed.

Lemma pending_Remove (c : Cache) (key : string) : pending (Remove c key) = pending c.
Proof.
  unfold Remove. destruct (LRU.Remove (fileCache c) key) as [fc [e|]]; [|reflexivity].
  cbn [with_notFoundCache pending].
  destruct (onEvict_same (with_fileCache c fc) e) as [_ H]. exact H.
Qed.

Lemma pending_FailPending (c : Cache) (key : string) :
  pending (FailPending c key) = delete key (pending c).
Proof.
  unfold FailPending. destruct (pending c !! key) as [sf|] eqn:E.
  - destruct (store_Abort_same (with_pending c (delete key (pending c))) sf) as [_ H].
    rewrite H. reflexivity.
  - symmetry. apply delete_id, E.
Qed.

Section Originators.

Variable sha256_hex : string -> string.

Lemma pending_CompletePending (c : Cache) (key : string) (size : Z) (ct : string) (now : Z) :
  pending (CompletePending sha256_hex c key size ct now) = delete key (pending c).
Proof.
  unfold CompletePending. destruct (pending c !! key) as [sf|] eqn:E.
  - set (c1 := store_Complete (with_pending c (delete key (pending c))) sf).
    destruct (evictIfNeeded_loop_keys (S (LRU.Len (fileCache c1))) c1 size key) as [_ H2].
    fold (evictIfNeeded c1 size) in H2.
    destruct (fileCache_Add_keys (evictIfNeeded c1 size) key
                (mkCacheEntry key (filePath sha256_hex (evictIfNeeded c1 size) key) size ct now)
                now key) as [_ H4].
    cbn [with_totalSize pending]. rewrite H4, H2. reflexivity.
  - symmetry. apply delete_id, E.
Qed.

Lemma pending_lookupCaches (p : Proxy) (w : ResponseWriter) (r : Request)
    (key : string) (e : env) :
  pending (cache (lookupCaches p w r key e).1) = pending (cache p).
Proof.
  unfold lookupCaches.
  pose proof (pending_IsNotFound (cache p) key (env_now e)) as H1.
  destruct (IsNotFound (cache p) key (env_now e)) as [c [|]]; cbn [fst] in H1; [exact H1|].
  destruct (Get_keys c key (env_now e) key) as [_ H2].
  destruct (Get c key (env_now e)) as [c' [entry|]]; cbn [fst] in H2.
  - destruct (validateCacheFile c' entry).
    + destruct (serveFromCache c' w r entry). cbn [fst snd with_cache cache]. congruence.
    + cbn [fst snd with_cache cache]. rewrite pending_Remove. congruence.
  - cbn [fst snd with_cache cache]. congruence.
Qed.

Lemma pending_serveFromCacheOrError (p : Proxy) (w : ResponseWriter) (r : Request)
    (key : string) (e : env) :
  pending (cache (serveFromCacheOrError p w r key e).1.1) = pending (cache p).
Proof.
  unfold serveFromCacheOrError.
  pose proof (pending_IsNotFound (cache p) key (env_now e)) as H1.
  destruct (IsNotFound (cache p) key (env_now e)) as [c [|]]; cbn [fst] in H1; [exact H1|].
  destruct (Get_keys c key (env_now e) key) as [_ H2].
  destruct (Get c key (env_now e)) as [c' [entry|]]; cbn [fst] in H2.
  - destruct (validateCacheFile c' entry).
    + destruct (serveFromCache c' w r entry). cbn [fst snd with_cache cache]. congruence.
    + cbn [fst snd with_cache cache]. rewrite pending_Remove. congruence.
  - cbn [fst snd with_cache cache]. rewrite pending_Remove. congruence.
Qed.

Lemma pending_enterFetch (p : Proxy) (key : string) :
  cache (enterFetch p key).1 = cache p.
Proof.
  unfold enterFetch. destruct (fetchLocks p !! key) as [l|].
  - destruct (locks p !! l) as [[[|] err]|]; try reflexivity;
      destruct (GetPending (cache p) key); reflexivity.
  - cbn [cache locks].
    destruct ((locks p ++ [mkFetchLock false None]) !! length (locks p)) as [[[|] err]|];
      try reflexivity; destruct (GetPending (cache p) key); reflexivity.
Qed.

(** What [beginDownload] does to the pending map: other keys are left
    alone; a key already pending stays as it is; and a download that goes
    on as originator has just been inserted for a key that was not
    pending. *)
Lemma pending_beginDownload (p : Proxy) (w : ResponseWriter) (r : Request)
    (key : string) (lock : nat) (e : env) :
  let res := beginDownload sha256_hex p w r key lock e in
  (forall k, k <> key -> pending (cache res.1.1) !! k = pending (cache p) !! k) /\
  (forall x, pending (cache p) !! key = Some x ->
             pending (cache res.1.1) !! key = Some x /\
             forall d, res.2 = Streaming d -> dl_isNew d = false) /\
  (forall d, res.2 = Streaming d -> dl_isNew d = true ->
             pending (cache p) !! key = None /\
             pending (cache res.1.1) !! key = Some (dl_sf d)).
Proof.
  unfold beginDownload. destruct (env_upstream e) as [| |status cl ct body].
  - cbn. split; [auto|]. split; [intros x Hx; split; [exact Hx|discriminate]|discriminate].
  - cbn. split; [auto|]. split; [intros x Hx; split; [exact Hx|discriminate]|discriminate].
  - destruct (status =? StatusNotFound).
    { cbn. split; [auto|]. split; [intros x Hx; split; [exact Hx|discriminate]|discriminate]. }
    destruct (negb (status =? StatusOK)).
    { cbn. split; [auto|]. split; [intros x Hx; split; [exact Hx|discriminate]|discriminate]. }
    unfold GetOrCreatePending. destruct (pending (cache p) !! key) as [sf|] eqn:Ep.
    + destruct (String.eqb (Method r) MethodHead); cbn.
      * split; [auto|]. split; [intros x Hx; split; [congruence|discriminate]|discriminate].
      * split; [auto|]. split; [|intros d Hd Hn; injection Hd as <-; discriminate].
        intros x Hx. split; [congruence|]. intros d Hd. injection Hd as <-. reflexivity.
    + destruct (env_io e); cbn [fst snd];
        try (cbn; split; [auto|]; split; [discriminate|discriminate]).
      unfold SF.New. cbn [fst snd with_cache cache with_pending with_store with_disk pending].
      destruct (String.eqb (Method r) MethodHead);
        cbn [fst snd with_cache cache finishLock].
      * rewrite pending_FailPending. cbn [with_pending pending].
        split; [|split; [discriminate|discriminate]].
        intros k Hk. rewrite lookup_delete_ne by congruence.
        rewrite lookup_insert_ne by congruence. reflexivity.
      * cbn [with_pending pending]. split; [|split; [discriminate|]].
        -- intros k Hk. rewrite lookup_insert_ne by congruence. reflexivity.
        -- intros d Hd _. injection Hd as <-. cbn [dl_sf].
           split; [reflexivity|apply lookup_insert_eq].
Qed.

Lemma pending_finishDownload (p : Proxy) (w : ResponseWriter) (key : string)
    (lock : nat) (e : env) (d : download) :
  let res := finishDownload sha256_hex p w key lock e d in
  (forall k, k <> key -> pending (cache res.1.1) !! k = pending (cache p) !! k) /\
  (dl_isNew d = false -> pending (cache res.1.1) = pending (cache p)).
Proof.
  unfold finishDownload.
  pose proof (streamBody_pending key (dl_sf d) (dl_body d) (cache p) w (dl_isNew d) 0) as Hs.
  pose proof (streamBody_not_new key (dl_sf d) (dl_body d) (cache p) w 0) as Hn.
  destruct (streamBody key (dl_sf d) (dl_body d) (cache p) w (dl_isNew d) 0)
    as [[[[c' w'] isNew'] tw'] err'] eqn:Es.
  cbn [fst snd] in Hs.
  assert (Hfalse : dl_isNew d = false -> isNew' = false).
  { intros Hd. rewrite Hd in Es. rewrite Es in Hn. cbn in Hn. tauto. }
  assert (Hdel : forall k, k <> key -> delete key (pending c') !! k = pending (cache p) !! k).
  { intros k Hk. rewrite lookup_delete_ne by congruence. rewrite Hs. reflexivity. }
  destruct err' as [err|];
    [|destruct ((dl_expectedSize d >=? 0) && negb (tw' =? dl_expectedSize d))];
    destruct isNew'; cbn [fst snd cache finishLock with_cache];
    rewrite ?pending_FailPending, ?pending_CompletePending;
    (split; [first [exact Hdel | intros k _; rewrite Hs; reflexivity]
            |intros Hd; first [exact Hs | specialize (Hfalse Hd); discriminate]]).
Qed.

Lemma thread_step_facts (p : Proxy) (t : thread) :
  let res := thread_step sha256_hex p t in
  let key := Path (th_req t) in
  th_req res.2 = th_req t /\
  (forall k, k <> key -> pending (cache res.1) !! k = pending (cache p) !! k) /\
  (originator t = false -> forall x,
     pending (cache p) !! key = Some x -> pending (cache res.1) !! key = Some x) /\
  (originator res.2 = true ->
     originator t = false /\ pending (cache p) !! key = None /\
     pending (cache res.1) !! key = writer_sf res.2).
Proof.
  destruct t as [r e w [| |lock|lock|lock d|err]]; unfold thread_step;
    cbn [th_pc th_req th_env th_w originator].
  - pose proof (pending_lookupCaches p w r (Path r) e) as H.
    destruct (lookupCaches p w r (Path r) e) as [p1 [[w1 err1]|]]; cbn [fst snd] in *;
      (split; [reflexivity|]; split; [intros; rewrite H; reflexivity|];
       split; [intros _ x Hx; rewrite H; exact Hx|discriminate]).
  - pose proof (pending_enterFetch p (Path r)) as H.
    destruct (enterFetch p (Path r)) as [p1 [[|]|sf|lock]]; cbn [fst snd] in H.
    + cbn. rewrite H. repeat split; auto; discriminate.
    + pose proof (pending_serveFromCacheOrError p1 w r (Path r) e) as H'.
      destruct (serveFromCacheOrError p1 w r (Path r) e) as [[p2 w2] err2].
      cbn [fst snd] in *. rewrite H in H'.
      split; [reflexivity|]. split; [intros; rewrite H'; reflexivity|].
      split; [intros _ x Hx; rewrite H'; exact Hx|discriminate].
    + destruct (serveFromStreaming w r sf (env_reads e)) as [w2 f2].
      cbn. rewrite H. repeat split; auto; discriminate.
    + cbn. rewrite H. repeat split; auto; discriminate.
  - destruct (sends (env_upstream e)) eqn:Es.
    + cbn. repeat split; auto; discriminate.
    + unfold receiveUpstream, beginDownload.
      destruct (env_upstream e); try discriminate.
      cbn. repeat split; auto; discriminate.
  - destruct (pending_beginDownload p w r (Path r) lock e) as (H1 & H2 & H3).
    destruct (beginDownload sha256_hex p w r (Path r) lock e) as [[p1 w1] [err1|d]];
      cbn [fst snd] in *.
    + split; [reflexivity|]. split; [exact H1|].
      split; [intros _ x Hx; apply (H2 x Hx)|discriminate].
    + split; [reflexivity|]. split; [exact H1|].
      split; [intros _ x Hx; apply (H2 x Hx)|].
      cbn [originator writer_sf th_pc]. intros Hd.
      destruct (H3 d eq_refl Hd) as [Ha Hb]. auto.
  - destruct (pending_finishDownload p w (Path r) lock e d) as (H1 & H2).
    destruct (finishDownload sha256_hex p w (Path r) lock e d) as [[p1 w1] err1].
    cbn [fst snd leaveFetch cache returned th_req originator th_pc] in *.
    split; [reflexivity|]. split; [exact H1|].
    split; [intros Hd x Hx; rewrite (H2 Hd); exact Hx|discriminate].
  - cbn. repeat split; auto; discriminate.
Qed.

Lemma sched_step_one_originator (s : world) (i : nat) :
  one_originator s -> one_originator (sched_step sha256_hex s i).
Proof.
  intros [I2 I1]. unfold sched_step.
  destruct (w_threads s !! i) as [t|] eqn:Et; [|split; assumption].
  destruct (thread_step_facts (w_proxy s) t) as (Hreq & F1 & F2 & F3).
  destruct (thread_step sha256_hex (w_proxy s) t) as [p' t']. cbn [fst snd] in *.
  assert (Hother : forall j tj, j <> i -> w_threads s !! j = Some tj ->
            originator tj = true ->
            pending (cache p') !! Path (th_req tj) = writer_sf tj).
  { intros j tj Hne Hj Ho. pose proof (I1 j tj Hj Ho) as Hp.
    destruct (decide (Path (th_req tj) = Path (th_req t))) as [Heq|Hk].
    - destruct (originator t) eqn:Eo.
      + exfalso. apply Hne. apply (I2 j i tj t); assumption.
      + rewrite Heq in Hp |- *. destruct (writer_sf tj) as [x|] eqn:Ew.
        * apply (F2 eq_refl x Hp).
        * destruct tj as [rj ej wj [| | | |lj dj|]]; discriminate.
    - rewrite (F1 _ Hk). exact Hp. }
  assert (Hclash : forall j tj, j <> i -> w_threads s !! j = Some tj ->
            originator tj = true -> originator t' = true ->
            Path (th_req tj) = Path (th_req t') -> False).
  { intros j tj Hne Hj Ho Ho' Hk. destruct (F3 Ho') as (_ & Hnone & _).
    pose proof (I1 j tj Hj Ho) as Hp. rewrite Hk, Hreq, Hnone in Hp.
    destruct tj as [rj ej wj [| | | |lj dj|]]; discriminate. }
  split; cbn [w_threads w_proxy].
  - intros a b ta tb Ha Hb Hoa Hob Hk.
    apply list_lookup_insert_Some in Ha as [(<- & <- & _)|(Hna & Ha)];
      apply list_lookup_insert_Some in Hb as [(<- & <- & _)|(Hnb & Hb)].
    + reflexivity.
    + exfalso. apply (Hclash b tb); auto.
    + exfalso. apply (Hclash a ta); auto.
    + apply (I2 a b ta tb); assumption.
  - intros a ta Ha Hoa.
    apply list_lookup_insert_Some in Ha as [(<- & <- & _)|(Hna & Ha)].
    + destruct (F3 Hoa) as (_ & _ & Hp). rewrite Hreq. exact Hp.
    + apply (Hother a ta); auto.
Qed.

Lemma sched_run_one_originator (schedule : list nat) (s : world) :
  one_originator s -> one_originator (sched_run sha256_hex s schedule).
Proof.
  revert s. induction schedule as [|i rest IH]; intros s H; [exact H|].
  apply IH, sched_step_one_originator, H.
Qed.

(** C1, as the code has it.  Requests start at [handleRequest] and run in
    any interleaving.  At every moment a key has at most one originator,
    the request that copies an upstream body into the pending streaming
    file, and that file is the one the pending map holds for the key.  A
    request that enters [fetchAndServe] and finds the download pending is
    served as a reader of that streaming file and sends nothing to the
    origin.  (Requests that pass this check before the download is
    pending each send their own GET.) *)
Theorem one_originator_per_key (s : world) (schedule : list nat)
    (Hstart : Forall (fun t => th_pc t = PcStart) (w_threads s)) :
  let s' := sched_run sha256_hex s schedule in
  one_originator s' /\
  (forall i t sf,
      w_threads s' !! i = Some t -> th_pc t = PcEnter ->
      (enterFetch (w_proxy s') (Path (th_req t))).2 = RouteStreaming sf ->
      let s'' := sched_step sha256_hex s' i in
      issued (w_proxy s'') = issued (w_proxy s') /\
      inflight (w_proxy s'') = inflight (w_proxy s') /\
      w_threads s'' !! i
        = Some (mkThread (th_req t) (th_env t)
                  (serveFromStreaming (th_w t) (th_req t) sf (env_reads (th_env t))).1
                  (PcReturned
                     (if (serveFromStreaming (th_w t) (th_req t) sf (env_reads (th_env t))).2
                      then Some "serve from streaming" else None)))).
Proof.
  intros s'. split.
  - apply sched_run_one_originator. rewrite List.Forall_forall in Hstart. split.
    + intros i j ti tj Hi _ Ho. apply list_elem_of_lookup_2, list_elem_of_In in Hi.
      specialize (Hstart ti Hi). unfold originator in Ho. rewrite Hstart in Ho. discriminate.
    + intros i ti Hi Ho. apply list_elem_of_lookup_2, list_elem_of_In in Hi.
      specialize (Hstart ti Hi). unfold originator in Ho. rewrite Hstart in Ho. discriminate.
  - intros i t sf Hi Hpc Hroute s''. subst s''. unfold sched_step. rewrite Hi.
    unfold thread_step. rewrite Hpc.
    assert (Hsame : issued (enterFetch (w_proxy s') (Path (th_req t))).1 = issued (w_proxy s') /\
                    inflight (enterFetch (w_proxy s') (Path (th_req t))).1 = inflight (w_proxy s')).
    { unfold enterFetch. destruct (fetchLocks (w_proxy s') !! Path (th_req t)) as [l|].
      - destruct (locks (w_proxy s') !! l) as [[[|] err]|]; try (split; reflexivity);
          destruct (GetPending (cache (w_proxy s')) (Path (th_req t))); split; reflexivity.
      - cbn [cache locks].
        destruct ((locks (w_proxy s') ++ [mkFetchLock false None]) !! length (locks (w_proxy s')))
          as [[[|] err]|]; try (split; reflexivity);
          destruct (GetPending (cache (w_proxy s')) (Path (th_req t))); split; reflexivity. }
    destruct (enterFetch (w_proxy s') (Path (th_req t))) as [p1 route].
    cbn [fst snd] in Hroute, Hsame. subst route.
    destruct (serveFromStreaming (th_w t) (th_req t) sf (env_reads (th_env t))) as [w2 f2].
    cbn [w_proxy w_threads fst snd returned].
    split; [tauto|]. split; [tauto|].
    apply list_lookup_insert_eq. apply lookup_lt_Some in Hi. exact Hi.
Qed.

End Originators.

Lemma one_originator_per_key_witness :
  Forall (fun t => th_pc t = PcStart) (w_threads example_miss_storm) /\
  let s' := sched_run hex_name example_miss_storm [0; 0; 0; 0; 1]%nat in
  one_originator s' /\
  (forall i t sf,
      w_threads s' !! i = Some t -> th_pc t = PcEnter ->
      (enterFetch (w_proxy s') (Path (th_req t))).2 = RouteStreaming sf ->
      let s'' := sched_step hex_name s' i in
      issued (w_proxy s'') = issued (w_proxy s') /\
      inflight (w_proxy s'') = inflight (w_proxy s') /\
      w_threads s'' !! i
        = Some (mkThread (th_req t) (th_env t)
                  (serveFromStreaming (th_w t) (th_req t) sf (env_reads (th_env t))).1
                  (PcReturned
                     (if (serveFromStreaming (th_w t) (th_req t) sf (env_reads (th_env t))).2
                      then Some "serve from streaming" else None)))).
Proof.
  assert (H : Forall (fun t => th_pc t = PcStart) (w_threads example_miss_storm))
    by (repeat constructor).
  split; [exact H|].
  exact (one_originator_per_key hex_name example_miss_storm [0; 0; 0; 0; 1]%nat H).
Defined.

(** In that run the first request is the originator and the second is
    about to enter [fetchAndServe], where it finds the download pending. *)
Example originator_and_reader :
  let s' := sched_run hex_name example_miss_storm [0; 0; 0; 0; 1]%nat in
  map originator (w_threads s') = [true; false] /\
  map th_pc (w_threads s') !! 1%nat = Some PcEnter /\
  (enterFetch (w_proxy s') "/b.bin").2 = RouteStreaming 0.
Proof. vm_compute. repeat split; reflexivity. Qed.

(** The boundary cases of section 8 of the spec, and some rejected headers. *)
Example parseRange_examples :
  parseRange "bytes=0-1023" 1048576 = Some (0, 1023) /\
  parseRange "bytes=-500" 100 = Some (0, 99) /\
  parseRange "bytes=100-" 100 = None /\
  parseRange "bytes=0-99" 100 = Some (0, 99) /\
  parseRange "bytes=90-200" 100 = Some (90, 99) /\
  parseRange "bytes=5-2" 100 = None /\
  parseRange "bytes=-0" 100 = None /\
  parseRange "bytes=0-1,3-4" 100 = None /\
  parseRange "bytes=0-9223372036854775808" 100 = None /\
  parseRange "items=0-1" 100 = None /\
  parseRange "bytes=0-0" 0 = None.
Proof. repeat split; reflexivity. Qed.

(** ** The reader of a streaming file *)

Lemma written_snoc (ops : list SF.op) (o : SF.op) :
  written (ops ++ [o]) = if existsb closes ops then written ops else written ops ++ op_data o.
Proof.
  induction ops as [|x ops IH].
  - destruct o; simpl; rewrite ?app_nil_r; reflexivity.
  - destruct x; simpl; try reflexivity.
    rewrite IH. destruct (existsb closes ops); [reflexivity|]. apply app_assoc.
Qed.

Lemma written_length (ops : list SF.op) :
  Z.of_nat (length (written ops)) <= SF.ops_bytes ops.
Proof.
  induction ops as [|x ops IH]; [simpl; lia|].
  pose proof (SF_ops_bytes_nonneg ops) as Hn.
  destruct x as [p a| |]; simpl.
  - rewrite length_app, length_take. unfold SF.ops_bytes in *. simpl. lia.
  - unfold SF.ops_bytes in *. simpl. lia.
  - unfold SF.ops_bytes in *. simpl. lia.
Qed.

Lemma sf_tracks_step (path : string) (ops : list SF.op) (o : SF.op)
    (st : StreamingFile * Disk) :
  SF.ops_bytes (ops ++ [o]) <= Int64.max_int ->
  sf_tracks path ops st -> sf_tracks path (ops ++ [o]) (SF.step st o).
Proof.
  intros Hfit (Hp & Hs & Hd & Hc & He & Hv). destruct st as [sf d]. unfold sf_tracks.
  cbn [fst snd] in *.
  rewrite written_snoc, existsb_app. cbn [existsb]. rewrite orb_false_r.
  pose proof (written_length (ops ++ [o])) as Hlen. rewrite written_snoc in Hlen.
  destruct o as [p a| |]; cbn [SF.step fst snd closes op_data] in *.
  - unfold SF.Write. rewrite Hd. destruct (existsb closes ops) eqn:Ecl; cbn [fst snd].
    + rewrite orb_false_r. repeat split; try assumption. 
    + cbn [sf_filePath sf_size sf_done sf_err]. rewrite orb_false_r.
      rewrite length_app in *.
      split; [exact Hp|]. split.
      { rewrite Hs. rewrite Int64_add_small.
        - rewrite length_take. lia.
        - rewrite length_take in Hlen.
          unfold Int64.in_range, Int64.min_int, Int64.max_int in *. lia. }
      split; [reflexivity|]. split.
      { intros Hn. unfold disk_append. rewrite Hp, (Hc Hn). apply lookup_insert_eq. }
      split; [|exact Hv].
      intros Hn. rewrite (He Hn) in Hd. discriminate.
  - rewrite orb_true_r. cbn [sf_filePath sf_size sf_done sf_err].
    destruct (existsb closes ops); rewrite ?app_nil_r; repeat split; auto.
  - rewrite orb_true_r. cbn [sf_filePath sf_size sf_done sf_err].
    destruct (existsb closes ops); rewrite ?app_nil_r; repeat split; auto; try discriminate;
      intros e [= <-]; reflexivity.
Qed.

Lemma SF_run_snoc (st : StreamingFile * Disk) (ops : list SF.op) (o : SF.op) :
  SF.run st (ops ++ [o]) = SF.step (SF.run st ops) o.
Proof. unfold SF.run. apply fold_left_app. Qed.

Lemma SF_run_tracks (d : Disk) (path : string) (ops : list SF.op) :
  SF.ops_bytes ops <= Int64.max_int ->
  sf_tracks path ops (SF.run (SF.New d path) ops).
Proof.
  induction ops as [|o ops IH] using rev_ind; intros Hfit.
  - unfold sf_tracks, SF.New. cbn. repeat split; auto; try congruence; try (intros e [=]).
    intros _. apply lookup_insert_eq.
  - rewrite SF_run_snoc. apply sf_tracks_step; [exact Hfit|]. apply IH.
    rewrite SF_ops_bytes_app in Hfit.
    assert (0 <= SF.op_bytes o) by (destruct o; simpl; lia).
    unfold SF.ops_bytes in Hfit at 2. simpl in Hfit. lia.
Qed.

Lemma writer_ops_snoc (evs : list event) (ev : event) :
  writer_ops (evs ++ [ev]) =
    writer_ops evs ++ match ev with EvWriter o => [o] | EvRead _ => [] end.
Proof. unfold writer_ops. rewrite omap_app. destruct ev; reflexivity. Qed.

Lemma prefix_length_eq_list {A : Type} (l k : list A) :
  l `prefix_of` k -> (length k <= length l)%nat -> l = k.
Proof.
  intros [t ->] Hlen. rewrite length_app in Hlen.
  destruct t; [rewrite app_nil_r; reflexivity|simpl in Hlen; lia].
Qed.

Lemma Read_tracks (path : string) (ops : list SF.op) (sf : StreamingFile) (d : Disk)
    (r : StreamingFileReader) (out : list byte) (len_p : nat) :
  SF.ops_bytes ops <= Int64.max_int ->
  sf_tracks path ops (sf, d) ->
  r_offset r = Z.of_nat (length out) ->
  out `prefix_of` written ops ->
  match Reader.Read sf d r len_p with
  | (r', Reader.Returned data err) =>
      r_offset r' = Z.of_nat (length (out ++ data)) /\
      out ++ data `prefix_of` written ops /\
      match err with
      | None =>
          sf_err sf = None /\ r_file r' = true /\
          data = take (Nat.min len_p (length (written ops) - length out))
                      (drop (length out) (written ops)) /\
          (length out < length (written ops))%nat
      | Some e =>
          data = [] /\
          (sf_err sf = None -> e = Reader.io_EOF) /\
          (e = Reader.io_EOF ->
             out = written ops /\ sf_done sf = true /\ sf_err sf = None)
      end
  | (r', Reader.Blocked) => r' = mkReader (r_offset r) true /\ sf_done sf = false
  end.
Proof.
  intros Hfit (Hp & Hs & Hd & Hc & He & Hv) Hoff Hpre. cbn [fst snd] in *.
  pose proof (written_length ops) as Hlen.
  pose proof (prefix_length _ _ Hpre) as Hle.
  unfold Reader.Read.
  destruct (r_file r || bool_decide (is_Some (d !! sf_filePath sf))) eqn:Eopen; cbn [negb].
  2:{ rewrite app_nil_r. split; [exact Hoff|]. split; [exact Hpre|].
      split; [reflexivity|]. split; [|intros [=]].
      intros Hn. apply orb_false_iff in Eopen as [_ Eopen].
      rewrite Hp, (Hc Hn) in Eopen. apply bool_decide_eq_false in Eopen.
      exfalso. apply Eopen. eauto. }
  destruct (sf_err sf) as [e|] eqn:Eerr.
  { rewrite app_nil_r. cbn [r_offset]. split; [exact Hoff|]. split; [exact Hpre|].
    split; [reflexivity|]. split; [discriminate|].
    intros ->. specialize (Hv _ eq_refl). discriminate Hv. }
  specialize (Hc eq_refl). cbn [r_offset].
  assert (Hsub : Int64.sub (sf_size sf) (r_offset r)
                 = Z.of_nat (length (written ops)) - Z.of_nat (length out)).
  { rewrite Hs, Hoff. apply Int64_sub_small.
    unfold Int64.in_range, Int64.min_int, Int64.max_int in *. lia. }
  rewrite Hsub.
  destruct (Z.of_nat (length (written ops)) - Z.of_nat (length out) >? 0) eqn:Eav.
  - set (toRead := if Z.of_nat len_p >? Z.of_nat (length (written ops)) - Z.of_nat (length out)
                   then Z.of_nat (length (written ops)) - Z.of_nat (length out)
                   else Z.of_nat len_p).
    assert (HtoRead : Z.to_nat toRead
                      = Nat.min len_p (length (written ops) - length out)).
    { subst toRead.
      destruct (Z.of_nat len_p >? Z.of_nat (length (written ops)) - Z.of_nat (length out)) eqn:E;
        lia. }
    unfold Reader.ReadAt. rewrite Hp, Hc, Hoff, Nat2Z.id, HtoRead.
    set (data := take (Nat.min len_p (length (written ops) - length out))
                      (drop (length out) (written ops))).
    assert (Hdl : length data = Nat.min len_p (length (written ops) - length out)).
    { subst data. rewrite length_take, length_drop. lia. }
    rewrite Hdl, Nat.ltb_irrefl. cbn [r_offset r_file].
    split.
    { rewrite Int64_add_small; [rewrite length_app; lia|].
      unfold Int64.in_range, Int64.min_int, Int64.max_int in *. lia. }
    split.
    { destruct Hpre as [k Hk]. subst data. rewrite Hk at 1 2.
      rewrite drop_app_length. rewrite Hk. apply prefix_app, prefix_take. }
    repeat split; try reflexivity. lia.
  - destruct (sf_done sf) eqn:Edone.
    + rewrite app_nil_r. cbn [r_offset]. split; [exact Hoff|]. split; [exact Hpre|].
      split; [reflexivity|]. split; [reflexivity|]. intros _. split; [|split; reflexivity].
      apply prefix_length_eq_list; [exact Hpre|lia].
    + split; reflexivity.
Qed.

Lemma session_ok_step (path : string) (evs : list event) (ev : event) (s : session) :
  SF.ops_bytes (writer_ops (evs ++ [ev])) <= Int64.max_int ->
  session_ok path evs s -> session_ok path (evs ++ [ev]) (session_step s ev).
Proof.
  intros Hfit (Htr & Hoff & Hpre & Hlast). unfold session_ok.
  rewrite writer_ops_snoc in *. destruct ev as [o|len_p]; cbn [session_step].
  - pose proof (sf_tracks_step path (writer_ops evs) o _ Hfit Htr) as Hstep.
    destruct (SF.step (ss_sf s, ss_disk s) o) as [sf' d'] eqn:Est.
    cbn [ss_sf ss_disk ss_reader ss_out ss_last].
    split; [exact Hstep|]. split; [exact Hoff|].
    rewrite written_snoc.
    destruct Htr as (_ & _ & Hd & _). cbn [fst] in Hd.
    destruct (existsb closes (writer_ops evs)) eqn:Ecl.
    + split; [exact Hpre|]. intros data Hl. destruct (Hlast data Hl) as (H0 & H1 & H2).
      split; [exact H0|]. split; [exact H1|].
      destruct Hstep as (_ & _ & Hd' & _). cbn [fst] in Hd'.
      rewrite Hd', existsb_app, Ecl. reflexivity.
    + split; [apply prefix_app_r, Hpre|]. intros data Hl.
      destruct (Hlast data Hl) as (_ & _ & H2). congruence.
  - rewrite app_nil_r in *.
    pose proof (Read_tracks path (writer_ops evs) (ss_sf s) (ss_disk s) (ss_reader s)
                  (ss_out s) len_p Hfit Htr Hoff Hpre) as HR.
    destruct (Reader.Read (ss_sf s) (ss_disk s) (ss_reader s) len_p) as [r' [data err|]].
    + cbn [ss_sf ss_disk ss_reader ss_out ss_last].
      destruct HR as (H1 & H2 & H3). split; [exact Htr|]. split; [exact H1|].
      split; [exact H2|]. intros data' [= -> ->]. destruct H3 as [-> H3].
      rewrite app_nil_r. destruct H3 as [_ H3]. destruct (H3 eq_refl) as (Ha & Hb & _). auto.
    + cbn [ss_sf ss_disk ss_reader ss_out ss_last]. destruct HR as [-> _].
      split; [exact Htr|]. split; [exact Hoff|]. split; [exact Hpre|]. intros data [=].
Qed.

Lemma session_run_ok (d : Disk) (path : string) (evs : list event) :
  SF.ops_bytes (writer_ops evs) <= Int64.max_int ->
  session_ok path evs (session_run (open_session d path) evs).
Proof.
  induction evs as [|ev evs IH] using rev_ind; intros Hfit.
  - unfold session_ok, open_session, SF.New. cbn. split; [|split; [reflexivity|]].
    + repeat split; auto; try congruence; try (intros e [=]).
      intros _. apply lookup_insert_eq.
    + split; [reflexivity|]. intros data [=].
  - unfold session_run. rewrite fold_left_app. cbn [fold_left].
    apply session_ok_step; [exact Hfit|]. apply IH.
    rewrite writer_ops_snoc, SF_ops_bytes_app in Hfit.
    pose proof (SF_ops_bytes_nonneg (match ev with EvWriter o => [o] | EvRead _ => [] end)).
    lia.
Qed.


(** X1. A writer and a reader share one streaming file, their steps
    interleaved in any order ([evs]), the bytes written staying within an
    [int64].  At every moment the bytes [Read] has returned so far are a
    prefix of the bytes the writes put into the file, and the file holds
    exactly those bytes unless the download was aborted.  When [Read]
    reports [io.EOF] the reader has been given every byte written and the
    writer has finished.  Once the download is aborted every [Read] returns
    no data and an error that is not [io.EOF]; once the writer has finished,
    [Read] never waits. *)
Theorem reader_follows_writer (d : Disk) (path : string) (evs : list event) (len_p : nat)
    (Hfit : SF.ops_bytes (writer_ops evs) <= Int64.max_int) :
  let s := session_run (open_session d path) evs in
  let W := written (writer_ops evs) in
  ss_out s `prefix_of` W /\
  (sf_err (ss_sf s) = None -> ss_disk s !! path = Some W) /\
  (forall data, ss_last s = Some (Reader.Returned data (Some Reader.io_EOF)) ->
     data = [] /\ ss_out s = W /\ sf_done (ss_sf s) = true) /\
  (sf_err (ss_sf s) <> None ->
     exists e, (Reader.Read (ss_sf s) (ss_disk s) (ss_reader s) len_p).2
               = Reader.Returned [] (Some e) /\ e <> Reader.io_EOF) /\
  (sf_done (ss_sf s) = true ->
     (Reader.Read (ss_sf s) (ss_disk s) (ss_reader s) len_p).2 <> Reader.Blocked).
Proof.
  intros s W.
  destruct (session_run_ok d path evs Hfit) as (Htr & Hoff & Hpre & Hlast).
  fold s in Htr, Hoff, Hpre, Hlast. fold W in Hpre, Hlast.
  destruct Htr as (Hp & Hs & Hd & Hc & He & Hv). cbn [fst snd] in *.
  split; [exact Hpre|]. split; [exact Hc|]. split; [exact Hlast|]. split.
  - intros Herr. unfold Reader.Read.
    destruct (r_file (ss_reader s) || bool_decide (is_Some (ss_disk s !! sf_filePath (ss_sf s))));
      cbn [negb snd].
    + destruct (sf_err (ss_sf s)) as [e|] eqn:Ee; [|congruence].
      exists e. split; [reflexivity|]. rewrite (Hv e eq_refl). intros [=].
    + exists "open". split; [reflexivity|]. intros [=].
  - intros Hdone. unfold Reader.Read.
    destruct (r_file (ss_reader s) || bool_decide (is_Some (ss_disk s !! sf_filePath (ss_sf s))));
      cbn [negb snd]; [|discriminate].
    destruct (sf_err (ss_sf s)); [discriminate|]. cbn [r_offset].
    destruct (Int64.sub (sf_size (ss_sf s)) (r_offset (ss_reader s)) >? 0).
    + destruct (Reader.ReadAt _ _ _ _). intros [=].
    + rewrite Hdone. intros [=].
Qed.

Lemma reader_follows_writer_witness :
  let evs := [EvRead 4; EvWriter (SF.OpWrite [x01; x02; x03]%byte 3); EvRead 2;
              EvWriter (SF.OpWrite [x04]%byte 1); EvWriter SF.OpComplete;
              EvRead 4; EvRead 4] in
  let s := session_run (open_session ∅ "/cache/ab/abcd") evs in
  SF.ops_bytes (writer_ops evs) <= Int64.max_int /\
  ss_out s = [x01; x02; x03; x04]%byte /\
  ss_last s = Some (Reader.Returned [] (Some Reader.io_EOF)) /\
  ss_out s `prefix_of` written (writer_ops evs).
Proof.
  intros evs s.
  assert (H : SF.ops_bytes (writer_ops evs) <= Int64.max_int) by (vm_compute; discriminate).
  split; [exact H|]. split; [reflexivity|]. split; [reflexivity|].
  exact (proj1 (reader_follows_writer ∅ "/cache/ab/abcd" evs 4 H)).
Defined.

Lemma streamReads_drain (path : string) (ops : list SF.op) (sf : StreamingFile) (d : Disk)
    (len_p : nat) :
  SF.ops_bytes ops <= Int64.max_int ->
  sf_tracks path ops (sf, d) ->
  sf_done sf = true -> sf_err sf = None -> (0 < len_p)%nat ->
  forall (fuel : nat) (r : StreamingFileReader) (out : list byte) (w : ResponseWriter),
  r_offset r = Z.of_nat (length out) ->
  out `prefix_of` written ops ->
  (length (written ops) - length out < fuel)%nat ->
  rw_conn w = None ->
  let res := streamReads w (drain fuel sf d r len_p) in
  res.2 = false /\
  rw_body res.1 = rw_body w ++ drop (length out) (written ops) /\
  rw_header res.1 = rw_header w.
Proof.
  intros Hfit Htr Hdone Herr Hlen fuel.
  induction fuel as [|f IH]; intros r out w Hoff Hpre Hfuel Hconn; [lia|].
  cbn [drain].
  pose proof (Read_tracks path ops sf d r out len_p Hfit Htr Hoff Hpre) as HR.
  destruct (Reader.Read sf d r len_p) as [r' [data err|]].
  2:{ destruct HR as [_ HR]. congruence. }
  destruct HR as (H1 & H2 & H3). destruct err as [e|].
  - destruct H3 as (-> & H3 & H4). rewrite (H3 Herr) in *.
    destruct (H4 eq_refl) as (Hout & _).
    cbn. rewrite Hout, drop_all, app_nil_r. auto.
  - destruct H3 as (_ & Hfile & Hdata & Hlt).
    assert (Hdl : (0 < length data)%nat).
    { rewrite Hdata, length_take, length_drop. lia. }
    cbn [streamReads read_of rd_data rd_end].
    apply Nat.ltb_lt in Hdl as Hdl'. rewrite Hdl'.
    pose proof (Write_open w data Hconn) as (Hf & Hb & Hc).
    pose proof (Write_header w data) as Hh.
    destruct (Write w data) as [[w' n] failed]. cbn [fst snd] in *. subst failed.
    destruct (IH r' (out ++ data) w' H1 H2) as (R1 & R2 & R3).
    + rewrite length_app. lia.
    + exact Hc.
    + split; [exact R1|]. split; [|congruence].
      rewrite R2, Hb, <- app_assoc. f_equal.
      rewrite length_app, <- drop_drop, Hdata.
      set (k := drop (length out) (written ops)).
      rewrite length_take.
      replace (Nat.min (Nat.min len_p (length (written ops) - length out)) (length k))
        with (Nat.min len_p (length (written ops) - length out))
        by (subst k; rewrite length_drop; lia).
      apply take_drop.
Qed.

(** X2. A request served by [serveFromStreaming] (not HEAD, its client
    staying connected) whose reader starts once the writer has finished:
    if the download was completed, the response body is exactly the bytes
    that were written, which are also the content of the cache file, and no
    error is returned; if it was aborted, nothing is sent and the handler
    returns an error. *)
Theorem streaming_reader_drains (d : Disk) (path : string) (ops : list SF.op)
    (w : ResponseWriter) (r : Request) (l : nat)
    (Hfit : SF.ops_bytes ops <= Int64.max_int)
    (Hdone : sf_done (SF.run (SF.New d path) ops).1 = true)
    (Hget : String.eqb (Method r) MethodHead = false)
    (Hconn : rw_conn w = None) :
  let st := SF.run (SF.New d path) ops in
  let reads := drain (S (length (written ops))) st.1 st.2 Reader.New bufSize in
  let res := serveFromStreaming w r l reads in
  (sf_err st.1 = None ->
     res.2 = false /\ rw_body res.1 = rw_body w ++ written ops /\
     st.2 !! path = Some (written ops)) /\
  (sf_err st.1 <> None -> res.2 = true /\ rw_body res.1 = rw_body w).
Proof.
  intros st reads res. pose proof (SF_run_tracks d path ops Hfit) as Htr.
  fold st in Htr, Hdone. subst res. unfold serveFromStreaming. rewrite Hget.
  split.
  - intros Herr.
    destruct (streamReads_drain path ops st.1 st.2 bufSize Hfit
                ltac:(destruct st; exact Htr) Hdone Herr bufSize_pos
                (S (length (written ops))) Reader.New [] (SetHeader w "X-Cache" "STREAMING"))
      as (H1 & H2 & _); try reflexivity; try (simpl; lia); try apply prefix_nil; try exact Hconn.
    fold reads in H1, H2. split; [exact H1|]. split; [exact H2|].
    destruct Htr as (_ & _ & _ & Hc & _). exact (Hc Herr).
  - intros Herr. subst reads. cbn [drain]. unfold Reader.Read.
    destruct Htr as (_ & _ & _ & _ & _ & Hv).
    destruct (r_file Reader.New || bool_decide (is_Some (st.2 !! sf_filePath st.1)));
      cbn [negb].
    + destruct (sf_err st.1) as [e|] eqn:Ee; [|congruence].
      rewrite (Hv e eq_refl). cbn. auto.
    + cbn. auto.
Qed.

Lemma streaming_reader_drains_witness :
  let ops := [SF.OpWrite [x01; x02; x03]%byte 3; SF.OpWrite [x04]%byte 1; SF.OpComplete] in
  let st := SF.run (SF.New ∅ "/cache/ab/abcd") ops in
  let r := mkRequest "GET" "/k" "" in
  let reads := drain (S (length (written ops))) st.1 st.2 Reader.New bufSize in
  SF.ops_bytes ops <= Int64.max_int /\
  sf_done st.1 = true /\
  sf_err st.1 = None /\
  rw_body (serveFromStreaming (newResponseWriter None) r 0 reads).1
    = [x01; x02; x03; x04]%byte.
Proof.
  intros ops st r reads.
  assert (H1 : SF.ops_bytes ops <= Int64.max_int) by (vm_compute; discriminate).
  assert (H2 : sf_done st.1 = true) by reflexivity.
  assert (H3 : sf_err st.1 = None) by reflexivity.
  split; [exact H1|]. split; [exact H2|]. split; [exact H3|].
  destruct (streaming_reader_drains ∅ "/cache/ab/abcd" ops (newResponseWriter None) r 0%nat
              H1 H2 eq_refl eq_refl) as [H _].
  destruct (H H3) as (_ & Hb & _). exact Hb.
Defined.

(** ** The running total of the completed store *)

Lemma wrap64_add_l (a b : Z) : Int64.wrap64 (Int64.wrap64 a + b) = Int64.wrap64 (a + b).
Proof.
  unfold Int64.wrap64. f_equal.
  replace ((a + 2 ^ 63) mod 2 ^ 64 - 2 ^ 63 + b + 2 ^ 63)
    with ((a + 2 ^ 63) mod 2 ^ 64 + b) by lia.
  rewrite Zplus_mod_idemp_l. f_equal. lia.
Qed.

Lemma wrap64_add_r (a b : Z) : Int64.wrap64 (a + Int64.wrap64 b) = Int64.wrap64 (a + b).
Proof. rewrite Z.add_comm, wrap64_add_l. f_equal. lia. Qed.

Lemma onEvict_total (c : Cache) (e : LRU.entry CacheEntry) (S : Z) :
  totalSize c = Int64.wrap64 S ->
  totalSize (onEvict c e) = Int64.wrap64 (S - Size (LRU.e_value e)).
Proof.
  intros H. unfold onEvict.
  destruct (negb (String.eqb (FilePath (LRU.e_value e)) ""));
    cbn [with_totalSize with_disk totalSize]; rewrite H; unfold Int64.add;
    rewrite wrap64_add_l, wrap64_add_r; f_equal; lia.
Qed.

Lemma sum_sizes_cons (x : LRU.entry CacheEntry) (its : list (LRU.entry CacheEntry)) :
  sum_sizes (x :: its) = Size (LRU.e_value x) + sum_sizes its.
Proof. reflexivity. Qed.

Lemma sum_sizes_find (key : string) (its : list (LRU.entry CacheEntry))
    (e : LRU.entry CacheEntry) :
  NoDup (map LRU.e_key its) ->
  List.find (LRU.has_key key) its = Some e ->
  sum_sizes its = Size (LRU.e_value e)
                  + sum_sizes (List.filter (fun x => negb (LRU.has_key key x)) its).
Proof.
  induction its as [|x its IH]; [discriminate|].
  intros Hnd Hf. apply NoDup_cons in Hnd as [Hx Hnd]. cbn [List.find List.filter] in *.
  destruct (LRU.has_key key x) eqn:Ek; cbn [negb].
  - injection Hf as <-.
    rewrite List.forallb_filter_id; [reflexivity|].
    apply forallb_forall. intros y Hy. apply negb_true_iff.
    destruct (LRU.has_key key y) eqn:Ey; [|reflexivity].
    exfalso. apply Hx. unfold LRU.has_key in *.
    apply String.eqb_eq in Ek, Ey. rewrite Ek, <- Ey.
    apply list_elem_of_In, in_map, Hy.
  - rewrite !sum_sizes_cons, (IH Hnd Hf). lia.
Qed.

Lemma NoDup_keys_front {V : Type} (l : LRU.t V) (key : string) (x : LRU.entry V) :
  NoDup (keys_of l) -> LRU.e_key x = key ->
  NoDup (map LRU.e_key (x :: LRU.others l key)).
Proof.
  intros Hnd Hk. cbn [map]. apply NoDup_cons. split.
  - rewrite list_elem_of_In, Hk, keys_others. tauto.
  - unfold LRU.others. apply NoDup_map_filter, Hnd.
Qed.

Lemma others_front {V : Type} (l : LRU.t V) (key : string) (x : LRU.entry V) :
  LRU.e_key x = key ->
  LRU.others (LRU.with_items l (x :: LRU.others l key)) key = LRU.others l key.
Proof.
  intros Hk. unfold LRU.others. cbn [LRU.items LRU.with_items List.filter].
  unfold LRU.has_key at 1. rewrite Hk, String.eqb_refl. cbn [negb].
  rewrite List.forallb_filter_id; [reflexivity|].
  apply forallb_forall. intros y Hy. apply filter_In in Hy. tauto.
Qed.

(** [fileCache.Add] on the unbounded store. *)
Lemma fileCache_Add_unbounded (c : Cache) (key : string) (entry : CacheEntry) (now : Z) :
  LRU.capacity (fileCache c) = 0%nat ->
  fileCache_Add c key entry now =
    with_fileCache c
      (LRU.with_items (fileCache c)
         (LRU.mkEntry key entry (now + LRU.ttl (fileCache c)) :: LRU.others (fileCache c) key)).
Proof.
  intros Hcap. unfold fileCache_Add. rewrite LRU_Add_unbounded by exact Hcap. reflexivity.
Qed.

Lemma accounted_drop (c : Cache) (key : string) (e : LRU.entry CacheEntry) :
  size_accounted c ->
  LRU.lookup (fileCache c) key = Some e ->
  size_accounted
    (onEvict (with_fileCache c (LRU.with_items (fileCache c) (LRU.others (fileCache c) key))) e).
Proof.
  intros (Hcap & Hnd & Htot) Hl. unfold size_accounted.
  destruct (onEvict_same
              (with_fileCache c (LRU.with_items (fileCache c) (LRU.others (fileCache c) key))) e)
    as [Hfc _].
  rewrite Hfc. cbn [with_fileCache fileCache LRU.with_items LRU.capacity LRU.items].
  split; [exact Hcap|]. split.
  - unfold keys_of. cbn [LRU.items]. unfold LRU.others. apply NoDup_map_filter, Hnd.
  - rewrite (onEvict_total _ e (sum_sizes (LRU.items (fileCache c)))) by exact Htot.
    f_equal. rewrite (sum_sizes_find key _ e Hnd Hl). unfold LRU.others. lia.
Qed.

Lemma accounted_RemoveOldest (c : Cache) (fc : LRU.t CacheEntry) (e : LRU.entry CacheEntry) :
  size_accounted c ->
  LRU.RemoveOldest (fileCache c) = (fc, Some e) ->
  size_accounted (onEvict (with_fileCache c fc) e).
Proof.
  intros (Hcap & Hnd & Htot) HR. unfold LRU.RemoveOldest in HR.
  destruct (last (LRU.items (fileCache c))) as [x|] eqn:El; [|discriminate].
  injection HR as <- <-.
  apply last_Some in El as [its Hits].
  unfold size_accounted. destruct (onEvict_same (with_fileCache c (LRU.with_items (fileCache c)
                     (removelast (LRU.items (fileCache c))))) x) as [Hfc _].
  rewrite Hfc. cbn [with_fileCache fileCache LRU.with_items LRU.capacity LRU.items].
  unfold keys_of in *. cbn [LRU.items]. rewrite Hits in *. rewrite removelast_last.
  rewrite map_app in Hnd. apply NoDup_app in Hnd as (Hnd & _ & _).
  split; [exact Hcap|]. split; [exact Hnd|].
  rewrite (onEvict_total _ x (sum_sizes (its ++ [x]))) by exact Htot.
  f_equal. rewrite sum_sizes_app. unfold sum_sizes at 2. cbn [foldr]. lia.
Qed.

Lemma accounted_evictIfNeeded_loop (fuel : nat) (c : Cache) (incoming : Z) :
  size_accounted c -> size_accounted (evictIfNeeded_loop fuel c incoming).
Proof.
  revert c. induction fuel as [|f IH]; intros c Hacc; [exact Hacc|].
  cbn [evictIfNeeded_loop].
  destruct (Int64.add (totalSize c) incoming >? MaxCacheSize (config c)); [|exact Hacc].
  destruct (LRU.RemoveOldest (fileCache c)) as [fc [e|]] eqn:ER; [|exact Hacc].
  apply IH. apply (accounted_RemoveOldest c fc e Hacc ER).
Qed.

Lemma accounted_Get (c : Cache) (key : string) (now : Z) :
  size_accounted c -> size_accounted (Get c key now).1.
Proof.
  intros (Hcap & Hnd & Htot). unfold Get.
  destruct (LRU.Get (notFoundCache c) key now) as [nf [u|]].
  { unfold size_accounted, notFoundCache_Add.
    cbn [fst with_fileCache with_notFoundCache fileCache totalSize]. auto. }
  cbn [with_notFoundCache fileCache]. unfold LRU.Get.
  destruct (LRU.lookup (fileCache c) key) as [e|] eqn:El.
  2:{ unfold size_accounted.
      cbn [fst with_fileCache with_notFoundCache fileCache totalSize]. auto. }
  destruct (LRU.expired now e).
  { unfold size_accounted.
    cbn [fst with_fileCache with_notFoundCache fileCache totalSize]. auto. }
  destruct (lookup_key _ _ _ El) as [Hk _].
  cbn [fst snd]. rewrite fileCache_Add_unbounded by exact Hcap.
  unfold size_accounted.
  cbn [with_fileCache fileCache totalSize LRU.capacity LRU.with_items LRU.items LRU.ttl].
  change (LRU.mkLRU (LRU.capacity (fileCache c)) (LRU.ttl (fileCache c))
            (e :: LRU.others (fileCache c) key))
    with (LRU.with_items (fileCache c) (e :: LRU.others (fileCache c) key)).
  rewrite (others_front _ key e Hk).
  split; [exact Hcap|]. split.
  - apply (NoDup_keys_front (fileCache c) key); [exact Hnd|reflexivity].
  - cbn [with_notFoundCache totalSize]. rewrite Htot. f_equal. rewrite sum_sizes_cons. cbn [LRU.e_value].
    apply (sum_sizes_find key _ e Hnd El).
Qed.

Lemma accounted_frame (c c' : Cache) :
  fileCache c' = fileCache c -> totalSize c' = totalSize c ->
  size_accounted c -> size_accounted c'.
Proof. unfold size_accounted. intros -> ->. tauto. Qed.

Lemma store_Abort_total (c : Cache) (l : nat) : totalSize (store_Abort c l) = totalSize c.
Proof. unfold store_Abort. destruct (store c !! l); reflexivity. Qed.

Section Accounting.

Variable sha256_hex : string -> string.

Lemma accounted_CompletePending (c : Cache) (key : string) (size : Z) (ct : string) (now : Z) :
  size_accounted c -> ~ (in_completed c key /\ in_pending c key) ->
  size_accounted (CompletePending sha256_hex c key size ct now).
Proof.
  intros Hacc Hex. unfold CompletePending.
  destruct (pending c !! key) as [sf|] eqn:Ep; [|exact Hacc].
  set (c1 := store_Complete (with_pending c (delete key (pending c))) sf).
  assert (Hacc1 : size_accounted c1) by (apply (accounted_frame c); [reflexivity..|exact Hacc]).
  assert (Hfresh1 : ~ In key (keys_of (fileCache c1))).
  { intros Hin. apply Hex. split; [apply Contains_keys, Hin|]. unfold in_pending. eauto. }
  pose proof (accounted_evictIfNeeded_loop (S (LRU.Len (fileCache c1))) c1 size Hacc1) as Hacc2.
  destruct (evictIfNeeded_loop_keys (S (LRU.Len (fileCache c1))) c1 size key) as [Hk2 _].
  fold (evictIfNeeded c1 size) in Hacc2, Hk2.
  set (c2 := evictIfNeeded c1 size) in *.
  destruct Hacc2 as (Hcap & Hnd & Htot).
  rewrite fileCache_Add_unbounded by exact Hcap.
  assert (Hnone : LRU.lookup (fileCache c2) key = None).
  { apply lookup_not_in. intros Hin. apply Hfresh1, Hk2, Hin. }
  rewrite (LRU_others_none _ _ Hnone).
  unfold size_accounted.
  cbn [with_totalSize with_fileCache fileCache totalSize LRU.capacity LRU.with_items LRU.items].
  split; [exact Hcap|]. split.
  - unfold keys_of. cbn [LRU.items map LRU.e_key]. apply NoDup_cons. split; [|exact Hnd].
    rewrite list_elem_of_In. intros Hin. apply Hfresh1, Hk2, Hin.
  - rewrite Htot, sum_sizes_cons. cbn [LRU.e_value Size]. unfold Int64.add.
    rewrite wrap64_add_l. f_equal. lia.
Qed.

Lemma accounted_step (c : Cache) (o : cache_op) :
  exclusive c -> size_accounted c -> size_accounted (cache_step sha256_hex c o).
Proof.
  intros Hex Hacc.
  destruct o as [key now|key now|key io|key size ct now|key|key now|key|key now];
    cbn [cache_step].
  - apply accounted_Get, Hacc.
  - apply (accounted_frame c); [| |exact Hacc];
      unfold IsNotFound; destruct (LRU.Get (notFoundCache c) key now) as [nf [u|]]; reflexivity.
  - apply (accounted_frame c); [| |exact Hacc];
      unfold GetOrCreatePending; destruct (pending c !! key); try reflexivity;
      destruct io; reflexivity.
  - apply accounted_CompletePending; [exact Hacc|apply Hex].
  - apply (accounted_frame c); [| |exact Hacc]; unfold FailPending;
      destruct (pending c !! key) as [sf|]; try reflexivity.
    + exact (proj1 (store_Abort_same (with_pending c (delete key (pending c))) sf)).
    + exact (store_Abort_total (with_pending c (delete key (pending c))) sf).
  - apply (accounted_frame c); [reflexivity..|exact Hacc].
  - unfold Remove, LRU.Remove.
    destruct (LRU.lookup (fileCache c) key) as [e|] eqn:El.
    + apply (accounted_frame (onEvict (with_fileCache c
               (LRU.with_items (fileCache c) (LRU.others (fileCache c) key))) e));
        [reflexivity..|]. apply accounted_drop; assumption.
    + apply (accounted_frame c); [reflexivity..|exact Hacc].
  - unfold Expire, LRU.deleteExpired.
    destruct (LRU.lookup (fileCache c) key) as [e|] eqn:El.
    + destruct (LRU.expired now e).
      * apply accounted_drop; assumption.
      * apply (accounted_frame c); [reflexivity..|exact Hacc].
    + apply (accounted_frame c); [reflexivity..|exact Hacc].
Qed.

(** X3. [totalSize], the figure [Stats] reports and [evictIfNeeded]
    compares with [MaxCacheSize], stays the sum of the sizes of the entries
    of the completed store (as [int64] arithmetic computes it, hence the
    sum itself whenever it fits) through any sequence of cache operations,
    provided [GetOrCreatePending] is only called for keys that the
    completed store does not hold. *)
Theorem totalSize_is_sum_of_sizes (c : Cache) (ops : list cache_op)
    (Hex : exclusive c)
    (Hacc : size_accounted c)
    (Hguard : ops_guarded sha256_hex c ops) :
  let c' := cache_run sha256_hex c ops in
  totalSize c' = Int64.wrap64 (sum_sizes (LRU.items (fileCache c'))) /\
  (Int64.in_range (sum_sizes (LRU.items (fileCache c'))) ->
   totalSize c' = sum_sizes (LRU.items (fileCache c'))).
Proof.
  intros c'. assert (H : size_accounted c').
  { subst c'. revert c Hex Hacc Hguard. induction ops as [|o ops IH]; intros c Hex Hacc Hguard.
    - exact Hacc.
    - destruct Hguard as [Ho Hrest]. cbn [cache_run fold_left]. apply IH.
      + apply cache_step_exclusive; assumption.
      + apply accounted_step; assumption.
      + exact Hrest. }
  destruct H as (_ & _ & H). split; [exact H|].
  intros Hr. rewrite H. apply wrap64_small, Hr.
Qed.

End Accounting.

Lemma totalSize_is_sum_of_sizes_witness :
  exists c0,
  NewCache (fun _ => None) (mkConfig "http://origin" "/cache" 100 1000 50) ∅ 0 = Started c0 /\
  let ops := [CGetOrCreatePending "/a" IoOk;
              CCompletePending "/a" 60 "text/plain" 1;
              CGetOrCreatePending "/b" IoOk;
              CCompletePending "/b" 70 "text/plain" 2;
              CGet "/b" 3;
              CRemove "/b"] in
  let c' := cache_run hex_name c0 ops in
  exclusive c0 /\ size_accounted c0 /\ ops_guarded hex_name c0 ops /\
  totalSize c' = Int64.wrap64 (sum_sizes (LRU.items (fileCache c'))).
Proof.
  exists (emptyCache (mkConfig "http://origin" "/cache" 100 1000 50) ∅). split; [vm_compute; reflexivity|].
  set (c0 := emptyCache _ _). intros ops c'.
  assert (H0 : exclusive c0).
  { intros k [_ [x Hx]]. assert (Hp : pending c0 = ∅) by reflexivity.
    rewrite Hp, lookup_empty in Hx. discriminate. }
  assert (H1 : size_accounted c0).
  { split; [reflexivity|]. split; [apply NoDup_nil_2|reflexivity]. }
  assert (H2 : ops_guarded hex_name c0 ops).
  { subst ops. cbn [ops_guarded op_guarded].
    repeat split; intros H; vm_compute in H; discriminate H. }
  split; [exact H0|]. split; [exact H1|]. split; [exact H2|].
  exact (proj1 (totalSize_is_sum_of_sizes hex_name c0 ops H0 H1 H2)).
Defined.

(** Without the guard the total drifts: a key that is completed a second
    time while the store still holds it replaces its entry, and the size of
    the entry replaced stays in [totalSize]. *)
Example totalSize_counts_replaced_entry :
  exists c0,
  NewCache (fun _ => None) (mkConfig "http://origin" "/cache" 100 1000 50) ∅ 0 = Started c0 /\
  let c' := cache_run hex_name c0
              [CGetOrCreatePending "/k" IoOk; CCompletePending "/k" 5 "text/plain" 1;
               CGetOrCreatePending "/k" IoOk; CCompletePending "/k" 5 "text/plain" 2] in
  keys_of (fileCache c') = ["/k"] /\ sum_sizes (LRU.items (fileCache c')) = 5 /\
  totalSize c' = 10.
Proof.
  exists (emptyCache (mkConfig "http://origin" "/cache" 100 1000 50) ∅). split; [vm_compute; reflexivity|].
  vm_compute. repeat split; reflexivity.
Qed.

(** ** Negative caching *)

Lemma LRU_Add_lookup {V : Type} (l : LRU.t V) (key : string) (v : V) (now : Z) :
  LRU.lookup (LRU.Add l key v now).1 key = Some (LRU.mkEntry key v (now + LRU.ttl l)) /\
  LRU.ttl (LRU.Add l key v now).1 = LRU.ttl l /\
  LRU.capacity (LRU.Add l key v now).1 = LRU.capacity l.
Proof.
  assert (Hk : LRU.has_key key (LRU.mkEntry key v (now + LRU.ttl l)) = true)
    by apply String.eqb_refl.
  unfold LRU.Add. destruct (LRU.lookup l key) as [e|] eqn:El; cbn [fst].
  - split; [apply LRU_lookup_front, Hk|]. split; reflexivity.
  - destruct ((0 <? LRU.capacity l)%nat
              && (LRU.capacity l <? length (LRU.mkEntry key v (now + LRU.ttl l) :: LRU.items l))%nat)
      eqn:Ec.
    + destruct (LRU.items l) as [|x xs] eqn:Eits.
      { apply andb_true_iff in Ec as [E1 E2].
        apply Nat.ltb_lt in E1, E2. simpl in E2. lia. }
      destruct (last (LRU.mkEntry key v (now + LRU.ttl l) :: x :: xs)); cbn [fst].
      * change (removelast (LRU.mkEntry key v (now + LRU.ttl l) :: x :: xs))
          with (LRU.mkEntry key v (now + LRU.ttl l) :: removelast (x :: xs)).
        split; [apply LRU_lookup_front, Hk|]. split; reflexivity.
      * split; [apply LRU_lookup_front, Hk|]. split; reflexivity.
    + cbn [fst]. split; [apply LRU_lookup_front, Hk|]. split; reflexivity.
Qed.

Lemma Error_status (w : ResponseWriter) (msg : string) (code : Z) :
  rw_status w = None -> rw_status (Error w msg code) = Some code.
Proof.
  intros H. unfold Error, Write, WriteHeader, SetHeader, DelHeader.
  cbn [rw_status rw_header rw_body rw_conn]. rewrite H. cbn [rw_status rw_conn].
  destruct (rw_conn w) as [m|]; [|reflexivity].
  destruct (length _ <=? m)%nat; reflexivity.
Qed.

Lemma IsNotFound_fresh (c : Cache) (key : string) (now : Z) :
  LRU.lookup (notFoundCache c) key = Some (LRU.mkEntry key tt now) ->
  forall now2,
  (IsNotFound c key now2).2 = negb (now2 >? now) /\
  (now2 <= now ->
   LRU.lookup (notFoundCache (IsNotFound c key now2).1) key
     = Some (LRU.mkEntry key tt (now2 + LRU.ttl (notFoundCache c))) /\
   fileCache (IsNotFound c key now2).1 = fileCache c /\
   pending (IsNotFound c key now2).1 = pending c /\
   totalSize (IsNotFound c key now2).1 = totalSize c /\
   disk (IsNotFound c key now2).1 = disk c).
Proof.
  intros Hl now2. unfold IsNotFound, LRU.Get. rewrite Hl. unfold LRU.expired.
  cbn [LRU.e_expires]. destruct (now2 >? now) eqn:E; cbn [fst snd negb].
  - split; [reflexivity|]. lia.
  - split; [reflexivity|]. intros _. unfold notFoundCache_Add.
    cbn [with_notFoundCache notFoundCache fileCache pending totalSize disk].
    destruct (LRU_Add_lookup
                (LRU.with_items (notFoundCache c)
                   (LRU.mkEntry key tt now :: LRU.others (notFoundCache c) key)) key tt now2)
      as (H1 & _). rewrite H1. auto.
Qed.

Section NegativeCaching.

Variable sha256_hex : string -> string.

(** X4. When the origin answers 404, [doFetchAndServe] answers 404 and
    records the key in the negative cache, leaving the completed store, the
    pending map and the disk as they were.  A later request for the key
    that arrives within the negative time to live is answered 404 by
    [handleRequest] without any request to the origin, and renews the
    deadline of the negative entry (so it counts from the latest hit); once
    the time to live has passed, the negative entry no longer answers. *)
Theorem upstream_404_is_remembered (p : Proxy) (w w2 : ResponseWriter) (r r2 : Request)
    (key : string) (lock : nat) (e e2 : env)
    (contentLength : Z) (ct : string) (body : list read)
    (Hup : env_upstream e = UpResponse 404 contentLength ct body)
    (Hw : rw_status w = None) (Hw2 : rw_status w2 = None) :
  let ttl := LRU.ttl (notFoundCache (cache p)) in
  let first := doFetchAndServe sha256_hex p w r key lock e in
  let p1 := first.1.1 in
  let second := handleRequest sha256_hex p1 w2 r2 key e2 in
  rw_status first.1.2 = Some 404 /\ first.2 = None /\
  issued p1 = issued p ++ [key] /\
  fileCache (cache p1) = fileCache (cache p) /\
  pending (cache p1) = pending (cache p) /\
  disk (cache p1) = disk (cache p) /\
  (env_now e2 <= env_now e + ttl ->
     rw_status second.1.2 = Some 404 /\ second.2 = None /\
     issued second.1.1 = issued p1 /\
     fileCache (cache second.1.1) = fileCache (cache p) /\
     disk (cache second.1.1) = disk (cache p) /\
     LRU.lookup (notFoundCache (cache second.1.1)) key
       = Some (LRU.mkEntry key tt (env_now e2 + ttl))) /\
  (env_now e2 > env_now e + ttl ->
     (IsNotFound (cache p1) key (env_now e2)).2 = false).
Proof.
  intros ttl first p1 second.
  assert (Hfirst : first =
            (leaveFetch (with_cache (finishLock (sendUpstream p key) lock (Some "not found"))
                           (PutNotFound (cache p) key (env_now e))) key true,
             Error w "Not Found" StatusNotFound, None)).
  { subst first. unfold doFetchAndServe, receiveUpstream, beginDownload. rewrite Hup.
    reflexivity. }
  assert (Hc1 : cache p1 = PutNotFound (cache p) key (env_now e)).
  { subst p1. rewrite Hfirst. reflexivity. }
  destruct (LRU_Add_lookup (notFoundCache (cache p)) key tt (env_now e)) as (Hl & Httl & _).
  assert (Hl1 : LRU.lookup (notFoundCache (cache p1)) key
                = Some (LRU.mkEntry key tt (env_now e + ttl))).
  { rewrite Hc1. exact Hl. }
  assert (Httl1 : LRU.ttl (notFoundCache (cache p1)) = ttl).
  { rewrite Hc1. exact Httl. }
  destruct (IsNotFound_fresh (cache p1) key (env_now e + ttl) Hl1 (env_now e2)) as [Hans Hkeep].
  split; [rewrite Hfirst; apply Error_status, Hw|].
  split; [rewrite Hfirst; reflexivity|].
  split; [subst p1; rewrite Hfirst; reflexivity|].
  split; [rewrite Hc1; reflexivity|].
  split; [rewrite Hc1; reflexivity|].
  split; [rewrite Hc1; reflexivity|].
  split.
  - intros Hle. specialize (Hkeep Hle). destruct Hkeep as (K1 & K2 & K3 & K4 & K5).
    assert (Hans' : (IsNotFound (cache p1) key (env_now e2)).2 = true).
    { rewrite Hans. destruct (env_now e2 >? env_now e + ttl) eqn:E; [lia|reflexivity]. }
    clear Hans. subst second. unfold handleRequest, lookupCaches.
    destruct (IsNotFound (cache p1) key (env_now e2)) as [c2 b] eqn:Ei.
    cbn [fst snd] in *. subst b. cbn [fst snd with_cache cache issued].
    split; [apply Error_status, Hw2|]. split; [reflexivity|]. split; [reflexivity|].
    rewrite K2, K5, K1, Httl1, Hc1. repeat split; reflexivity.
  - intros Hgt. rewrite Hans. destruct (env_now e2 >? env_now e + ttl) eqn:E; [reflexivity|lia].
Qed.

End NegativeCaching.

Lemma upstream_404_is_remembered_witness :
  let r := mkRequest "GET" "/missing" "" in
  let e := mkEnv 10 (UpResponse 404 0 "" []) IoOk [] in
  let e2 := mkEnv 40 UpTransportError IoOk [] in
  let first := doFetchAndServe hex_name example_proxy (newResponseWriter None) r "/missing" 0 e in
  let second := handleRequest hex_name first.1.1 (newResponseWriter None) r "/missing" e2 in
  env_upstream e = UpResponse 404 0 "" [] /\
  env_now e2 <= env_now e + LRU.ttl (notFoundCache (cache example_proxy)) /\
  rw_status second.1.2 = Some 404 /\
  issued second.1.1 = ["/missing"].
Proof.
  intros r e e2 first second.
  assert (H1 : env_upstream e = UpResponse 404 0 "" []) by reflexivity.
  assert (H2 : env_now e2 <= env_now e + LRU.ttl (notFoundCache (cache example_proxy)))
    by (vm_compute; discriminate).
  destruct (upstream_404_is_remembered hex_name example_proxy (newResponseWriter None)
              (newResponseWriter None) r r "/missing" 0%nat e e2 0 "" [] H1 eq_refl eq_refl)
    as (_ & _ & Hi & _ & _ & _ & Hhit & _).
  destruct (Hhit H2) as (Hs & _ & Hi2 & _).
  split; [exact H1|]. split; [exact H2|]. split; [exact Hs|].
  subst second first. rewrite Hi2, Hi. reflexivity.
Defined.

(** ** The copy loop of a new download *)

Lemma store_Write_full (c : Cache) (sf : nat) (o : StreamingFile) (data : list byte)
    (accepted : nat) :
  store c !! sf = Some o -> sf_done o = false -> (length data <= accepted)%nat ->
  store_Write c sf data accepted =
    (with_disk
       (with_store c
          (<[sf := mkSF (sf_filePath o) (sf_fileOpen o)
                        (Int64.add (sf_size o) (Z.of_nat (length data))) false (sf_err o)]>
             (store c)))
       (disk_append (disk c) (sf_filePath o) data), None).
Proof.
  intros Hs Hd Hacc. unfold store_Write, SF.Write. rewrite Hs, Hd.
  replace (Nat.min accepted (length data)) with (length data) by lia.
  rewrite firstn_all, Nat.ltb_irrefl. reflexivity.
Qed.

Lemma same_frame_trans (c1 c2 c3 : Cache) :
  same_frame c1 c2 -> same_frame c2 c3 -> same_frame c1 c3.
Proof. unfold same_frame. intuition congruence. Qed.

Lemma same_frame_refl (c : Cache) : same_frame c c.
Proof. unfold same_frame. auto. Qed.

Lemma store_Write_frame (c : Cache) (sf : nat) (data : list byte) (accepted : nat) :
  same_frame (store_Write c sf data accepted).1 c.
Proof.
  unfold store_Write. destruct (store c !! sf) as [o|]; [|apply same_frame_refl].
  destruct (SF.Write o (disk c) data accepted) as [[[o' d] n] err].
  unfold same_frame. cbn. auto.
Qed.

Lemma streamBody_frame (key : string) (sf : nat) (body : list read) :
  forall (c : Cache) (w : ResponseWriter) (isNew : bool) (tw : Z),
  same_frame (streamBody key sf body c w isNew tw).1.1.1.1 c.
Proof.
  induction body as [|rd rest IH]; intros c w isNew tw; [apply same_frame_refl|].
  cbn [streamBody]. destruct (0 <? length (rd_data rd))%nat.
  - pose proof (store_Write_frame c sf (rd_data rd) (rd_accepted rd)) as Hw.
    destruct isNew.
    + destruct (store_Write c sf (rd_data rd) (rd_accepted rd)) as [c1 [err|]];
        cbn [fst] in Hw;
        destruct (Write w (rd_data rd)) as [[w' n] failed]; destruct failed;
        try exact Hw; destruct (rd_end rd); try exact Hw;
        exact (same_frame_trans _ _ _ (IH _ _ _ _) Hw).
    + destruct (Write w (rd_data rd)) as [[w' n] failed]; destruct failed;
        try apply same_frame_refl; destruct (rd_end rd); try apply same_frame_refl. apply IH.
  - destruct (rd_end rd); try apply same_frame_refl. apply IH.
Qed.

(** With every chunk accepted by the cache file, the loop leaves [isNew]
    set and the streaming file open. *)
Lemma streamBody_new_keeps (key : string) (sf : nat) (body : list read) :
  forall (c : Cache) (w : ResponseWriter) (tw : Z) (o : StreamingFile),
  store c !! sf = Some o -> sf_done o = false -> writes_accepted body ->
  let res := streamBody key sf body c w true tw in
  res.1.1.2 = true /\
  exists o', store res.1.1.1.1 !! sf = Some o' /\ sf_done o' = false /\
             sf_filePath o' = sf_filePath o /\ sf_err o' = sf_err o.
Proof.
  induction body as [|rd rest IH]; intros c w tw o Hs Hd Hacc.
  - cbn. split; [reflexivity|]. eauto.
  - apply Forall_cons in Hacc as [Hrd Hacc]. cbn [streamBody].
    assert (Hlt : (sf < length (store c))%nat) by (apply lookup_lt_is_Some; eauto).
    destruct (0 <? length (rd_data rd))%nat.
    + rewrite (store_Write_full c sf o _ _ Hs Hd Hrd).
      set (o1 := mkSF _ _ _ _ _).
      set (c1 := with_disk _ _).
      assert (Hs1 : store c1 !! sf = Some o1).
      { subst c1. cbn [with_disk with_store store]. apply list_lookup_insert_eq, Hlt. }
      destruct (Write w (rd_data rd)) as [[w' n] failed]. destruct failed.
      * cbn [fst snd]. split; [reflexivity|]. exists o1. auto.
      * destruct (rd_end rd).
        -- destruct (IH c1 w' (Int64.add tw n) o1 Hs1 eq_refl Hacc) as (I1 & o' & I2 & I3 & I4 & I5).
           split; [exact I1|]. exists o'. auto.
        -- cbn [fst snd]. split; [reflexivity|]. exists o1. auto.
        -- cbn [fst snd]. split; [reflexivity|]. exists o1. auto.
    + destruct (rd_end rd).
      * apply (IH c w tw o Hs Hd Hacc).
      * cbn [fst snd]. split; [reflexivity|]. eauto.
      * cbn [fst snd]. split; [reflexivity|]. eauto.
Qed.

Lemma Write_count (w : ResponseWriter) (data : list byte) :
  rw_conn w = None -> (Write w data).1.2 = Z.of_nat (length data).
Proof.
  intros H. unfold Write, WriteHeader. destruct (rw_status w); simpl; rewrite H; reflexivity.
Qed.

Lemma body_bytes_cons (rd : read) (rest : list read) :
  body_bytes (rd :: rest) =
    match rd_end rd with ReadMore => rd_data rd ++ body_bytes rest | _ => rd_data rd end.
Proof. reflexivity. Qed.

(** The same loop when, besides, the client stays connected. *)
Lemma streamBody_new_connected (key : string) (sf : nat) (body : list read) :
  forall (c : Cache) (w : ResponseWriter) (tw : Z) (o : StreamingFile) (content : list byte),
  store c !! sf = Some o -> sf_done o = false ->
  disk c !! sf_filePath o = Some content ->
  writes_accepted body -> rw_conn w = None ->
  0 <= sf_size o -> 0 <= tw ->
  sf_size o + Z.of_nat (length (body_bytes body)) <= Int64.max_int ->
  tw + Z.of_nat (length (body_bytes body)) <= Int64.max_int ->
  let res := streamBody key sf body c w true tw in
  res.1.2 = tw + Z.of_nat (length (body_bytes body)) /\
  res.2 = (if body_fails body then Some "read upstream" else None) /\
  rw_body res.1.1.1.2 = rw_body w ++ body_bytes body /\
  rw_header res.1.1.1.2 = rw_header w /\
  store res.1.1.1.1 !! sf
    = Some (mkSF (sf_filePath o) (sf_fileOpen o)
                 (sf_size o + Z.of_nat (length (body_bytes body))) false (sf_err o)) /\
  disk res.1.1.1.1 = <[sf_filePath o := content ++ body_bytes body]> (disk c).
Proof.
  induction body as [|rd rest IH]; intros c w tw o content Hs Hd Hdisk Hacc Hconn H0 Htw Hfit Hfit2.
  - cbn. rewrite !app_nil_r, !Z.add_0_r, (insert_id _ _ _ Hdisk).
    repeat split; try reflexivity. rewrite Hs. destruct o. cbn in Hd. subst. reflexivity.
  - apply Forall_cons in Hacc as [Hrd Hacc]. rewrite body_bytes_cons in *.
    cbn [streamBody body_fails].
    assert (Hlt : (sf < length (store c))%nat) by (apply lookup_lt_is_Some; eauto).
    assert (Hdone : forall (c1 : Cache) (w1 : ResponseWriter) (d : list byte),
               store c1 !! sf = Some (mkSF (sf_filePath o) (sf_fileOpen o)
                                       (sf_size o + Z.of_nat (length d)) false (sf_err o)) ->
               disk c1 = <[sf_filePath o := content ++ d]> (disk c) ->
               rw_body w1 = rw_body w ++ d -> rw_header w1 = rw_header w ->
               forall err : option string,
               let res := (c1, w1, true, tw + Z.of_nat (length d), err) in
               res.1.2 = tw + Z.of_nat (length d) /\ res.2 = err /\
               rw_body res.1.1.1.2 = rw_body w ++ d /\
               rw_header res.1.1.1.2 = rw_header w /\
               store res.1.1.1.1 !! sf
                 = Some (mkSF (sf_filePath o) (sf_fileOpen o)
                              (sf_size o + Z.of_nat (length d)) false (sf_err o)) /\
               disk res.1.1.1.1 = <[sf_filePath o := content ++ d]> (disk c)).
    { intros c1 w1 d X1 X2 X3 X4 err. cbn [fst snd]. auto 10. }
    destruct (0 <? length (rd_data rd))%nat eqn:Elen.
    + rewrite (store_Write_full c sf o _ _ Hs Hd Hrd).
      set (o1 := mkSF _ _ _ _ _).
      set (c1 := with_disk _ _).
      assert (Hlen_le : Z.of_nat (length (rd_data rd))
                        <= Z.of_nat (length (match rd_end rd with
                                             | ReadMore => rd_data rd ++ body_bytes rest
                                             | _ => rd_data rd end))).
      { destruct (rd_end rd); rewrite ?length_app; lia. }
      assert (Ho1 : o1 = mkSF (sf_filePath o) (sf_fileOpen o)
                           (sf_size o + Z.of_nat (length (rd_data rd))) false (sf_err o)).
      { subst o1. f_equal. apply Int64_add_small.
        unfold Int64.in_range, Int64.min_int, Int64.max_int in *. lia. }
      assert (Hs1 : store c1 !! sf = Some o1).
      { subst c1. cbn [with_disk with_store store]. apply list_lookup_insert_eq, Hlt. }
      assert (Hd1 : disk c1 = <[sf_filePath o := content ++ rd_data rd]> (disk c)).
      { subst c1. cbn [with_disk disk]. unfold disk_append. rewrite Hdisk. reflexivity. }
      pose proof (Write_open w (rd_data rd) Hconn) as (Wf & Wb & Wc).
      pose proof (Write_header w (rd_data rd)) as Wh.
      assert (Wn : (Write w (rd_data rd)).1.2 = Z.of_nat (length (rd_data rd))).
      { apply Write_count, Hconn. }
      destruct (Write w (rd_data rd)) as [[w' n] failed]. cbn [fst snd] in *. subst failed n.
      rewrite Int64_add_small
        by (unfold Int64.in_range, Int64.min_int, Int64.max_int in *; lia).
      destruct (rd_end rd) eqn:Eend.
      * rewrite length_app in Hfit, Hfit2.
        destruct (IH c1 w' (tw + Z.of_nat (length (rd_data rd))) o1
                    (content ++ rd_data rd) Hs1 eq_refl) as (I1 & I2 & I3 & I4 & I5 & I6);
          try assumption; rewrite ?Ho1; cbn [sf_size sf_filePath]; try lia.
        { rewrite Hd1. apply lookup_insert_eq. }
        rewrite I1, I2, I3, I4, I5, I6, Wb, Wh, Hd1, Ho1.
        cbn [sf_filePath sf_fileOpen sf_size sf_err]. rewrite length_app, insert_insert_eq.
        rewrite <- !app_assoc.
        repeat split; try reflexivity; try lia. f_equal. f_equal. lia.
      * rewrite Ho1 in Hs1. exact (Hdone c1 w' (rd_data rd) Hs1 Hd1 Wb Wh None).
      * rewrite Ho1 in Hs1. exact (Hdone c1 w' (rd_data rd) Hs1 Hd1 Wb Wh (Some "read upstream")).
    + assert (Hnil : rd_data rd = []).
      { destruct (rd_data rd); [reflexivity|discriminate]. }
      rewrite Hnil in *. cbn [app] in *.
      destruct (rd_end rd) eqn:Eend.
      * apply (IH c w tw o content); assumption.
      * cbn. rewrite !app_nil_r, !Z.add_0_r, (insert_id _ _ _ Hdisk).
        repeat split; try reflexivity. rewrite Hs. destruct o. cbn in Hd. subst. reflexivity.
      * cbn. rewrite !app_nil_r, !Z.add_0_r, (insert_id _ _ _ Hdisk).
        repeat split; try reflexivity. rewrite Hs. destruct o. cbn in Hd. subst. reflexivity.
Qed.

(** ** Downloads that are not kept *)

Section Downloads.

Variable sha256_hex : string -> string.

(** [doFetchAndServe] on a 200 answer for a key that is not pending. *)
Lemma doFetchAndServe_new (p : Proxy) (w : ResponseWriter) (r : Request) (key : string)
    (lock : nat) (e : env) (cl : Z) (ct : string) (body : list read) :
  env_upstream e = UpResponse 200 cl ct body ->
  env_io e = IoOk ->
  pending (cache p) !! key = None ->
  let c1 := pendingCreated (cache p) key (filePath sha256_hex (cache p) key) in
  let ctype := if String.eqb ct "" then "application/octet-stream" else ct in
  let p1 := with_cache (sendUpstream p key) c1 in
  doFetchAndServe sha256_hex p w r key lock e =
    if String.eqb (Method r) MethodHead then
      (leaveFetch (finishLock (with_cache p1 (FailPending c1 key)) lock None) key true,
       missHeaders w ctype cl, None)
    else
      let '(p', w', err) :=
        finishDownload sha256_hex p1 (missHeaders w ctype cl) key lock e
          (mkDownload (length (store (cache p))) true ctype cl body) in
      (leaveFetch p' key true, w', err).
Proof.
  intros Hup Hio Hfresh c1 ctype p1.
  unfold doFetchAndServe, receiveUpstream, beginDownload. rewrite Hup.
  cbn [sends sendUpstream cache]. change (200 =? StatusNotFound) with false.
  change (negb (200 =? StatusOK)) with false. cbv iota.
  unfold GetOrCreatePending. rewrite Hfresh, Hio. unfold SF.New.
  destruct (String.eqb (Method r) MethodHead); reflexivity.
Qed.

Lemma pendingCreated_facts (c : Cache) (key path : string) :
  let c1 := pendingCreated c key path in
  store c1 !! length (store c) = Some (mkSF path true 0 false None) /\
  pending c1 !! key = Some (length (store c)) /\
  disk c1 !! path = Some [] /\
  fileCache c1 = fileCache c /\ notFoundCache c1 = notFoundCache c /\
  totalSize c1 = totalSize c /\ config c1 = config c.
Proof.
  cbn. split; [apply list_lookup_middle; reflexivity|].
  split; [apply lookup_insert_eq|]. split; [apply lookup_insert_eq|]. auto.
Qed.

(** What [FailPending] leaves of a download created for [key] whose
    streaming file [o] is still open. *)
Lemma FailPending_created (c c2 : Cache) (key path : string) (o : StreamingFile) :
  pending c !! key = None ->
  same_frame c2 (pendingCreated c key path) ->
  store c2 !! length (store c) = Some o -> sf_filePath o = path ->
  let c' := FailPending c2 key in
  pending c' = pending c /\ fileCache c' = fileCache c /\
  notFoundCache c' = notFoundCache c /\ totalSize c' = totalSize c /\
  disk c' = delete path (disk c2) /\
  store c' !! length (store c)
    = Some (mkSF path false (sf_size o) true (Some "download aborted")).
Proof.
  intros Hfresh (F1 & F2 & F3 & F4 & F5) Hs Hp.
  assert (Hpk : pending c2 !! key = Some (length (store c))).
  { rewrite F5. apply lookup_insert_eq. }
  cbv zeta. unfold FailPending, store_Abort. rewrite Hpk.
  cbn [with_pending store disk]. rewrite Hs. unfold SF.Abort.
  cbn [with_disk with_store with_pending pending fileCache notFoundCache totalSize disk store].
  rewrite F5, F2, F3, F4, Hp. cbn [pendingCreated pending fileCache notFoundCache totalSize].
  split; [apply delete_insert_id, Hfresh|].
  repeat split; try reflexivity.
  apply list_lookup_insert_eq. apply lookup_lt_is_Some. eauto.
Qed.

(** A download that [doFetchAndServe] has created for its key and that ends
    with an error, the cache file having taken every chunk. *)
Lemma download_error_discards (p : Proxy) (w : ResponseWriter) (r : Request) (key : string)
    (lock : nat) (e : env) (cl : Z) (ct : string) (body : list read) :
  env_upstream e = UpResponse 200 cl ct body ->
  env_io e = IoOk ->
  pending (cache p) !! key = None ->
  writes_accepted body ->
  (doFetchAndServe sha256_hex p w r key lock e).2 <> None ->
  let c := cache p in
  let c' := cache (doFetchAndServe sha256_hex p w r key lock e).1.1 in
  pending c' = pending c /\ fileCache c' = fileCache c /\
  notFoundCache c' = notFoundCache c /\ totalSize c' = totalSize c /\
  disk c' !! filePath sha256_hex c key = None /\
  exists o, store c' !! length (store c) = Some o /\
            sf_done o = true /\ sf_err o = Some "download aborted".
Proof.
  intros Hup Hio Hfresh Hacc Herr c c'. subst c'.
  rewrite (doFetchAndServe_new p w r key lock e cl ct body Hup Hio Hfresh) in Herr |- *.
  set (path := filePath sha256_hex (cache p) key) in *.
  set (c1 := pendingCreated (cache p) key path) in *.
  destruct (pendingCreated_facts (cache p) key path) as (S1 & S2 & S3 & _).
  fold c1 in S1, S2, S3.
  destruct (String.eqb (Method r) MethodHead); [exfalso; apply Herr; reflexivity|].
  unfold finishDownload in *. cbn [dl_sf dl_body dl_isNew dl_expectedSize dl_contentType cache with_cache sendUpstream] in *.
  set (w3 := missHeaders w _ cl) in *.
  destruct (streamBody_new_keeps key (length (store (cache p))) body c1 w3 0 _ S1 eq_refl Hacc)
    as (K1 & o' & K2 & K3 & K4 & K5).
  pose proof (streamBody_frame key (length (store (cache p))) body c1 w3 true 0) as Hfr.
  destruct (streamBody key (length (store (cache p))) body c1 w3 true 0)
    as [[[[c2 w'] isNew'] tw'] err'].
  cbn [fst snd] in K1, K2, Hfr. subst isNew'. cbn [sf_filePath] in K4.
  destruct (FailPending_created (cache p) c2 key path o' Hfresh Hfr K2 K4)
    as (R1 & R2 & R3 & R4 & R5 & R6).
  assert (Hgoal : let c' := FailPending c2 key in
            pending c' = pending c /\ fileCache c' = fileCache c /\
            notFoundCache c' = notFoundCache c /\ totalSize c' = totalSize c /\
            disk c' !! path = None /\
            exists o, store c' !! length (store c) = Some o /\
                      sf_done o = true /\ sf_err o = Some "download aborted").
  { cbv zeta. rewrite R5, lookup_delete_eq. repeat split; try assumption. eauto. }
  destruct err' as [err|].
  - cbn [fst snd cache finishLock leaveFetch with_cache]. exact Hgoal.
  - destruct ((cl >=? 0) && negb (tw' =? cl)).
    + cbn [fst snd cache finishLock leaveFetch with_cache]. exact Hgoal.
    + exfalso. apply Herr. reflexivity.
Qed.

(** X5. [doFetchAndServe] has created the download of a key
    (the origin answered 200, the key was not pending) and the cache file
    takes every chunk.  If the handler returns an error, whatever its cause
    (a failing read of the upstream body, a failing write to the client, a
    body whose length is not the announced one), the download leaves no
    trace: the pending map, the completed store, the negative cache and
    [totalSize] are as before, the streaming file is aborted and the cache
    file is unlinked. *)
Theorem failed_download_is_discarded (p : Proxy) (w : ResponseWriter) (r : Request)
    (key : string) (lock : nat) (e : env) (cl : Z) (ct : string) (body : list read)
    (Hup : env_upstream e = UpResponse 200 cl ct body)
    (Hio : env_io e = IoOk)
    (Hfresh : pending (cache p) !! key = None)
    (Hacc : writes_accepted body)
    (Herr : (doFetchAndServe sha256_hex p w r key lock e).2 <> None) :
  let c := cache p in
  let c' := cache (doFetchAndServe sha256_hex p w r key lock e).1.1 in
  pending c' = pending c /\ fileCache c' = fileCache c /\
  notFoundCache c' = notFoundCache c /\ totalSize c' = totalSize c /\
  disk c' !! filePath sha256_hex c key = None /\
  exists o, store c' !! length (store c) = Some o /\
            sf_done o = true /\ sf_err o = Some "download aborted".
Proof. exact (download_error_discards p w r key lock e cl ct body Hup Hio Hfresh Hacc Herr). Qed.


Lemma missHeaders_facts (w : ResponseWriter) (ct : string) (cl : Z) :
  rw_body (missHeaders w ct cl) = rw_body w /\
  rw_conn (missHeaders w ct cl) = rw_conn w /\
  rw_status (missHeaders w ct cl) = rw_status w /\
  rw_header (missHeaders w ct cl) !! "X-Cache" = Some "MISS" /\
  rw_header (missHeaders w ct cl) !! "Content-Type" = Some ct /\
  rw_header (missHeaders w ct cl) !! "Accept-Ranges" = Some "bytes" /\
  rw_header (missHeaders w ct cl) !! "Content-Length"
    = (if cl >=? 0 then Some (FormatInt cl) else rw_header w !! "Content-Length").
Proof.
  unfold missHeaders, SetHeader. destruct (cl >=? 0); cbn [rw_header rw_body rw_conn rw_status];
    repeat split; try reflexivity;
    rewrite ?lookup_insert_ne by discriminate; try apply lookup_insert_eq;
    rewrite ?lookup_insert_ne by discriminate; try apply lookup_insert_eq; reflexivity.
Qed.

(** X6. A download whose upstream body fails to read, or ends with a
    number of bytes other than the announced [Content-Length], is forwarded
    to the (connected) client as far as it goes, under [X-Cache: MISS], and
    then reported as an error ("read upstream", or "size mismatch" for a
    body that ended cleanly); it does not enter the completed store, its
    key leaves the pending map and its cache file is unlinked. *)
Theorem short_body_is_not_cached (p : Proxy) (w : ResponseWriter) (r : Request)
    (key : string) (lock : nat) (e : env) (cl : Z) (ct : string) (body : list read)
    (Hup : env_upstream e = UpResponse 200 cl ct body)
    (Hio : env_io e = IoOk)
    (Hfresh : pending (cache p) !! key = None)
    (Hacc : writes_accepted body)
    (Hget : String.eqb (Method r) MethodHead = false)
    (Hconn : rw_conn w = None)
    (Hfit : Z.of_nat (length (body_bytes body)) <= Int64.max_int)
    (Hbad : body_fails body = true \/
            (0 <= cl /\ cl <> Z.of_nat (length (body_bytes body)))) :
  let res := doFetchAndServe sha256_hex p w r key lock e in
  res.2 = Some (if body_fails body then "read upstream" else "size mismatch") /\
  rw_body res.1.2 = rw_body w ++ body_bytes body /\
  rw_header res.1.2 !! "X-Cache" = Some "MISS" /\
  pending (cache res.1.1) = pending (cache p) /\
  fileCache (cache res.1.1) = fileCache (cache p) /\
  totalSize (cache res.1.1) = totalSize (cache p) /\
  disk (cache res.1.1) !! filePath sha256_hex (cache p) key = None.
Proof.
  intros res.
  assert (Hres : res.2 = Some (if body_fails body then "read upstream" else "size mismatch") /\
                 rw_body res.1.2 = rw_body w ++ body_bytes body /\
                 rw_header res.1.2 !! "X-Cache" = Some "MISS").
  { subst res. rewrite (doFetchAndServe_new p w r key lock e cl ct body Hup Hio Hfresh), Hget.
    set (path := filePath sha256_hex (cache p) key).
    set (c1 := pendingCreated (cache p) key path).
    destruct (pendingCreated_facts (cache p) key path) as (S1 & S2 & S3 & _).
    fold c1 in S1, S2, S3.
    unfold finishDownload.
    cbn [dl_sf dl_body dl_isNew dl_expectedSize dl_contentType cache with_cache sendUpstream].
    set (w3 := missHeaders w _ cl).
    destruct (missHeaders_facts w (if String.eqb ct "" then "application/octet-stream" else ct) cl)
      as (M1 & M2 & _ & M4 & _). fold w3 in M1, M2, M4.
    destruct (streamBody_new_connected key (length (store (cache p))) body c1 w3 0 _ []
                S1 eq_refl S3 Hacc) as (B1 & B2 & B3 & B4 & _);
      cbn [sf_size]; try lia; try congruence.
    destruct (streamBody key (length (store (cache p))) body c1 w3 true 0)
      as [[[[c2 w'] isNew'] tw'] err'].
    cbn [fst snd] in B1, B2, B3, B4. subst tw' err'.
    destruct (body_fails body) eqn:Ef.
    - cbn [fst snd]. rewrite B3, B4, M1. auto.
    - destruct Hbad as [Hb|[H0 Hne]]; [discriminate|].
      assert (Hc : (cl >=? 0) && negb (0 + Z.of_nat (length (body_bytes body)) =? cl) = true).
      { apply andb_true_iff. split; [lia|]. apply negb_true_iff. lia. }
      rewrite Hc. cbn [fst snd]. rewrite B3, B4, M1. auto. }
  destruct Hres as (R1 & R2 & R3).
  destruct (download_error_discards p w r key lock e cl ct body Hup Hio Hfresh Hacc)
    as (D1 & D2 & _ & D4 & D5 & _).
  { fold res. rewrite R1. discriminate. }
  fold res in D1, D2, D4, D5. auto 10.
Qed.

Lemma streamBody_disconnect (key : string) (sf : nat) (body : list read) :
  forall (c : Cache) (w : ResponseWriter) (isNew : bool) (tw : Z) (m : nat),
  rw_conn w = Some m -> (m < length (body_bytes body))%nat ->
  (streamBody key sf body c w isNew tw).2 <> None.
Proof.
  induction body as [|rd rest IH]; intros c w isNew tw m Hconn Hm; [simpl in Hm; lia|].
  rewrite body_bytes_cons in Hm. cbn [streamBody].
  destruct (0 <? length (rd_data rd))%nat eqn:Elen.
  - set (ci := if isNew then _ else _). destruct ci as [c1 isNew1].
    unfold Write. destruct (WriteHeader w StatusOK) as [h st b cn] eqn:Ew.
    assert (Hcn : cn = Some m).
    { unfold WriteHeader in Ew. destruct (rw_status w); [rewrite Ew in Hconn|injection Ew as <- <- <- <-];
        assumption. }
    subst cn. cbn [rw_conn rw_header rw_status rw_body].
    destruct (length (rd_data rd) <=? m)%nat eqn:Ele.
    + apply Nat.leb_le in Ele. destruct (rd_end rd).
      * rewrite length_app in Hm. apply (IH _ _ _ _ (m - length (rd_data rd))%nat); [reflexivity|lia].
      * lia.
      * discriminate.
    + discriminate.
  - assert (Hnil : rd_data rd = []).
    { destruct (rd_data rd); [reflexivity|discriminate]. }
    rewrite Hnil in Hm. destruct (rd_end rd).
    + apply (IH _ _ _ _ m Hconn Hm).
    + simpl in Hm. lia.
    + discriminate.
Qed.

(** X7. When the client of the request that downloads a key goes
    away before the whole body has been written to it, the handler returns
    an error and the download is discarded, even if the origin delivered
    the whole body: nothing is added to the completed store, the key leaves
    the pending map and the cache file is unlinked. *)
Theorem client_disconnect_aborts_download (p : Proxy) (w : ResponseWriter) (r : Request)
    (key : string) (lock : nat) (e : env) (cl : Z) (ct : string) (body : list read) (m : nat)
    (Hup : env_upstream e = UpResponse 200 cl ct body)
    (Hio : env_io e = IoOk)
    (Hfresh : pending (cache p) !! key = None)
    (Hacc : writes_accepted body)
    (Hget : String.eqb (Method r) MethodHead = false)
    (Hconn : rw_conn w = Some m)
    (Hgone : (m < length (body_bytes body))%nat) :
  let res := doFetchAndServe sha256_hex p w r key lock e in
  res.2 <> None /\
  pending (cache res.1.1) = pending (cache p) /\
  fileCache (cache res.1.1) = fileCache (cache p) /\
  totalSize (cache res.1.1) = totalSize (cache p) /\
  disk (cache res.1.1) !! filePath sha256_hex (cache p) key = None.
Proof.
  intros res.
  assert (Herr : res.2 <> None).
  { subst res. rewrite (doFetchAndServe_new p w r key lock e cl ct body Hup Hio Hfresh), Hget.
    unfold finishDownload.
    cbn [dl_sf dl_body dl_isNew dl_expectedSize dl_contentType cache with_cache sendUpstream].
    set (c1 := pendingCreated _ _ _). set (w3 := missHeaders w _ cl).
    assert (Hc3 : rw_conn w3 = Some m).
    { subst w3. rewrite (proj1 (proj2 (missHeaders_facts _ _ _))). exact Hconn. }
    pose proof (streamBody_disconnect key (length (store (cache p))) body c1 w3 true 0 m
                  Hc3 Hgone) as Hs.
    destruct (streamBody key (length (store (cache p))) body c1 w3 true 0)
      as [[[[c2 w'] isNew'] tw'] [err|]]; [|exfalso; apply Hs; reflexivity].
    cbn [fst snd]. discriminate. }
  split; [exact Herr|].
  destruct (download_error_discards p w r key lock e cl ct body Hup Hio Hfresh Hacc Herr)
    as (D1 & D2 & _ & D4 & D5 & _). auto.
Qed.

(** X8. A HEAD request for a key that is not pending, answered 200
    by the origin: the proxy has sent a GET to the origin, answers with the
    headers of a miss ([X-Cache: MISS], the announced [Content-Length]) and
    writes neither status nor body itself; the body of the origin is not
    read and nothing is cached: the pending map, the completed store, the
    negative cache and [totalSize] are as before, and the cache file it
    created for the key is unlinked (with whatever that path held). *)
Theorem head_miss_caches_nothing (p : Proxy) (w : ResponseWriter) (r : Request)
    (key : string) (lock : nat) (e : env) (cl : Z) (ct : string) (body : list read)
    (Hup : env_upstream e = UpResponse 200 cl ct body)
    (Hio : env_io e = IoOk)
    (Hfresh : pending (cache p) !! key = None)
    (Hhead : Method r = MethodHead) :
  let res := doFetchAndServe sha256_hex p w r key lock e in
  let path := filePath sha256_hex (cache p) key in
  res.2 = None /\
  issued res.1.1 = issued p ++ [key] /\
  rw_body res.1.2 = rw_body w /\ rw_status res.1.2 = rw_status w /\
  rw_header res.1.2 !! "X-Cache" = Some "MISS" /\
  rw_header res.1.2 !! "Content-Length"
    = (if cl >=? 0 then Some (FormatInt cl) else rw_header w !! "Content-Length") /\
  pending (cache res.1.1) = pending (cache p) /\
  fileCache (cache res.1.1) = fileCache (cache p) /\
  notFoundCache (cache res.1.1) = notFoundCache (cache p) /\
  totalSize (cache res.1.1) = totalSize (cache p) /\
  disk (cache res.1.1) = delete path (disk (cache p)).
Proof.
  intros res path. subst res.
  rewrite (doFetchAndServe_new p w r key lock e cl ct body Hup Hio Hfresh), Hhead.
  change (String.eqb MethodHead MethodHead) with true. cbv iota.
  fold path. set (c1 := pendingCreated (cache p) key path).
  destruct (pendingCreated_facts (cache p) key path) as (S1 & _). fold c1 in S1.
  destruct (FailPending_created (cache p) c1 key path _ Hfresh
              ltac:(unfold same_frame; auto) S1 eq_refl) as (R1 & R2 & R3 & R4 & R5 & _).
  destruct (missHeaders_facts w (if String.eqb ct "" then "application/octet-stream" else ct) cl)
    as (M1 & _ & M3 & M4 & _ & _ & M7).
  cbn [fst snd cache finishLock leaveFetch with_cache issued sendUpstream].
  rewrite R1, R2, R3, R4, R5.
  repeat split; try assumption; try reflexivity.
  subst c1. cbn [pendingCreated disk]. apply delete_insert_eq.
Qed.

End Downloads.

Lemma short_body_is_not_cached_witness :
  let r := mkRequest "GET" "/k" "" in
  let body := [mkRead [x01; x02]%byte ReadEOF 2] in
  let e := mkEnv 1 (UpResponse 200 4 "text/plain" body) IoOk [] in
  let res := doFetchAndServe hex_name example_proxy (newResponseWriter None) r "/k" 0 e in
  env_upstream e = UpResponse 200 4 "text/plain" body /\
  writes_accepted body /\
  (0 <= 4 /\ 4 <> Z.of_nat (length (body_bytes body))) /\
  res.2 = Some "size mismatch" /\
  rw_body res.1.2 = [x01; x02]%byte /\
  fileCache (cache res.1.1) = fileCache (cache example_proxy).
Proof.
  intros r body e res.
  assert (H1 : env_upstream e = UpResponse 200 4 "text/plain" body) by reflexivity.
  assert (H2 : writes_accepted body) by (repeat constructor).
  assert (H3 : 0 <= 4 /\ 4 <> Z.of_nat (length (body_bytes body))) by (simpl; lia).
  assert (H4 : Z.of_nat (length (body_bytes body)) <= Int64.max_int)
    by (vm_compute; discriminate).
  destruct (short_body_is_not_cached hex_name example_proxy (newResponseWriter None) r "/k"
              0%nat e 4 "text/plain" body H1 eq_refl eq_refl H2 eq_refl eq_refl H4
              (or_intror H3)) as (R1 & R2 & _ & _ & R5 & _).
  split; [exact H1|]. split; [exact H2|]. split; [exact H3|].
  split; [exact R1|]. split; [exact R2|exact R5].
Defined.

Lemma failed_download_is_discarded_witness :
  let r := mkRequest "GET" "/k" "" in
  let body := [mkRead [x01; x02]%byte ReadMore 2; mkRead [] ReadFailed 0] in
  let e := mkEnv 1 (UpResponse 200 (-1) "text/plain" body) IoOk [] in
  let res := doFetchAndServe hex_name example_proxy (newResponseWriter None) r "/k" 0 e in
  env_upstream e = UpResponse 200 (-1) "text/plain" body /\
  writes_accepted body /\
  res.2 <> None /\
  pending (cache res.1.1) = pending (cache example_proxy) /\
  disk (cache res.1.1) !! filePath hex_name (cache example_proxy) "/k" = None.
Proof.
  intros r body e res.
  assert (H1 : env_upstream e = UpResponse 200 (-1) "text/plain" body) by reflexivity.
  assert (H2 : writes_accepted body) by (repeat constructor).
  assert (H3 : res.2 <> None) by (vm_compute; discriminate).
  destruct (failed_download_is_discarded hex_name example_proxy (newResponseWriter None) r "/k"
              0%nat e (-1) "text/plain" body H1 eq_refl eq_refl H2 H3) as (R1 & _ & _ & _ & R5 & _).
  split; [exact H1|]. split; [exact H2|]. split; [exact H3|]. split; [exact R1|exact R5].
Defined.

Lemma client_disconnect_aborts_download_witness :
  let r := mkRequest "GET" "/k" "" in
  let body := [mkRead [x01; x02]%byte ReadMore 2; mkRead [x03; x04]%byte ReadEOF 2] in
  let e := mkEnv 1 (UpResponse 200 4 "text/plain" body) IoOk [] in
  let res := doFetchAndServe hex_name example_proxy (newResponseWriter (Some 3%nat)) r "/k" 0 e in
  env_upstream e = UpResponse 200 4 "text/plain" body /\
  writes_accepted body /\
  (3 < length (body_bytes body))%nat /\
  res.2 <> None /\
  fileCache (cache res.1.1) = fileCache (cache example_proxy) /\
  disk (cache res.1.1) !! filePath hex_name (cache example_proxy) "/k" = None.
Proof.
  intros r body e res.
  assert (H1 : env_upstream e = UpResponse 200 4 "text/plain" body) by reflexivity.
  assert (H2 : writes_accepted body) by (repeat constructor).
  assert (H3 : (3 < length (body_bytes body))%nat) by (simpl; lia).
  destruct (client_disconnect_aborts_download hex_name example_proxy
              (newResponseWriter (Some 3%nat)) r "/k" 0%nat e 4 "text/plain" body 3%nat
              H1 eq_refl eq_refl H2 eq_refl eq_refl H3) as (R1 & _ & R3 & _ & R5).
  split; [exact H1|]. split; [exact H2|]. split; [exact H3|].
  split; [exact R1|]. split; [exact R3|exact R5].
Defined.

Lemma head_miss_caches_nothing_witness :
  let r := mkRequest "HEAD" "/k" "" in
  let e := mkEnv 1 (example_origin 2 2) IoOk [] in
  let res := doFetchAndServe hex_name example_proxy (newResponseWriter None) r "/k" 0 e in
  env_upstream e = UpResponse 200 4 "text/plain"
                     [mkRead [x01; x02]%byte ReadMore 2; mkRead [x03; x04]%byte ReadEOF 2] /\
  Method r = MethodHead /\
  issued res.1.1 = ["/k"] /\
  rw_body res.1.2 = [] /\
  pending (cache res.1.1) = pending (cache example_proxy) /\
  fileCache (cache res.1.1) = fileCache (cache example_proxy).
Proof.
  intros r e res.
  assert (H1 : env_upstream e = UpResponse 200 4 "text/plain"
                 [mkRead [x01; x02]%byte ReadMore 2; mkRead [x03; x04]%byte ReadEOF 2])
    by reflexivity.
  assert (H2 : Method r = MethodHead) by reflexivity.
  destruct (head_miss_caches_nothing hex_name example_proxy (newResponseWriter None) r "/k"
              0%nat e 4 "text/plain" _ H1 eq_refl eq_refl H2)
    as (_ & R2 & R3 & _ & _ & _ & R7 & R8 & _).
  split; [exact H1|]. split; [exact H2|]. split; [exact R2|]. split; [exact R3|].
  split; [exact R7|exact R8].
Defined.

(** ** Cache hits *)

Lemma CopyBuffer_loop_open (fuel : nat) :
  forall (w : ResponseWriter) (src : list byte),
  rw_conn w = None -> (length src < fuel)%nat ->
  (CopyBuffer_loop fuel w src).2 = false /\
  rw_body (CopyBuffer_loop fuel w src).1 = rw_body w ++ src /\
  rw_header (CopyBuffer_loop fuel w src).1 = rw_header w.
Proof.
  induction fuel as [|f IH]; intros w src Hconn Hlen; [lia|].
  destruct src as [|x xs].
  - cbn [CopyBuffer_loop fst snd]. rewrite app_nil_r. auto.
  - cbn [CopyBuffer_loop].
    pose proof (Write_open w (take bufSize (x :: xs)) Hconn) as (Wf & Wb & Wc).
    pose proof (Write_header w (take bufSize (x :: xs))) as Wh.
    destruct (Write w (take bufSize (x :: xs))) as [[w' n] failed].
    cbn [fst snd] in Wf, Wb, Wc, Wh. subst failed.
    destruct (IH w' (drop bufSize (x :: xs)) Wc) as (I1 & I2 & I3).
    { rewrite length_drop. pose proof bufSize_pos. simpl length in *. lia. }
    split; [exact I1|]. split; [|congruence].
    rewrite I2, Wb, <- app_assoc, take_drop. reflexivity.
Qed.

Lemma CopyBuffer_open (w : ResponseWriter) (src : list byte) :
  rw_conn w = None ->
  (CopyBuffer w src).2 = false /\
  rw_body (CopyBuffer w src).1 = rw_body w ++ src /\
  rw_header (CopyBuffer w src).1 = rw_header w.
Proof. intros H. unfold CopyBuffer. apply CopyBuffer_loop_open; [exact H|lia]. Qed.

Lemma IsNotFound_absent (c : Cache) (key : string) (now : Z) :
  LRU.lookup (notFoundCache c) key = None ->
  IsNotFound c key now = (with_notFoundCache c (notFoundCache c), false).
Proof. intros H. unfold IsNotFound, LRU.Get. rewrite H. reflexivity. Qed.

(** [Get] on a key that the completed store holds, not expired, and that
    the negative cache does not hold. *)
Lemma Get_hit (c : Cache) (key : string) (now : Z) (x : LRU.entry CacheEntry) :
  LRU.lookup (notFoundCache c) key = None ->
  LRU.capacity (fileCache c) = 0%nat ->
  LRU.lookup (fileCache c) key = Some x ->
  LRU.expired now x = false ->
  (Get c key now).2 = Some (LRU.e_value x) /\
  disk (Get c key now).1 = disk c /\
  pending (Get c key now).1 = pending c /\
  totalSize (Get c key now).1 = totalSize c /\
  notFoundCache (Get c key now).1 = notFoundCache c /\
  config (Get c key now).1 = config c /\
  LRU.items (fileCache (Get c key now).1)
    = LRU.mkEntry key (LRU.e_value x) (now + LRU.ttl (fileCache c))
      :: LRU.others (fileCache c) key.
Proof.
  intros Hneg Hcap Hl Hlive. unfold Get, LRU.Get. rewrite Hneg.
  cbn [with_notFoundCache fileCache]. rewrite Hl, Hlive.
  destruct (lookup_key _ _ _ Hl) as [Hk _].
  rewrite fileCache_Add_unbounded by exact Hcap.
  cbn [fst snd with_fileCache with_notFoundCache fileCache disk pending totalSize
       notFoundCache config LRU.items LRU.with_items LRU.ttl].
  change (LRU.mkLRU (LRU.capacity (fileCache c)) (LRU.ttl (fileCache c))
            (x :: LRU.others (fileCache c) key))
    with (LRU.with_items (fileCache c) (x :: LRU.others (fileCache c) key)).
  rewrite (others_front _ key x Hk). destruct c as [cf fc nf ts pd st dk]. cbn.
  destruct nf. repeat split; reflexivity.
Qed.

Section Hits.

Variable sha256_hex : string -> string.

Lemma handleRequest_hit (p : Proxy) (w : ResponseWriter) (r : Request) (key : string)
    (e : env) (x : LRU.entry CacheEntry) (file : list byte) :
  LRU.lookup (notFoundCache (cache p)) key = None ->
  LRU.capacity (fileCache (cache p)) = 0%nat ->
  LRU.lookup (fileCache (cache p)) key = Some x ->
  LRU.expired (env_now e) x = false ->
  disk (cache p) !! FilePath (LRU.e_value x) = Some file ->
  Z.of_nat (length file) = Size (LRU.e_value x) ->
  Range r = "" ->
  rw_conn w = None ->
  let res := handleRequest sha256_hex p w r key e in
  res.2 = None /\
  issued res.1.1 = issued p /\ inflight res.1.1 = inflight p /\
  disk (cache res.1.1) = disk (cache p) /\
  pending (cache res.1.1) = pending (cache p) /\
  totalSize (cache res.1.1) = totalSize (cache p) /\
  rw_header res.1.2 =
    <["Content-Length" := FormatInt (Size (LRU.e_value x))]>
      (<["X-Cache" := "HIT"]>
         (<["Accept-Ranges" := "bytes"]>
            (<["Content-Type" := ContentType (LRU.e_value x)]> (rw_header w)))) /\
  rw_body res.1.2 =
    (if String.eqb (Method r) MethodHead then rw_body w else rw_body w ++ file) /\
  LRU.lookup (fileCache (cache res.1.1)) key
    = Some (LRU.mkEntry key (LRU.e_value x) (env_now e + LRU.ttl (fileCache (cache p)))).
Proof.
  intros Hneg Hcap Hl Hlive Hfile Hsize Hrange Hconn res. subst res.
  unfold handleRequest, lookupCaches.
  rewrite (IsNotFound_absent _ _ _ Hneg).
  set (c0 := with_notFoundCache (cache p) (notFoundCache (cache p))).
  destruct (Get_hit c0 key (env_now e) x Hneg Hcap Hl Hlive)
    as (G1 & G2 & G3 & G4 & G5 & G6 & G7).
  destruct (Get c0 key (env_now e)) as [c1 hit]. cbn [fst snd] in G1, G2, G3, G4, G5, G6, G7.
  subst hit.
  assert (Hval : validateCacheFile c1 (LRU.e_value x) = true).
  { unfold validateCacheFile, disk_stat. rewrite G2. cbn [c0 with_notFoundCache disk].
    rewrite Hfile. apply Z.eqb_eq, Hsize. }
  rewrite Hval. unfold serveFromCache. rewrite G2. cbn [c0 with_notFoundCache disk].
  rewrite Hfile, Hrange. cbn [String.eqb negb].
  set (w4 := SetHeader _ "Content-Length" _).
  assert (Hc4 : rw_conn w4 = None) by exact Hconn.
  assert (Hl1 : LRU.lookup (fileCache c1) key
                = Some (LRU.mkEntry key (LRU.e_value x)
                          (env_now e + LRU.ttl (fileCache (cache p))))).
  { unfold LRU.lookup. rewrite G7. cbn [List.find]. unfold LRU.has_key at 1.
    cbn [LRU.e_key]. rewrite String.eqb_refl. reflexivity. }
  destruct (String.eqb (Method r) MethodHead).
  - cbn [fst snd with_cache cache issued inflight]. rewrite G2, G3, G4.
    repeat split; try reflexivity. exact Hl1.
  - destruct (CopyBuffer_open w4 file Hc4) as (C1 & C2 & C3).
    destruct (CopyBuffer w4 file) as [w5 failed]. cbn [fst snd] in C1, C2, C3. subst failed.
    cbn [fst snd with_cache cache issued inflight]. rewrite G2, G3, G4, C2, C3.
    repeat split; try reflexivity. exact Hl1.
Qed.

(** X9. A request without Range header for a key that the completed
    store holds, its deadline not passed, its file on disk with the
    recorded size, and that the negative cache does not hold, is answered
    by [handleRequest] from the file: no error, no request to the origin,
    [Content-Type] of the entry, [Accept-Ranges: bytes], [X-Cache: HIT],
    [Content-Length] the recorded size and, unless the method is HEAD, the
    content of the file as body (for HEAD the same headers and no body).
    The disk, the pending map and [totalSize] are unchanged, and the
    deadline of the entry is renewed to now plus the time to live. *)
Theorem cache_hit_is_served_locally (p : Proxy) (w : ResponseWriter) (r : Request)
    (key : string) (e : env) (x : LRU.entry CacheEntry) (file : list byte)
    (Hneg : LRU.lookup (notFoundCache (cache p)) key = None)
    (Hcap : LRU.capacity (fileCache (cache p)) = 0%nat)
    (Hentry : LRU.lookup (fileCache (cache p)) key = Some x)
    (Hlive : env_now e <= LRU.e_expires x)
    (Hfile : disk (cache p) !! FilePath (LRU.e_value x) = Some file)
    (Hsize : Z.of_nat (length file) = Size (LRU.e_value x))
    (Hrange : Range r = "")
    (Hconn : rw_conn w = None) :
  let res := handleRequest sha256_hex p w r key e in
  res.2 = None /\
  issued res.1.1 = issued p /\ inflight res.1.1 = inflight p /\
  disk (cache res.1.1) = disk (cache p) /\
  pending (cache res.1.1) = pending (cache p) /\
  totalSize (cache res.1.1) = totalSize (cache p) /\
  rw_header res.1.2 =
    <["Content-Length" := FormatInt (Size (LRU.e_value x))]>
      (<["X-Cache" := "HIT"]>
         (<["Accept-Ranges" := "bytes"]>
            (<["Content-Type" := ContentType (LRU.e_value x)]> (rw_header w)))) /\
  rw_body res.1.2 =
    (if String.eqb (Method r) MethodHead then rw_body w else rw_body w ++ file) /\
  LRU.lookup (fileCache (cache res.1.1)) key
    = Some (LRU.mkEntry key (LRU.e_value x) (env_now e + LRU.ttl (fileCache (cache p)))).
Proof.
  apply (handleRequest_hit p w r key e x file); try assumption.
  unfold LRU.expired. destruct (env_now e >? LRU.e_expires x) eqn:E; [lia|reflexivity].
Qed.

End Hits.

Lemma cache_hit_is_served_locally_witness :
  let p := mkProxy example_store ∅ [] [] [] in
  let r := mkRequest "GET" "/b" "" in
  let e := mkEnv 500 UpTransportError IoOk [] in
  let res := handleRequest hex_name p (newResponseWriter None) r "/b" e in
  LRU.lookup (fileCache (cache p)) "/b" = Some (LRU.mkEntry "/b" entry_b 1002) /\
  env_now e <= 1002 /\
  res.2 = None /\ issued res.1.1 = [] /\
  rw_body res.1.2 = [x01; x02; x03]%byte /\
  rw_header res.1.2 !! "X-Cache" = Some "HIT".
Proof.
  intros p r e res.
  assert (H1 : LRU.lookup (fileCache (cache p)) "/b" = Some (LRU.mkEntry "/b" entry_b 1002))
    by reflexivity.
  assert (H2 : env_now e <= LRU.e_expires (LRU.mkEntry "/b" entry_b 1002))
    by (vm_compute; discriminate).
  destruct (cache_hit_is_served_locally hex_name p (newResponseWriter None) r "/b" e
              (LRU.mkEntry "/b" entry_b 1002) [x01; x02; x03]%byte
              eq_refl eq_refl H1 H2 eq_refl eq_refl eq_refl eq_refl)
    as (R1 & R2 & _ & _ & _ & _ & R7 & R8 & _).
  split; [exact H1|]. split; [exact H2|]. split; [exact R1|]. split; [exact R2|].
  split; [exact R8|]. subst res. rewrite R7. reflexivity.
Defined.

(** ** From a miss to a hit *)

Lemma unlink_all_other (l : list (LRU.entry CacheEntry)) (d : Disk) (path : string) :
  Forall (fun x => FilePath (LRU.e_value x) <> path) l ->
  unlink_all l d !! path = d !! path.
Proof.
  induction 1 as [|x l Hx _ IH]; [reflexivity|].
  cbn [unlink_all foldr]. rewrite lookup_delete_ne by exact Hx. exact IH.
Qed.

Section MissThenHit.

Variable sha256_hex : string -> string.

Lemma filePath_config (c c' : Cache) (key : string) :
  config c' = config c -> filePath sha256_hex c' key = filePath sha256_hex c key.
Proof. unfold filePath. intros ->. reflexivity. Qed.

(** [CompletePending] on a pending key, the completed store being as
    [NewCache] builds it. *)
Lemma CompletePending_fresh (c : Cache) (key : string) (size : Z) (ct : string) (now : Z)
    (sf : nat) :
  pending c !! key = Some sf -> completed_ok c -> 0 <= size ->
  totalSize c + size <= Int64.max_int ->
  let c' := CompletePending sha256_hex c key size ct now in
  exists keep victims,
    LRU.items (fileCache c) = keep ++ victims /\
    LRU.items (fileCache c') =
      LRU.mkEntry key (mkCacheEntry key (filePath sha256_hex c key) size ct now)
                  (now + LRU.ttl (fileCache c))
      :: List.filter (fun e => negb (LRU.has_key key e)) keep /\
    LRU.capacity (fileCache c') = 0%nat /\
    disk c' = unlink_all victims (disk c) /\
    notFoundCache c' = notFoundCache c /\
    pending c' = delete key (pending c).
Proof.
  intros Hpending (Hcap & Httl & Hentries & Hsum) Hsize Hfit c'. subst c'.
  unfold CompletePending. rewrite Hpending.
  set (c1 := store_Complete (with_pending c (delete key (pending c))) sf).
  unfold evictIfNeeded.
  destruct (evictIfNeeded_loop_spec (S (LRU.Len (fileCache c1))) c1 size)
    as (keep & victims & Hk & _ & _ & Hres);
    try (subst c1; cbn; unfold LRU.Len; first [lia | assumption]).
  rewrite Hres. clear Hres. exists keep, victims.
  subst c1. cbn [store_Complete with_pending with_store config fileCache notFoundCache
                 totalSize pending store disk] in *.
  split; [exact Hk|].
  unfold fileCache_Add. cbn [fileCache].
  rewrite LRU_Add_unbounded by exact Hcap.
  unfold run_evictions, with_fileCache, with_totalSize, filePath.
  cbn [fold_left config fileCache notFoundCache totalSize pending store disk
       LRU.items LRU.with_items LRU.ttl LRU.capacity].
  repeat split; try reflexivity. exact Hcap.
Qed.

(** X10. A GET for a key that is neither pending, nor in the negative
    cache, nor the owner of a file of the completed store; the origin
    answers 200 with a body that ends cleanly and has the announced length
    (or none announced); the cache file takes every chunk and the client
    stays connected.  Then the client receives the body under
    [X-Cache: MISS], the cache file holds exactly the body, the key leaves
    the pending map, and a second GET for the key within the time to live
    is answered by [handleRequest] with the same bytes under
    [X-Cache: HIT], with the content type of the origin (or
    [application/octet-stream]) and the length as [Content-Length], without
    a second request to the origin. *)
Theorem download_then_hit (p : Proxy) (w w2 : ResponseWriter) (r r2 : Request)
    (key : string) (lock : nat) (e e2 : env) (cl : Z) (ct : string) (body : list read)
    (Hup : env_upstream e = UpResponse 200 cl ct body)
    (Hio : env_io e = IoOk)
    (Hfresh : pending (cache p) !! key = None)
    (Hneg : LRU.lookup (notFoundCache (cache p)) key = None)
    (Hok : completed_ok (cache p))
    (Hpath : Forall (fun x => FilePath (LRU.e_value x) <> filePath sha256_hex (cache p) key)
                    (LRU.items (fileCache (cache p))))
    (Hacc : writes_accepted body)
    (Hclean : body_fails body = false)
    (Hlen : cl < 0 \/ cl = Z.of_nat (length (body_bytes body)))
    (Hfit : totalSize (cache p) + Z.of_nat (length (body_bytes body)) <= Int64.max_int)
    (Hget : String.eqb (Method r) MethodHead = false)
    (Hconn : rw_conn w = None)
    (Hget2 : String.eqb (Method r2) MethodHead = false)
    (Hrange2 : Range r2 = "")
    (Hconn2 : rw_conn w2 = None)
    (Hlater : env_now e2 <= env_now e + LRU.ttl (fileCache (cache p))) :
  let first := doFetchAndServe sha256_hex p w r key lock e in
  let second := handleRequest sha256_hex first.1.1 w2 r2 key e2 in
  let ctype := if String.eqb ct "" then "application/octet-stream" else ct in
  first.2 = None /\
  rw_body first.1.2 = rw_body w ++ body_bytes body /\
  rw_header first.1.2 !! "X-Cache" = Some "MISS" /\
  issued first.1.1 = issued p ++ [key] /\
  pending (cache first.1.1) = pending (cache p) /\
  disk (cache first.1.1) !! filePath sha256_hex (cache p) key = Some (body_bytes body) /\
  second.2 = None /\
  rw_body second.1.2 = rw_body w2 ++ body_bytes body /\
  rw_header second.1.2 !! "X-Cache" = Some "HIT" /\
  rw_header second.1.2 !! "Content-Type" = Some ctype /\
  rw_header second.1.2 !! "Content-Length"
    = Some (FormatInt (Z.of_nat (length (body_bytes body)))) /\
  issued second.1.1 = issued p ++ [key].
Proof.
  intros first second ctype.
  set (path := filePath sha256_hex (cache p) key) in *.
  set (len := Z.of_nat (length (body_bytes body))) in *.
  set (c1 := pendingCreated (cache p) key path).
  destruct (pendingCreated_facts (cache p) key path)
    as (S1 & S2 & S3 & S4 & S5 & S6 & S7). fold c1 in S1, S2, S3, S4, S5, S6, S7.
  set (w3 := missHeaders w ctype cl).
  destruct (missHeaders_facts w ctype cl) as (M1 & M2 & _ & M4 & _). fold w3 in M1, M2, M4.
  destruct Hok as (Hcap & Httl & Hentries & Hsum).
  pose proof (sum_sizes_nonneg _ Hentries) as Hnn.
  assert (Hlen0 : 0 <= len) by (subst len; lia).
  destruct (streamBody_new_connected key (length (store (cache p))) body c1 w3 0 _ []
              S1 eq_refl S3 Hacc) as (B1 & B2 & B3 & B4 & B5 & B6);
    cbn [sf_size]; try (fold len; lia); try congruence.
  pose proof (streamBody_frame key (length (store (cache p))) body c1 w3 true 0) as Hfr.
  destruct (streamBody_new_keeps key (length (store (cache p))) body c1 w3 0 _ S1 eq_refl Hacc)
    as (K1 & _).
  assert (Hfirst : exists c2 w',
            first = (leaveFetch (finishLock
                       (with_cache (with_cache (with_cache (sendUpstream p key) c1) c2)
                          (CompletePending sha256_hex c2 key len ctype (env_now e)))
                       lock None) key true, w', None) /\
            same_frame c2 c1 /\
            rw_body w' = rw_body w ++ body_bytes body /\
            rw_header w' = rw_header w3 /\
            disk c2 = <[path := body_bytes body]> (disk c1)).
  { subst first. rewrite (doFetchAndServe_new sha256_hex p w r key lock e cl ct body Hup Hio Hfresh), Hget.
    fold path c1 ctype w3. unfold finishDownload.
    cbn [dl_sf dl_body dl_isNew dl_expectedSize dl_contentType cache with_cache sendUpstream].
    destruct (streamBody key (length (store (cache p))) body c1 w3 true 0)
      as [[[[c2 w'] isNew'] tw'] err'].
    cbn [fst snd] in B1, B2, B3, B4, B5, B6, Hfr, K1. subst isNew' tw' err'.
    rewrite Hclean. fold len.
    assert (Hc : (cl >=? 0) && negb (0 + len =? cl) = false).
    { destruct Hlen as [Hl|Hl]; [|rewrite Hl; fold len].
      - apply andb_false_iff. left. lia.
      - apply andb_false_iff. right. apply negb_false_iff. lia. }
    rewrite Hc. exists c2, w'. cbn [sf_filePath] in B6. rewrite Z.add_0_l.
    cbn [fst snd cache with_cache]. rewrite M1 in B3. auto 10. }
  destruct Hfirst as (c2 & w' & Hfirst & (F1 & F2 & F3 & F4 & F5) & Hb1 & Hh1 & Hd2).
  assert (Hp2 : pending c2 !! key = Some (length (store (cache p)))).
  { rewrite F5. exact S2. }
  assert (Hok2 : completed_ok c2).
  { unfold completed_ok. rewrite F2, F4, S4, S6. auto. }
  destruct (CompletePending_fresh c2 key len ctype (env_now e) _ Hp2 Hok2 Hlen0)
    as (keep & victims & Hk & Hitems & Hcap3 & Hdisk3 & Hnf3 & Hpend3).
  { rewrite F4, S6. exact Hfit. }
  set (c3 := CompletePending sha256_hex c2 key len ctype (env_now e)) in *.
  assert (Hc3 : cache first.1.1 = c3) by (rewrite Hfirst; reflexivity).
  assert (Hfp : filePath sha256_hex c2 key = path).
  { apply filePath_config. rewrite F1. exact S7. }
  rewrite Hfp in Hitems.
  assert (Hvict : Forall (fun x => FilePath (LRU.e_value x) <> path) victims).
  { rewrite F2, S4 in Hk. rewrite Hk in Hpath. apply Forall_app in Hpath. tauto. }
  assert (Hfile3 : disk c3 !! path = Some (body_bytes body)).
  { rewrite Hdisk3, (unlink_all_other _ _ _ Hvict), Hd2. apply lookup_insert_eq. }
  set (x := LRU.mkEntry key (mkCacheEntry key path len ctype (env_now e))
                        (env_now e + LRU.ttl (fileCache c2))) in *.
  assert (Hl3 : LRU.lookup (fileCache c3) key = Some x).
  { unfold LRU.lookup. rewrite Hitems. cbn [List.find]. unfold LRU.has_key at 1.
    subst x. cbn [LRU.e_key]. rewrite String.eqb_refl. reflexivity. }
  assert (Hlive : LRU.expired (env_now e2) x = false).
  { unfold LRU.expired. subst x. cbn [LRU.e_expires]. rewrite F2, S4.
    destruct (env_now e2 >? env_now e + LRU.ttl (fileCache (cache p))) eqn:E; [lia|reflexivity]. }
  destruct (handleRequest_hit sha256_hex first.1.1 w2 r2 key e2 x (body_bytes body))
    as (H1 & H2 & _ & _ & _ & _ & H7 & H8 & _);
    rewrite ?Hc3; try assumption; try reflexivity.
  { rewrite Hnf3, F3, S5. exact Hneg. }
  fold second in H1, H2, H7, H8. rewrite Hget2 in H8.
  assert (Hiss : issued first.1.1 = issued p ++ [key]) by (rewrite Hfirst; reflexivity).
  split; [rewrite Hfirst; reflexivity|].
  split; [rewrite Hfirst; exact Hb1|].
  split; [rewrite Hfirst; cbn [fst snd]; rewrite Hh1; exact M4|].
  split; [exact Hiss|].
  split; [rewrite ?Hc3, Hpend3, F5; cbn [c1 pendingCreated pending];
          apply delete_insert_id, Hfresh|].
  split; [rewrite ?Hc3; exact Hfile3|].
  split; [exact H1|]. split; [exact H8|].
  rewrite H7, H2. subst x. cbn [LRU.e_value Size ContentType].
  split; [rewrite lookup_insert_ne by discriminate; apply lookup_insert_eq|].
  split; [rewrite !lookup_insert_ne by discriminate; apply lookup_insert_eq|].
  split; [apply lookup_insert_eq|exact Hiss].
Qed.

End MissThenHit.

Lemma download_then_hit_witness :
  let r := mkRequest "GET" "/k" "" in
  let e := mkEnv 1 (example_origin 2 2) IoOk [] in
  let e2 := mkEnv 900 UpTransportError IoOk [] in
  let first := doFetchAndServe hex_name example_proxy (newResponseWriter None) r "/k" 0 e in
  let second := handleRequest hex_name first.1.1 (newResponseWriter None) r "/k" e2 in
  completed_ok (cache example_proxy) /\
  writes_accepted [mkRead [x01; x02]%byte ReadMore 2; mkRead [x03; x04]%byte ReadEOF 2] /\
  env_now e2 <= env_now e + LRU.ttl (fileCache (cache example_proxy)) /\
  rw_body second.1.2 = [x01; x02; x03; x04]%byte /\
  rw_header second.1.2 !! "X-Cache" = Some "HIT" /\
  issued second.1.1 = ["/k"].
Proof.
  intros r e e2 first second.
  set (body := [mkRead [x01; x02]%byte ReadMore 2; mkRead [x03; x04]%byte ReadEOF 2]).
  assert (H1 : completed_ok (cache example_proxy)).
  { split; [reflexivity|]. split; [reflexivity|]. split; [constructor|].
    vm_compute. discriminate. }
  assert (H2 : writes_accepted body) by (repeat constructor).
  assert (H3 : env_now e2 <= env_now e + LRU.ttl (fileCache (cache example_proxy)))
    by (vm_compute; discriminate).
  assert (H4 : totalSize (cache example_proxy) + Z.of_nat (length (body_bytes body))
               <= Int64.max_int) by (vm_compute; discriminate).
  destruct (download_then_hit hex_name example_proxy (newResponseWriter None)
              (newResponseWriter None) r r "/k" 0%nat e e2 4 "text/plain" body
              eq_refl eq_refl eq_refl eq_refl H1 ltac:(constructor) H2 eq_refl
              (or_intror eq_refl) H4 eq_refl eq_refl eq_refl eq_refl eq_refl H3)
    as (_ & _ & _ & _ & _ & _ & _ & R8 & R9 & _ & _ & R12).
  split; [exact H1|]. split; [exact H2|]. split; [exact H3|].
  split; [exact R8|]. split; [exact R9|exact R12].
Defined.

(** ** Saving the index *)

Lemma length_append_str (a b : string) :
  String.length (a +:+ b) = (String.length a + String.length b)%nat.
Proof.
  induction a as [|x a IH]; [reflexivity|].
  rewrite append_cons_l. cbn [String.length]. rewrite IH. reflexivity.
Qed.

Lemma tmpIndexPath_ne (c : Cache) : tmpIndexPath c <> indexPath c.
Proof.
  unfold tmpIndexPath. intros H. apply (f_equal String.length) in H.
  rewrite length_append_str in H. simpl in H. lia.
Qed.

(** X11. [saveIndex] succeeds exactly when both the write of the
    temporary file and the rename succeed; then the index file holds the
    encoding of the entries visible at that moment (oldest first) and the
    temporary file is gone.  When it fails, the index file is what it was
    before.  In every case no other file is touched, and the completed
    store (entries, order, deadlines), the negative cache, [totalSize] and
    the pending map are unchanged: saving reads with [Peek] and refreshes
    nothing. *)
Theorem saveIndex_is_atomic (marshal : cacheIndex -> list byte) (c : Cache) (now : Z)
    (io : io_outcome) :
  let res := saveIndex marshal c now io in
  let entries := omap (fun key => LRU.Peek (fileCache c) key now)
                      (LRU.Keys (fileCache c) now) in
  (res.2 = true <-> io = IoOk) /\
  (res.2 = true ->
     disk res.1 !! indexPath c = Some (marshal (mkCacheIndex (map Some entries))) /\
     disk res.1 !! tmpIndexPath c = None) /\
  (res.2 = false -> disk res.1 !! indexPath c = disk c !! indexPath c) /\
  (forall path, path <> indexPath c -> path <> tmpIndexPath c ->
     disk res.1 !! path = disk c !! path) /\
  fileCache res.1 = fileCache c /\ notFoundCache res.1 = notFoundCache c /\
  totalSize res.1 = totalSize c /\ pending res.1 = pending c.
Proof.
  intros res entries. subst res. pose proof (tmpIndexPath_ne c) as Hne.
  unfold saveIndex. destruct io; cbn [fst snd with_disk disk fileCache notFoundCache
                                         totalSize pending].
  - split; [tauto|]. split.
    + intros _. split; [apply lookup_insert_eq|].
      rewrite lookup_insert_ne by congruence. apply lookup_delete_eq.
    + split; [discriminate|]. split; [|auto].
      intros path H1 H2. rewrite lookup_insert_ne by congruence.
      rewrite lookup_delete_ne by congruence. apply lookup_insert_ne. congruence.
  - split; [split; discriminate|]. split; [discriminate|]. split; [reflexivity|]. auto.
  - split; [split; discriminate|]. split; [discriminate|].
    split; [intros _; apply lookup_delete_ne; exact Hne|]. split; [|auto].
    intros path H1 H2. apply lookup_delete_ne. congruence.
Qed.

(** ** Cleaning the cache directory at start-up *)

Lemma loadEntries_spec (now : Z) (entries : list (option CacheEntry)) :
  forall (c : Cache) (vf : gset string),
  LRU.capacity (fileCache c) = 0%nat ->
  match loadEntries now entries (c, vf) with
  | Started (c', vf') =>
      ~ In None entries /\
      config c' = config c /\
      (forall p v, disk c' !! p = Some v -> disk c !! p = Some v) /\
      (forall p, p ∈ vf' ->
         p ∈ vf \/ exists e, In (Some e) entries /\ FilePath e = p /\
                             forall v, disk c' !! p = Some v -> Size e = Z.of_nat (length v))
  | Crashed d' =>
      In None entries /\
      forall p, d' !! p = disk c !! p \/
                (d' !! p = None /\
                 exists e, In (Some e) entries /\ FilePath e = p /\ intact (disk c) e = false)
  end.
Proof.
  induction entries as [|[e|] rest IH]; intros c vf Hcap.
  - cbn. split; [tauto|]. auto.
  - cbn [loadEntries].
    destruct (loadEntry_shrinks now c vf e Hcap) as (Hcap1 & Hcf1 & Hd1 & Hv1).
    destruct (loadEntry_disk now c vf e Hcap) as [Hdisk1 _].
    destruct (loadEntry now (c, vf) e) as [c1 vf1]. cbn [fst snd] in *.
    specialize (IH c1 vf1 Hcap1).
    destruct (loadEntries now rest (c1, vf1)) as [[c' vf']|d'].
    + destruct IH as (Hnone & Hcf & Hd & Hv).
      split; [intros [H|H]; [discriminate|tauto]|].
      split; [congruence|]. split; [auto|].
      intros p Hp. destruct (Hv p Hp) as [Hp1|(e' & Hin & Hpath & Hsz)].
      * destruct (Hv1 p Hp1) as [Hp0|[Hpath Hsz]]; [auto|].
        right. exists e. split; [left; reflexivity|]. split; [exact Hpath|].
        intros v Hv'. apply Hsz. apply Hd, Hv'.
      * right. exists e'. split; [right; exact Hin|]. auto.
    + destruct IH as [Hnone Hfiles]. split; [right; exact Hnone|].
      intros p. destruct (intact (disk c) e) eqn:Ei.
      * rewrite Hdisk1 in Hfiles.
        destruct (Hfiles p) as [H|(H & e' & Hin & Hp & Hi)]; [auto|].
        right. split; [exact H|]. exists e'. split; [right; exact Hin|]. auto.
      * rewrite Hdisk1 in Hfiles.
        destruct (decide (FilePath e = p)) as [Heq|Hne].
        -- right. subst p. split.
           ++ destruct (Hfiles (FilePath e)) as [H|[H _]]; [|exact H].
              rewrite H. apply lookup_delete_eq.
           ++ exists e. split; [left; reflexivity|]. auto.
        -- destruct (Hfiles p) as [H|(H & e' & Hin & Hp & Hi)].
           ++ left. rewrite H. apply lookup_delete_ne, Hne.
           ++ right. split; [exact H|]. exists e'. split; [right; exact Hin|].
              split; [exact Hp|]. rewrite intact_delete in Hi by congruence. exact Hi.
  - cbn. split; [left; reflexivity|]. auto.
Qed.

Section Startup.

Variable unmarshal : list byte -> option cacheIndex.

(** X12. Whatever the disk and the index file hold when [NewCache] runs.
    When [NewCache] returns, the decoded index had no nil entry, and a file
    that is still there has the content it had; if it lies under the cache
    directory it is the index file, the temporary index file, or the file
    named by an entry of the decoded index whose recorded size is the size
    of the file.  So every other file under the cache directory is deleted;
    all of them when the index is missing or does not decode.  When the
    decoded index holds a nil entry (a [null] element of the JSON array)
    [NewCache] does not return: [entry.FilePath] panics in the loading
    loop, before the clean-up, and the only files gone by then are files
    named by an index entry and found missing or of another size. *)
Theorem startup_keeps_only_indexed_files (cfg : Config) (d : Disk) (now : Z) :
  match NewCache unmarshal cfg d now with
  | Started c =>
      (forall data idx,
          d !! join (CacheDir cfg) indexFileName = Some data ->
          unmarshal data = Some idx -> ~ In None (Entries idx)) /\
      (forall path content,
          disk c !! path = Some content ->
          d !! path = Some content /\
          (HasPrefix path (CacheDir cfg +:+ "/") = true ->
           path = join (CacheDir cfg) indexFileName \/
           path = join (CacheDir cfg) indexFileName +:+ ".tmp" \/
           exists data idx entry,
             d !! join (CacheDir cfg) indexFileName = Some data /\
             unmarshal data = Some idx /\
             In (Some entry) (Entries idx) /\ FilePath entry = path /\
             Size entry = Z.of_nat (length content)))
  | Crashed d' =>
      exists data idx,
        d !! join (CacheDir cfg) indexFileName = Some data /\
        unmarshal data = Some idx /\
        In None (Entries idx) /\
        forall path,
          d' !! path = d !! path \/
          (d' !! path = None /\
           exists entry, In (Some entry) (Entries idx) /\ FilePath entry = path /\
                         intact d entry = false)
  end.
Proof.
  unfold NewCache, loadAndCleanup.
  set (c0 := emptyCache cfg d).
  assert (Hclean : forall (entries : list (option CacheEntry)) c1 vf1,
            config c1 = config c0 ->
            (forall p v, disk c1 !! p = Some v -> d !! p = Some v) ->
            (forall p, p ∈ vf1 ->
               exists e, In (Some e) entries /\ FilePath e = p /\
                         forall v, disk c1 !! p = Some v -> Size e = Z.of_nat (length v)) ->
            forall path content,
            disk (cleanupOrphanFiles c1 vf1) !! path = Some content ->
            d !! path = Some content /\
            (HasPrefix path (CacheDir cfg +:+ "/") = true ->
             path = join (CacheDir cfg) indexFileName \/
             path = join (CacheDir cfg) indexFileName +:+ ".tmp" \/
             exists entry, In (Some entry) entries /\ FilePath entry = path /\
                           Size entry = Z.of_nat (length content))).
  { intros entries c1 vf1 Hcf Hd Hv path content. unfold cleanupOrphanFiles.
    cbn [with_disk disk]. intros Hk.
    apply map_lookup_filter_Some in Hk as [Hk Hkeep]. cbn [fst] in Hkeep.
    split; [apply (Hd _ _ Hk)|]. intros Hpre.
    unfold keepFile, tmpIndexPath, indexPath in Hkeep. rewrite Hcf in Hkeep.
    cbn [c0 emptyCache config] in Hkeep. rewrite Hpre in Hkeep. cbn [negb orb] in Hkeep.
    destruct (String.eqb_spec path (join (CacheDir cfg) indexFileName)) as [->|_]; [auto|].
    destruct (String.eqb_spec path (join (CacheDir cfg) indexFileName +:+ ".tmp"))
      as [->|_]; [auto|].
    cbn [orb] in Hkeep. apply bool_decide_eq_true in Hkeep.
    destruct (Hv path Hkeep) as (e & Hin & Hp & Hsz).
    right. right. exists e. split; [exact Hin|]. split; [exact Hp|]. apply Hsz, Hk. }
  assert (Hempty : forall path content,
            disk (cleanupOrphanFiles c0 ∅) !! path = Some content ->
            d !! path = Some content /\
            (HasPrefix path (CacheDir cfg +:+ "/") = true ->
             path = join (CacheDir cfg) indexFileName \/
             path = join (CacheDir cfg) indexFileName +:+ ".tmp" \/
             exists data idx entry,
               d !! join (CacheDir cfg) indexFileName = Some data /\
               unmarshal data = Some idx /\
               In (Some entry) (Entries idx) /\ FilePath entry = path /\
               Size entry = Z.of_nat (length content))).
  { intros path content Hk.
    destruct (Hclean [] c0 ∅ eq_refl (fun p v H => H) ltac:(set_solver) path content Hk)
      as [H1 H2].
    split; [exact H1|]. intros Hpre. destruct (H2 Hpre) as [H|[H|(e & [] & _)]]; auto. }
  change (disk c0 !! indexPath c0) with (d !! join (CacheDir cfg) indexFileName).
  destruct (d !! join (CacheDir cfg) indexFileName) as [data|] eqn:Ed;
    [|split; [discriminate|exact Hempty]].
  destruct (unmarshal data) as [idx|] eqn:Eu;
    [|split; [intros data' idx' [= <-]; congruence|exact Hempty]].
  pose proof (loadEntries_spec now (Entries idx) c0 ∅ eq_refl) as HL.
  destruct (loadEntries now (Entries idx) (c0, ∅)) as [[c1 vf1]|d'].
  - destruct HL as (Hnone & Hcf & Hd & Hv). split.
    + intros data' idx' [= <-] Hu. rewrite Eu in Hu. injection Hu as <-. exact Hnone.
    + intros path content Hk.
      assert (Hv' : forall p, p ∈ vf1 ->
                exists e, In (Some e) (Entries idx) /\ FilePath e = p /\
                          forall v, disk c1 !! p = Some v -> Size e = Z.of_nat (length v)).
      { intros p Hp. destruct (Hv p Hp) as [H|H]; [set_solver|exact H]. }
      destruct (Hclean (Entries idx) c1 vf1 Hcf Hd Hv' path content Hk) as [H1 H2].
      split; [exact H1|]. intros Hpre.
      destruct (H2 Hpre) as [H|[H|(e & Hin & Hp & Hsz)]]; [auto..|].
      right. right. exists data, idx, e. auto.
  - destruct HL as [Hnone Hfiles]. exists data, idx. auto.
Qed.

End Startup.

Lemma startup_keeps_only_indexed_files_witness :
  let text := Json.marshal (mkCacheIndex [Some entry_a; Some entry_b]) in
  let d := example_restart_disk text in
  exists c,
  NewCache Json.unmarshal example_config d 20 = Started c /\
  disk c !! "/cache/index.json" = Some text /\
  disk c !! "/cache/aa/a" = Some [x01; x02]%byte /\
  disk c !! "/cache/bb/b" = None /\
  disk c !! "/cache/zz/stray" = None /\
  exists data idx entry,
    d !! "/cache/index.json" = Some data /\
    Json.unmarshal data = Some idx /\
    In (Some entry) (Entries idx) /\ FilePath entry = "/cache/aa/a" /\ Size entry = 2.
Proof.
  intros text d.
  pose proof (startup_keeps_only_indexed_files Json.unmarshal example_config d 20) as H.
  destruct (NewCache Json.unmarshal example_config d 20) as [c|d0] eqn:Hs;
    [|vm_compute in Hs; discriminate Hs].
  exists c. split; [reflexivity|].
  assert (Ha : disk c !! "/cache/aa/a" = Some [x01; x02]%byte).
  { vm_compute in Hs. injection Hs as <-. vm_compute. reflexivity. }
  destruct H as [_ H]. destruct (H "/cache/aa/a" [x01; x02]%byte Ha) as [_ Hin].
  split; [vm_compute in Hs; injection Hs as <-; vm_compute; reflexivity|].
  split; [exact Ha|].
  split; [vm_compute in Hs; injection Hs as <-; vm_compute; reflexivity|].
  split; [vm_compute in Hs; injection Hs as <-; vm_compute; reflexivity|].
  destruct (Hin eq_refl) as [Hx|[Hx|Hx]]; [discriminate Hx|discriminate Hx|].
  exact Hx.
Defined.

(** A [null] element in the index: [NewCache] has dealt with the entry
    before it (the file of [/b], cut short, is unlinked) when it panics;
    the stray file and every other file are still there. *)
Example startup_crashes_on_null_entry :
  let text := Json.marshal (mkCacheIndex [Some entry_b; None; Some entry_a]) in
  exists d',
  NewCache Json.unmarshal example_config (example_restart_disk text) 20 = Crashed d' /\
  d' !! "/cache/bb/b" = None /\
  d' !! "/cache/aa/a" = Some [x01; x02]%byte /\
  d' !! "/cache/zz/stray" = Some [x00]%byte /\
  d' !! "/cache/index.json" = Some text.
Proof. eexists. split; [vm_compute; reflexivity|]. vm_compute. repeat split; reflexivity. Qed.


(** ** Entries that are not served *)

Lemma lookup_others_none {V : Type} (l : LRU.t V) (key : string) (its : list (LRU.entry V)) :
  its = LRU.others l key -> LRU.lookup (LRU.with_items l its) key = None.
Proof.
  intros ->. apply lookup_not_in. unfold keys_of. cbn [LRU.items LRU.with_items].
  rewrite keys_others. tauto.
Qed.

Lemma Remove_forgets_key_core (c : Cache) (key : string) :
  let c' := Remove c key in
  LRU.lookup (fileCache c') key = None /\
  LRU.lookup (notFoundCache c') key = None /\
  pending c' = pending c /\
  (forall x, LRU.lookup (fileCache c) key = Some x ->
     totalSize c' = Int64.add (totalSize c) (Int64.wrap64 (- Size (LRU.e_value x))) /\
     (FilePath (LRU.e_value x) <> "" -> disk c' !! FilePath (LRU.e_value x) = None)) /\
  (LRU.lookup (fileCache c) key = None -> totalSize c' = totalSize c /\ disk c' = disk c).
Proof.
  cbv zeta. unfold Remove.
  set (c1 := match LRU.Remove (fileCache c) key with
             | (fc, Some e) => onEvict (with_fileCache c fc) e
             | (fc, None) => with_fileCache c fc
             end).
  assert (Hn1 : notFoundCache c1 = notFoundCache c).
  { subst c1. destruct (LRU.Remove (fileCache c) key) as [fc [x|]]; [|reflexivity].
    unfold onEvict. destruct (negb _); reflexivity. }
  cbn [with_notFoundCache notFoundCache fileCache pending totalSize disk].
  assert (Hnf : LRU.lookup (LRU.Remove (notFoundCache c1) key).1 key = None).
  { rewrite Hn1. unfold LRU.Remove.
    destruct (LRU.lookup (notFoundCache c) key) eqn:E; cbn [fst]; [|exact E].
    apply lookup_others_none. reflexivity. }
  split; [|split; [exact Hnf|]]; subst c1; unfold LRU.Remove;
    destruct (LRU.lookup (fileCache c) key) as [x|] eqn:E.
  - rewrite (proj1 (onEvict_same _ x)). apply lookup_others_none. reflexivity.
  - exact E.
  - rewrite (proj2 (onEvict_same _ x)). split; [reflexivity|]. split; [|discriminate].
    intros x' [= <-]. unfold onEvict.
    destruct (String.eqb (FilePath (LRU.e_value x)) "") eqn:Ep; cbn [negb].
    + split; [reflexivity|]. intros Hne. apply String.eqb_eq in Ep. contradiction.
    + split; [reflexivity|]. intros _.
      cbn [with_totalSize with_disk with_fileCache disk]. apply lookup_delete_eq.
  - split; [reflexivity|]. split; [discriminate|]. auto.
Qed.

(** X13. After [Remove(key)] the key is in neither cache: [Get] misses and
    [IsNotFound] answers false, at any time, and the pending map is
    untouched.  If the completed store held an entry for the key, its size
    is taken off [totalSize] and its file is unlinked; otherwise
    [totalSize] and the disk are unchanged. *)
Theorem Remove_forgets_key (c : Cache) (key : string) (now : Z) :
  let c' := Remove c key in
  (Get c' key now).2 = None /\
  (IsNotFound c' key now).2 = false /\
  LRU.lookup (fileCache c') key = None /\
  LRU.lookup (notFoundCache c') key = None /\
  pending c' = pending c /\
  (forall x, LRU.lookup (fileCache c) key = Some x ->
     totalSize c' = Int64.add (totalSize c) (Int64.wrap64 (- Size (LRU.e_value x))) /\
     (FilePath (LRU.e_value x) <> "" -> disk c' !! FilePath (LRU.e_value x) = None)) /\
  (LRU.lookup (fileCache c) key = None -> totalSize c' = totalSize c /\ disk c' = disk c).
Proof.
  intros c'. destruct (Remove_forgets_key_core c key) as (Hl & Hnf & Hp & Hx & Hn).
  fold c' in Hl, Hnf, Hp, Hx, Hn.
  split.
  { unfold Get, LRU.Get. rewrite Hnf. cbn [with_notFoundCache fileCache]. rewrite Hl.
    reflexivity. }
  split; [unfold IsNotFound, LRU.Get; rewrite Hnf; reflexivity|]. auto.
Qed.

Section NotServed.

Variable sha256_hex : string -> string.

(** X14. A request finds in the completed store an entry that has not
    expired but whose file is missing or has another size than recorded.
    Then [handleRequest] does not serve it: it removes the entry (the key
    leaves the completed store, the recorded size leaves [totalSize], what
    is left of the file is unlinked) and goes on to [fetchAndServe] as for
    a miss, without having contacted the origin so far. *)
Theorem invalid_cache_file_is_dropped (p : Proxy) (w : ResponseWriter) (r : Request)
    (key : string) (e : env) (x : LRU.entry CacheEntry)
    (Hneg : LRU.lookup (notFoundCache (cache p)) key = None)
    (Hcap : LRU.capacity (fileCache (cache p)) = 0%nat)
    (Hentry : LRU.lookup (fileCache (cache p)) key = Some x)
    (Hlive : env_now e <= LRU.e_expires x)
    (Hbad : disk_stat (disk (cache p)) (FilePath (LRU.e_value x)) <> Some (Size (LRU.e_value x))) :
  let p' := (lookupCaches p w r key e).1 in
  (lookupCaches p w r key e).2 = None /\
  handleRequest sha256_hex p w r key e = fetchAndServe sha256_hex p' w r key e /\
  LRU.lookup (fileCache (cache p')) key = None /\
  LRU.lookup (notFoundCache (cache p')) key = None /\
  totalSize (cache p')
    = Int64.add (totalSize (cache p)) (Int64.wrap64 (- Size (LRU.e_value x))) /\
  (FilePath (LRU.e_value x) <> "" -> disk (cache p') !! FilePath (LRU.e_value x) = None) /\
  pending (cache p') = pending (cache p) /\
  issued p' = issued p.
Proof.
  intros p'.
  assert (Hexp : LRU.expired (env_now e) x = false).
  { unfold LRU.expired. destruct (env_now e >? LRU.e_expires x) eqn:E; [lia|reflexivity]. }
  assert (Hlc : exists c1,
            lookupCaches p w r key e = (with_cache (with_cache p c1) (Remove c1 key), None) /\
            LRU.lookup (fileCache c1) key
              = Some (LRU.mkEntry key (LRU.e_value x)
                        (env_now e + LRU.ttl (fileCache (cache p)))) /\
            disk c1 = disk (cache p) /\ pending c1 = pending (cache p) /\
            totalSize c1 = totalSize (cache p) /\
            notFoundCache c1 = notFoundCache (cache p)).
  { unfold lookupCaches. rewrite (IsNotFound_absent _ _ _ Hneg).
    set (c0 := with_notFoundCache (cache p) (notFoundCache (cache p))).
    destruct (Get_hit c0 key (env_now e) x Hneg Hcap Hentry Hexp)
      as (G1 & G2 & G3 & G4 & G5 & G6 & G7).
    destruct (Get c0 key (env_now e)) as [c1 hit].
    cbn [fst snd] in G1, G2, G3, G4, G5, G6, G7. subst hit.
    assert (Hval : validateCacheFile c1 (LRU.e_value x) = false).
    { unfold validateCacheFile. rewrite G2. cbn [c0 with_notFoundCache disk].
      destruct (disk_stat (disk (cache p)) (FilePath (LRU.e_value x))) as [sz|]; [|reflexivity].
      apply Z.eqb_neq. intros ->. apply Hbad. reflexivity. }
    rewrite Hval. exists c1. split; [reflexivity|].
    split.
    { unfold LRU.lookup. rewrite G7. cbn [List.find]. unfold LRU.has_key at 1.
      cbn [LRU.e_key]. rewrite String.eqb_refl. reflexivity. }
    auto. }
  destruct Hlc as (c1 & Hlc & Hl1 & Hd1 & Hp1 & Ht1 & Hn1).
  assert (Hp' : cache p' = Remove c1 key) by (subst p'; rewrite Hlc; reflexivity).
  destruct (Remove_forgets_key_core c1 key) as (R3 & R4 & R5 & R6 & _).
  destruct (R6 _ Hl1) as [R7 R8]. cbn [LRU.e_value] in R7, R8.
  split; [rewrite Hlc; reflexivity|].
  split; [unfold handleRequest; subst p'; rewrite Hlc; reflexivity|].
  rewrite Hp'. rewrite R7, R5, Ht1, Hp1.
  repeat split; try assumption; try reflexivity.
  subst p'. rewrite Hlc. reflexivity.
Qed.


End NotServed.

Lemma invalid_cache_file_is_dropped_witness :
  let p := mkProxy (with_disk example_store (example_restart_disk [])) ∅ [] [] [] in
  let r := mkRequest "GET" "/b" "" in
  let e := mkEnv 500 UpTransportError IoOk [] in
  let p' := (lookupCaches p (newResponseWriter None) r "/b" e).1 in
  LRU.lookup (fileCache (cache p)) "/b" = Some (LRU.mkEntry "/b" entry_b 1002) /\
  disk_stat (disk (cache p)) "/cache/bb/b" = Some 1 /\
  (lookupCaches p (newResponseWriter None) r "/b" e).2 = None /\
  LRU.lookup (fileCache (cache p')) "/b" = None /\
  disk (cache p') !! "/cache/bb/b" = None.
Proof.
  intros p r e p'.
  assert (H1 : LRU.lookup (fileCache (cache p)) "/b" = Some (LRU.mkEntry "/b" entry_b 1002))
    by reflexivity.
  assert (H2 : env_now e <= LRU.e_expires (LRU.mkEntry "/b" entry_b 1002))
    by (vm_compute; discriminate).
  assert (H3 : disk_stat (disk (cache p)) (FilePath (LRU.e_value (LRU.mkEntry "/b" entry_b 1002)))
               <> Some (Size (LRU.e_value (LRU.mkEntry "/b" entry_b 1002))))
    by (vm_compute; discriminate).
  destruct (invalid_cache_file_is_dropped hex_name p (newResponseWriter None) r "/b" e
              (LRU.mkEntry "/b" entry_b 1002) eq_refl eq_refl H1 H2 H3)
    as (R1 & _ & R3 & _ & _ & R6 & _).
  split; [exact H1|]. split; [vm_compute; reflexivity|]. split; [exact R1|].
  split; [exact R3|]. apply R6. discriminate.
Defined.


(** ** The request to the origin *)





Example upstreamURL_examples :
  upstreamURL (mkConfig "http://origin/files/" "/cache" 100 1000 50) "/a/b.bin"
    = "http://origin/files/a/b.bin" /\
  upstreamURL (mkConfig "http://origin/files" "/cache" 100 1000 50) "/a/b.bin"
    = "http://origin/files/a/b.bin" /\
  upstreamURL (mkConfig "http://origin//" "/cache" 100 1000 50) "/a"
    = "http://origin//a" /\
  upstreamURL (mkConfig "" "/cache" 100 1000 50) "/a" = "/a".
Proof. repeat split; reflexivity. Qed.

(** ** What [doFetchAndServe] always gives back *)

Section Bookkeeping.

Variable sha256_hex : string -> string.

(** The fields of the proxy other than the cache, after a lock has been
    finished. *)
Lemma receiveUpstream_books (p : Proxy) (w : ResponseWriter) (r : Request) (key : string)
    (lock : nat) (e : env) :
  let p' := (receiveUpstream sha256_hex p w r key lock e).1.1 in
  fetchLocks p' = fetchLocks p /\ inflight p' = inflight p /\ issued p' = issued p /\
  exists err, locks p' = <[lock := mkFetchLock true err]> (locks p).
Proof.
  cbv zeta. unfold receiveUpstream, beginDownload.
  destruct (env_upstream e) as [| |status cl ct body];
    try (cbn; repeat split; eauto; fail).
  destruct (status =? StatusNotFound); [cbn; repeat split; eauto|].
  destruct (negb (status =? StatusOK)); [cbn; repeat split; eauto|].
  destruct (GetOrCreatePending sha256_hex (cache p) key (env_io e)) as [c [[sf isNew]|]];
    [|cbn; repeat split; eauto].
  destruct (String.eqb (Method r) MethodHead).
  { destruct isNew; cbn; repeat split; eauto. }
  unfold finishDownload. cbn [dl_sf dl_body dl_isNew dl_expectedSize dl_contentType].
  destruct (streamBody _ _ _ _ _ _ _) as [[[[c2 w'] isNew'] tw'] [err|]].
  - destruct isNew'; cbn; repeat split; eauto.
  - destruct ((cl >=? 0) && negb (tw' =? cl)); destruct isNew'; cbn; repeat split; eauto.
Qed.

(** X17. Whatever the origin does (the request cannot be built, the
    transport fails, any status, any body) and whatever happens to the
    download, when [doFetchAndServe] returns it has marked its lock done,
    removed the key from [fetchLocks], closed the response body it opened
    (the upstream requests in flight are those there were before) and sent
    the origin exactly one GET, or none when the request could not be
    built; the other locks are untouched. *)
Theorem doFetchAndServe_releases (p : Proxy) (w : ResponseWriter) (r : Request)
    (key : string) (lock : nat) (e : env)
    (Hlock : (lock < length (locks p))%nat) :
  let p' := (doFetchAndServe sha256_hex p w r key lock e).1.1 in
  fetchLocks p' = delete key (fetchLocks p) /\
  inflight p' = inflight p /\
  issued p' = issued p ++ (if sends (env_upstream e) then [key] else []) /\
  (exists err, locks p' !! lock = Some (mkFetchLock true err)) /\
  (forall l, l <> lock -> locks p' !! l = locks p !! l).
Proof.
  cbv zeta. unfold doFetchAndServe.
  set (p0 := if sends (env_upstream e) then sendUpstream p key else p).
  destruct (receiveUpstream_books p0 w r key lock e) as (B1 & B2 & B3 & err & B4).
  destruct (receiveUpstream sha256_hex p0 w r key lock e) as [[p1 w1] err1].
  cbn [fst snd leaveFetch fetchLocks inflight issued locks] in *.
  rewrite B1, B2, B3, B4. subst p0.
  destruct (sends (env_upstream e)); cbn [sendUpstream fetchLocks inflight issued locks remove_one].
  - rewrite String.eqb_refl. split; [reflexivity|]. split; [reflexivity|].
    split; [reflexivity|]. split.
    + exists err. apply list_lookup_insert_eq, Hlock.
    + intros l Hl. apply list_lookup_insert_ne. congruence.
  - rewrite app_nil_r. split; [reflexivity|]. split; [reflexivity|].
    split; [reflexivity|]. split.
    + exists err. apply list_lookup_insert_eq, Hlock.
    + intros l Hl. apply list_lookup_insert_ne. congruence.
Qed.

End Bookkeeping.

Lemma doFetchAndServe_releases_witness :
  let p := (enterFetch example_proxy "/k").1 in
  let r := mkRequest "GET" "/k" "" in
  let e := mkEnv 1 (UpResponse 503 0 "" []) IoOk [] in
  let p' := (doFetchAndServe hex_name p (newResponseWriter None) r "/k" 0 e).1.1 in
  (0 < length (locks p))%nat /\
  fetchLocks p !! "/k" = Some 0%nat /\
  fetchLocks p' !! "/k" = None /\
  inflight p' = [] /\ issued p' = ["/k"].
Proof.
  intros p r e p'.
  assert (H : (0 < length (locks p))%nat) by (vm_compute; lia).
  destruct (doFetchAndServe_releases hex_name p (newResponseWriter None) r "/k" 0%nat e H)
    as (R1 & R2 & R3 & _).
  split; [exact H|]. split; [reflexivity|].
  fold p' in R1, R2, R3. rewrite R1, R2, R3.
  split; [apply lookup_delete_eq|]. split; reflexivity.
Defined.

(** ** Range headers outside a cache hit *)

Lemma WriteHeader_status (w : ResponseWriter) (code : Z) :
  rw_status (WriteHeader w code)
    = match rw_status w with Some st => Some st | None => Some code end.
Proof. unfold WriteHeader. destruct (rw_status w) eqn:E; [exact E|reflexivity]. Qed.

Lemma Write_status (w : ResponseWriter) (data : list byte) :
  rw_status (Write w data).1.1 = rw_status (WriteHeader w StatusOK).
Proof.
  unfold Write. destruct (rw_conn (WriteHeader w StatusOK)) as [m|]; [|reflexivity].
  destruct (length data <=? m)%nat; reflexivity.
Qed.

Lemma Write_not_partial (w : ResponseWriter) (data : list byte) :
  not_partial w -> not_partial (Write w data).1.1.
Proof.
  unfold not_partial. rewrite Write_status, WriteHeader_status.
  destruct (rw_status w); [auto|discriminate].
Qed.

Lemma Error_not_partial (w : ResponseWriter) (msg : string) (code : Z) :
  code <> StatusPartialContent -> not_partial w -> not_partial (Error w msg code).
Proof.
  intros Hc H. unfold Error. apply Write_not_partial.
  unfold not_partial in *. rewrite WriteHeader_status.
  unfold SetHeader, DelHeader. cbn [rw_status].
  destruct (rw_status w); [exact H|congruence].
Qed.

Lemma Error_header_other (w : ResponseWriter) (msg : string) (code : Z) (k : string) :
  k <> "Content-Length" -> k <> "Content-Type" -> k <> "X-Content-Type-Options" ->
  rw_header (Error w msg code) !! k = rw_header w !! k.
Proof.
  intros H1 H2 H3. unfold Error. rewrite Write_header.
  unfold WriteHeader, SetHeader, DelHeader. cbn [rw_status rw_header rw_body rw_conn].
  destruct (rw_status w); cbn [rw_header];
    rewrite !lookup_insert_ne by congruence; apply lookup_delete_ne; congruence.
Qed.

Lemma streamReads_not_partial (reads : list read) (w : ResponseWriter) :
  not_partial w -> not_partial (streamReads w reads).1.
Proof.
  revert w. induction reads as [|rd rest IH]; intros w H; [exact H|].
  cbn [streamReads]. destruct (0 <? length (rd_data rd))%nat.
  - pose proof (Write_not_partial w (rd_data rd) H) as Hw.
    destruct (Write w (rd_data rd)) as [[w' n] failed]. cbn [fst] in Hw.
    destruct failed; [exact Hw|]. destruct (rd_end rd); [apply IH| |]; exact Hw.
  - destruct (rd_end rd); [apply IH| |]; exact H.
Qed.

Lemma streamBody_writer (key : string) (sf : nat) (body : list read) :
  forall (c : Cache) (w : ResponseWriter) (isNew : bool) (tw : Z),
  rw_header (streamBody key sf body c w isNew tw).1.1.1.2 = rw_header w /\
  (not_partial w -> not_partial (streamBody key sf body c w isNew tw).1.1.1.2).
Proof.
  induction body as [|rd rest IH]; intros c w isNew tw; [cbn; auto|].
  cbn [streamBody]. destruct (0 <? length (rd_data rd))%nat.
  - set (ci := if isNew then _ else _). destruct ci as [c1 isNew1].
    pose proof (Write_header w (rd_data rd)) as Hh.
    pose proof (Write_not_partial w (rd_data rd)) as Hp.
    destruct (Write w (rd_data rd)) as [[w' n] failed]. cbn [fst] in Hh, Hp.
    destruct failed; [cbn [fst snd]; auto|].
    destruct (rd_end rd); cbn [fst snd]; auto.
    destruct (IH c1 w' isNew1 (Int64.add tw n)) as [I1 I2].
    split; [congruence|auto].
  - destruct (rd_end rd); cbn [fst snd]; auto.
Qed.

Section RangeOnMiss.

Variable sha256_hex : string -> string.

Lemma doFetchAndServe_writer (p : Proxy) (w : ResponseWriter) (r : Request) (key : string)
    (lock : nat) (e : env) (k : string) :
  k <> "Content-Length" -> k <> "Content-Type" -> k <> "X-Content-Type-Options" ->
  k <> "Accept-Ranges" -> k <> "X-Cache" ->
  let w' := (doFetchAndServe sha256_hex p w r key lock e).1.2 in
  rw_header w' !! k = rw_header w !! k /\ (not_partial w -> not_partial w').
Proof.
  intros K1 K2 K3 K4 K5. cbv zeta.
  assert (HE : forall msg code, code <> StatusPartialContent ->
            rw_header (Error w msg code) !! k = rw_header w !! k /\
            (not_partial w -> not_partial (Error w msg code))).
  { intros msg code Hc. split; [apply Error_header_other; assumption|].
    apply Error_not_partial, Hc. }
  unfold doFetchAndServe, receiveUpstream, beginDownload.
  set (p0 := if sends (env_upstream e) then sendUpstream p key else p). clearbody p0.
  destruct (env_upstream e) as [| |status cl ct body];
    try (cbn [fst snd]; apply HE; discriminate).
  destruct (status =? StatusNotFound); [cbn [fst snd]; apply HE; discriminate|].
  destruct (negb (status =? StatusOK)); [cbn [fst snd]; apply HE; discriminate|].
  destruct (GetOrCreatePending sha256_hex (cache p0) key (env_io e)) as [c [[sf isNew]|]];
    [|cbn [fst snd]; apply HE; discriminate].
  set (ctype := if String.eqb ct "" then "application/octet-stream" else ct).
  fold (missHeaders w ctype cl).
  assert (HM : rw_header (missHeaders w ctype cl) !! k = rw_header w !! k /\
               (not_partial w -> not_partial (missHeaders w ctype cl))).
  { unfold missHeaders, SetHeader, not_partial.
    destruct (cl >=? 0); cbn [rw_header rw_status];
      rewrite !lookup_insert_ne by congruence; auto. }
  destruct (String.eqb (Method r) MethodHead); [cbn [fst snd]; exact HM|].
  unfold finishDownload. cbn [dl_sf dl_body dl_isNew dl_expectedSize dl_contentType].
  destruct (streamBody_writer key sf body (cache (with_cache p0 c)) (missHeaders w ctype cl)
              isNew 0) as [B1 B2].
  destruct (streamBody _ _ _ _ _ _ _) as [[[[c2 w'] isNew'] tw'] err].
  cbn [fst snd] in B1, B2. destruct HM as [M1 M2].
  assert (Hgoal : rw_header w' !! k = rw_header w !! k /\ (not_partial w -> not_partial w')).
  { split; [congruence|auto]. }
  destruct err as [err|]; [exact Hgoal|].
  destruct ((cl >=? 0) && negb (tw' =? cl)); exact Hgoal.
Qed.

(** X18. Outside a cache hit the Range header of a request plays no
    part.  [doFetchAndServe] (the key is fetched from the origin) and
    [serveFromStreaming] (the key is being downloaded) do exactly what they
    do for the same request with any other Range header, or none; they set
    no [Content-Range] header and never answer 206: a request with a Range
    header that misses gets the whole body. *)
Theorem range_is_ignored_off_the_cache (p : Proxy) (w : ResponseWriter) (r : Request)
    (key : string) (lock sf : nat) (e : env) (reads : list read) (range : string)
    (Hstatus : rw_status w <> Some StatusPartialContent) :
  let r' := mkRequest (Method r) (Path r) range in
  let fetched := doFetchAndServe sha256_hex p w r key lock e in
  let streamed := serveFromStreaming w r sf reads in
  doFetchAndServe sha256_hex p w r' key lock e = fetched /\
  serveFromStreaming w r' sf reads = streamed /\
  rw_header fetched.1.2 !! "Content-Range" = rw_header w !! "Content-Range" /\
  rw_header streamed.1 !! "Content-Range" = rw_header w !! "Content-Range" /\
  rw_status fetched.1.2 <> Some StatusPartialContent /\
  rw_status streamed.1 <> Some StatusPartialContent.
Proof.
  intros r' fetched streamed.
  destruct (doFetchAndServe_writer p w r key lock e "Content-Range") as [F1 F2];
    try discriminate.
  split; [reflexivity|]. split; [reflexivity|]. split; [exact F1|].
  split.
  - subst streamed. rewrite serveFromStreaming_header. apply lookup_insert_ne. discriminate.
  - split; [exact (F2 Hstatus)|].
    subst streamed. unfold serveFromStreaming.
    destruct (String.eqb (Method r) MethodHead); [exact Hstatus|].
    apply streamReads_not_partial. exact Hstatus.
Qed.

End RangeOnMiss.

Lemma range_is_ignored_off_the_cache_witness :
  let r := mkRequest "GET" "/k" "bytes=1-2" in
  let e := mkEnv 1 (example_origin 2 2) IoOk [] in
  let fetched := doFetchAndServe hex_name example_proxy (newResponseWriter None) r "/k" 0 e in
  rw_status (newResponseWriter None) <> Some StatusPartialContent /\
  rw_status fetched.1.2 = Some 200 /\
  rw_body fetched.1.2 = [x01; x02; x03; x04]%byte /\
  rw_header fetched.1.2 !! "Content-Range" = None.
Proof.
  intros r e fetched.
  assert (H : rw_status (newResponseWriter None) <> Some StatusPartialContent) by discriminate.
  destruct (range_is_ignored_off_the_cache hex_name example_proxy (newResponseWriter None) r
              "/k" 0%nat 0%nat e [] "" H) as (_ & _ & R3 & _).
  split; [exact H|]. split; [reflexivity|]. split; [reflexivity|]. exact R3.
Defined.

(** ** What the completed store leaves alone *)

Lemma same_rest_refl (c : Cache) : same_rest c c.
Proof. unfold same_rest. auto. Qed.

Lemma same_rest_trans (c1 c2 c3 : Cache) :
  same_rest c1 c2 -> same_rest c2 c3 -> same_rest c1 c3.
Proof. unfold same_rest. intuition congruence. Qed.

Lemma with_fileCache_rest (c : Cache) (fc : LRU.t CacheEntry) :
  same_rest (with_fileCache c fc) c.
Proof. unfold same_rest. auto. Qed.

Lemma onEvict_rest (c : Cache) (e : LRU.entry CacheEntry) : same_rest (onEvict c e) c.
Proof. unfold onEvict, same_rest. destruct (negb _); cbn; auto. Qed.

Lemma run_evictions_rest (evicted : list (LRU.entry CacheEntry)) (c : Cache) :
  same_rest (run_evictions c evicted) c.
Proof.
  revert c. induction evicted as [|e ev IH]; intros c; [apply same_rest_refl|].
  unfold run_evictions in *. cbn [fold_left].
  exact (same_rest_trans _ _ _ (IH _) (onEvict_rest c e)).
Qed.

Lemma fileCache_Add_rest (c : Cache) (key : string) (entry : CacheEntry) (now : Z) :
  same_rest (fileCache_Add c key entry now) c.
Proof.
  unfold fileCache_Add. destruct (LRU.Add (fileCache c) key entry now) as [fc ev].
  apply (same_rest_trans _ (with_fileCache c fc)); [apply run_evictions_rest|].
  apply with_fileCache_rest.
Qed.

Lemma evictIfNeeded_loop_rest (fuel : nat) (c : Cache) (incoming : Z) :
  same_rest (evictIfNeeded_loop fuel c incoming) c.
Proof.
  revert c. induction fuel as [|f IH]; intros c; [apply same_rest_refl|].
  cbn [evictIfNeeded_loop].
  destruct (Int64.add (totalSize c) incoming >? MaxCacheSize (config c));
    [|apply same_rest_refl].
  destruct (LRU.RemoveOldest (fileCache c)) as [fc [e|]]; [|apply same_rest_refl].
  apply (same_rest_trans _ _ _ (IH _)).
  apply (same_rest_trans _ _ _ (onEvict_rest (with_fileCache c fc) e)).
  apply with_fileCache_rest.
Qed.

Lemma Expire_rest (c : Cache) (key : string) (now : Z) : same_rest (Expire c key now) c.
Proof.
  unfold Expire. destruct (LRU.deleteExpired (fileCache c) key now) as [fc [e|]];
    [|apply with_fileCache_rest].
  apply (same_rest_trans _ _ _ (onEvict_rest (with_fileCache c fc) e)).
  apply with_fileCache_rest.
Qed.

(** The pending map and the streaming files after each operation that does
    not act on them. *)
Lemma Get_pending_store (c : Cache) (key : string) (now : Z) :
  pending (Get c key now).1 = pending c /\ store (Get c key now).1 = store c.
Proof.
  unfold Get. destruct (LRU.Get (notFoundCache c) key now) as [nf [u|]]; [cbn; auto|].
  destruct (LRU.Get (fileCache (with_notFoundCache c nf)) key now) as [fc [entry|]];
    [|cbn; auto].
  destruct (fileCache_Add_rest (with_fileCache (with_notFoundCache c nf) fc) key entry now)
    as (_ & H2 & H3 & _). cbn [fst]. rewrite H2, H3. auto.
Qed.

Lemma Remove_pending_store (c : Cache) (key : string) :
  pending (Remove c key) = pending c /\ store (Remove c key) = store c.
Proof.
  unfold Remove. destruct (LRU.Remove (fileCache c) key) as [fc [e|]]; [|cbn; auto].
  destruct (onEvict_rest (with_fileCache c fc) e) as (_ & H2 & H3 & _).
  cbn [with_notFoundCache pending store]. rewrite H2, H3. auto.
Qed.

(** ** Pending downloads are open *)

Lemma pending_live_frame (c c' : Cache) :
  pending c' = pending c -> store c' = store c -> pending_live c -> pending_live c'.
Proof. unfold pending_live. intros -> ->. tauto. Qed.

Lemma pending_live_finish (c : Cache) (key : string) (l : nat) (f : StreamingFile -> StreamingFile) :
  pending_live c -> pending c !! key = Some l ->
  pending_live (with_store (with_pending c (delete key (pending c))) (alter f l (store c))).
Proof.
  intros [Hlive Hinj] Hk. split; cbn [with_store with_pending pending store].
  - intros k l' Hl'. destruct (decide (k = key)) as [->|Hne].
    { rewrite lookup_delete_eq in Hl'. discriminate. }
    rewrite lookup_delete_ne in Hl' by congruence.
    assert (l <> l') by (intros ->; apply Hne; eapply Hinj; eauto).
    rewrite list_lookup_alter_ne by assumption. eauto.
  - intros k1 k2 l' H1 H2.
    destruct (decide (k1 = key)) as [->|N1]; [rewrite lookup_delete_eq in H1; discriminate|].
    destruct (decide (k2 = key)) as [->|N2]; [rewrite lookup_delete_eq in H2; discriminate|].
    rewrite lookup_delete_ne in H1, H2 by congruence. eauto.
Qed.

Section PendingLive.

Variable sha256_hex : string -> string.

Lemma pending_live_step (c : Cache) (o : cache_op) :
  pending_live c -> pending_live (cache_step sha256_hex c o).
Proof.
  intros Hpl.
  destruct o as [key now|key now|key io|key size ct now|key|key now|key|key now];
    cbn [cache_step].
  - destruct (Get_pending_store c key now) as [H1 H2]. apply (pending_live_frame c); assumption.
  - apply (pending_live_frame c); [| |exact Hpl]; unfold IsNotFound;
      destruct (LRU.Get (notFoundCache c) key now) as [nf [u|]]; reflexivity.
  - unfold GetOrCreatePending. destruct (pending c !! key) as [sf|] eqn:Ep; [exact Hpl|].
    destruct io; try exact Hpl. unfold SF.New, pending_live.
    cbn [fst with_pending with_store with_disk pending store].
    destruct Hpl as [Hlive Hinj]. split.
    + intros k l Hl. destruct (decide (k = key)) as [->|Hne].
      * rewrite lookup_insert_eq in Hl. injection Hl as <-.
        rewrite list_lookup_middle by reflexivity. eauto.
      * rewrite lookup_insert_ne in Hl by congruence.
        destruct (Hlive _ _ Hl) as (o & Ho & Hd & He).
        rewrite lookup_app_l by (apply lookup_lt_is_Some; eauto). eauto.
    + intros k1 k2 l H1 H2.
      assert (Hold : forall k, pending c !! k = Some (length (store c)) -> False).
      { intros k Hk. destruct (Hlive _ _ Hk) as (o & Ho & _).
        apply lookup_lt_Some in Ho. lia. }
      destruct (decide (k1 = key)) as [->|N1]; destruct (decide (k2 = key)) as [->|N2];
        try reflexivity.
      * rewrite lookup_insert_eq in H1. rewrite lookup_insert_ne in H2 by congruence.
        injection H1 as <-. exfalso. eauto.
      * rewrite lookup_insert_eq in H2. rewrite lookup_insert_ne in H1 by congruence.
        injection H2 as <-. exfalso. eauto.
      * rewrite lookup_insert_ne in H1, H2 by congruence. eauto.
  - unfold CompletePending. destruct (pending c !! key) as [sf|] eqn:Ep; [|exact Hpl].
    set (c1 := store_Complete (with_pending c (delete key (pending c))) sf).
    assert (H1 : pending_live c1) by exact (pending_live_finish c key sf SF.Complete Hpl Ep).
    destruct (evictIfNeeded_loop_rest (S (LRU.Len (fileCache c1))) c1 size) as (_ & E2 & E3 & _).
    fold (evictIfNeeded c1 size) in E2, E3.
    destruct (fileCache_Add_rest (evictIfNeeded c1 size) key
                (mkCacheEntry key (filePath sha256_hex (evictIfNeeded c1 size) key) size ct now)
                now) as (_ & A2 & A3 & _).
    apply (pending_live_frame c1); [| |exact H1]; cbn [with_totalSize pending store]; congruence.
  - unfold FailPending. destruct (pending c !! key) as [sf|] eqn:Ep; [|exact Hpl].
    pose proof (pending_live_finish c key sf (fun o => (SF.Abort o (disk c)).1) Hpl Ep) as H1.
    unfold store_Abort. cbn [with_pending store disk].
    destruct (store c !! sf) as [o|] eqn:Es.
    + unfold SF.Abort.
      apply (pending_live_frame
               (with_store (with_pending c (delete key (pending c)))
                  (alter (fun o => (SF.Abort o (disk c)).1) sf (store c))));
        [reflexivity| |exact H1].
      cbn [with_disk with_store with_pending store]. unfold SF.Abort. cbn [fst].
      apply list_eq. intros i. destruct (decide (sf = i)) as [->|Hne].
      * rewrite list_lookup_alter_eq, Es.
        rewrite list_lookup_insert_eq by (apply lookup_lt_is_Some; eauto). reflexivity.
      * rewrite list_lookup_alter_ne, list_lookup_insert_ne by assumption. reflexivity.
    + destruct Hpl as [Hlive _]. destruct (Hlive _ _ Ep) as (o & Ho & _). congruence.
  - exact Hpl.
  - destruct (Remove_pending_store c key) as [H1 H2].
    apply (pending_live_frame c); assumption.
  - destruct (Expire_rest c key now) as (_ & H2 & H3 & _).
    apply (pending_live_frame c); assumption.
Qed.

Lemma pending_live_write (c : Cache) (sf : nat) (data : list byte) (accepted : nat) :
  pending_live c -> pending_live (store_Write c sf data accepted).1.
Proof.
  intros [Hlive Hinj]. unfold store_Write.
  destruct (store c !! sf) as [o|] eqn:Es; [|split; assumption].
  unfold SF.Write. destruct (sf_done o) eqn:Ed; cbn [fst];
    (split; cbn [with_disk with_store pending store]; [|exact Hinj]);
    intros k l Hl; destruct (Hlive _ _ Hl) as (o' & Ho' & Hd' & He');
    (destruct (decide (sf = l)) as [->|Hne];
     [rewrite list_lookup_insert_eq by (apply lookup_lt_is_Some; eauto)
     |rewrite list_lookup_insert_ne by assumption; eauto]).
  - exists o. split; [reflexivity|]. split; congruence.
  - eexists. split; [reflexivity|]. cbn [sf_done sf_err]. split; congruence.
Qed.

(** X19. Through any sequence of cache operations and of writes to
    streaming files, from a state where it is so (the state [NewCache]
    returns is one), whatever [GetPending] returns for a key is a streaming
    file that exists, is not done and carries no error, and that no other
    key shares: [CompletePending] and [FailPending] take the key out of the
    pending map before they close the file, so a file that is completed or
    aborted can no longer be found there. *)
Theorem pending_downloads_are_open (c : Cache) (evs : list cache_event) (key : string)
    (sf : nat)
    (Hinit : pending_live c)
    (Hpending : GetPending (fold_left (event_step sha256_hex) evs c) key = Some sf) :
  exists o, store (fold_left (event_step sha256_hex) evs c) !! sf = Some o /\
            sf_done o = false /\ sf_err o = None /\
            forall key', GetPending (fold_left (event_step sha256_hex) evs c) key' = Some sf -> key' = key.
Proof.
  assert (H : pending_live (fold_left (event_step sha256_hex) evs c)).
  { clear Hpending. revert c Hinit.
    induction evs as [|ev evs IH]; intros c Hinit; [exact Hinit|].
    cbn [fold_left]. apply IH. destruct ev as [o|l data accepted]; cbn [event_step].
    - apply pending_live_step, Hinit.
    - apply pending_live_write, Hinit. }
  destruct H as [Hlive Hinj]. unfold GetPending in *.
  destruct (Hlive _ _ Hpending) as (o & Ho & Hd & He).
  exists o. repeat split; try assumption. intros key' Hk. eapply Hinj; eauto.
Qed.

End PendingLive.

Lemma pending_downloads_are_open_witness :
  exists c0,
  NewCache (fun _ => None) example_config ∅ 0 = Started c0 /\
  let evs := [CacheOp (CGetOrCreatePending "/a" IoOk);
              CacheOp (CGetOrCreatePending "/b" IoOk);
              FileWrite 0 [x01; x02]%byte 2;
              CacheOp (CCompletePending "/a" 2 "text/plain" 1);
              FileWrite 1 [x03]%byte 0;
              CacheOp (CGet "/a" 2)] in
  let c := fold_left (event_step hex_name) evs c0 in
  pending_live c0 /\
  GetPending c "/b" = Some 1%nat /\
  GetPending c "/a" = None /\
  exists o, store c !! 1%nat = Some o /\ sf_done o = false.
Proof.
  exists (emptyCache example_config ∅). split; [vm_compute; reflexivity|].
  set (c0 := emptyCache _ _). intros evs c.
  assert (H0 : pending_live c0).
  { split; intros k; intros; exfalso;
      match goal with H : pending c0 !! _ = Some _ |- _ =>
        change (pending c0) with (∅ : gmap string nat) in H; rewrite lookup_empty in H;
        discriminate H end. }
  assert (H1 : GetPending c "/b" = Some 1%nat) by (vm_compute; reflexivity).
  destruct (pending_downloads_are_open hex_name c0 evs "/b" 1%nat H0 H1) as (o & Ho & Hd & _).
  split; [exact H0|]. split; [exact H1|]. split; [vm_compute; reflexivity|].
  exists o. split; [exact Ho|exact Hd].
Defined.

(** ** The size of the negative cache *)

Lemma others_length {V : Type} (l : LRU.t V) (key : string) (e : LRU.entry V) :
  LRU.lookup l key = Some e -> (S (length (LRU.others l key)) <= length (LRU.items l))%nat.
Proof.
  unfold LRU.lookup, LRU.others. induction (LRU.items l) as [|x its IH]; [discriminate|].
  cbn [List.find List.filter length]. destruct (LRU.has_key key x); cbn [negb length].
  - intros _. pose proof (List.filter_length_le (fun e0 => negb (LRU.has_key key e0)) its). lia.
  - intros H. specialize (IH H). lia.
Qed.

Lemma others_length_le {V : Type} (l : LRU.t V) (key : string) :
  (length (LRU.others l key) <= length (LRU.items l))%nat.
Proof. apply List.filter_length_le. Qed.

Lemma LRU_Get_len {V : Type} (l : LRU.t V) (key : string) (now : Z) :
  LRU.capacity (LRU.Get l key now).1 = LRU.capacity l /\
  (LRU.Len (LRU.Get l key now).1 <= LRU.Len l)%nat.
Proof.
  unfold LRU.Get, LRU.Len. destruct (LRU.lookup l key) as [e|] eqn:E; [|auto].
  destruct (LRU.expired now e); [auto|]. cbn [fst LRU.with_items LRU.capacity LRU.items length].
  split; [reflexivity|]. apply (others_length l key e E).
Qed.

Lemma LRU_Add_len {V : Type} (l : LRU.t V) (key : string) (v : V) (now : Z) :
  (0 < LRU.capacity l)%nat -> (LRU.Len l <= LRU.capacity l)%nat ->
  LRU.capacity (LRU.Add l key v now).1 = LRU.capacity l /\
  (LRU.Len (LRU.Add l key v now).1 <= LRU.capacity l)%nat.
Proof.
  unfold LRU.Add, LRU.Len. intros Hcap Hlen.
  destruct (LRU.lookup l key) as [e|] eqn:E.
  - cbn [fst LRU.with_items LRU.capacity LRU.items length]. split; [reflexivity|].
    pose proof (others_length l key e E). lia.
  - destruct ((0 <? LRU.capacity l)%nat
              && (LRU.capacity l <? length (LRU.mkEntry key v (now + LRU.ttl l) :: LRU.items l))%nat)
      eqn:Ec.
    + destruct (last (LRU.mkEntry key v (now + LRU.ttl l) :: LRU.items l)) as [old|] eqn:El.
      * cbn [fst LRU.with_items LRU.capacity LRU.items]. split; [reflexivity|].
        apply last_Some in El as [its Hits]. rewrite Hits, removelast_last.
        apply (f_equal length) in Hits. rewrite length_app in Hits. simpl in Hits. lia.
      * apply last_None in El. discriminate.
    + cbn [fst LRU.with_items LRU.capacity LRU.items length]. split; [reflexivity|].
      apply andb_false_iff in Ec as [Ec|Ec].
      * apply Nat.ltb_ge in Ec. lia.
      * apply Nat.ltb_ge in Ec. simpl in Ec. lia.
Qed.

Lemma LRU_Remove_len {V : Type} (l : LRU.t V) (key : string) :
  LRU.capacity (LRU.Remove l key).1 = LRU.capacity l /\
  (LRU.Len (LRU.Remove l key).1 <= LRU.Len l)%nat.
Proof.
  unfold LRU.Remove, LRU.Len. destruct (LRU.lookup l key) as [e|]; [|auto].
  cbn [fst LRU.with_items LRU.capacity LRU.items]. split; [reflexivity|].
  apply others_length_le.
Qed.

Lemma negative_bounded_rest (n : nat) (c c' : Cache) :
  notFoundCache c' = notFoundCache c -> negative_bounded n c -> negative_bounded n c'.
Proof. unfold negative_bounded. intros ->. tauto. Qed.

Lemma negative_bounded_Add (n : nat) (c : Cache) (key : string) (now : Z) :
  negative_bounded n c -> negative_bounded n (notFoundCache_Add c key now).
Proof.
  intros (H0 & H1 & H2). unfold negative_bounded, notFoundCache_Add.
  cbn [with_notFoundCache notFoundCache]. subst n.
  destruct (LRU_Add_len (notFoundCache c) key tt now H1 H2) as [A1 A2].
  rewrite A1. auto.
Qed.

Lemma negative_bounded_Get (n : nat) (c : Cache) (key : string) (now : Z) :
  negative_bounded n c ->
  negative_bounded n (with_notFoundCache c (LRU.Get (notFoundCache c) key now).1).
Proof.
  intros (H0 & H1 & H2). unfold negative_bounded. cbn [with_notFoundCache notFoundCache].
  destruct (LRU_Get_len (notFoundCache c) key now) as [G1 G2]. rewrite G1.
  split; [exact H0|]. split; [exact H1|lia].
Qed.

Lemma keys_others_without {V : Type} (l : LRU.t V) (key : string) :
  map LRU.e_key (LRU.others l key) = without key (keys_of l).
Proof.
  unfold LRU.others, without, keys_of, LRU.has_key.
  induction (LRU.items l) as [|e its IH]; [reflexivity|].
  cbn [List.filter map]. destruct (String.eqb (LRU.e_key e) key); cbn [negb map]; congruence.
Qed.

Lemma without_length (key : string) (keys : list string) :
  In key keys -> (S (length (without key keys)) <= length keys)%nat.
Proof.
  unfold without. induction keys as [|k keys IH]; [intros []|].
  cbn [List.filter length]. destruct (String.eqb_spec k key) as [->|Hne]; cbn [negb length].
  - intros _. pose proof (List.filter_length_le (fun k => negb (String.eqb k key)) keys). lia.
  - intros [H|H]; [congruence|]. specialize (IH H). lia.
Qed.

Lemma map_removelast {A B : Type} (f : A -> B) (l : list A) :
  map f (removelast l) = removelast (map f l).
Proof.
  induction l as [|a l IH]; [reflexivity|].
  destruct l as [|b l]; [reflexivity|]. cbn [removelast map] in *. rewrite IH. reflexivity.
Qed.

Lemma others_others {V : Type} (l : LRU.t V) (key : string) (e : LRU.entry V) :
  LRU.has_key key e = true ->
  LRU.others (LRU.with_items l (e :: LRU.others l key)) key = LRU.others l key.
Proof.
  intros He. unfold LRU.others. cbn [LRU.with_items LRU.items List.filter]. rewrite He.
  cbn [negb]. induction (LRU.items l) as [|x its IH]; [reflexivity|].
  cbn [List.filter]. destruct (negb (LRU.has_key key x)) eqn:Ex; [|exact IH].
  cbn [List.filter]. rewrite Ex, IH. reflexivity.
Qed.

(** [Add] of a key the list holds: the key moves to the front. *)
Lemma keys_Add_present {V : Type} (l : LRU.t V) (key : string) (v : V) (now : Z) :
  In key (keys_of l) ->
  keys_of (LRU.Add l key v now).1 = key :: without key (keys_of l).
Proof.
  intros Hin. apply Contains_keys in Hin. unfold LRU.Contains in Hin. unfold LRU.Add.
  destruct (LRU.lookup l key) as [e|]; [|discriminate].
  unfold keys_of at 1. cbn [fst LRU.with_items LRU.items map LRU.e_key].
  rewrite keys_others_without. reflexivity.
Qed.

(** [Add] of a new key to a bounded list: the key goes to the front, and
    the entry at the back is dropped when the list was full. *)
Lemma keys_Add_new {V : Type} (l : LRU.t V) (key : string) (v : V) (now : Z) :
  (0 < LRU.capacity l)%nat -> (LRU.Len l <= LRU.capacity l)%nat ->
  ~ In key (keys_of l) ->
  keys_of (LRU.Add l key v now).1 =
    key :: (if (LRU.Len l <? LRU.capacity l)%nat then keys_of l else removelast (keys_of l)).
Proof.
  intros Hcap Hlen Hnew. unfold LRU.Add, LRU.Len in *.
  rewrite (lookup_not_in l key Hnew). cbn [length].
  destruct (Nat.ltb_spec 0 (LRU.capacity l)) as [_|?]; [|lia]. cbn [andb].
  destruct (Nat.ltb_spec (length (LRU.items l)) (LRU.capacity l)) as [Hlt|Hge].
  - destruct (Nat.ltb_spec (LRU.capacity l) (S (length (LRU.items l)))) as [?|_]; [lia|].
    reflexivity.
  - destruct (Nat.ltb_spec (LRU.capacity l) (S (length (LRU.items l)))) as [_|?]; [|lia].
    destruct (LRU.items l) as [|x xs] eqn:Eits; [simpl in Hge; lia|].
    destruct (last (LRU.mkEntry key v (now + LRU.ttl l) :: x :: xs)) as [old|] eqn:El.
    + unfold keys_of. cbn [fst LRU.with_items LRU.items].
      change (removelast (LRU.mkEntry key v (now + LRU.ttl l) :: x :: xs))
        with (LRU.mkEntry key v (now + LRU.ttl l) :: removelast (x :: xs)).
      cbn [map LRU.e_key]. rewrite map_removelast, Eits. reflexivity.
    + apply last_None in El. discriminate.
Qed.

(** A hit of [Get] followed by [Add] of the same key, as [IsNotFound] and
    [Get] do on the negative cache: the key moves to the front. *)
Lemma keys_refresh {V : Type} (l l' : LRU.t V) (key : string) (v v' : V) (now : Z) :
  LRU.Get l key now = (l', Some v) ->
  In key (keys_of l) /\
  keys_of (LRU.Add l' key v' now).1 = key :: without key (keys_of l).
Proof.
  unfold LRU.Get. destruct (LRU.lookup l key) as [e|] eqn:El; [|discriminate].
  destruct (LRU.expired now e); [discriminate|]. intros [= <- _].
  destruct (LRU_lookup_has_key _ _ _ El) as [Hk _].
  split; [apply (lookup_key _ _ _ El)|].
  unfold LRU.Add. rewrite (LRU_lookup_front _ key e _ Hk).
  unfold keys_of at 1. cbn [fst LRU.with_items LRU.items map LRU.e_key].
  rewrite (others_others l key e Hk), keys_others_without. reflexivity.
Qed.

Lemma Get_miss_same {V : Type} (l : LRU.t V) (key : string) (now : Z) :
  (LRU.Get l key now).2 = None -> (LRU.Get l key now).1 = l.
Proof.
  unfold LRU.Get. destruct (LRU.lookup l key) as [e|]; [|reflexivity].
  destruct (LRU.expired now e); [reflexivity|discriminate].
Qed.

Section NegativeBound.

Variable sha256_hex : string -> string.
Variable unmarshal : list byte -> option cacheIndex.

Lemma negative_bounded_step (n : nat) (c : Cache) (o : cache_op) :
  negative_bounded n c -> negative_bounded n (cache_step sha256_hex c o).
Proof.
  intros Hb.
  destruct o as [key now|key now|key io|key size ct now|key|key now|key|key now];
    cbn [cache_step].
  - unfold Get. pose proof (negative_bounded_Get n c key now Hb) as HG.
    destruct (LRU.Get (notFoundCache c) key now) as [nf [u|]]; cbn [fst] in HG |- *.
    + apply negative_bounded_Add, HG.
    + destruct (LRU.Get (fileCache (with_notFoundCache c nf)) key now) as [fc [entry|]];
        cbn [fst].
      * apply (negative_bounded_rest n (with_notFoundCache c nf)); [|exact HG].
        apply (same_rest_trans _ _ _ (fileCache_Add_rest _ key entry now)
                 (with_fileCache_rest _ fc)).
      * exact HG.
  - unfold IsNotFound. pose proof (negative_bounded_Get n c key now Hb) as HG.
    destruct (LRU.Get (notFoundCache c) key now) as [nf [u|]]; cbn [fst] in HG |- *.
    + apply negative_bounded_Add, HG.
    + exact HG.
  - apply (negative_bounded_rest n c); [|exact Hb]. unfold GetOrCreatePending.
    destruct (pending c !! key); [reflexivity|]. destruct io; reflexivity.
  - apply (negative_bounded_rest n c); [|exact Hb]. unfold CompletePending.
    destruct (pending c !! key) as [sf|]; [|reflexivity].
    set (c1 := store_Complete (with_pending c (delete key (pending c))) sf).
    destruct (evictIfNeeded_loop_rest (S (LRU.Len (fileCache c1))) c1 size) as (E1 & _).
    fold (evictIfNeeded c1 size) in E1.
    destruct (fileCache_Add_rest (evictIfNeeded c1 size) key
                (mkCacheEntry key (filePath sha256_hex (evictIfNeeded c1 size) key) size ct now)
                now) as (A1 & _).
    cbn [with_totalSize notFoundCache]. rewrite A1, E1. reflexivity.
  - apply (negative_bounded_rest n c); [|exact Hb]. unfold FailPending, store_Abort.
    destruct (pending c !! key) as [sf|]; [|reflexivity].
    cbn [with_pending store disk]. destruct (store c !! sf); reflexivity.
  - apply negative_bounded_Add, Hb.
  - unfold Remove.
    set (c1 := match LRU.Remove (fileCache c) key with
               | (fc, Some e) => onEvict (with_fileCache c fc) e
               | (fc, None) => with_fileCache c fc
               end).
    assert (Hn1 : notFoundCache c1 = notFoundCache c).
    { subst c1. destruct (LRU.Remove (fileCache c) key) as [fc [x|]]; [|reflexivity].
      apply (onEvict_rest (with_fileCache c fc) x). }
    destruct Hb as (H0 & H1 & H2). unfold negative_bounded.
    cbn [with_notFoundCache notFoundCache]. rewrite Hn1.
    destruct (LRU_Remove_len (notFoundCache c) key) as [R1 R2]. rewrite R1.
    split; [exact H0|]. split; [exact H1|lia].
  - apply (negative_bounded_rest n c); [|exact Hb]. apply Expire_rest.
Qed.

(** No operation but [PutNotFound] of a new key lengthens the negative
    cache. *)
Lemma negative_step_length (c : Cache) (o : cache_op) :
  (length (keys_of (notFoundCache (cache_step sha256_hex c o)))
   <= length (keys_of (notFoundCache c)))%nat \/
  exists key t, o = CPutNotFound key t /\ ~ In key (keys_of (notFoundCache c)).
Proof.
  assert (Hsame : forall c', notFoundCache c' = notFoundCache c ->
            (length (keys_of (notFoundCache c')) <= length (keys_of (notFoundCache c)))%nat).
  { intros c' ->. lia. }
  assert (Hhit : forall nf (u : unit) key now,
            LRU.Get (notFoundCache c) key now = (nf, Some u) ->
            (length (keys_of (LRU.Add nf key tt now).1)
             <= length (keys_of (notFoundCache c)))%nat).
  { intros nf u key now Hg. destruct (keys_refresh _ _ _ _ tt _ Hg) as [Hin Hk].
    rewrite Hk. cbn [length]. apply without_length, Hin. }
  destruct o as [key now|key now|key io|key size ct now|key|key now|key|key now];
    cbn [cache_step].
  - left. unfold Get. pose proof (Get_miss_same (notFoundCache c) key now) as Hm.
    destruct (LRU.Get (notFoundCache c) key now) as [nf [u|]] eqn:Eg; cbn [fst snd] in *.
    + unfold notFoundCache_Add. cbn [with_notFoundCache notFoundCache].
      apply (Hhit nf u key now Eg).
    + rewrite (Hm eq_refl).
      destruct (LRU.Get (fileCache (with_notFoundCache c (notFoundCache c))) key now)
        as [fc [entry|]]; cbn [fst].
      * apply Hsame.
        exact (proj1 (same_rest_trans _ _ _
                        (fileCache_Add_rest _ key entry now)
                        (with_fileCache_rest (with_notFoundCache c (notFoundCache c)) fc))).
      * apply Hsame. reflexivity.
  - left. unfold IsNotFound. pose proof (Get_miss_same (notFoundCache c) key now) as Hm.
    destruct (LRU.Get (notFoundCache c) key now) as [nf [u|]] eqn:Eg; cbn [fst snd] in *.
    + unfold notFoundCache_Add. cbn [with_notFoundCache notFoundCache].
      apply (Hhit nf u key now Eg).
    + rewrite (Hm eq_refl). apply Hsame. reflexivity.
  - left. apply Hsame. unfold GetOrCreatePending.
    destruct (pending c !! key); [reflexivity|]. destruct io; reflexivity.
  - left. apply Hsame. unfold CompletePending.
    destruct (pending c !! key) as [sf|]; [|reflexivity].
    set (c1 := store_Complete (with_pending c (delete key (pending c))) sf).
    destruct (evictIfNeeded_loop_rest (S (LRU.Len (fileCache c1))) c1 size) as (E1 & _).
    fold (evictIfNeeded c1 size) in E1.
    destruct (fileCache_Add_rest (evictIfNeeded c1 size) key
                (mkCacheEntry key (filePath sha256_hex (evictIfNeeded c1 size) key) size ct now)
                now) as (A1 & _).
    cbn [with_totalSize notFoundCache]. rewrite A1, E1. reflexivity.
  - left. apply Hsame. unfold FailPending, store_Abort.
    destruct (pending c !! key) as [sf|]; [|reflexivity].
    cbn [with_pending store disk]. destruct (store c !! sf); reflexivity.
  - destruct (in_dec string_dec key (keys_of (notFoundCache c))) as [Hin|Hnew].
    + left. unfold PutNotFound, notFoundCache_Add. cbn [with_notFoundCache notFoundCache].
      rewrite (keys_Add_present _ key tt now Hin). cbn [length].
      apply without_length, Hin.
    + right. exists key, now. auto.
  - left. unfold Remove.
    set (c1 := match LRU.Remove (fileCache c) key with
               | (fc, Some e) => onEvict (with_fileCache c fc) e
               | (fc, None) => with_fileCache c fc
               end).
    assert (Hn1 : notFoundCache c1 = notFoundCache c).
    { subst c1. destruct (LRU.Remove (fileCache c) key) as [fc [x|]]; [|reflexivity].
      apply (onEvict_rest (with_fileCache c fc) x). }
    cbn [with_notFoundCache notFoundCache]. rewrite Hn1.
    destruct (LRU_Remove_len (notFoundCache c) key) as [_ R2].
    unfold LRU.Len, keys_of in *. rewrite !length_map. exact R2.
  - left. apply Hsame. apply Expire_rest.
Qed.

Lemma loadEntries_notFound (now : Z) (entries : list (option CacheEntry)) :
  forall (c c' : Cache) (vf vf' : gset string),
  loadEntries now entries (c, vf) = Started (c', vf') ->
  notFoundCache c' = notFoundCache c.
Proof.
  induction entries as [|[e|] rest IH]; intros c c' vf vf' H; cbn [loadEntries] in H.
  - injection H as <- _. reflexivity.
  - pose proof (loadEntry_cache now c vf e) as Hc.
    destruct (loadEntry now (c, vf) e) as [c1 vf1]. cbn [fst] in Hc.
    rewrite (IH _ _ _ _ H). subst c1. destruct (intact (disk c) e); [|reflexivity].
    cbn [with_totalSize notFoundCache]. apply fileCache_Add_rest.
  - discriminate.
Qed.

Lemma NewCache_notFound (cfg : Config) (d : Disk) (now : Z) (c0 : Cache) :
  NewCache unmarshal cfg d now = Started c0 ->
  notFoundCache c0 = LRU.NewLRU notFoundCapacity (NotFoundCacheTTL cfg).
Proof.
  unfold NewCache, loadAndCleanup.
  set (c := emptyCache cfg d).
  assert (Hload : forall loaded : startup (Cache * gset string),
            (forall c1 vf1, loaded = Started (c1, vf1) -> notFoundCache c1 = notFoundCache c) ->
            match loaded with
            | Started (c1, validFiles) => Started (cleanupOrphanFiles c1 validFiles)
            | Crashed d' => Crashed d'
            end = Started c0 ->
            notFoundCache c0 = notFoundCache c).
  { intros [[c1 vf1]|d'] Hl H; [|discriminate]. injection H as <-.
    apply (Hl c1 vf1 eq_refl). }
  apply Hload.
  destruct (disk c !! indexPath c) as [data|]; [|intros c1 vf1 [= <- _]; reflexivity].
  destruct (unmarshal data) as [idx|]; [|intros c1 vf1 [= <- _]; reflexivity].
  intros c1 vf1 H. apply (loadEntries_notFound now _ _ _ _ _ H).
Qed.

(** X20. The negative cache of a cache that [NewCache] has returned,
    after any sequence of cache operations: it holds at most 10000 keys,
    most recently used first.  [PutNotFound] of a key it does not hold
    puts the key in front and, when the cache is full, drops the key at
    the back, the least recently used one, and no other.  [PutNotFound] of
    a key it holds and a hit of [IsNotFound] move the key to the front and
    drop nothing.  No operation but [PutNotFound] of a new key makes it
    longer. *)
Theorem negative_cache_is_bounded (cfg : Config) (d : Disk) (now : Z) (c0 : Cache)
    (ops : list cache_op)
    (Hstart : NewCache unmarshal cfg d now = Started c0) :
  let c := cache_run sha256_hex c0 ops in
  let keys := keys_of (notFoundCache c) in
  (length keys <= Z.to_nat 10000)%nat /\
  (forall key t, ~ In key keys ->
     keys_of (notFoundCache (PutNotFound c key t)) =
       key :: (if (length keys <? Z.to_nat 10000)%nat then keys else removelast keys)) /\
  (forall key t, In key keys ->
     keys_of (notFoundCache (PutNotFound c key t)) = key :: without key keys) /\
  (forall key t, (IsNotFound c key t).2 = true ->
     In key keys /\
     keys_of (notFoundCache (IsNotFound c key t).1) = key :: without key keys) /\
  (forall o,
     (length (keys_of (notFoundCache (cache_step sha256_hex c o))) <= length keys)%nat \/
     exists key t, o = CPutNotFound key t /\ ~ In key keys).
Proof.
  intros c keys.
  assert (H0 : negative_bounded (Z.to_nat 10000) c0).
  { unfold negative_bounded. rewrite (NewCache_notFound cfg d now c0 Hstart).
    cbn [LRU.NewLRU LRU.capacity LRU.Len LRU.items length]. unfold notFoundCapacity. lia. }
  assert (H : negative_bounded (Z.to_nat 10000) c).
  { subst c. clear Hstart keys. revert c0 H0.
    induction ops as [|o ops IH]; intros c0 Hb; [exact Hb|].
    cbn [cache_run fold_left]. apply IH, negative_bounded_step, Hb. }
  destruct H as (Hcap & Hpos & Hlen).
  assert (Hkl : length keys = LRU.Len (notFoundCache c)).
  { unfold keys, keys_of, LRU.Len. apply length_map. }
  split; [lia|]. split; [|split; [|split]].
  - intros key t Hnew. unfold PutNotFound, notFoundCache_Add.
    cbn [with_notFoundCache notFoundCache].
    rewrite (keys_Add_new _ key tt t); [|lia|lia|exact Hnew].
    rewrite Hcap, <- Hkl. reflexivity.
  - intros key t Hin. unfold PutNotFound, notFoundCache_Add.
    cbn [with_notFoundCache notFoundCache]. apply keys_Add_present, Hin.
  - intros key t. unfold IsNotFound.
    destruct (LRU.Get (notFoundCache c) key t) as [nf [u|]] eqn:Eg; [|discriminate].
    intros _. cbn [fst]. unfold notFoundCache_Add. cbn [with_notFoundCache notFoundCache].
    apply (keys_refresh _ _ _ _ tt _ Eg).
  - apply negative_step_length.
Qed.

End NegativeBound.

Lemma negative_cache_is_bounded_witness :
  let ops := [CPutNotFound "/x" 1; CPutNotFound "/y" 2; CIsNotFound "/x" 3] in
  exists c0,
  NewCache (fun _ => None) example_config ∅ 0 = Started c0 /\
  let c := cache_run hex_name c0 ops in
  keys_of (notFoundCache c) = ["/x"; "/y"] /\
  keys_of (notFoundCache (PutNotFound c "/z" 4)) = ["/z"; "/x"; "/y"] /\
  keys_of (notFoundCache (PutNotFound c "/y" 4)) = ["/y"; "/x"] /\
  (length (keys_of (notFoundCache c)) <= Z.to_nat 10000)%nat.
Proof.
  intros ops. exists (emptyCache example_config ∅).
  assert (Hs : NewCache (fun _ => None) example_config ∅ 0
               = Started (emptyCache example_config ∅)) by (vm_compute; reflexivity).
  split; [exact Hs|]. intros c.
  assert (Hk : keys_of (notFoundCache c) = ["/x"; "/y"]) by (vm_compute; reflexivity).
  destruct (negative_cache_is_bounded hex_name (fun _ => None) example_config ∅ 0
              (emptyCache example_config ∅) ops Hs) as (Hb & Hnew & Hold & _).
  fold c in Hb, Hnew, Hold. rewrite Hk in Hnew, Hold.
  split; [exact Hk|]. split; [|split; [|exact Hb]].
  - rewrite (Hnew "/z" 4); [reflexivity|]. cbn. intuition discriminate.
  - rewrite (Hold "/y" 4); [reflexivity|]. cbn. auto.
Defined.
